(** * gsrb: layout matching and script repair

    A shallow embedding of the parts of gsrb that its specification makes
    claims about: attribute and geometry predicates
    ([gsrb/match/predictors.py]), tree preprocessing
    ([gsrb/match/preprocess.py]), the derived layout
    ([gsrb/match/layout.py]), the matching pipeline
    ([gsrb/match/match.py]), locators and criteria
    ([gsrb/common/locator.py], [gsrb/common/criterion.py]), record loading
    ([gsrb/common/step.py]) and the single-step match of the repair driver
    ([gsrb/repair/repair.py]).

    Conventions of the embedding.
    - Python [str] is [string] (a list of 8-bit characters); the text
      operations are modelled on ASCII text.
    - Python [int] is [Z]; a [float] that is the quotient of two integers
      is the rational [Q] it rounds.
    - [xml.etree.ElementTree.Element] is a rose tree [Element]; the identity
      of a node inside one tree is its path from the root.
    - a [dict] is a [gmap] where only lookups matter and an association
      list where the iteration order matters; a [set] that is iterated is
      the list of its elements in iteration order. *)

From Stdlib Require Import ZArith QArith Qminmax Ascii String DecimalString DecimalZ Lia.
From stdpp Require Import gmap strings list fin_maps.

#[local] Open Scope string_scope.
#[local] Open Scope Z_scope.
#[local] Set Warnings "-register-all,-clear-no-such-hyp".

(** ** Text *)

Module PyStr.

(** [str.isspace] on the ASCII range, also the class [\s] of [re]. *)
Definition is_space (c : ascii) : bool :=
  let n := nat_of_ascii c in
  ((9 <=? n)%nat && (n <=? 13)%nat) || ((28 <=? n)%nat && (n <=? 32)%nat).

Definition is_upper (c : ascii) : bool :=
  let n := nat_of_ascii c in (65 <=? n)%nat && (n <=? 90)%nat.

Definition is_alpha (c : ascii) : bool :=
  let n := nat_of_ascii c in
  ((65 <=? n)%nat && (n <=? 90)%nat) || ((97 <=? n)%nat && (n <=? 122)%nat).

Definition is_digit (c : ascii) : bool :=
  let n := nat_of_ascii c in (48 <=? n)%nat && (n <=? 57)%nat.

Definition lower_char (c : ascii) : ascii :=
  if is_upper c then ascii_of_nat (nat_of_ascii c + 32) else c.

(** [s.lower()] *)
Fixpoint lower (s : string) : string :=
  match s with
  | EmptyString => EmptyString
  | String c r => String (lower_char c) (lower r)
  end.

Fixpoint lstrip (s : string) : string :=
  match s with
  | EmptyString => EmptyString
  | String c r => if is_space c then lstrip r else s
  end.

Fixpoint rstrip (s : string) : string :=
  match s with
  | EmptyString => EmptyString
  | String c r =>
      match rstrip r with
      | EmptyString => if is_space c then EmptyString else String c EmptyString
      | r' => String c r'
      end
  end.

(** [s.strip()] *)
Definition strip (s : string) : string := rstrip (lstrip s).

(** [re.sub(r"\s+", " ", s)]: [in_run] tells that the previous character
    was white space and has already been replaced. *)
Fixpoint sub_spaces_from (in_run : bool) (s : string) : string :=
  match s with
  | EmptyString => EmptyString
  | String c r =>
      if is_space c
      then (if in_run then sub_spaces_from true r
            else String " " (sub_spaces_from true r))
      else String c (sub_spaces_from false r)
  end.

Definition sub_spaces (s : string) : string := sub_spaces_from false s.

(** [s.startswith(p)] *)
Fixpoint startswith (p s : string) : bool :=
  match p, s with
  | EmptyString, _ => true
  | String a p', String b s' => if Ascii.eqb a b then startswith p' s' else false
  | String _ _, EmptyString => false
  end.

Definition is_empty (s : string) : bool :=
  match s with EmptyString => true | _ => false end.

(** [str(n)] for an [int]. *)
Definition str (z : Z) : string := NilZero.string_of_int (Z.to_int z).

(** [int(s)] on a signed decimal literal; [None] is [ValueError]. The
    blanks, the [+] sign and the [_] separators that [int] also accepts are
    not modelled. *)
Definition int (s : string) : option Z :=
  option_map Z.of_int (NilZero.int_of_string s).

End PyStr.

(** ** Elements *)

(** An XML element: its tag, its attribute dictionary and its element
    children, in document order. *)
Inductive Element : Type :=
  mkElement { tag : string; attrib : gmap string string; children : list Element }.

(** [node.get(k)]: [None] when the attribute is absent. *)
Definition get (e : Element) (k : string) : option string := attrib e !! k.

(** [node.get(k, d)] *)
Definition get_or (e : Element) (k d : string) : string := default d (get e k).

(** [node.set(k, v)] *)
Definition set_attr (k v : string) (e : Element) : Element :=
  mkElement (tag e) (<[k := v]> (attrib e)) (children e).

(** [Element(tag, attrib)] with no children, from the attribute pairs. *)
Definition leaf (t : string) (kvs : list (string * string)) : Element :=
  mkElement t (list_to_map kvs) [].

Definition node (kvs : list (string * string)) (cs : list Element) : Element :=
  mkElement "node" (list_to_map kvs) cs.

(** ** Coordinates ([gsrb/utils/element.py]) *)

Record Coordinate := mkCoordinate { x0 : Z; y0 : Z; x1 : Z; y1 : Z }.

Module Bounds.

Definition expect (c : ascii) (s : string) : option string :=
  match s with
  | String a r => if Ascii.eqb a c then Some r else None
  | EmptyString => None
  end.

(** The longest prefix of digits and what follows it. *)
Fixpoint digits (s : string) : string * string :=
  match s with
  | EmptyString => (EmptyString, EmptyString)
  | String c r =>
      if PyStr.is_digit c
      then let '(d, rest) := digits r in (String c d, rest)
      else (EmptyString, s)
  end.

Fixpoint value_from (acc : Z) (d : string) : Z :=
  match d with
  | EmptyString => acc
  | String c r => value_from (10 * acc + (Z.of_nat (nat_of_ascii c) - 48)) r
  end.

(** [(?P<n>\d+)] followed by [int(match.group(n))] *)
Definition number (s : string) : option (Z * string) :=
  let '(d, rest) := digits s in
  if PyStr.is_empty d then None else Some (value_from 0 d, rest).

(** [\s*] then the character [c] *)
Definition spaces_then (c : ascii) (s : string) : option string :=
  expect c (PyStr.lstrip s).

(** [re.match(bound_pattern, bounds)] with
    [bound_pattern = ^\s*\[(\d+)\s*,\s*(\d+)]\[(\d+)\s*,\s*(\d+)]\s*$]. Each
    repetition is followed by a character outside its class, so matching
    never backtracks. *)
Definition parse (bounds : string) : option Coordinate :=
  s ← spaces_then "[" bounds;
  '(a, s) ← number s;
  s ← spaces_then "," s;
  '(b, s) ← number (PyStr.lstrip s);
  s ← expect "]" s;
  s ← expect "[" s;
  '(c, s) ← number s;
  s ← spaces_then "," s;
  '(d, s) ← number (PyStr.lstrip s);
  s ← expect "]" s;
  if PyStr.is_empty (PyStr.lstrip s) then Some (mkCoordinate a b c d) else None.

End Bounds.

(** [coordinates(node)]: the zero rectangle when [bounds] does not parse. *)
Definition coordinates_str (bounds : string) : Coordinate :=
  default (mkCoordinate 0 0 0 0) (Bounds.parse bounds).

Definition coordinates (e : Element) : Coordinate :=
  coordinates_str (get_or e "bounds" "[0,0][0,0]").

(** ** Geometry predicates ([gsrb/match/predictors.py]) *)

(** [is_cover(a, b)]: the centre of [b], a float, lies in [a]. *)
Definition is_cover (a b : Element) : bool :=
  let ca := coordinates a in
  let cb := coordinates b in
  let center_x := (inject_Z (x0 cb + x1 cb) / 2)%Q in
  let center_y := (inject_Z (y0 cb + y1 cb) / 2)%Q in
  let h_cover := Qle_bool (inject_Z (x0 ca)) center_x && Qle_bool center_x (inject_Z (x1 ca)) in
  let v_cover := Qle_bool (inject_Z (y0 ca)) center_y && Qle_bool center_y (inject_Z (y1 ca)) in
  h_cover && v_cover.

(** [is_overlap(a, b)]; the source computes [xmin] as [min(ax1, ax1)]. *)
Definition is_overlap (a b : Element) : bool :=
  let ca := coordinates a in
  let cb := coordinates b in
  let xmin := Z.min (x1 ca) (x1 ca) in
  let xmax := Z.max (x0 ca) (x0 cb) in
  let h_overlap := xmax <? xmin in
  let ymin := Z.min (y1 ca) (y1 cb) in
  let ymax := Z.max (y0 ca) (y0 cb) in
  let v_overlap := ymax <? ymin in
  h_overlap && v_overlap.

(** The rectangles intersect on both axes, as the specification words it. *)
Definition rectangles_intersect (a b : Element) : Prop :=
  let ca := coordinates a in
  let cb := coordinates b in
  Z.min (x1 ca) (x1 cb) > Z.max (x0 ca) (x0 cb)
  /\ Z.min (y1 ca) (y1 cb) > Z.max (y0 ca) (y0 cb).

(** ** Traversal *)

(** A loop over a list that threads a state and rebuilds each item. *)
Definition map_accum {S A B : Type} (f : S -> A -> S * B) : S -> list A -> S * list B :=
  fix go (s : S) (l : list A) : S * list B :=
    match l with
    | [] => (s, [])
    | x :: r =>
        let '(s1, y) := f s x in
        let '(s2, ys) := go s1 r in
        (s2, y :: ys)
    end.

(** [node.iter("node")]: the element itself when its tag is [node], then
    the elements of its subtrees, in document order. *)
Fixpoint iter_node (e : Element) : list Element :=
  (if bool_decide (tag e = "node") then [e] else [])
  ++ flat_map iter_node (children e).

(** ** Preprocessing ([gsrb/match/preprocess.py]) *)

(** [remove_node(node, predictor)] *)
Definition remove_node (predictor : Element -> bool) (e : Element) : Element :=
  if bool_decide (tag e = "hierarchy")
  then mkElement (tag e) (attrib e) (filter (fun c => negb (predictor c)) (children e))
  else e.

(** The counters of [denote_index], in the order of the dictionary. *)
Definition counters0 : list (string * gmap string nat) :=
  [("class", ∅); ("resource-id", ∅); ("content-desc", ∅); ("text", ∅)].

(** One round of [for k, c in counters.items()]; reading [c[v]] of a
    [defaultdict(int)] gives 0 for a value not seen yet. *)
Definition index_step (kc : string * gmap string nat) (child : Element)
  : (string * gmap string nat) * Element :=
  let '(k, c) := kc in
  let v := get_or child k "" in
  if PyStr.is_empty v
  then (kc, set_attr (k ++ "-index") (PyStr.str (-1)) child)
  else
    let n := default 0%nat (c !! v) in
    ((k, <[v := Datatypes.S n]> c), set_attr (k ++ "-index") (PyStr.str (Z.of_nat n)) child).

Definition index_child (cs : list (string * gmap string nat)) (child : Element)
  : list (string * gmap string nat) * Element :=
  if PyStr.startswith "com.google.android" (get_or child "resource-id" "")
  then (cs, child)
  else
    (fix go (cs : list (string * gmap string nat)) (child : Element) :=
       match cs with
       | [] => ([], child)
       | kc :: r =>
           let '(kc', child1) := index_step kc child in
           let '(r', child2) := go r child1 in
           (kc' :: r', child2)
       end) cs child.

(** The loop of [denote_index] from the counters [cs], over the subtree
    [e]. *)
Fixpoint denote_index_from (cs : list (string * gmap string nat)) (e : Element)
  : list (string * gmap string nat) * Element :=
  let '(cs1, e1) :=
    if bool_decide (tag e = "node") then index_child cs e else (cs, e) in
  let '(cs2, ch) := map_accum denote_index_from cs1 (children e) in
  (cs2, mkElement (tag e1) (attrib e1) ch).

Definition denote_index (root : Element) : Element :=
  (denote_index_from counters0 root).2.

(** The body of the loop of [denote_bounds]. *)
Definition bounds_update (child : Element) : Element :=
  let c := coordinates child in
  mkElement (tag child)
    (<["h" := PyStr.str (y1 c - y0 c)]>
       (<["w" := PyStr.str (x1 c - x0 c)]>
          (<["y" := PyStr.str (y0 c)]>
             (<["x" := PyStr.str (x0 c)]> (attrib child)))))
    (children child).

Fixpoint denote_bounds (e : Element) : Element :=
  let e1 := if bool_decide (tag e = "node") then bounds_update e else e in
  mkElement (tag e1) (attrib e1) (map denote_bounds (children e)).

Definition is_systemui (n : Element) : bool :=
  bool_decide (get n "package" = Some "com.android.systemui").

Definition preprocess (root : Element) : Element :=
  denote_bounds (denote_index (remove_node is_systemui root)).


(** ** What preprocessing is said to establish *)

Definition index_attrs : list string := ["class"; "resource-id"; "content-desc"; "text"].

(** [int(node.get(k))] *)
Definition int_attr (e : Element) (k : string) : option Z := get e k ≫= PyStr.int.

(** The node carries [x], [y], [w], [h] with [w, h >= 0] and
    [x + w, y + h >= 0]. *)
Definition size_nonneg (e : Element) : Prop :=
  ∃ x y w h,
    int_attr e "x" = Some x ∧ int_attr e "y" = Some y
    ∧ int_attr e "w" = Some w ∧ int_attr e "h" = Some h
    ∧ 0 ≤ w ∧ 0 ≤ h ∧ 0 ≤ x + w ∧ 0 ≤ y + h.

(** The node carries [<k>-index] with a value [>= 0]. *)
Definition index_nonneg (e : Element) (k : string) : Prop :=
  ∃ z, int_attr e (k ++ "-index") = Some z ∧ 0 ≤ z.

(** Every non-empty attribute among the four has its index. *)
Definition indexed (e : Element) : Prop :=
  ∀ k, k ∈ index_attrs → get_or e k "" ≠ "" → index_nonneg e k.

(** A node that [denote_index] passes over. *)
Definition index_skipped (e : Element) : bool :=
  PyStr.startswith "com.google.android" (get_or e "resource-id" "").

(** What [denote_bounds] writes on a node, in terms of its [bounds]. *)
Definition size_denoted (e : Element) : Prop :=
  let c := coordinates e in
  int_attr e "x" = Some (x0 c) ∧ int_attr e "y" = Some (y0 c)
  ∧ int_attr e "w" = Some (x1 c - x0 c) ∧ int_attr e "h" = Some (y1 c - y0 c)
  ∧ 0 ≤ x0 c ∧ 0 ≤ y0 c
  ∧ 0 ≤ x0 c + (x1 c - x0 c) ∧ 0 ≤ y0 c + (y1 c - y0 c)
  ∧ (x0 c ≤ x1 c → 0 ≤ x1 c - x0 c) ∧ (y0 c ≤ y1 c → 0 ≤ y1 c - y0 c).

(** What [denote_index] writes on a node it does not pass over: the index
    of every non-empty attribute is the decimal form of a natural number. *)
Definition index_denoted (e : Element) : Prop :=
  index_skipped e = false →
  ∀ k, k ∈ index_attrs → get_or e k "" ≠ "" →
  ∃ n : nat, get e (k ++ "-index") = Some (PyStr.str (Z.of_nat n)).

(** A root on which preprocessing leaves a negative width and a node
    without an index. *)
Definition bad_root : Element :=
  mkElement "hierarchy" ∅
    [node [("bounds", "[100,100][50,50]"); ("text", "a")] [];
     node [("bounds", "[0,0][10,10]"); ("resource-id", "com.google.android.gms:id/x")] []].

(** A property of an element that only reads its attributes. *)
Definition attr_pred (P : Element -> Prop) : Prop :=
  ∀ e e', attrib e = attrib e' → P e → P e'.


(** ** Results and exceptions *)

Inductive exn : Type :=
  | KeyError | IndexError | AssertionError | ValueError | TypeError | OSError.

(** What a call gives: a value, or the exception it raises. *)
Inductive raises (A : Type) : Type :=
  | Ok (a : A)
  | Raised (e : exn).
Arguments Ok {A} a.
Arguments Raised {A} e.

Definition bind_raises {A B : Type} (r : raises A) (k : A -> raises B) : raises B :=
  match r with
  | Ok a => k a
  | Raised e => Raised e
  end.

Notation "'do' x <- r ; k" := (bind_raises r (fun x => k))
  (at level 10, x binder, r at level 100, k at level 200).

(** [l[i]] on a list, with Python's negative indices. *)
Definition py_index {A : Type} (l : list A) (i : Z) : raises A :=
  let n := Z.of_nat (length l) in
  let j := if i <? 0 then i + n else i in
  if (0 <=? j) && (j <? n)
  then match l !! Z.to_nat j with
       | Some a => Ok a
       | None => Raised IndexError
       end
  else Raised IndexError.

(** A path from the root of a tree: the identity of an element in it. *)
Definition path : Type := list nat.

(** [node.iter("node")] with the path of every element it yields. *)
Fixpoint iter_node_at (p : path) (e : Element) : list (path * Element) :=
  ((if bool_decide (tag e = "node") then [(p, e)] else [])
  ++ (fix go (i : nat) (cs : list Element) : list (path * Element) :=
        match cs with
        | [] => []
        | c :: r => (iter_node_at (p ++ [i]) c ++ go (Datatypes.S i) r)%list
        end) 0%nat (children e))%list.

(** ** Criteria ([gsrb/common/criterion.py]) *)

Inductive Criterion : Type := ID | DESC | CLASS | TEXT.

#[global] Instance Criterion_eq_dec : EqDecision Criterion.
Proof. solve_decision. Defined.

#[global] Instance Criterion_countable : Countable Criterion.
Proof.
  refine (inj_countable'
            (fun c => match c with ID => 0%nat | DESC => 1%nat | CLASS => 2%nat | TEXT => 3%nat end)
            (fun n => match n with
                      | O => ID | Datatypes.S O => DESC
                      | Datatypes.S (Datatypes.S O) => CLASS | _ => TEXT
                      end) _).
  intros []; reflexivity.
Defined.

Module Criterion.

(** [criterion.name] *)
Definition name (c : Criterion) : string :=
  match c with
  | ID => "ID" | DESC => "DESC" | CLASS => "CLASS" | TEXT => "TEXT"
  end.

(** [Criterion[k]]; [None] is [KeyError]. *)
Definition of_name (k : string) : option Criterion :=
  if String.eqb k "ID" then Some ID
  else if String.eqb k "DESC" then Some DESC
  else if String.eqb k "CLASS" then Some CLASS
  else if String.eqb k "TEXT" then Some TEXT
  else None.

Definition u2_name (c : Criterion) : string :=
  match c with
  | ID => "resourceId"
  | DESC => "description"
  | CLASS => "className"
  | TEXT => "text"
  end.

(** [criterion(node, identifier)]: [node.get(..)] is [None] for an absent
    attribute, which equals no string. *)
Definition call (c : Criterion) (n : Element) (identifier : string) : bool :=
  match c with
  | ID => bool_decide (get n "resource-id" = Some identifier)
  | DESC => bool_decide (get n "content-desc" = Some identifier)
  | CLASS => bool_decide (get n "class" = Some identifier)
  | TEXT => bool_decide (get n "text" = Some identifier)
  end.

(** The attribute a criterion reads. *)
Definition attr (c : Criterion) : string :=
  match c with
  | ID => "resource-id" | DESC => "content-desc" | CLASS => "class" | TEXT => "text"
  end.

(** [Criterion.from_parameter(name)]; [None] is Python's [None]. *)
Definition from_parameter (name : string) : option Criterion :=
  if String.eqb name "resourceId" then Some ID
  else if String.eqb name "description" then Some DESC
  else if String.eqb name "text" then Some TEXT
  else if String.eqb name "className" then Some CLASS
  else None.

End Criterion.

(** ** JSON values *)

Inductive JValue : Type :=
  | JNull
  | JBool (b : bool)
  | JInt (z : Z)
  | JStr (s : string)
  | JList (l : list JValue)
  | JDict (d : list (string * JValue)).

(** A dictionary with string keys, in insertion order, keys distinct. *)
Definition jdict : Type := list (string * JValue).

(** [d.get(k)] *)
Fixpoint dict_get {V : Type} (k : string) (d : list (string * V)) : option V :=
  match d with
  | [] => None
  | (k', v) :: r => if String.eqb k k' then Some v else dict_get k r
  end.

(** Python's truth value. *)
Definition truthy (v : JValue) : bool :=
  match v with
  | JNull => false
  | JBool b => b
  | JInt z => negb (z =? 0)
  | JStr s => negb (PyStr.is_empty s)
  | JList l => match l with [] => false | _ => true end
  | JDict d => match d with [] => false | _ => true end
  end.

(** ** Locators ([gsrb/common/locator.py]) *)

Record Locator : Type := mkLocator { criteria : gmap Criterion string; index : Z }.

Module Locator.

(** The nodes that satisfy every criterion, in document order. *)
Definition satisfying (l : Locator) (root : Element) : list (path * Element) :=
  filter (fun pn => forallb (fun kv => Criterion.call kv.1 pn.2 kv.2)
                            (map_to_list (criteria l)))
         (iter_node_at [] root).

(** [locator.find_in_layout(node)] *)
Definition find_in_layout (l : Locator) (root : Element) : raises (option (path * Element)) :=
  let matched := satisfying l root in
  if (Z.of_nat (length matched) =? 0) || (Z.of_nat (length matched) <=? index l)
  then Ok None
  else do n <- py_index matched (index l); Ok (Some n).

(** [int(node.get(k, "0"))] *)
Definition int_or_zero (n : Element) (k : string) : raises Z :=
  match PyStr.int (get_or n k "0") with
  | Some z => Ok z
  | None => Raised ValueError
  end.

(** [Locator.from_node(node)] *)
Definition from_node (n : Element) : raises Locator :=
  (fix go (l : list (string * Criterion)) : raises Locator :=
     match l with
     | (attr, criterion) :: r =>
         let identifier := get_or n attr "" in
         if negb (PyStr.is_empty identifier)
         then do index <- int_or_zero n (attr ++ "-index");
              Ok (mkLocator {[criterion := identifier]} index)
         else go r
     | [] =>
         let identifier := get_or n "class" "" in
         do index <- int_or_zero n "class-index";
         Ok (mkLocator {[CLASS := identifier]} index)
     end) [("text", TEXT); ("content-desc", DESC); ("resource-id", ID)].

(** [locator.to_kwargs()]; the names of the criteria are distinct, so the
    comprehension keeps one item for each criterion. *)
Definition to_kwargs (l : Locator) : list (string * string) :=
  map (fun kv => (Criterion.u2_name kv.1, kv.2)) (map_to_list (criteria l)).

(** [locator.to_dict()] *)
Definition to_dict (l : Locator) : jdict :=
  let d := [("criteria",
             JDict (map (fun kv => (Criterion.name kv.1, JStr kv.2))
                        (map_to_list (criteria l))))] in
  if negb (index l =? 0) then (d ++ [("index", JInt (index l))])%list else d.

(** The loop of [from_dict] over [criteria.items()]. A value that is not
    a string has no place in [Mapping[Criterion, str]]; the model rejects
    it. *)
Fixpoint read_criteria (c : gmap Criterion string) (items : jdict)
  : raises (gmap Criterion string) :=
  match items with
  | [] => Ok c
  | (k, v) :: r =>
      match Criterion.of_name k with
      | None => read_criteria c r
      | Some criterion =>
          match v with
          | JStr s => read_criteria (<[criterion := s]> c) r
          | _ => Raised TypeError
          end
      end
  end.

(** [Locator.from_dict(d)]; [bool] is a subclass of [int]. *)
Definition from_dict (d : jdict) : raises Locator :=
  match dict_get "criteria" d with
  | None => Raised KeyError
  | Some criteria =>
      let index := default (JInt 0) (dict_get "index" d) in
      match index, criteria with
      | JInt i, JDict items =>
          do c <- read_criteria ∅ items; Ok (mkLocator c i)
      | JBool b, JDict items =>
          do c <- read_criteria ∅ items; Ok (mkLocator c (Z.b2z b))
      | _, _ => Raised AssertionError
      end
  end.

End Locator.

(** ** Attribute predicates ([gsrb/match/predictors.py]) *)

Module IdPattern.

Definition is_word (c : ascii) : bool :=
  PyStr.is_alpha c || PyStr.is_digit c || Ascii.eqb c "_".

(** [p] is a prefix of [s]: what follows it. *)
Fixpoint after (p s : string) : option string :=
  match p, s with
  | EmptyString, _ => Some s
  | String a p', String b s' => if Ascii.eqb a b then after p' s' else None
  | String _ _, EmptyString => None
  end.

(** The prefix of [id_pattern]: segments of a letter and then letters,
    digits and underscores, joined by dots and closed by [:id/]; the
    result is what follows it. [in_word] tells that the letter that opens a
    segment has been read. A segment ends at a character that is not a
    word character, so the repetitions never backtrack. *)
Fixpoint prefix_end (in_word : bool) (s : string) : option string :=
  match s with
  | EmptyString => None
  | String c r =>
      if in_word
      then if is_word c then prefix_end true r
           else if Ascii.eqb c "." then prefix_end false r
           else if Ascii.eqb c ":" then after "id/" r
           else None
      else if PyStr.is_alpha c then prefix_end true r else None
  end.

Definition newline : ascii := ascii_of_nat 10.

(** The group [content] and the end of [id_pattern]: the dot matches no
    line feed, and the end anchor matches at the end of the text or before
    a line feed that ends it. *)
Fixpoint content (s : string) : option string :=
  match s with
  | EmptyString => Some EmptyString
  | String c r =>
      if Ascii.eqb c newline
      then (if PyStr.is_empty r then Some EmptyString else None)
      else option_map (String c) (content r)
  end.

(** [re.match(id_pattern, s)] and its group [content]. *)
Definition match_content (s : string) : option string :=
  prefix_end false s ≫= content.

End IdPattern.

(** [process_id] of [attr_like] *)
Definition process_id (s : string) : string :=
  if PyStr.is_empty s then s
  else match IdPattern.match_content s with
       | Some c => c
       | None => s
       end.

(** [Levenshtein.ratio]: the normalized indel similarity
    [(len(a) + len(b) - d) / (len(a) + len(b))], where the distance [d]
    counts insertions and deletions, [d = len(a) + len(b) - 2 * lcs(a, b)];
    1 for two empty texts. *)
Module Levenshtein.

Fixpoint lcs (s t : list ascii) : nat :=
  match s with
  | [] => 0%nat
  | a :: s' =>
      (fix lcs_s (t : list ascii) : nat :=
         match t with
         | [] => 0%nat
         | b :: t' =>
             if Ascii.eqb a b then Datatypes.S (lcs s' t')
             else Nat.max (lcs s' t) (lcs_s t')
         end) t
  end.

Definition distance (a b : string) : nat :=
  let s := list_ascii_of_string a in
  let t := list_ascii_of_string b in
  (length s + length t - 2 * lcs s t)%nat.

Definition ratio (a b : string) : Q :=
  let lensum := (String.length a + String.length b)%nat in
  if (lensum =? 0)%nat then 1%Q
  else (inject_Z (Z.of_nat (lensum - distance a b)) / inject_Z (Z.of_nat lensum))%Q.

End Levenshtein.

(** [threshold] of [predictors.py]; the float [0.70] is compared as the
    rational it rounds. *)
Definition like_threshold : Q := (70 # 100)%Q.

(** [a.get(name, "").strip().lower()] *)
Definition read_attr (e : Element) (name : string) : string :=
  PyStr.lower (PyStr.strip (get_or e name "")).

(** [attr_equal(a, b, name1, name2)] *)
Definition attr_equal (a b : Element) (name1 : string) (name2 : option string) : bool :=
  let attr_a := read_attr a name1 in
  let attr_b :=
    match name2 with
    | None => read_attr b name1
    | Some n2 => read_attr b n2
    end in
  if PyStr.is_empty attr_a || PyStr.is_empty attr_b then false
  else
    let attr_a := PyStr.strip (PyStr.sub_spaces attr_a) in
    let attr_b := PyStr.strip (PyStr.sub_spaces attr_b) in
    String.eqb attr_a attr_b.

(** [attr_like(a, b, name1, name2)] *)
Definition attr_like (a b : Element) (name1 : string) (name2 : option string) : bool :=
  let attr_a := read_attr a name1 in
  let attr_a := if String.eqb name1 "resource-id" then process_id attr_a else attr_a in
  let attr_b :=
    match name2 with
    | None => read_attr b name1
    | Some n2 => read_attr b n2
    end in
  let attr_b :=
    match name2 with
    | None => if String.eqb name1 "resource-id" then process_id attr_b else attr_b
    | Some n2 => if String.eqb n2 "resource-id" then process_id attr_b else attr_b
    end in
  if PyStr.is_empty attr_a || PyStr.is_empty attr_b then false
  else
    let attr_a := PyStr.lower (PyStr.strip (PyStr.sub_spaces attr_a)) in
    let attr_b := PyStr.lower (PyStr.strip (PyStr.sub_spaces attr_b)) in
    let similarity := Levenshtein.ratio attr_a attr_b in
    Qle_bool like_threshold similarity.

Definition list_classes : list string :=
  ["android.view.ViewGroup"; "android.widget.GridView"; "android.widget.ListView";
   "android.widget.FrameLayout"; "android.widget.GridLayout";
   "android.widget.LinearLayout"; "android.widget.RelativeLayout";
   "androidx.recyclerview.widget.RecyclerView"].

(** [x in s] for an optional text and a set of texts. *)
Definition in_texts (v : option string) (s : list string) : bool :=
  match v with
  | Some c => bool_decide (c ∈ s)
  | None => false
  end.

(** [is_list(node)] *)
Definition is_list (n : Element) : bool := in_texts (get n "class") list_classes.

(** [int(node.get(k, "0"))]. [int] raises on text that is not a number;
    [denote_bounds] writes [x], [y], [w], [h] with [str], so this does
    not happen on the nodes of a layout, and the model reads 0 there. *)
Definition int_attr0 (n : Element) (k : string) : Z :=
  default 0 (PyStr.int (get_or n k "0")).

(** [is_child(node)]. The bound [1080 * 1920 * 0.6] is the float
    [1244160.0]. *)
Definition is_child (n : Element) : bool :=
  if negb (length (children n) =? 0)%nat then false
  else if PyStr.startswith "com.google.android.inputmethod" (get_or n "resource-id" "")
  then false
  else if bool_decide (get n "w" = Some "0") || bool_decide (get n "h" = Some "0")
  then false
  else if 1244160 <=? int_attr0 n "w" * int_attr0 n "h" then false
  else
    let not_list := negb (is_list n) in
    let has_text := negb (bool_decide (get n "text" = Some "")) in
    let not_empty :=
      has_text || negb (bool_decide (get n "content-desc" = Some ""))
      || negb (bool_decide (get n "resource-id" = Some "")) in
    let big_enough := (15 <=? int_attr0 n "w") && (15 <=? int_attr0 n "h") in
    not_list && (not_empty || big_enough).

(** [is_parent(node)] *)
Definition is_parent (n : Element) : bool :=
  if bool_decide (get n "w" = Some "0") || bool_decide (get n "h" = Some "0")
  then false
  else
    let not_empty :=
      negb (PyStr.is_empty (get_or n "resource-id" ""))
      || negb (PyStr.is_empty (get_or n "content-desc" "")) in
    not_empty && ((0 <? length (children n))%nat || is_list n).

(** [is_match(a, b, strict=..)] *)
Definition is_match (strict : bool) (a b : Element) : bool :=
  let results :=
    [attr_equal a b "resource-id" None;
     attr_equal a b "content-desc" None;
     attr_equal a b "text" None] in
  let equal_num := list_sum (map (fun x : bool => if x then 1%nat else 0%nat) results) in
  if strict then (2 <=? equal_num)%nat else (1 <=? equal_num)%nat.

(** [is_like(a, b, strict)] *)
Definition is_like (strict : bool) (a b : Element) : bool :=
  if PyStr.is_empty (get_or a "text" "")
     && PyStr.is_empty (get_or b "text" "")
     && PyStr.is_empty (get_or a "content-desc" "")
     && PyStr.is_empty (get_or b "content-desc" "")
     && attr_like a b "resource-id" None
     && String.eqb (get_or a "class" "") (get_or b "class" "")
     && in_texts (get a "class") ["android.widget.EditText"]
  then true
  else if (attr_like a b "resource-id" None || negb strict)
          && (attr_like a b "text" None
              || attr_like a b "content-desc" None
              || attr_like a b "text" (Some "content-desc")
              || attr_like a b "content-desc" (Some "text"))
  then true
  else if (attr_equal a b "text" (Some "content-desc")
           || attr_equal a b "content-desc" (Some "text"))
          && negb (in_texts (get a "class") ["android.widget.RadioButton"])
          && negb (in_texts (get b "class") ["android.widget.RadioButton"])
  then true
  else false.

(** [tree_equal(a, b)]: the canonical forms of the two trees are equal.
    Canonical XML orders the attributes of an element, so the forms agree
    when the trees agree on tags, attribute dictionaries and children; the
    text between elements, which a dump of the device does not carry, is
    not modelled. *)
Fixpoint tree_equal (a b : Element) : bool :=
  String.eqb (tag a) (tag b)
  && bool_decide (attrib a = attrib b)
  && (fix all_equal (xs ys : list Element) : bool :=
        match xs, ys with
        | [], [] => true
        | x :: xs', y :: ys' => tree_equal x y && all_equal xs' ys'
        | _, _ => false
        end) (children a) (children b).

(** A key point of the screenshot: its coordinates [pt], two floats. *)
Definition KeyPoint : Type := (Q * Q)%type.

(** [is_in_bound(point, node)] *)
Definition is_in_bound (point : KeyPoint) (n : Element) : bool :=
  let x := int_attr0 n "x" in
  let y := int_attr0 n "y" in
  let w := int_attr0 n "w" in
  let h := int_attr0 n "h" in
  let '(px, py) := point in
  negb (Qle_bool px (inject_Z x)) && negb (Qle_bool (inject_Z (x + w)) px)
  && negb (Qle_bool py (inject_Z y)) && negb (Qle_bool (inject_Z (y + h)) py).

(** A screen with two nodes whose attributes are all empty. *)
Definition blank_nodes : Element :=
  mkElement "hierarchy" ∅
    [node [("class", ""); ("text", ""); ("content-desc", ""); ("resource-id", "");
           ("bounds", "[0,0][10,10]")] [];
     node [("class", ""); ("text", ""); ("content-desc", ""); ("resource-id", "");
           ("bounds", "[0,10][10,20]")] []].

(** ** Actions and events ([gsrb/common/action.py], [gsrb/common/event.py]) *)

Inductive Action : Type :=
  | CLICK | LONG_CLICK | SET_TEXT | EXIST | NOT_EXIST | EQUAL | NOT_EQUAL
  | BACK | SWIPE.

#[global] Instance Action_eq_dec : EqDecision Action.
Proof. solve_decision. Defined.

Module Action.

(** [Action[name]]; [None] is [KeyError]. *)
Definition of_name (k : string) : option Action :=
  if String.eqb k "CLICK" then Some CLICK
  else if String.eqb k "LONG_CLICK" then Some LONG_CLICK
  else if String.eqb k "SET_TEXT" then Some SET_TEXT
  else if String.eqb k "EXIST" then Some EXIST
  else if String.eqb k "NOT_EXIST" then Some NOT_EXIST
  else if String.eqb k "EQUAL" then Some EQUAL
  else if String.eqb k "NOT_EQUAL" then Some NOT_EQUAL
  else if String.eqb k "BACK" then Some BACK
  else if String.eqb k "SWIPE" then Some SWIPE
  else None.

(** [action.is_assertion()] *)
Definition is_assertion (a : Action) : bool :=
  match a with
  | EXIST | NOT_EXIST | EQUAL | NOT_EQUAL => true
  | _ => false
  end.

(** [action.name] *)
Definition name (a : Action) : string :=
  match a with
  | CLICK => "CLICK" | LONG_CLICK => "LONG_CLICK" | SET_TEXT => "SET_TEXT"
  | EXIST => "EXIST" | NOT_EXIST => "NOT_EXIST" | EQUAL => "EQUAL"
  | NOT_EQUAL => "NOT_EQUAL" | BACK => "BACK" | SWIPE => "SWIPE"
  end.

End Action.

Record Event : Type :=
  mkEvent { action : Action; locator : option Locator; parameter : jdict }.

Module Event.

Definition is_assertion (e : Event) : bool := Action.is_assertion (action e).

(** [Event.from_dict(d)] *)
Definition from_dict (d : jdict) : raises Event :=
  match dict_get "action" d with
  | None => Raised KeyError
  | Some (JStr action_name) =>
      match Action.of_name action_name with
      | None => Raised KeyError
      | Some action =>
          do locator <-
            match dict_get "locator" d with
            | Some (JDict locator_dict) =>
                do l <- Locator.from_dict locator_dict; Ok (Some l)
            | _ => Ok None
            end;
          match default (JDict []) (dict_get "parameter" d) with
          | JDict parameter => Ok (mkEvent action locator parameter)
          | _ => Raised AssertionError
          end
      end
  | Some _ => Raised AssertionError
  end.

(** [event.is_generated_assertion()] *)
Definition is_generated_assertion (e : Event) : bool :=
  is_assertion e && bool_decide (is_Some (dict_get "generated" (parameter e))).

(** [event.to_dict()] *)
Definition to_dict (e : Event) : jdict :=
  let d := [("action", JStr (Action.name (action e)))] in
  let d :=
    match locator e with
    | Some l => (d ++ [("locator", JDict (Locator.to_dict l))])%list
    | None => d
    end in
  if (0 <? length (parameter e))%nat
  then (d ++ [("parameter", JDict (parameter e))])%list
  else d.

End Event.

(** ** Steps and record loading ([gsrb/common/step.py]) *)

Record Ui : Type := mkUi { ui_x : string; ui_p : list Byte.byte }.

Definition Ui0 : Ui := mkUi "" [].

Record Step : Type := mkStep { event : Event; ui_before : Ui; ui_after : Ui }.

(** A record archive, a directory or a zip file: what reading a member
    gives, [None] when the read raises. *)
Record Archive : Type :=
  mkArchive { read_text : string -> option string;
              read_bytes : string -> option (list Byte.byte) }.

Definition reading {A : Type} (o : option A) : raises A :=
  match o with
  | Some a => Ok a
  | None => Raised OSError
  end.

(** [s.split("\n")] *)
Fixpoint split_lines (s : string) : list string :=
  match s with
  | EmptyString => [EmptyString]
  | String c r =>
      if Ascii.eqb c IdPattern.newline then EmptyString :: split_lines r
      else match split_lines r with
           | h :: t => String c h :: t
           | [] => [String c EmptyString]
           end
  end.

(** A list comprehension whose items may raise. *)
Fixpoint map_raises {A B : Type} (f : A -> raises B) (l : list A) : raises (list B) :=
  match l with
  | [] => Ok []
  | x :: r => do y <- f x; do ys <- map_raises f r; Ok (y :: ys)
  end.

(** [event.parameter.get("generated", False)] as a condition. *)
Definition is_generated (e : Event) : bool :=
  truthy (default (JBool false) (dict_get "generated" (parameter e))).

Section Loading.

(** [json.loads] of the standard library. *)
Variable json_loads : string -> raises JValue.

(** [Event.from_json(s)] *)
Definition event_from_json (s : string) : raises Event :=
  do v <- json_loads s;
  match v with
  | JDict d => Event.from_dict d
  | _ => Raised TypeError
  end.

Variable root : Archive.

(** [load_ui(i)] of [load_testcase] *)
Definition load_ui (i : Z) : raises (Ui * Ui) :=
  do lb <- reading (read_text root ("ui/" ++ PyStr.str (i * 2) ++ ".xml"));
  do sb <- reading (read_bytes root ("ui/" ++ PyStr.str (i * 2) ++ ".png"));
  do la <- reading (read_text root ("ui/" ++ PyStr.str (i * 2 + 1) ++ ".xml"));
  do sa <- reading (read_bytes root ("ui/" ++ PyStr.str (i * 2 + 1) ++ ".png"));
  Ok (mkUi lb sb, mkUi la sa).

(** The loop of [load_testcase] over the events, from the index [i]. *)
Fixpoint load_steps (i : Z) (events : list Event) : raises (list Step) :=
  match events with
  | [] => Ok []
  | event :: r =>
      if is_generated event
      then do steps <- load_steps i r; Ok (mkStep event Ui0 Ui0 :: steps)
      else do uis <- load_ui i;
           do steps <- load_steps (i + 1) r;
           Ok (mkStep event uis.1 uis.2 :: steps)
  end.

(** The events of the record of the archive. *)
Definition read_events (generate : bool) : raises (list Event) :=
  do events_str <-
    reading (read_text root (if generate then "record_with_assertion.txt" else "record.txt"));
  map_raises event_from_json
    (filter (fun x => negb (String.length (PyStr.strip x) =? 0)%nat)
            (split_lines events_str)).

(** [load_testcase(path, generate)] *)
Definition load_testcase (generate : bool) : raises (list Step * option string) :=
  let pretest := read_text root "pretest.py" in
  do events <- read_events generate;
  do steps <- load_steps 0 events;
  Ok (steps, pretest).

End Loading.

(** The position of the event [k] among the events that are not
    generated. *)
Definition ui_position (events : list Event) (k : nat) : Z :=
  Z.of_nat (length (filter (fun e => negb (is_generated e)) (take k events))).

(** The snapshot [ui/<n>.xml], [ui/<n>.png] of the archive is [u]. *)
Definition snapshot (root : Archive) (n : Z) (u : Ui) : Prop :=
  read_text root ("ui/" ++ PyStr.str n ++ ".xml") = Some (ui_x u)
  ∧ read_bytes root ("ui/" ++ PyStr.str n ++ ".png") = Some (ui_p u).

(** A small archive: a click, a generated assertion, a blank line and a
    second click, with the four snapshots of the two clicks. *)
Definition nl : string := String IdPattern.newline EmptyString.

Definition demo_json (s : string) : raises JValue :=
  if String.eqb s "click a"
  then Ok (JDict [("action", JStr "CLICK");
                  ("locator", JDict [("criteria", JDict [("TEXT", JStr "a")])])])
  else if String.eqb s "exist b"
  then Ok (JDict [("action", JStr "EXIST");
                  ("locator", JDict [("criteria", JDict [("TEXT", JStr "b")])]);
                  ("parameter", JDict [("generated", JBool true)])])
  else if String.eqb s "click b"
  then Ok (JDict [("action", JStr "CLICK");
                  ("locator", JDict [("criteria", JDict [("TEXT", JStr "b")]);
                                     ("index", JInt 1)])])
  else Raised ValueError.

Definition demo_archive : Archive :=
  mkArchive
    (fun name =>
       if String.eqb name "record_with_assertion.txt"
       then Some ("click a" ++ nl ++ "exist b" ++ nl ++ nl ++ "click b" ++ nl)
       else if String.eqb name "ui/0.xml" then Some "<hierarchy n='0'/>"
       else if String.eqb name "ui/1.xml" then Some "<hierarchy n='1'/>"
       else if String.eqb name "ui/2.xml" then Some "<hierarchy n='2'/>"
       else if String.eqb name "ui/3.xml" then Some "<hierarchy n='3'/>"
       else None)
    (fun name =>
       if String.eqb name "ui/0.png" then Some [Byte.x00]
       else if String.eqb name "ui/1.png" then Some [Byte.x01]
       else if String.eqb name "ui/2.png" then Some [Byte.x02]
       else if String.eqb name "ui/3.png" then Some [Byte.x03]
       else None).

(** ** Layouts ([gsrb/match/layout.py]) *)

(** The element at a path. *)
Fixpoint node_at (e : Element) (p : path) : option Element :=
  match p with
  | [] => Some e
  | i :: r => children e !! i ≫= fun c => node_at c r
  end.

(** An association list used as a [dict]: assignment keeps the place of a
    key that is present and appends a new key. *)
Fixpoint dict_set {K V : Type} `{EqDecision K} (k : K) (v : V) (d : list (K * V))
  : list (K * V) :=
  match d with
  | [] => [(k, v)]
  | (k', v') :: r => if decide (k = k') then (k, v) :: r else (k', v') :: dict_set k v r
  end.

Fixpoint dict_lookup {K V : Type} `{EqDecision K} (k : K) (d : list (K * V)) : option V :=
  match d with
  | [] => None
  | (k', v) :: r => if decide (k = k') then Some v else dict_lookup k r
  end.

(** [d.update(d')] *)
Definition dict_update {K V : Type} `{EqDecision K} (d d' : list (K * V)) : list (K * V) :=
  foldl (fun acc kv => dict_set kv.1 kv.2 acc) d d'.

(** A loop that runs its body again as long as the body reports an
    update; [None] when the fuel does not suffice. *)
Fixpoint while_update {S : Type} (fuel : nat) (body : S -> S * bool) (s : S) : option S :=
  match fuel with
  | O => None
  | Datatypes.S fuel' =>
      let '(s', update) := body s in
      if update then while_update fuel' body s' else Some s'
  end.

Module Layout.

(** A node of a tree, by identity. *)
Definition Node : Type := (path * Element)%type.

Definition clickable (n : Element) (v : string) : bool :=
  bool_decide (get n "clickable" = Some v).

(** [get_valid_node(node)]; the set is kept in insertion order. *)
Definition get_valid_node (root : Element) : list Node :=
  foldl
    (fun (result : list Node) (n : Node) =>
       let result :=
         if is_child n.2 && clickable n.2 "true"
         then filter (fun x : Node => negb (is_child x.2 && is_cover n.2 x.2)) result
         else result in
       if is_child n.2 && clickable n.2 "false"
          && (0 <? length (filter (fun m : Node =>
                                     is_child m.2 && clickable m.2 "true"
                                     && is_cover m.2 n.2) result))%nat
       then result
       else (result ++ [n])%list)
    [] (iter_node_at [] root).

(** [get_children(node)] *)
Definition get_children (root : Element) : list Node :=
  filter (fun x : Node => is_child x.2) (get_valid_node root).

(** [get_parents(node)] *)
Definition get_parents (root : Element) : list Node :=
  filter (fun x : Node => is_parent x.2) (iter_node_at [] root).

(** [compress_parents(parents)]: [b[0] == a] says that [a] is the first
    child of [b]. *)
Definition compress_parents (parents : list Node) : list Node :=
  let need_remove :=
    flat_map (fun a : Node =>
                filter (fun b : Node =>
                          negb (bool_decide (a.1 = b.1))
                          && (length (children b.2) =? 1)%nat
                          && bool_decide ((b.1 ++ [0%nat])%list = a.1))
                       parents)
             parents in
  filter (fun x : Node => negb (bool_decide (x.1 ∈ need_remove.*1))) parents.

(** [{c: p for p in root.iter("node") for c in p}] *)
Definition child_parent (root : Element) : gmap path path :=
  list_to_map
    (flat_map (fun p : Node =>
                 imap (fun (i : nat) (_ : Element) => ((p.1 ++ [i])%list, p.1)) (children p.2))
              (iter_node_at [] root)).

(** [get_list_items(children)] *)
Definition get_list_items (nodes : list Node) : list (list Node) :=
  let counter :=
    foldl (fun (counter : list (string * list Node)) (child : Node) =>
             let k := get_or child.2 "resource-id" "" in
             dict_set k (default [] (dict_lookup k counter) ++ [child])%list counter)
          [] nodes in
  map snd
    (filter (fun kv : string * list Node =>
               negb (PyStr.is_empty kv.1) && (1 <? length kv.2)%nat)
            counter).

Section NonOverlap.

Variable root : Element.
Variable cp : gmap path path.

(** The element a path of the tree denotes. *)
Definition at_path (p : path) : Element :=
  default (mkElement "" ∅ []) (node_at root p).

(** One round of the [for] loop of [get_non_overlap]. [if next_parent]
    is the truth value of an element, which is false for an element
    without children. *)
Definition promote (acc : list (path * path) * bool) (child : path)
  : list (path * path) * bool :=
  let '(result, update) := acc in
  match dict_lookup child result with
  | None => acc
  | Some current_parent =>
      match cp !! current_parent with
      | None => acc
      | Some next_parent =>
          if negb (length (children (at_path next_parent)) =? 0)%nat
             && negb (String.eqb (tag (at_path next_parent)) "hierarchy")
          then
            let other_parents :=
              map snd (filter (fun kv : path * path => negb (bool_decide (kv.1 = child)))
                              result) in
            if forallb (fun parent => negb (is_overlap (at_path next_parent) (at_path parent)))
                       other_parents
            then (dict_set child next_parent result, true)
            else acc
          else acc
      end
  end.

(** [get_non_overlap(children, cp)], with the fuel of its [while] loop. *)
Definition get_non_overlap (fuel : nat) (nodes : list Node)
  : option (list (path * path)) :=
  let result := foldl (fun acc (child : Node) => dict_set child.1 child.1 acc) [] nodes in
  while_update fuel
    (fun result => foldl promote (result, false) result.*1)
    result.

End NonOverlap.

(** [node_hash] of [get_non_unique] *)
Definition node_hash (n : Element) : string * string * string :=
  (get_or n "resource-id" "", get_or n "content-desc" "", get_or n "text" "").

(** [get_non_unique(children)] *)
Definition get_non_unique (nodes : list Node) : list path :=
  map fst
    (filter (fun child : Node =>
               (1 <? length (filter (fun other : Node =>
                                       bool_decide (node_hash other.2 = node_hash child.2))
                                    nodes))%nat)
            nodes).

(** [get_unique_children(children)] *)
Definition get_unique_children (nodes : list Node) : list path :=
  map fst
    (foldl
       (fun (acc : list Node * list string) (child : Node) =>
          let '(result, s) := acc in
          let class_name := get_or child.2 "class" "" in
          if negb (bool_decide (class_name ∈ s))
          then ((result ++ [child])%list, class_name :: s)
          else (filter (fun x : Node =>
                          negb (String.eqb (get_or x.2 "class" "") class_name)) result,
                s))
       ([], []) nodes).1.

(** The derived layout. A set of nodes is the list of their paths in
    document order, which is the order in which the model iterates it;
    Python iterates a set of elements in the order of their hashes, which
    follow their addresses, so any order can occur there. *)
Record t : Type :=
  mk { xml : string;
       png : list Byte.byte;
       root : Element;
       children : list path;
       parents : list path;
       cp : gmap path path;
       non_overlap : list (path * path);
       non_unique : list path;
       unique_children : list path }.

(** The sum of the depths of the nodes: a bound on the promotions of
    [get_non_overlap]. *)
Definition depths (nodes : list Node) : nat :=
  list_sum (map (fun n : Node => length n.1) nodes).

(** [__post_init__] of [Layout(xml, png)], on the tree [parsed] that
    [fromstring(xml)] gives; [None] when the fuel of [get_non_overlap] does
    not suffice. *)
Definition build (xml : string) (parsed : Element) (png : list Byte.byte) : option t :=
  let root := preprocess parsed in
  let children := get_children root in
  let parents := compress_parents (get_parents root) in
  let cp := child_parent root in
  let unique_children := get_unique_children children in
  items ←
    foldl (fun (acc : option (list (path * path) * list path)) (group : list Node) =>
             '(non_overlap, non_unique) ← acc;
             no ← get_non_overlap root cp (Datatypes.S (depths group)) group;
             Some (dict_update non_overlap no, (non_unique ++ get_non_unique group)%list))
          (Some ([], [])) (get_list_items children);
  Some (mk xml png root children.*1 parents.*1 cp items.1 items.2 unique_children).

(** [Layout(xml, png)] with the parser [fromstring] of the standard
    library. *)
Definition init (fromstring : string -> Element) (xml : string) (png : list Byte.byte)
  : option t :=
  build xml (fromstring xml) png.

End Layout.

(** ** Matching ([gsrb/match/match.py]) *)

(** The layout a node belongs to. The two layouts of a match are two
    parses, so a node of the old one is never a node of the new one. *)
Inductive Side : Type := Old | New.

#[global] Instance Side_eq_dec : EqDecision Side.
Proof. solve_decision. Defined.

#[global] Instance Side_countable : Countable Side.
Proof.
  refine (inj_countable' (fun s => match s with Old => false | New => true end)
                         (fun b : bool => if b then New else Old) _).
  intros []; reflexivity.
Defined.

(** A node of one of the two layouts, by identity. *)
Definition Ref : Type := (Side * path)%type.

(** [Result] *)
Record Result : Type :=
  mkResult { score : Q;
             is_match_result : bool;
             matched : gmap Ref Ref;
             possible : gmap Ref (gset Ref);
             old_not_matched : gset Ref;
             new_not_matched : gset Ref }.

(** What the phases of a match change: [info.matched],
    [info.matched_parents] (a [dict] that is iterated), [result.matched]
    and [result.possible]. *)
Record MatchState : Type :=
  mkState { info_matched : gset Ref;
            matched_parents : list (Ref * Ref);
            res_matched : gmap Ref Ref;
            res_possible : gmap Ref (gset Ref) }.

Definition state0 : MatchState := mkState ∅ [] ∅ ∅.

(** [result.matched[o] = c; info.matched.update([o, c])] *)
Definition commit (o c : Ref) (st : MatchState) : MatchState :=
  mkState ({[o; c]} ∪ info_matched st) (matched_parents st)
          (<[o := c]> (res_matched st)) (res_possible st).

(** [info.matched_parents[op] = np] *)
Definition set_parent (op np : Ref) (st : MatchState) : MatchState :=
  mkState (info_matched st) (dict_set op np (matched_parents st))
          (res_matched st) (res_possible st).

(** [result.possible[o] = candidates] *)
Definition add_possible (o : Ref) (candidates : gset Ref) (st : MatchState) : MatchState :=
  mkState (info_matched st) (matched_parents st) (res_matched st)
          (<[o := candidates]> (res_possible st)).

Definition threshold : Q := (8 # 10)%Q.

Definition exclude_set : list string :=
  ["android.widget.CheckBox"; "android.widget.EditText"; "android.widget.Switch"].

(** [set_match_score(result)]; the score is the rational that the float
    rounds. *)
Definition set_match_score (r : Result) : Result :=
  let matched_num := size (matched r) in
  let possible_num := size (possible r) in
  let not_match := size (old_not_matched r) in
  let total := (matched_num + possible_num + not_match)%nat in
  let score :=
    if negb (total =? 0)%nat
    then (inject_Z (Z.of_nat (matched_num + possible_num)) / inject_Z (Z.of_nat total))%Q
    else 0%Q in
  mkResult score (Qle_bool threshold score) (matched r) (possible r)
           (old_not_matched r) (new_not_matched r).

Section Match.

Variables old new : Layout.t.

(** [info.matched_points], filled from the two screenshots by OpenCV when
    both are present. *)
Variable matched_points : list (KeyPoint * KeyPoint).

Definition layout_of (s : Side) : Layout.t :=
  match s with Old => old | New => new end.

(** The element behind a node. *)
Definition elem (r : Ref) : Element :=
  Layout.at_path (Layout.root (layout_of r.1)) r.2.

Definition refs (s : Side) (l : list path) : list Ref := map (pair s) l.

Definition unmatched (st : MatchState) (r : Ref) : bool :=
  negb (bool_decide (r ∈ info_matched st)).

(** The keys of [non_overlap] whose value is [parent], other than [r]. *)
Definition siblings (s : Side) (parent : path) (r : Ref) : list Ref :=
  refs s (map fst (filter (fun kv : path * path =>
                             bool_decide (kv.2 = parent)
                             && negb (bool_decide ((s, kv.1) = r)))
                          (Layout.non_overlap (layout_of s)))).

(** [match_sibling(old, new, info, result)] *)
Definition match_sibling (o n : Ref) (st : MatchState) : MatchState :=
  match dict_lookup o.2 (Layout.non_overlap old), dict_lookup n.2 (Layout.non_overlap new) with
  | Some old_parent, Some new_parent =>
      let st := set_parent (Old, old_parent) (New, new_parent) st in
      let old_siblings := siblings Old old_parent o in
      let new_siblings := siblings New new_parent n in
      foldl
        (fun st old_sibling =>
           if unmatched st old_sibling
           then
             match filter (fun n => unmatched st n && is_match false (elem old_sibling) (elem n))
                          new_siblings with
             | [candidate] => commit old_sibling candidate st
             | _ => st
             end
           else st)
        st old_siblings
  | _, _ => st
  end.

(** One round of the [while] loop of [match_sure]. *)
Definition match_sure_pass (predictor : Element -> Element -> bool)
    (old_candidates new_candidates : list Ref) (st : MatchState) : MatchState * bool :=
  foldl
    (fun (acc : MatchState * bool) old_child =>
       let '(st, update) := acc in
       if unmatched st old_child
       then
         match filter (fun new_child =>
                         unmatched st new_child && predictor (elem old_child) (elem new_child))
                      new_candidates with
         | [candidate] => (match_sibling old_child candidate (commit old_child candidate st), true)
         | _ => acc
         end
       else acc)
    (st, false) old_candidates.

Definition without (l excluded : list path) : list path :=
  filter (fun x => negb (bool_decide (x ∈ excluded))) l.

(** [match_sure(info, result, predictor)] *)
Definition match_sure (fuel : nat) (predictor : Element -> Element -> bool) (st : MatchState)
  : option MatchState :=
  let old_candidates := refs Old (without (Layout.children old) (Layout.non_unique old)) in
  let new_candidates := refs New (without (Layout.children new) (Layout.non_unique new)) in
  while_update fuel (match_sure_pass predictor old_candidates new_candidates) st.

(** The nodes that [sift_match] considers on one side. *)
Definition sift_eligible (st : MatchState) (n : Ref) : bool :=
  unmatched st n
  && PyStr.is_empty (get_or (elem n) "text" "")
  && negb (in_texts (get (elem n) "class") exclude_set).

(** One round of the [while] loop of [sift_match]. The quotient of the
    two counts is compared with [0.6] as a rational. *)
Definition sift_pass (st : MatchState) : MatchState * bool :=
  foldl
    (fun (acc : MatchState * bool) old_child =>
       let '(st, update) := acc in
       if sift_eligible st old_child
       then
         let old_points := filter (fun pq : KeyPoint * KeyPoint =>
                                     is_in_bound pq.1 (elem old_child)) matched_points in
         if (length old_points <? 1)%nat then acc
         else
           let old_matches := map snd old_points in
           match filter
                   (fun new_child =>
                      sift_eligible st new_child
                      && let new_match_num :=
                           length (filter (fun point => is_in_bound point (elem new_child))
                                          old_matches) in
                         Qle_bool (6 # 10)
                           (inject_Z (Z.of_nat new_match_num)
                            / inject_Z (Z.of_nat (length old_points))))
                   (refs New (Layout.children new)) with
           | [candidate] => (commit old_child candidate st, true)
           | _ => acc
           end
       else acc)
    (st, false) (refs Old (Layout.children old)).

(** [sift_match(info, result)] *)
Definition sift_match (fuel : nat) (st : MatchState) : option MatchState :=
  while_update fuel sift_pass st.

(** [match_parents(info, predictor)] *)
Definition match_parents (predictor : Element -> Element -> bool) (st : MatchState)
  : MatchState :=
  (foldl
     (fun (acc : MatchState * gset Ref) old_parent =>
        let '(st, matched_parents) := acc in
        if negb (bool_decide (old_parent ∈ matched_parents))
        then
          match filter (fun new_parent =>
                          negb (bool_decide (new_parent ∈ matched_parents))
                          && predictor (elem old_parent) (elem new_parent))
                       (refs New (Layout.parents new)) with
          | [candidate] =>
              (set_parent old_parent candidate st, {[old_parent; candidate]} ∪ matched_parents)
          | _ => acc
          end
        else acc)
     (st, ∅) (refs Old (Layout.parents old))).1.

(** [[n for n in parent.iter("node") if n in layout.children]] *)
Definition children_under (parent : Ref) : list Ref :=
  refs parent.1
       (filter (fun p => bool_decide (p ∈ Layout.children (layout_of parent.1)))
               (iter_node_at parent.2 (elem parent)).*1).

(** The uniqueness rule of the phases after the sure matches: commit
    the only candidate of each old node that is still unmatched. *)
Definition match_unique (predictor : Ref -> Ref -> bool) (olds news : list Ref)
    (st : MatchState) : MatchState :=
  foldl
    (fun st old_child =>
       if unmatched st old_child
       then
         match filter (fun new_child => unmatched st new_child && predictor old_child new_child)
                      news with
         | [candidate] => commit old_child candidate st
         | _ => st
         end
       else st)
    st olds.

(** [optimize_match(info, result, predictor)] *)
Definition optimize_match (predictor : Element -> Element -> bool) (st : MatchState)
  : MatchState :=
  foldl
    (fun st (pair : Ref * Ref) =>
       let '(old_parent, new_parent) := pair in
       match_unique (fun o n => predictor (elem o) (elem n))
                    (children_under old_parent) (children_under new_parent) st)
    st (matched_parents st).

(** [unique_match(info, result)] *)
Definition unique_match (st : MatchState) : MatchState :=
  match_unique
    (fun o n =>
       attr_equal (elem o) (elem n) "class" None
       && in_texts (Some (get_or (elem o) "class" "")) ["android.widget.EditText"])
    (refs Old (Layout.unique_children old)) (refs New (Layout.unique_children new)) st.

(** [get_unique_possible(attr, old, candidates)] of [match_possible] *)
Definition get_unique_possible (attr : string) (o : Ref) (candidates : list Ref)
  : option Ref :=
  let old_attr := PyStr.lower (get_or (elem o) attr "") in
  if negb (PyStr.is_empty old_attr)
  then
    match filter (fun candidate =>
                    String.eqb (PyStr.lower (get_or (elem candidate) attr "")) old_attr
                    && String.eqb (get_or (elem candidate) "class" "")
                                  (get_or (elem o) "class" ""))
                 candidates with
    | [c] => Some c
    | _ => None
    end
  else None.

(** The candidate that the condition of [match_possible] settles on. *)
Definition unique_possible (o : Ref) (candidates : list Ref) : option Ref :=
  match get_unique_possible "text" o candidates with
  | Some c => Some c
  | None =>
      match get_unique_possible "content-desc" o candidates with
      | Some c => Some c
      | None =>
          match get_unique_possible "resource-id" o candidates with
          | Some c =>
              if negb (bool_decide (o.2 ∈ (Layout.non_overlap old).*1)) then Some c else None
          | None => None
          end
      end
  end.

(** [match_possible(info, result, predictor)] *)
Definition match_possible (predictor : Element -> Element -> bool) (st : MatchState)
  : MatchState :=
  foldl
    (fun st old_child =>
       if unmatched st old_child
       then
         let candidates :=
           filter (fun new_child =>
                     unmatched st new_child && predictor (elem old_child) (elem new_child))
                  (refs New (Layout.children new)) in
         if (0 <? length candidates)%nat
         then
           match unique_possible old_child candidates with
           | Some candidate => commit old_child candidate st
           | None => add_possible old_child (list_to_set candidates) st
           end
         else st
       else st)
    st (refs Old (Layout.children old)).

(** [Result()] with the pairs and the candidate sets that the phases
    have stored in it. *)
Definition result_of (st : MatchState) : Result :=
  mkResult 0 false (res_matched st) (res_possible st) ∅ ∅.

(** [set_not_match(info, result)] *)
Definition set_not_match (r : Result) : Result :=
  let new_possible : gset Ref :=
    foldl (fun x y => x ∪ y) ∅ (map_to_list (possible r)).*2 in
  mkResult (score r) (is_match_result r) (matched r) (possible r)
    (list_to_set
       (filter (fun x => negb (bool_decide (is_Some (matched r !! x)))
                         && negb (bool_decide (is_Some (possible r !! x))))
               (refs Old (Layout.children old))))
    (list_to_set
       (filter (fun x => negb (bool_decide (x ∈ (map_to_list (matched r)).*2))
                         && negb (bool_decide (x ∈ new_possible)))
               (refs New (Layout.children new)))).

(** The last two steps of [match_layout]. *)
Definition finalize (st : MatchState) : Result :=
  set_match_score (set_not_match (result_of st)).

(** The phases of [match_layout] that commit sure matches. *)
Definition sure_phases : option MatchState :=
  let fuel := Datatypes.S (length (Layout.children old)) in
  st ← match_sure fuel (is_match true) state0;
  st ← match_sure fuel (is_like true) st;
  st ← sift_match fuel st;
  let st := match_parents (is_match false) st in
  let st := optimize_match (is_like false) st in
  Some (unique_match st).

(** [match_layout(old, new)] *)
Definition match_layout : option Result :=
  st ← sure_phases;
  Some (finalize (match_possible (is_match false) st)).

End Match.

(** [MatchInfo.__post_init__]: no key points when a screenshot is empty;
    [sift] stands for the detection and matching done by OpenCV. *)
Definition key_points (sift : list Byte.byte -> list Byte.byte -> list (KeyPoint * KeyPoint))
    (old new : Layout.t) : list (KeyPoint * KeyPoint) :=
  if (length (Layout.png old) =? 0)%nat || (length (Layout.png new) =? 0)%nat
  then []
  else sift (Layout.png old) (Layout.png new).

(** ** Two screens on which a possible match keeps a node that is matched later *)

Definition text_view (id text bounds : string) : Element :=
  node [("class", "android.widget.TextView"); ("resource-id", id); ("text", text);
        ("content-desc", ""); ("bounds", bounds)] [].

Definition old_screen : Element :=
  mkElement "hierarchy" ∅
    [text_view "p:id/a" "" "[0,0][100,100]";
     text_view "p:id/b" "hello" "[0,100][100,200]"].

Definition new_screen : Element :=
  mkElement "hierarchy" ∅
    [text_view "p:id/a" "hello" "[0,0][100,100]";
     text_view "p:id/a" "" "[0,100][100,200]"].

(** ** The changes a match makes to its state *)

(** The changes of the phases that commit sure matches: a commit of an
    old and a new node that are both unmatched, or an entry of
    [matched_parents]. *)
Inductive sure_step : MatchState -> MatchState -> Prop :=
  | sure_commit st o c :
      o.1 = Old → c.1 = New → o ∉ info_matched st → c ∉ info_matched st →
      sure_step st (commit o c st)
  | sure_parent st op np :
      op.1 = Old → np.1 = New → sure_step st (set_parent op np st).

(** The changes of [match_possible]: a commit, or a candidate set of
    unmatched new nodes for an unmatched old node. *)
Inductive possible_step : MatchState -> MatchState -> Prop :=
  | possible_commit st o c :
      o.1 = Old → c.1 = New → o ∉ info_matched st → c ∉ info_matched st →
      possible_step st (commit o c st)
  | possible_add st o S :
      o.1 = Old → o ∉ info_matched st →
      (∀ n, n ∈ S → n.1 = New ∧ n ∉ info_matched st) →
      possible_step st (add_possible o S st).

(** Every committed pair is an old node and a new node, both marked as
    matched. *)
Definition state_ok (st : MatchState) : Prop :=
  ∀ o n, res_matched st !! o = Some n →
         o.1 = Old ∧ n.1 = New ∧ o ∈ info_matched st ∧ n ∈ info_matched st.

(** Every pair of matched parents is an old node and a new node. *)
Definition parents_ok (st : MatchState) : Prop :=
  ∀ op np, (op, np) ∈ matched_parents st → op.1 = Old ∧ np.1 = New.

(** Every candidate set belongs to an old node and holds new nodes
    outside [B]. *)
Definition possible_ok (B : gset Ref) (st : MatchState) : Prop :=
  ∀ o S, res_possible st !! o = Some S →
         o.1 = Old ∧ ∀ n, n ∈ S → n.1 = New ∧ n ∉ B.

(** C2 as the specification words it: no value of [matched] lies in a
    candidate set of [possible] or is a key of [possible]. *)
Definition matched_apart (r : Result) : Prop :=
  ∀ o n, matched r !! o = Some n →
         (∀ o' S, possible r !! o' = Some S → n ∉ S) ∧ possible r !! n = None.

(** The match of the two screens; their screenshots are empty. *)
Definition demo_match : option Result :=
  o ← Layout.build "old" old_screen [];
  n ← Layout.build "new" new_screen [];
  match_layout o n (key_points (fun _ _ => []) o n).

(** The nodes of [l] that are not matched yet: the measure of the loops
    that run to a fixed point. *)
Definition pending (l : list Ref) (st : MatchState) : nat :=
  length (filter (fun o => o ∉ info_matched st) l).

(** ** The repair driver ([gsrb/repair/repair.py]) *)

Module Repair.

(** The part of a repair session that a single step reads and writes. *)
Record t : Type := mk { testcase : list Step; result : list Step; current : Z }.

(** How a method of the session ends: it returns, the session quits
    with an exit code, an exception escapes, or a loop of the layout or of
    the match runs out of fuel. *)
Inductive outcome (W : Type) : Type :=
  | Returned (b : bool) (self : t) (w : W)
  | Quit (code : Z) (self : t) (w : W)
  | Crashed (e : exn)
  | Diverged.
Arguments Returned {W} b self w.
Arguments Quit {W} code self w.
Arguments Crashed {W} e.
Arguments Diverged {W}.

Section Device.

(** The state of the device and of the files of the session. *)
Variable World : Type.

(** [device.dump_hierarchy()] and [device.screenshot(format="raw")] *)
Variable dump : World -> (string * list Byte.byte) * World.

(** [event.perform(device)], with the wait that follows it. *)
Variable perform : Event -> World -> bool * World.

(** [self.__save(succeed)] and [device.app_stop(package)] *)
Variable save : bool -> t -> World -> World.
Variable app_stop : World -> World.

(** [fromstring] of the standard library, on the well-formed XML of the
    dumps and of the record, and the key points of OpenCV. *)
Variable fromstring : string -> Element.
Variable sift : list Byte.byte -> list Byte.byte -> list (KeyPoint * KeyPoint).

(** [self.__capture()] *)
Definition __capture (w : World) : option Layout.t * World :=
  let '((xml, png), w) := dump w in
  (Layout.init fromstring xml png, w).

(** [self.__quit(succeed)] *)
Definition __quit (succeed : bool) (self : t) (w : World) : outcome World :=
  Quit (if succeed then 0 else -1) self (app_stop (save succeed self w)).

Definition ui_of (l : Layout.t) : Ui := mkUi (Layout.xml l) (Layout.png l).

(** [self.__try(step, offset)] *)
Definition __try (step : Step) (offset : Z) (self : t) (w : World) : outcome World :=
  match __capture w with
  | (None, _) => Diverged
  | (Some layout_before, w) =>
      match perform (event step) w with
      | (true, w) =>
          match __capture w with
          | (None, _) => Diverged
          | (Some layout_after, w) =>
              Returned true
                (mk (testcase self)
                    (result self
                     ++ [mkStep (event step) (ui_of layout_before) (ui_of layout_after)])%list
                    (current self + offset))
                w
          end
      | (false, w) => Returned false self w
      end
  end.

(** [replace(event, locator=locator)] *)
Definition with_locator (e : Event) (l : Locator) : Event :=
  mkEvent (action e) (Some l) (parameter e).

(** [self.__match(step, offset)] *)
Definition __match (step : Step) (offset : Z) (self : t) (w : World) : outcome World :=
  if Event.is_assertion (event step) then Returned false self w
  else
    match locator (event step) with
    | None => __try step offset self w
    | Some locator =>
        match __capture w with
        | (None, _) => Diverged
        | (Some layout_before, w) =>
            match Layout.init fromstring (ui_x (ui_before step)) (ui_p (ui_before step)) with
            | None => Diverged
            | Some base_layout =>
                match match_layout base_layout layout_before
                        (key_points sift base_layout layout_before) with
                | None => Diverged
                | Some res =>
                    match Locator.find_in_layout locator (Layout.root base_layout) with
                    | Raised e => Crashed e
                    | Ok None => __quit false self w
                    | Ok (Some old_child) =>
                        match matched res !! (Old, old_child.1) with
                        | Some target =>
                            match Locator.from_node (elem base_layout layout_before target) with
                            | Raised e => Crashed e
                            | Ok locator =>
                                let new_event := with_locator (event step) locator in
                                match perform new_event w with
                                | (true, w) =>
                                    match __capture w with
                                    | (None, _) => Diverged
                                    | (Some layout_after, w) =>
                                        if tree_equal (Layout.root layout_before)
                                                      (Layout.root layout_after)
                                        then Returned true
                                               (mk (testcase self) (result self)
                                                   (current self + offset)) w
                                        else Returned true
                                               (mk (testcase self)
                                                   (result self
                                                    ++ [mkStep new_event (ui_of layout_before)
                                                               (ui_of layout_after)])%list
                                                   (current self + offset)) w
                                    end
                                | (false, w) => __quit false self w
                                end
                            end
                        | None => Returned false self w
                        end
                    end
                end
            end
        end
    end.

End Device.

End Repair.

(** ** A device for the two screens

    The device shows [new_screen] until an event is performed and
    [after_screen] from then on; every event succeeds. *)

Definition after_screen : Element :=
  mkElement "hierarchy" ∅ [text_view "p:id/c" "done" "[0,0][100,100]"].

Definition demo_parse (xml : string) : Element :=
  if String.eqb xml "old" then old_screen
  else if String.eqb xml "new" then new_screen
  else after_screen.

Definition demo_dump (w : nat) : (string * list Byte.byte) * nat :=
  ((if (w =? 0)%nat then "new" else "after", []), w).

Definition demo_perform (e : Event) (w : nat) : bool * nat := (true, Datatypes.S w).

Definition demo_step : Step :=
  mkStep (mkEvent CLICK (Some (mkLocator {[TEXT := "hello"]} 0)) []) (mkUi "old" []) Ui0.

Definition demo_session : Repair.t := Repair.mk [demo_step] [] 0.

(** The sum of the depths of the ancestors chosen so far: the measure of
    the loop of [get_non_overlap]. *)
Definition chosen_depths (result : list (path * path)) : nat :=
  list_sum (map (fun kv : path * path => length kv.2) result).

(** ** The nodes of the repository's tests *)

Definition documents_node : Element :=
  node [("resource-id", "com.veniosg.dir:id/primary_info"); ("content-desc", "Documents");
        ("text", "Documents"); ("class", "android.widget.TextView")] [].

Definition test_node1 : Element :=
  node [("resource-id", "android:id/id1"); ("text", "text1")] [].
Definition test_node2 : Element :=
  node [("resource-id", "android:id/id1"); ("text", "text2")] [].
Definition test_node3 : Element :=
  node [("resource-id", "android:id/bx1"); ("text", "text3")] [].

Definition packages_root : Element :=
  mkElement "hierarchy" ∅
    [node [("package", "a")] []; node [("package", "b")] []; node [("package", "a")] []].

(** A screen with one widget, matched against a second parse of itself. *)
Definition one_widget : Element :=
  mkElement "hierarchy" ∅ [text_view "p:id/title" "Settings" "[0,0][200,80]"].

Definition smoke_match : option Result :=
  o ← Layout.build "one" one_widget [];
  n ← Layout.build "one" one_widget [];
  match_layout o n (key_points (fun _ _ => []) o n).

(** The stages of [__match] for [demo_step] on the device of the two
    screens, up to the comparison of the trees: the layouts before and
    after, and the rewritten locator. *)
Definition demo_stages : option (Layout.t * Layout.t * Locator) :=
  before ← Layout.init demo_parse "new" [];
  base ← Layout.init demo_parse "old" [];
  r ← match_layout base before (key_points (fun _ _ => []) base before);
  old_child ← match Locator.find_in_layout (mkLocator {[TEXT := "hello"]} 0)
                      (Layout.root base) with
              | Ok found => found
              | Raised _ => None
              end;
  target ← matched r !! (Old, old_child.1);
  loc ← match Locator.from_node (elem base before target) with
        | Ok l => Some l
        | Raised _ => None
        end;
  after ← Layout.init demo_parse "after" [];
  if tree_equal (Layout.root before) (Layout.root after) then None
  else Some (before, after, loc).

(** ** Differences of matched nodes ([is_diff] of [gsrb/match/predictors.py]) *)

(** [attr_list] of [is_diff] *)
Definition attr_list : list string :=
  ["resource-id"; "text"; "content-desc"; "class";
   "resource-id-index"; "text-index"; "content-desc-index"; "class-index"].

(** [is_diff(a, b, diff_dict=..)]: what it returns, and [diff_dict] after
    the call. *)
Definition is_diff (a b : Element) (diff_dict : option (list (string * (string * string))))
  : bool * option (list (string * (string * string))) :=
  foldl
    (fun (acc : bool * option (list (string * (string * string)))) attr =>
       let '(result, diff_dict) := acc in
       let attr_a := get_or a attr "" in
       let attr_b := get_or b attr "" in
       let diff_dict := option_map (dict_set attr (attr_a, attr_b)) diff_dict in
       (if negb (String.eqb attr_a attr_b) then true else result, diff_dict))
    (false, diff_dict) attr_list.

(** ** More of events and steps ([gsrb/common/event.py], [gsrb/common/step.py]) *)

(** [event.with_parameter(param)] *)
Definition with_parameter (e : Event) (param : jdict) : Event :=
  mkEvent (action e) (locator e) (dict_update (dict_update [] (parameter e)) param).

(** [ui.empty()] *)
Definition empty (u : Ui) : bool :=
  (String.length (ui_x u) =? 0)%nat && (length (ui_p u) =? 0)%nat.

(** [step.has_ui()] *)
Definition has_ui (s : Step) : bool :=
  negb (empty (ui_before s)) && negb (empty (ui_after s)).

(** ** The locator of a recorded call ([gsrb/record/my_device.py]) *)

Module MyDevice.

(** The locator that [MyDevice.__call__] builds from its keyword
    arguments and attaches to the object it returns; [bool] is a subclass
    of [int]. *)
Definition __call__ (kwargs : jdict) : Locator :=
  let criteria :=
    foldl (fun (criteria : gmap Criterion string) (kv : string * JValue) =>
             match Criterion.from_parameter kv.1, kv.2 with
             | Some c, JStr v => <[c := v]> criteria
             | _, _ => criteria
             end)
          ∅ kwargs in
  let instance := default (JInt 0) (dict_get "instance" kwargs) in
  let instance :=
    match instance with
    | JInt i => i
    | JBool b => Z.b2z b
    | _ => 0
    end in
  mkLocator criteria instance.

End MyDevice.

(** ** Generated assertions ([gsrb/record/assertion.py]) *)

(** [Candidate = dict[str, str]] *)
Definition Candidate : Type := list (string * string).

(** [get_target_indices(steps)] *)
Definition get_target_indices (steps : list Step) : gset Z :=
  let length := Z.of_nat (length steps) in
  (if 2 <=? length then {[ (length - 1) / 2 ]} else ∅) ∪ {[ length - 1 ]}.

(** [next(filter(lambda x: x[attr] != "", candidates), None)]: the filter
    is lazy, so [x[attr]] is read up to the first candidate found. *)
Fixpoint first_with (attr : string) (candidates : list Candidate) : raises (option Candidate) :=
  match candidates with
  | [] => Ok None
  | x :: r =>
      match dict_get attr x with
      | None => Raised KeyError
      | Some v => if negb (PyStr.is_empty v) then Ok (Some x) else first_with attr r
      end
  end.

(** [select_candidate(candidates)] *)
Definition select_candidate (candidates : list Candidate) : raises (option Candidate) :=
  (fix go (attrs : list string) : raises (option Candidate) :=
     match attrs with
     | [] => Ok None
     | attr :: r =>
         do n <- first_with attr candidates;
         match n with
         | Some c => Ok (Some c)
         | None => go r
         end
     end) ["t"; "d"; "r"].

(** [to_assertion(candidate)] *)
Definition to_assertion (candidate : option Candidate) : raises (option Event) :=
  match candidate with
  | None => Ok None
  | Some candidate =>
      (fix go (l : list (string * Criterion)) : raises (option Event) :=
         match l with
         | [] => Ok None
         | (attr, c) :: r =>
             match dict_get attr candidate with
             | None => Raised KeyError
             | Some v =>
                 if negb (PyStr.is_empty v)
                 then Ok (Some (mkEvent EXIST (Some (mkLocator {[c := v]} 0))
                                        [("generated", JBool true)]))
                 else go r
             end
         end) [("t", TEXT); ("d", DESC); ("r", ID)]
  end.

Section GenerateAssertion.

(** [retry_ask(layout)] for the layout after the step at a position: the
    candidates that the language model answers. *)
Variable retry_ask : Z -> Ui -> list Candidate.

(** [new_events] of [generate_assertion(target)], which the processor
    writes to [record_with_assertion.txt]. *)
Definition generate_assertion (steps : list Step) : raises (list Event) :=
  let target_indices := get_target_indices steps in
  (fix go (i : Z) (l : list Step) : raises (list Event) :=
     match l with
     | [] => Ok []
     | step :: r =>
         do added <-
           (if bool_decide (i ∈ target_indices)
            then do c <- select_candidate (retry_ask i (ui_after step));
                 do e <- to_assertion c;
                 Ok (match e with Some e => [e] | None => [] end)
            else Ok []);
         do rest <- go (i + 1) r;
         Ok (event step :: added ++ rest)%list
     end) 0 steps.

End GenerateAssertion.

(** A record of two clicks, and answers that name a text only for the
    screen after the second one. *)
Definition demo_recorded : list Step :=
  [mkStep (mkEvent CLICK (Some (mkLocator {[TEXT := "a"]} 0)) []) Ui0 Ui0;
   mkStep (mkEvent CLICK (Some (mkLocator {[TEXT := "b"]} 0)) []) Ui0 Ui0].

Definition demo_answers (i : Z) (u : Ui) : list Candidate :=
  if i =? 1 then [[("t", "Done"); ("d", ""); ("r", "")]]
  else [[("t", ""); ("d", ""); ("r", "")]].

(** ** Measures used in the properties of layouts *)

(** The class of a node, read as empty when absent. *)
Definition class_of (n : Layout.Node) : string := get_or n.2 "class" "".

(** How many nodes of a collection have the class [c]. *)
Definition class_count (c : string) (l : list Layout.Node) : nat :=
  length (filter (fun x => class_of x = c) l).

(** Every member of a list is related to every later one. *)
Fixpoint pairwise {A : Type} (R : A -> A -> Prop) (l : list A) : Prop :=
  match l with
  | [] => True
  | x :: r => Forall (R x) r ∧ pairwise R r
  end.

(** Two children of a layout, [x] met before [n]: [n] does not cover [x]
    when [n] is clickable, and [x] does not cover [n] when [x] is clickable
    and [n] is marked as not clickable. *)
Definition uncovered (x n : Layout.Node) : Prop :=
  (Layout.clickable n.2 "true" = true → is_cover n.2 x.2 = false)
  ∧ (Layout.clickable n.2 "false" = true → Layout.clickable x.2 "true" = true →
     is_cover x.2 n.2 = false).

(** The body of the loop of [get_valid_node]. *)
Definition valid_step (result : list Layout.Node) (n : Layout.Node) : list Layout.Node :=
  let result :=
    if is_child n.2 && Layout.clickable n.2 "true"
    then filter (fun x : Layout.Node => negb (is_child x.2 && is_cover n.2 x.2)) result
    else result in
  if is_child n.2 && Layout.clickable n.2 "false"
     && (0 <? length (filter (fun m : Layout.Node =>
                                is_child m.2 && Layout.clickable m.2 "true"
                                && is_cover m.2 n.2) result))%nat
  then result
  else (result ++ [n])%list.

(** [uncovered] for two nodes that satisfy [is_child]. *)
Definition uncovered_children (x n : Layout.Node) : Prop :=
  is_child x.2 = true → is_child n.2 = true → uncovered x n.

(** No other node of the tree that satisfies [is_child] covers [n]. *)
Definition never_covered (root : Element) (n : Layout.Node) : Prop :=
  ∀ m, m ∈ iter_node_at [] root → m.1 ≠ n.1 → is_child m.2 = true →
       is_cover m.2 n.2 = false.

(** No two keys of a dictionary of nodes have the same value. *)
Definition one_to_one (m : gmap Ref Ref) : Prop :=
  ∀ o o' n, m !! o = Some n → m !! o' = Some n → o = o'.

(** The resource id of a node, read as empty when absent. *)
Definition rid_of (n : Layout.Node) : string := get_or n.2 "resource-id" "".

(** What the loop of [get_non_overlap] keeps: the keys stay as they are,
    and every value is an ancestor of its key or the key itself. *)
Definition chosen_ok (keys : list path) (result : list (path * path)) : Prop :=
  result.*1 = keys ∧ ∀ k v, (k, v) ∈ result → v `prefix_of` k.

(** A screen with a list of two rows, each holding one text; the two
    texts share their resource id. *)
Definition list_screen : Element :=
  mkElement "hierarchy" ∅
    [node [("class", "android.widget.LinearLayout"); ("bounds", "[0,0][100,200]")]
       [node [("class", "android.widget.LinearLayout"); ("bounds", "[0,0][100,100]")]
          [text_view "p:id/item" "one" "[0,0][100,50]"];
        node [("class", "android.widget.LinearLayout"); ("bounds", "[0,100][100,200]")]
          [text_view "p:id/item" "two" "[0,100][100,150]"]]].

Definition list_texts : list Layout.Node :=
  [([0; 0; 0]%nat, text_view "p:id/item" "one" "[0,0][100,50]");
   ([0; 1; 0]%nat, text_view "p:id/item" "two" "[0,100][100,150]")].

(** ** The rank that an index denotes *)

(** The attributes of the [node] elements of a tree, in document order. *)
Definition node_attribs (e : Element) : list (gmap string string) :=
  map attrib (iter_node e).

(** [denote_index] passes over a node with the attributes [a]. *)
Definition skipped (a : gmap string string) : bool :=
  PyStr.startswith "com.google.android" (default "" (a !! "resource-id")).

(** How many of the nodes with the attributes [pre] that [denote_index]
    does not pass over have the value [v] for the attribute [k]. *)
Definition occurrences (k v : string) (pre : list (gmap string string)) : nat :=
  length (filter (fun a => skipped a = false ∧ default "" (a !! k) = v) pre).

(** The index attributes of a node with the attributes [a] are the ranks
    of its values among the nodes [pre]: for each of the four attributes,
    [-1] when its value is empty, and else the number of nodes of [pre]
    with that value. *)
Definition ranked (pre : list (gmap string string)) (a : gmap string string) : Prop :=
  skipped a = false →
  ∀ k, k ∈ index_attrs →
    a !! (k ++ "-index")
    = Some (if PyStr.is_empty (default "" (a !! k)) then PyStr.str (-1)
            else PyStr.str (Z.of_nat (occurrences k (default "" (a !! k)) pre))).

(** Every node of [l] is ranked among [pre] and the nodes before it. *)
Definition all_ranked (pre l : list (gmap string string)) : Prop :=
  ∀ (j : nat) a, l !! j = Some a → ranked (pre ++ take j l) a.

(** The counters of [denote_index] after the nodes [pre]. *)
Definition counters_of (pre : list (gmap string string))
    (cs : list (string * gmap string nat)) : Prop :=
  ∃ c1 c2 c3 c4,
    cs = [("class", c1); ("resource-id", c2); ("content-desc", c3); ("text", c4)]
    ∧ ∀ k c, (k, c) ∈ cs → ∀ v, v ≠ "" → default 0%nat (c !! v) = occurrences k v pre.

(** What the loop of [denote_bounds] does to the attributes of a node. *)
Definition bounds_attrib (a : gmap string string) : gmap string string :=
  attrib (bounds_update (mkElement "node" a [])).

(** A screen that shows nothing. *)
Definition empty_screen : Element := mkElement "hierarchy" ∅ [].

(** The changes of a match whose nodes come from two given collections:
    a commit of a node of [O] with a node of [N], an entry of
    [matched_parents], or a candidate set of nodes of [N] for a node of
    [O]. *)
Inductive member_step (O N : Ref -> Prop) : MatchState -> MatchState -> Prop :=
  | member_commit st o c : O o → N c → member_step O N st (commit o c st)
  | member_parent st op np :
      op.1 = Old → np.1 = New → member_step O N st (set_parent op np st)
  | member_possible st o S :
      O o → (∀ n, n ∈ S → N n) → member_step O N st (add_possible o S st).

(** Every pair of [matched] and every candidate set of [possible] is made
    of nodes of the two collections. *)
Definition within (O N : Ref -> Prop) (st : MatchState) : Prop :=
  (∀ o n, res_matched st !! o = Some n → O o ∧ N n)
  ∧ (∀ o S, res_possible st !! o = Some S → O o ∧ ∀ n, n ∈ S → N n).

(** The lists of a layout that the match reads hold children only. *)
Definition lists_of_children (l : Layout.t) : Prop :=
  (∀ k, k ∈ (Layout.non_overlap l).*1 → k ∈ Layout.children l)
  ∧ (∀ k, k ∈ Layout.unique_children l → k ∈ Layout.children l).

(** ** The attempts of the repair loop ([gsrb/repair/repair.py]) *)

Section Attempts.

Variable World : Type.
Variable dump : World -> (string * list Byte.byte) * World.
Variable perform : Event -> World -> bool * World.
Variable save : bool -> Repair.t -> World -> World.
Variable app_stop : World -> World.
Variable fromstring : string -> Element.
Variable sift : list Byte.byte -> list Byte.byte -> list (KeyPoint * KeyPoint).

(** [init_app(device, package, pretest)] and the flag [optimize_explore]
    of the session. *)
Variable init_app : World -> World.
Variable optimize_explore : bool.

(** [a or b] on two calls that return a truth value: [b] runs only when
    [a] returns [False], on the session and the device that [a] leaves. *)
Definition or_else (a : Repair.outcome World)
    (b : Repair.t -> World -> Repair.outcome World) : Repair.outcome World :=
  match a with
  | Repair.Returned false self w => b self w
  | o => o
  end.

(** [self.__exec_assertion(next_step)] *)
Definition __exec_assertion (next_step : bool) (self : Repair.t) (w : World)
  : Repair.outcome World :=
  match py_index (Repair.testcase self)
                 (if next_step then Repair.current self + 1 else Repair.current self) with
  | Raised e => Repair.Crashed e
  | Ok current_step =>
      let current_event := event current_step in
      if Event.is_assertion current_event
      then
        match Repair.__capture World dump fromstring w with
        | (None, _) => Repair.Diverged
        | (Some layout_before, w) =>
            match perform current_event w with
            | (true, w) =>
                Repair.Returned true
                  (Repair.mk (Repair.testcase self)
                     (Repair.result self
                      ++ [mkStep current_event (Repair.ui_of layout_before)
                                 (Repair.ui_of layout_before)])%list
                     (Repair.current self + (if next_step then 2 else 1)))
                  w
            | (false, w) =>
                if next_step then Repair.Returned false self w
                else Repair.__quit World save app_stop false self w
            end
        end
      else Repair.Returned false self w
  end.

(** [self.__match_current()] *)
Definition __match_current (self : Repair.t) (w : World) : Repair.outcome World :=
  match py_index (Repair.testcase self) (Repair.current self) with
  | Raised e => Repair.Crashed e
  | Ok current_step =>
      or_else (__exec_assertion false self w)
              (Repair.__match World dump perform save app_stop fromstring sift current_step 1)
  end.

(** [self.__match_next()] *)
Definition __match_next (self : Repair.t) (w : World) : Repair.outcome World :=
  if Z.of_nat (length (Repair.testcase self)) <=? Repair.current self + 1
  then Repair.Returned false self w
  else
    match py_index (Repair.testcase self) (Repair.current self + 1) with
    | Raised e => Repair.Crashed e
    | Ok next_step =>
        or_else (__exec_assertion true self w)
                (Repair.__match World dump perform save app_stop fromstring sift next_step 2)
    end.

(** [self.__recover()]: the results of the events are dropped. *)
Definition __recover (self : Repair.t) (w : World) : World :=
  foldl (fun w (step : Step) => (perform (event step) w).2) (init_app w) (Repair.result self).

(** [self.__explore(event)]; the counter [explore_time] is left out. *)
Definition __explore (event : Event) (self : Repair.t) (w : World) : Repair.outcome World :=
  let original := Repair.result self in
  match Repair.__capture World dump fromstring w with
  | (None, _) => Repair.Diverged
  | (Some layout_before, w) =>
      match perform event w with
      | (false, w) => Repair.Returned false self w
      | (true, w) =>
          match Repair.__capture World dump fromstring w with
          | (None, _) => Repair.Diverged
          | (Some layout_after, w) =>
              let self1 :=
                Repair.mk (Repair.testcase self)
                  (Repair.result self
                   ++ [mkStep event (Repair.ui_of layout_before) (Repair.ui_of layout_after)])%list
                  (Repair.current self) in
              if optimize_explore
                 && tree_equal (Layout.root layout_before) (Layout.root layout_after)
              then Repair.Returned false
                     (Repair.mk (Repair.testcase self1) original (Repair.current self1)) w
              else
                match or_else (__match_current self1 w) __match_next with
                | Repair.Returned true self2 w => Repair.Returned true self2 w
                | Repair.Returned false self2 w =>
                    let self3 :=
                      Repair.mk (Repair.testcase self2) original (Repair.current self2) in
                    Repair.Returned false self3 (__recover self3 w)
                | o => o
                end
          end
      end
  end.

End Attempts.

(** What a call that returns [b] does to the session when it is to
    advance the pointer by one of [offsets]: on [True] the test case stays,
    the pointer moves on by one of the offsets and at most [grow] steps are
    appended to [result]; on [False] the session is as before. *)
Definition attempted (offsets : list Z) (grow : nat) (b : bool) (self self' : Repair.t)
  : Prop :=
  if b
  then Repair.testcase self' = Repair.testcase self
       ∧ (∃ offset, offset ∈ offsets
                    ∧ Repair.current self' = Repair.current self + offset)
       ∧ ∃ steps, Repair.result self' = (Repair.result self ++ steps)%list
                  ∧ (length steps <= grow)%nat
  else self' = self.

(** How a call ends when it returns or quits: a pointer that moved is
    still within the test case, and the exit code of a quit is [-1]. *)
Definition ends {W : Type} (offsets : list Z) (grow : nat) (self : Repair.t)
    (o : Repair.outcome W) : Prop :=
  match o with
  | Repair.Returned b self' _ =>
      attempted offsets grow b self self'
      ∧ Repair.current self' ≤ Z.of_nat (length (Repair.testcase self'))
  | Repair.Quit code self' _ =>
      code = -1 ∧ Repair.testcase self' = Repair.testcase self
  | _ => True
  end.

(** ** Saving a record ([gsrb/record/manager.py]) *)

(** [sep.join(l)] *)
Fixpoint join (sep : string) (l : list string) : string :=
  match l with
  | [] => EmptyString
  | [x] => x
  | x :: r => (x ++ sep ++ join sep r)%string
  end.

(** The members of a zip file by name, as [ZipFile.NameToInfo] keeps
    them: a member written again under a name replaces the one that a read
    of the name gives. A member is its bytes. *)
Abbreviation ZipFile := (gmap string (list Byte.byte)).

Section Saving.

(** The UTF-8 codec of [writestr] on a [str] and of [read_text]; [None]
    is [UnicodeDecodeError]. *)
Variable utf8_encode : string -> list Byte.byte.
Variable utf8_decode : list Byte.byte -> option string.

(** [json.dumps(v, ensure_ascii=False)], [draw_element] of
    [gsrb/utils/element.py], which draws with PIL, and
    [log_in_memory.getvalue()]. *)
Variable json_dumps : JValue -> string.
Variable draw_element : list Byte.byte -> string -> option Locator -> list Byte.byte.
Variable log : string.

(** [zf.writestr(name, data)] with [data] a [str] or [bytes] *)
Definition writestr (name : string) (data : string) (zf : ZipFile) : ZipFile :=
  <[name := utf8_encode data]> zf.

Definition writestr_bytes (name : string) (data : list Byte.byte) (zf : ZipFile) : ZipFile :=
  <[name := data]> zf.

(** [zipfile.Path(zf)] as the root of a record; a missing member raises. *)
Definition opened (zf : ZipFile) : Archive :=
  mkArchive (fun name => zf !! name ≫= utf8_decode) (fun name => zf !! name).

(** [event.to_json()] of [JsonMixin] *)
Definition to_json (e : Event) : string := json_dumps (JDict (Event.to_dict e)).

(** The name [ui/<n><ext>] of a snapshot. *)
Definition ui_name (n : Z) (ext : string) : string :=
  ("ui/" ++ PyStr.str n ++ ext)%string.

(** One round of the loop of [save_to_zip] over [enumerate(steps)]. *)
Definition save_step (draw : bool) (acc : ZipFile * Z) (step : Step) : ZipFile * Z :=
  let '(zf, i) := acc in
  let zf :=
    if negb draw
    then writestr_bytes (ui_name (i * 2) ".png") (ui_p (ui_before step)) zf
    else writestr_bytes (ui_name (i * 2) ".png")
           (draw_element (ui_p (ui_before step)) (ui_x (ui_before step))
                         (locator (event step))) zf in
  let zf := writestr (ui_name (i * 2) ".xml") (ui_x (ui_before step)) zf in
  let zf := writestr_bytes (ui_name (i * 2 + 1) ".png") (ui_p (ui_after step)) zf in
  let zf := writestr (ui_name (i * 2 + 1) ".xml") (ui_x (ui_after step)) zf in
  (zf, i + 1).

(** [save_to_zip(target, pretest, draw)(steps)]: the zip file written,
    which is opened anew. *)
Definition save_to_zip (pretest : option string) (draw : bool) (steps : list Step) : ZipFile :=
  let zf := (foldl (save_step draw) (∅, 0) steps).1 in
  let content := join nl (map (fun x : Step => to_json (event x)) steps) in
  let zf := writestr "record.txt" content zf in
  let zf :=
    match pretest with
    | Some pretest => writestr "pretest.py" pretest zf
    | None => zf
    end in
  writestr "gsrb.debug.log" log zf.

End Saving.

(** A line of a record that [load_testcase] takes as one event: it has
    no line break and is not blank. *)
Definition one_line (s : string) : Prop :=
  split_lines s = [s] ∧ String.length (PyStr.strip s) ≠ 0%nat.

(** The snapshots of the step number [i] are in the zip file. *)
Definition stored (utf8_encode : string -> list Byte.byte) (zf : ZipFile) (i : Z) (s : Step)
  : Prop :=
  zf !! ui_name (i * 2) ".png" = Some (ui_p (ui_before s))
  ∧ zf !! ui_name (i * 2) ".xml" = Some (utf8_encode (ui_x (ui_before s)))
  ∧ zf !! ui_name (i * 2 + 1) ".png" = Some (ui_p (ui_after s))
  ∧ zf !! ui_name (i * 2 + 1) ".xml" = Some (utf8_encode (ui_x (ui_after s))).

(** A recorded click with its two snapshots, and a serializer that
    writes the line that [demo_json] reads as this click. *)
Definition saved_step : Step :=
  mkStep (mkEvent CLICK (Some (mkLocator {[TEXT := "a"]} 0)) [])
         (mkUi "<hierarchy n='0'/>" [Byte.x00]) (mkUi "<hierarchy n='1'/>" [Byte.x01]).

Definition demo_dumps (v : JValue) : string := "click a".

(** ** The candidates of an exploration ([gsrb/match/predictors.py]) *)

(** [a < b] on two tuples of integers. *)
Fixpoint tuple_ltb (a b : list Z) : bool :=
  match a, b with
  | [], [] => false
  | [], _ :: _ => true
  | _ :: _, [] => false
  | x :: a', y :: b' => (x <? y) || ((x =? y) && tuple_ltb a' b')
  end.

(** [sorted(l, key=key)]: the sort is stable, an item goes behind the
    items whose key is not larger. *)
Fixpoint insert_by {A : Type} (key : A -> list Z) (x : A) (l : list A) : list A :=
  match l with
  | [] => [x]
  | y :: r => if tuple_ltb (key x) (key y) then x :: y :: r else y :: insert_by key x r
  end.

Definition sorted {A : Type} (key : A -> list Z) (l : list A) : list A :=
  foldl (fun acc x => insert_by key x acc) [] l.

(** [default_filter(candidates)] and [default_key(candidate)] *)
Definition default_filter (candidates : list Layout.Node) : list Layout.Node := candidates.

Definition default_key (candidate : Element) : list Z :=
  let coord := coordinates candidate in [y0 coord; x0 coord].

(** [key] of [optimize_filter_generator] *)
Definition filter_key (e : Element) : list Z :=
  let coord := coordinates e in
  [if String.eqb (get_or e "class" "") "android.widget.TextView" then 0 else 1;
   y0 coord; x0 coord;
   Z.of_nat (String.length (get_or e "text" ""));
   Z.of_nat (String.length (get_or e "content-desc" ""))].

Definition not_clickable_classes : list string :=
  ["android.widget.CheckBox"; "android.widget.EditText"; "android.widget.Switch"].

(** The first loop of [func]: the candidates outside [non_overlap] go to
    [result], the others to the group of their region in [temp]. *)
Definition group_step (non_overlap : list (path * path))
    (acc : list Layout.Node * list (path * list Layout.Node)) (candidate : Layout.Node)
  : list Layout.Node * list (path * list Layout.Node) :=
  let '(result, temp) := acc in
  match dict_lookup candidate.1 non_overlap with
  | None => ((result ++ [candidate])%list, temp)
  | Some region =>
      (result,
       dict_set region (default [] (dict_lookup region temp) ++ [candidate])%list temp)
  end.

(** The item that the second loop of [func] appends for a group; a group
    of [temp] is never empty. *)
Definition chosen (siblings : list Layout.Node) : list Layout.Node :=
  if (length siblings =? 1)%nat
  then take 1 siblings
  else take 1 (sorted (fun n : Layout.Node => filter_key n.2) siblings).

(** [optimize_filter_generator(non_overlap)(candidates)] *)
Definition optimize_filter_generator (non_overlap : list (path * path))
    (candidates : list Layout.Node) : list Layout.Node :=
  let candidates :=
    filter (fun x : Layout.Node =>
              negb (bool_decide (get_or x.2 "class" "" ∈ not_clickable_classes)))
           candidates in
  let '(result, temp) := foldl (group_step non_overlap) ([], []) candidates in
  foldl (fun result siblings => (result ++ chosen siblings)%list) result temp.*2.

(** The region of a node in [non_overlap]. *)
Definition region_of (non_overlap : list (path * path)) (n : Layout.Node) : option path :=
  dict_lookup n.1 non_overlap.

(** ** What preprocessing leaves alone *)

(** The attributes that [denote_index] and [denote_bounds] write. *)
Definition denoted_attrs : list string :=
  ["class-index"; "resource-id-index"; "content-desc-index"; "text-index";
   "x"; "y"; "w"; "h"].

(** Two trees of the same shape and tags whose elements agree on every
    attribute outside [keys], and on all attributes where the tag is not
    [node]. *)
Inductive same_but (keys : list string) : Element -> Element -> Prop :=
  | same_but_intro (e e' : Element) :
      tag e' = tag e →
      (∀ k, k ∉ keys → attrib e' !! k = attrib e !! k) →
      (tag e ≠ "node" → attrib e' = attrib e) →
      Forall2 (same_but keys) (children e) (children e') →
      same_but keys e e'.

(** The end of the processor of [generate_assertion(target)]: the member
    [record_with_assertion.txt] that it adds to the zip file of the
    record. *)
Definition record_with_assertion (utf8_encode : string -> list Byte.byte)
    (json_dumps : JValue -> string) (new_events : list Event) (zf : ZipFile) : ZipFile :=
  writestr utf8_encode "record_with_assertion.txt"
    (join nl (map (to_json json_dumps) new_events)) zf.

(** A serializer for the click of [saved_step] and the assertion that is
    generated for it, and the answer that names the text [b]. *)
Definition assertion_dumps (v : JValue) : string :=
  match v with
  | JDict (("action", JStr a) :: _) => if String.eqb a "CLICK" then "click a" else "exist b"
  | _ => ""
  end.

Definition assertion_answers (i : Z) (u : Ui) : list Candidate :=
  [[("t", "b"); ("d", ""); ("r", "")]].

(** ** Performing an event ([gsrb/common/action.py], [gsrb/common/event.py]) *)

(** How [Action.perform] ends: it returns, it raises an exception of
    Python, or the device raises [UiObjectNotFoundError]. *)
Inductive performed (W : Type) : Type :=
  | Performed (w : W)
  | Raises (e : exn)
  | NotFound.
Arguments Performed {W} w.
Arguments Raises {W} e.
Arguments NotFound {W}.

Section Performing.

(** The state of the device and the objects of uiautomator2. *)
Variable World : Type.
Variable UiObject : Type.

(** The calls of uiautomator2 that the two methods make. [find] is
    the call of the device with the keyword arguments, indexed, which builds an object and does not reach
    the device. A call on an object gives [None] when the device raises
    [UiObjectNotFoundError]. [py_eq] is [==] on two values. *)
Variable press : string -> World -> World.
Variable swipe : JValue -> JValue -> JValue -> JValue -> World -> World.
Variable find : list (string * string) -> Z -> UiObject.
Variable click : UiObject -> World -> option World.
Variable long_click : UiObject -> World -> option World.
Variable set_text : JValue -> UiObject -> World -> option World.
Variable exists_ : UiObject -> World -> bool.
Variable info : UiObject -> World -> option jdict.
Variable py_eq : JValue -> JValue -> bool.

(** [d[k]] on a dictionary *)
Definition item (d : jdict) (k : string) : raises JValue :=
  match dict_get k d with
  | Some v => Ok v
  | None => Raised KeyError
  end.

Definition called (r : option World) : performed World :=
  match r with
  | Some w => Performed w
  | None => NotFound
  end.

(** [assert ui_object.info[parameter["attr"]] == parameter["oracle"]],
    and the same with [!=] when [equal] is false: the info is read first,
    then the two parameters in turn. An attribute that is no string is no
    key of the info, and a list or a dictionary cannot be hashed. *)
Definition assert_info (equal : bool) (o : UiObject) (parameter : jdict) (w : World)
  : performed World :=
  match info o w with
  | None => NotFound
  | Some d =>
      match item parameter "attr" with
      | Raised e => Raises e
      | Ok attr =>
          match attr with
          | JStr attr =>
              match item d attr with
              | Raised e => Raises e
              | Ok v =>
                  match item parameter "oracle" with
                  | Raised e => Raises e
                  | Ok oracle =>
                      if Bool.eqb (py_eq v oracle) equal then Performed w
                      else Raises AssertionError
                  end
              end
          | JList _ | JDict _ => Raises TypeError
          | _ => Raises KeyError
          end
      end
  end.

(** [action.perform(device, ui_object, parameter=parameter)] *)
Definition Action_perform (a : Action) (ui_object : option UiObject) (parameter : jdict)
    (w : World) : performed World :=
  match ui_object with
  | None =>
      match a with
      | BACK => Performed (press "back" w)
      | SWIPE =>
          match item parameter "fx" with
          | Raised e => Raises e
          | Ok fx =>
              match item parameter "fy" with
              | Raised e => Raises e
              | Ok fy =>
                  match item parameter "tx" with
                  | Raised e => Raises e
                  | Ok tx =>
                      match item parameter "ty" with
                      | Raised e => Raises e
                      | Ok ty => Performed (swipe fx fy tx ty w)
                      end
                  end
              end
          end
      | _ => Raises ValueError
      end
  | Some o =>
      match a with
      | CLICK => called (click o w)
      | LONG_CLICK => called (long_click o w)
      | SET_TEXT =>
          match item parameter "text" with
          | Raised e => Raises e
          | Ok text => called (set_text text o w)
          end
      | EXIST => if exists_ o w then Performed w else Raises AssertionError
      | NOT_EXIST => if exists_ o w then Raises AssertionError else Performed w
      | EQUAL => assert_info true o parameter w
      | NOT_EQUAL => assert_info false o parameter w
      | _ => Raises ValueError
      end
  end.

(** [event.perform(device)]: [AssertionError], [ValueError] and
    [UiObjectNotFoundError] give [False], any other exception escapes. *)
Definition Event_perform (e : Event) (w : World) : raises bool * World :=
  let ui_object :=
    match locator e with
    | None => None
    | Some l => Some (find (Locator.to_kwargs l) (index l))
    end in
  match Action_perform (action e) ui_object (parameter e) w with
  | Performed w' => (Ok true, w')
  | NotFound => (Ok false, w)
  | Raises AssertionError => (Ok false, w)
  | Raises ValueError => (Ok false, w)
  | Raises x => (Raised x, w)
  end.

End Performing.

(** The events that the recorder makes ([gsrb/record/my_device.py],
    [gsrb/record/my_uiobject.py]): [press("back")] and [swipe] of
    [MyDevice], and the seven methods of [MyUiObject] on an object with a
    locator. *)
Inductive recorded : Event -> Prop :=
  | recorded_press : recorded (mkEvent BACK None [])
  | recorded_swipe (fx fy tx ty : Z) :
      recorded (mkEvent SWIPE None
                        [("fx", JInt fx); ("fy", JInt fy); ("tx", JInt tx); ("ty", JInt ty)])
  | recorded_click (l : Locator) : recorded (mkEvent CLICK (Some l) [])
  | recorded_long_click (l : Locator) : recorded (mkEvent LONG_CLICK (Some l) [])
  | recorded_set_text (l : Locator) (text : string) :
      recorded (mkEvent SET_TEXT (Some l) [("text", JStr text)])
  | recorded_assert_exists (l : Locator) : recorded (mkEvent EXIST (Some l) [])
  | recorded_assert_not_exists (l : Locator) : recorded (mkEvent NOT_EXIST (Some l) [])
  | recorded_assert_equals (l : Locator) (attr oracle : string) :
      recorded (mkEvent EQUAL (Some l) [("attr", JStr attr); ("oracle", JStr oracle)])
  | recorded_assert_not_equals (l : Locator) (attr oracle : string) :
      recorded (mkEvent NOT_EQUAL (Some l) [("attr", JStr attr); ("oracle", JStr oracle)]).

(** * Properties *)

(** ** Examples from the docstrings and tests *)

Example lower_ex : PyStr.lower "Hello World" = "hello world".
Proof. reflexivity. Qed.

Example strip_ex : PyStr.strip "  a b  " = "a b".
Proof. reflexivity. Qed.

Example sub_spaces_ex : PyStr.sub_spaces "a  b   c" = "a b c".
Proof. reflexivity. Qed.

Example str_ex : PyStr.str (-50) = "-50" /\ PyStr.str 0 = "0" /\ PyStr.int "-1" = Some (-1).
Proof. repeat split; reflexivity. Qed.

Example coordinates_ex :
  coordinates_str "[189,1174][404,1231]" = mkCoordinate 189 1174 404 1231
  /\ coordinates_str "[100, 100][400, 400]" = mkCoordinate 100 100 400 400
  /\ coordinates_str "[1,2][3,4" = mkCoordinate 0 0 0 0
  /\ coordinates (node [] []) = mkCoordinate 0 0 0 0.
Proof. repeat split; reflexivity. Qed.

Example is_cover_ex :
  is_cover (node [("bounds", "[100, 100][400, 400]")] [])
           (node [("bounds", "[0,0][500,250]")] []) = true.
Proof. reflexivity. Qed.

Example is_overlap_ex :
  is_overlap (node [("bounds", "[100, 100][300, 300]")] [])
             (node [("bounds", "[200, 200][400, 400]")] []) = true.
Proof. reflexivity. Qed.

(** The test of [denote_index] in the repository's test suite. *)
Example denote_index_ex :
  let root :=
    mkElement "hierarchy" ∅
      [node [("text", "a")] [node [("text", "b")] []];
       node [("text", "b")] [];
       node [("text", "a")] []] in
  map (fun e => (get e "text-index", get e "class-index")) (iter_node (denote_index root))
  = [(Some "0", Some "-1"); (Some "0", Some "-1"); (Some "1", Some "-1"); (Some "1", Some "-1")].
Proof. vm_compute. reflexivity. Qed.

Example denote_bounds_ex :
  let root := denote_bounds (node [("bounds", "[100,100][200,250]")] []) in
  get root "x" = Some "100" /\ get root "w" = Some "100" /\ get root "h" = Some "150".
Proof. vm_compute. repeat split; reflexivity. Qed.

(** ** Text and tree lemmas *)

Lemma int_str (z : Z) : PyStr.int (PyStr.str z) = Some z.
Proof.
  unfold PyStr.int, PyStr.str.
  rewrite NilZero.isi.
  - simpl. f_equal. apply DecimalZ.of_to.
  - destruct z; simpl; try discriminate.
    intros [= H]. revert H. apply DecimalPos.Unsigned.to_uint_nonnil.
  - destruct z; simpl; try discriminate.
    intros [= H]. revert H. apply DecimalPos.Unsigned.to_uint_nonnil.
Qed.

(** Induction on elements with the hypothesis on every child. *)
Lemma Element_forall_ind (P : Element -> Prop) :
  (∀ t a cs, Forall P cs → P (mkElement t a cs)) → ∀ e, P e.
Proof.
  intros step. fix IH 1. intros [t a cs]. apply step.
  induction cs as [|c cs IHcs]; constructor; [apply IH | exact IHcs].
Qed.

Lemma map_accum_Forall {S A B : Type} (f : S -> A -> S * B)
    (Inv : S -> Prop) (R : B -> Prop) (l : list A) :
  Forall (fun x => ∀ s, Inv s → Inv (f s x).1 ∧ R (f s x).2) l →
  ∀ s, Inv s → Inv (map_accum f s l).1 ∧ Forall R (map_accum f s l).2.
Proof.
  induction 1 as [|x r Hx _ IH]; intros s Hs; simpl.
  - split; [exact Hs | constructor].
  - destruct (Hx s Hs) as [H1 H2].
    destruct (f s x) as [s1 y]; simpl in *.
    destruct (IH s1 H1) as [H3 H4].
    destruct (map_accum f s1 r) as [s2 ys]; simpl in *.
    split; [exact H3 | constructor; assumption].
Qed.

Lemma Forall_flat_map {A B : Type} (P : B -> Prop) (f : A -> list B) (l : list A) :
  Forall (fun x => Forall P (f x)) l → Forall P (flat_map f l).
Proof.
  induction 1; simpl; [constructor | apply Forall_app; split; assumption].
Qed.

(** ** Bounds *)

Lemma digits_value_nonneg (s d rest : string) (acc : Z) :
  Bounds.digits s = (d, rest) → 0 ≤ acc → 0 ≤ Bounds.value_from acc d.
Proof.
  revert d rest acc. induction s as [|c r IH]; intros d rest acc; simpl.
  - intros [= <- <-] Hacc. exact Hacc.
  - destruct (PyStr.is_digit c) eqn:Hc.
    + destruct (Bounds.digits r) as [d' rest'] eqn:Hr.
      intros [= <- <-] Hacc. simpl. eapply IH; [reflexivity|].
      unfold PyStr.is_digit in Hc.
      apply andb_true_iff in Hc as [H1 H2].
      apply Nat.leb_le in H1. lia.
    + intros [= <- <-] Hacc. exact Hacc.
Qed.

Lemma number_nonneg (s rest : string) (v : Z) :
  Bounds.number s = Some (v, rest) → 0 ≤ v.
Proof.
  unfold Bounds.number. destruct (Bounds.digits s) as [d r] eqn:Hd.
  destruct (PyStr.is_empty d); [discriminate|].
  intros [= <- <-]. eapply digits_value_nonneg; [exact Hd | lia].
Qed.

Lemma parse_nonneg (b : string) (c : Coordinate) :
  Bounds.parse b = Some c → 0 ≤ x0 c ∧ 0 ≤ y0 c ∧ 0 ≤ x1 c ∧ 0 ≤ y1 c.
Proof.
  unfold Bounds.parse. intros H.
  repeat match type of H with
         | (_ ≫= _) = Some _ => apply bind_Some in H as (? & ? & H)
         | (let '(_, _) := ?p in _) = Some _ => destruct p
         | (if ?b then _ else _) = Some _ => destruct b; [|discriminate]
         end.
  injection H as <-. simpl.
  repeat match goal with
         | Hn : Bounds.number _ = Some _ |- _ => apply number_nonneg in Hn
         end.
  auto.
Qed.

Lemma coordinates_nonneg (e : Element) :
  0 ≤ x0 (coordinates e) ∧ 0 ≤ y0 (coordinates e)
  ∧ 0 ≤ x1 (coordinates e) ∧ 0 ≤ y1 (coordinates e).
Proof.
  unfold coordinates, coordinates_str.
  destruct (Bounds.parse _) as [c|] eqn:Hp; simpl.
  - eapply parse_nonneg, Hp.
  - lia.
Qed.

(** ** Preprocessing *)

Lemma denote_bounds_Forall (P Q : Element -> Prop) :
  attr_pred P → (∀ e, Q e → P (bounds_update e)) →
  ∀ t, Forall Q (iter_node t) → Forall P (iter_node (denote_bounds t)).
Proof.
  intros HP HQ. induction t as [t a cs IH] using Element_forall_ind.
  simpl. intros H. apply Forall_app in H as [Hself Hcs].
  apply Forall_app; split.
  - case_bool_decide as Ht; simpl.
    + rewrite bool_decide_eq_true_2 by done.
      constructor; [|constructor].
      apply Forall_inv in Hself.
      eapply HP; [|apply HQ, Hself]. reflexivity.
    + rewrite bool_decide_eq_false_2 by done. constructor.
  - clear Hself. induction IH as [|c r Hc _ IHr]; simpl in *; [constructor|].
    apply Forall_app in Hcs as [H1 H2].
    apply Forall_app; split; [apply Hc, H1 | apply IHr, H2].
Qed.

Lemma is_empty_true (s : string) : PyStr.is_empty s = true ↔ s = "".
Proof. destruct s; simpl; split; congruence. Qed.

Ltac lookup_inserts :=
  repeat first [rewrite lookup_insert_eq | rewrite lookup_insert_ne by done].

Lemma index_step_attrib (k : string) (c : gmap string nat) (child : Element) :
  ∃ v, attrib (index_step (k, c) child).2 = <[k ++ "-index" := v]> (attrib child)
       ∧ (index_step (k, c) child).1.1 = k
       ∧ tag (index_step (k, c) child).2 = tag child
       ∧ children (index_step (k, c) child).2 = children child
       ∧ (get_or child k "" ≠ "" → ∃ n : nat, v = PyStr.str (Z.of_nat n)).
Proof.
  unfold index_step.
  destruct (PyStr.is_empty (get_or child k "")) eqn:Hempty; simpl.
  - eexists. repeat split. intros Hne. apply is_empty_true in Hempty. contradiction.
  - eexists. repeat split. intros _. eexists. reflexivity.
Qed.

#[local] Arguments index_step : simpl never.

Lemma index_child_spec (cs : list (string * gmap string nat)) (e : Element) :
  cs.*1 = index_attrs →
  (index_child cs e).1.*1 = index_attrs
  ∧ index_denoted (index_child cs e).2
  ∧ tag (index_child cs e).2 = tag e
  ∧ children (index_child cs e).2 = children e.
Proof.
  intros Hcs. unfold index_child.
  destruct (PyStr.startswith _ _) eqn:Hskip; simpl.
  { split; [done|]. split; [|done]. intros H. unfold index_skipped in H. congruence. }
  destruct cs as [|[k1 c1] [|[k2 c2] [|[k3 c3] [|[k4 c4] [|]]]]]; try discriminate.
  injection Hcs as -> -> -> ->. clear Hskip. simpl.
  destruct (index_step_attrib "class" c1 e) as (v1 & A1 & K1 & T1 & C1 & V1).
  destruct (index_step ("class", c1) e) as [[k1' c1'] e1]. simpl in *. subst k1'.
  destruct (index_step_attrib "resource-id" c2 e1) as (v2 & A2 & K2 & T2 & C2 & V2).
  destruct (index_step ("resource-id", c2) e1) as [[k2' c2'] e2]. simpl in *. subst k2'.
  destruct (index_step_attrib "content-desc" c3 e2) as (v3 & A3 & K3 & T3 & C3 & V3).
  destruct (index_step ("content-desc", c3) e2) as [[k3' c3'] e3]. simpl in *. subst k3'.
  destruct (index_step_attrib "text" c4 e3) as (v4 & A4 & K4 & T4 & C4 & V4).
  destruct (index_step ("text", c4) e3) as [[k4' c4'] e4]. simpl in *. subst k4'.
  split; [reflexivity|].
  split; [|split; congruence].
  unfold get_or, get in V1, V2, V3, V4. cbv [String.append] in A1, A2, A3, A4.
  rewrite A1 in V2. rewrite A2, A1 in V3. rewrite A3, A2, A1 in V4.
  repeat rewrite lookup_insert_ne in V2 by done.
  repeat rewrite lookup_insert_ne in V3 by done.
  repeat rewrite lookup_insert_ne in V4 by done.
  intros _ k Hk Hne. unfold get_or, get in *.
  rewrite A4, A3, A2, A1 in Hne |- *.
  unfold index_attrs in Hk.
  repeat (apply elem_of_cons in Hk as [->|Hk]); [..|by apply elem_of_nil in Hk];
    repeat rewrite lookup_insert_ne in Hne by done; cbv [String.append]; lookup_inserts.
  - destruct (V1 Hne) as [n ->]. by exists n.
  - destruct (V2 Hne) as [n ->]. by exists n.
  - destruct (V3 Hne) as [n ->]. by exists n.
  - destruct (V4 Hne) as [n ->]. by exists n.
Qed.

Lemma index_denoted_attr : attr_pred index_denoted.
Proof.
  intros e e' Heq H. unfold index_denoted, index_skipped, get_or, get in *.
  rewrite <- Heq. exact H.
Qed.

Lemma denote_index_from_spec (e : Element) :
  ∀ cs, cs.*1 = index_attrs →
  (denote_index_from cs e).1.*1 = index_attrs
  ∧ Forall index_denoted (iter_node (denote_index_from cs e).2).
Proof.
  induction e as [t a ch IH] using Element_forall_ind. intros cs Hcs.
  simpl.
  set (e := mkElement t a ch).
  assert (Hself : ∃ cs1 e1,
            (if bool_decide (t = "node") then index_child cs e else (cs, e)) = (cs1, e1)
            ∧ cs1.*1 = index_attrs ∧ tag e1 = t
            ∧ (t = "node" → index_denoted e1)).
  { case_bool_decide as Ht.
    - destruct (index_child_spec cs e Hcs) as (H1 & H2 & H3 & _).
      destruct (index_child cs e) as [cs1 e1]. exists cs1, e1. simpl in *. done.
    - exists cs, e. done. }
  destruct Hself as (cs1 & e1 & -> & Hcs1 & Htag & Hidx).
  pose proof (map_accum_Forall denote_index_from
                (fun s => s.*1 = index_attrs)
                (fun e' => Forall index_denoted (iter_node e')) ch) as Hacc.
  destruct (Hacc IH cs1 Hcs1) as [Hcs2 Hch].
  destruct (map_accum denote_index_from cs1 ch) as [cs2 ch']. simpl in *.
  split; [exact Hcs2|].
  apply Forall_app; split.
  - rewrite Htag. case_bool_decide as Ht; [|constructor].
    constructor; [|constructor].
    eapply index_denoted_attr; [|apply Hidx, Ht]. reflexivity.
  - apply Forall_flat_map, Hch.
Qed.

Lemma coordinates_bounds_update (e : Element) :
  coordinates (bounds_update e) = coordinates e.
Proof.
  unfold coordinates, get_or, get, bounds_update. simpl.
  lookup_inserts. reflexivity.
Qed.

Lemma size_denoted_bounds_update (e : Element) : size_denoted (bounds_update e).
Proof.
  unfold size_denoted. rewrite coordinates_bounds_update.
  pose proof (coordinates_nonneg e) as (Hx0 & Hy0 & Hx1 & Hy1).
  unfold int_attr, get, bounds_update. simpl. lookup_inserts. simpl.
  rewrite !int_str. repeat split; lia.
Qed.

Lemma indexed_bounds_update (e : Element) :
  index_denoted e → index_skipped (bounds_update e) = false → indexed (bounds_update e).
Proof.
  intros Hq Hskip k Hk Hne.
  assert (Hkeep : index_skipped (bounds_update e) = index_skipped e
                  ∧ get_or (bounds_update e) k "" = get_or e k ""
                  ∧ get (bounds_update e) (k ++ "-index") = get e (k ++ "-index")).
  { unfold index_skipped, get_or, get, bounds_update. simpl.
    pose proof Hk as Hk'. unfold index_attrs in Hk'.
    repeat (apply elem_of_cons in Hk' as [->|Hk']); [..|by apply elem_of_nil in Hk'];
      simpl; lookup_inserts; done. }
  destruct Hkeep as (E1 & E2 & E3).
  rewrite E1 in Hskip. rewrite E2 in Hne.
  destruct (Hq Hskip k Hk Hne) as [n Hn].
  exists (Z.of_nat n). unfold int_attr. rewrite E3, Hn. simpl.
  rewrite int_str. split; [reflexivity | lia].
Qed.

(** C4, amended. After [preprocess], every [node] element of the tree
    carries [x], [y], [w], [h] with [x, y >= 0], [x + w, y + h >= 0],
    [w = x1 - x0], [h = y1 - y0] (so [w >= 0] when [x0 <= x1] and [h >= 0]
    when [y0 <= y1]); and every [node] element whose [resource-id] does not
    start with [com.google.android] carries, for each non-empty attribute
    among [class], [resource-id], [content-desc], [text], the matching
    index attribute with a value [>= 0]. *)
Theorem preprocess_denotes (root : Element) :
  Forall (fun e => size_denoted e ∧ (index_skipped e = false → indexed e))
         (iter_node (preprocess root)).
Proof.
  unfold preprocess, denote_index.
  apply denote_bounds_Forall with (Q := index_denoted).
  - intros e e' Heq [H1 H2].
    unfold size_denoted, indexed, index_nonneg, index_skipped,
      coordinates, int_attr, get_or, get in *.
    rewrite <- Heq. split; assumption.
  - intros e He. split; [apply size_denoted_bounds_update|].
    apply indexed_bounds_update, He.
  - apply denote_index_from_spec. reflexivity.
Qed.

(** C4 as stated fails: a node whose [bounds] are [[100,100][50,50]] gets
    [w = -50], and a node whose [resource-id] starts with
    [com.google.android] gets no [resource-id-index]. *)
Lemma preprocess_claim_fails :
  ¬ Forall size_nonneg (iter_node (preprocess bad_root))
  ∧ ¬ Forall indexed (iter_node (preprocess bad_root)).
Proof.
  split; intros H.
  - apply Forall_inv in H. destruct H as (x & y & w & h & _ & _ & Hw & _ & Hpos & _).
    vm_compute in Hw. injection Hw as <-. lia.
  - apply Forall_inv_tail, Forall_inv in H.
    destruct (H "resource-id") as (z & Hz & _).
    + unfold index_attrs. set_solver.
    + vm_compute. discriminate.
    + vm_compute in Hz. discriminate.
Qed.

(** ** Geometry *)

(** What [is_overlap] computes: the right edge of [b] plays no part. *)
Lemma is_overlap_spec (a b : Element) :
  is_overlap a b = true ↔
  x1 (coordinates a) > Z.max (x0 (coordinates a)) (x0 (coordinates b))
  ∧ Z.min (y1 (coordinates a)) (y1 (coordinates b))
    > Z.max (y0 (coordinates a)) (y0 (coordinates b)).
Proof.
  unfold is_overlap. rewrite andb_true_iff, !Z.ltb_lt, Z.min_id. lia.
Qed.

(** C1. The claim is what an overlap test has to compute; [is_overlap]
    does not: for [a = [200,0][400,100]] and [b = [0,0][100,100]], which
    lie side by side, it answers [True], although [min(ax1, bx1) = 100] is
    not above [max(ax0, bx0) = 200]. *)
Theorem is_overlap_side_by_side :
  let a := preprocess (node [("bounds", "[200,0][400,100]")] []) in
  let b := preprocess (node [("bounds", "[0,0][100,100]")] []) in
  is_overlap a b = true ∧ ¬ rectangles_intersect a b.
Proof.
  split; [vm_compute; reflexivity|].
  unfold rectangles_intersect. vm_compute. intros [H _]. discriminate H.
Qed.

(** ** Attribute predicates *)

Lemma lcs_refl (s : list ascii) : Levenshtein.lcs s s = length s.
Proof.
  induction s as [|a s IH]; simpl; [reflexivity|].
  rewrite Ascii.eqb_refl, IH. reflexivity.
Qed.

Lemma length_list_ascii (s : string) :
  length (list_ascii_of_string s) = String.length s.
Proof. induction s; simpl; congruence. Qed.

Lemma ratio_refl (s : string) : Qle_bool like_threshold (Levenshtein.ratio s s) = true.
Proof.
  unfold Levenshtein.ratio, Levenshtein.distance.
  rewrite lcs_refl, length_list_ascii.
  destruct (Nat.eqb_spec (String.length s + String.length s) 0) as [|Hne];
    [reflexivity|].
  apply Qle_bool_iff.
  replace (String.length s + String.length s
           - (String.length s + String.length s - 2 * String.length s))%nat
    with (String.length s + String.length s)%nat by lia.
  set (n := (String.length s + String.length s)%nat) in *.
  apply Qle_shift_div_l.
  - unfold Qlt. simpl. lia.
  - unfold Qle, like_threshold. simpl. lia.
Qed.

Lemma is_empty_false (s : string) : PyStr.is_empty s = false ↔ s ≠ "".
Proof. destruct s; simpl; split; congruence. Qed.

(** C5, amended. Strict [is_match] implies non-strict [is_match];
    [attr_equal(a, b, name)] implies [attr_like(a, b, name)] for every
    attribute name other than [resource-id]; and for [resource-id] it does
    when the two ids, stripped and in lower case, are the same text and
    [process_id] leaves a non-empty part of it. *)
Theorem strict_implies_lenient (a b : Element) :
  (is_match true a b = true → is_match false a b = true)
  ∧ (∀ name : string, name ≠ "resource-id" →
       attr_equal a b name None = true → attr_like a b name None = true)
  ∧ (read_attr a "resource-id" = read_attr b "resource-id" →
     process_id (read_attr a "resource-id") ≠ "" →
     attr_equal a b "resource-id" None = true →
     attr_like a b "resource-id" None = true).
Proof.
  split; [|split].
  - unfold is_match.
    destruct (attr_equal a b "resource-id" None),
      (attr_equal a b "content-desc" None), (attr_equal a b "text" None);
      simpl; congruence.
  - intros name Hname. unfold attr_equal, attr_like.
    apply String.eqb_neq in Hname. rewrite Hname.
    destruct (PyStr.is_empty (read_attr a name) || PyStr.is_empty (read_attr b name));
      [discriminate|].
    intros Heq. apply String.eqb_eq in Heq. rewrite Heq. apply ratio_refl.
  - intros Hsame Hrest _. unfold attr_like. simpl. rewrite <- Hsame.
    apply is_empty_false in Hrest. rewrite Hrest. simpl. apply ratio_refl.
Qed.

(** The amended implication at two nodes with the text [Documents], in
    different case and spacing. *)
Lemma strict_implies_lenient_witness :
  let a := node [("text", "Documents")] [] in
  let b := node [("text", "  documents ")] [] in
  attr_equal a b "text" None = true ∧ attr_like a b "text" None = true.
Proof.
  intros a b.
  assert (H : attr_equal a b "text" None = true) by (vm_compute; reflexivity).
  split; [exact H|].
  apply (proj1 (proj2 (strict_implies_lenient a b)) "text"); [discriminate | exact H].
Defined.

(** C5 as stated fails at [resource-id]: for the id [a:id/], [attr_like]
    compares what follows [:id/], which is empty, and answers [False],
    while [attr_equal] compares the whole id and answers [True]. *)
Lemma attr_equal_not_like :
  let e := node [("resource-id", "a:id/")] [] in
  attr_equal e e "resource-id" None = true ∧ attr_like e e "resource-id" None = false.
Proof. split; vm_compute; reflexivity. Qed.

(** ** Criteria *)

(** C10. A criterion holds exactly when the node has the attribute with
    the identifier as its value: a node without the attribute matches no
    identifier, the empty one included, and case and blanks count, where
    [attr_equal] ignores them. *)
Theorem criterion_call_exact (c : Criterion) (n : Element) (identifier : string) :
  (Criterion.call c n identifier = true ↔ get n (Criterion.attr c) = Some identifier)
  ∧ (get n (Criterion.attr c) = None →
     Criterion.call c n identifier = false ∧ Criterion.call c n "" = false)
  ∧ (let d := node [("text", "Documents")] [] in
     let d' := node [("text", " documents  ")] [] in
     Criterion.call TEXT d "Documents" = true
     ∧ Criterion.call TEXT d "documents" = false
     ∧ Criterion.call TEXT d "Documents " = false
     ∧ Criterion.call TEXT d' "Documents" = false
     ∧ attr_equal d d' "text" None = true).
Proof.
  split; [|split].
  - destruct c; simpl; apply bool_decide_eq_true.
  - intros Hnone. destruct c; simpl in *; rewrite Hnone;
      split; apply bool_decide_eq_false; discriminate.
  - vm_compute. repeat split; reflexivity.
Qed.

(** ** Locators *)

Lemma py_index_minus_one {A : Type} (l : list A) (x : A) :
  last l = Some x → py_index l (-1) = Ok x.
Proof.
  intros Hlast. unfold py_index. rewrite last_lookup in Hlast.
  assert (Hlen : (0 < length l)%nat).
  { apply lookup_lt_Some in Hlast. destruct l; simpl in *; lia. }
  replace (-1 <? 0) with true by reflexivity.
  replace (Z.to_nat (-1 + Z.of_nat (length l))) with (Nat.pred (length l)) by lia.
  rewrite Hlast.
  destruct (Z.leb_spec 0 (-1 + Z.of_nat (length l))); [|lia].
  destruct (Z.ltb_spec (-1 + Z.of_nat (length l)) (Z.of_nat (length l))); [|lia].
  reflexivity.
Qed.

Lemma py_index_below {A : Type} (l : list A) (i : Z) :
  i < - Z.of_nat (length l) → py_index l i = Raised IndexError.
Proof.
  intros Hi. unfold py_index.
  destruct (Z.ltb_spec i 0); [|lia].
  destruct (Z.leb_spec 0 (i + Z.of_nat (length l))); [lia|]. reflexivity.
Qed.

Lemma from_node_chosen (n : Element) (l : Locator) :
  Locator.from_node n = Ok l →
  ∃ c, criteria l = {[c := get_or n (Criterion.attr c) ""]}
       ∧ PyStr.int (get_or n (Criterion.attr c ++ "-index") "0") = Some (index l).
Proof.
  unfold Locator.from_node, Locator.int_or_zero.
  destruct (PyStr.is_empty (get_or n "text" "")); simpl;
    [destruct (PyStr.is_empty (get_or n "content-desc" "")); simpl;
     [destruct (PyStr.is_empty (get_or n "resource-id" "")); simpl|]|].
  all: match goal with
       | |- context [PyStr.int ?s] => destruct (PyStr.int s) eqn:Hint; simpl
       end; intros [= <-].
  - exists CLASS. split; [reflexivity | exact Hint].
  - exists ID. split; [reflexivity | exact Hint].
  - exists DESC. split; [reflexivity | exact Hint].
  - exists TEXT. split; [reflexivity | exact Hint].
Qed.

Lemma from_node_class_fallback (n : Element) :
  get_or n "text" "" = "" → get_or n "content-desc" "" = "" →
  get_or n "resource-id" "" = "" → get n "class-index" = Some "-1" →
  Locator.from_node n = Ok (mkLocator {[CLASS := get_or n "class" ""]} (-1)).
Proof.
  intros Ht Hd Hi Hc. unfold Locator.from_node, Locator.int_or_zero.
  rewrite Ht, Hd, Hi. simpl. unfold get_or at 1. rewrite Hc. reflexivity.
Qed.

(** C9. [from_node] takes the index from the index attribute of the
    attribute it chooses, so it is [-1] when that attribute is [-1], as in
    the fall-back to [class] on a node whose four attributes are empty;
    [find_in_layout] with index [-1] and some node satisfying the criteria
    returns the last such node in document order; and with an index below
    minus the number of such nodes, the access to the list raises
    [IndexError]. *)
Theorem find_in_layout_negative_index :
  (∀ n l, Locator.from_node n = Ok l →
     ∃ c, criteria l = {[c := get_or n (Criterion.attr c) ""]}
          ∧ PyStr.int (get_or n (Criterion.attr c ++ "-index") "0") = Some (index l))
  ∧ (∀ n, get_or n "text" "" = "" → get_or n "content-desc" "" = "" →
          get_or n "resource-id" "" = "" → get n "class-index" = Some "-1" →
          Locator.from_node n = Ok (mkLocator {[CLASS := get_or n "class" ""]} (-1)))
  ∧ (∀ l root, Locator.satisfying l root ≠ [] → index l = -1 →
       ∃ x, last (Locator.satisfying l root) = Some x
            ∧ Locator.find_in_layout l root = Ok (Some x))
  ∧ (∀ l root, Locator.satisfying l root ≠ [] →
       index l < - Z.of_nat (length (Locator.satisfying l root)) →
       Locator.find_in_layout l root = Raised IndexError).
Proof.
  split; [exact from_node_chosen|]. split; [exact from_node_class_fallback|]. split.
  - intros l root Hne Hidx.
    destruct (last (Locator.satisfying l root)) as [x|] eqn:Hlast;
      [|apply last_None in Hlast; contradiction].
    exists x. split; [reflexivity|].
    unfold Locator.find_in_layout. rewrite Hidx.
    destruct (Locator.satisfying l root) as [|y r] eqn:Hs; [contradiction|].
    replace (Z.of_nat (length (y :: r)) =? 0) with false
      by (symmetry; apply Z.eqb_neq; simpl; lia).
    replace (Z.of_nat (length (y :: r)) <=? -1) with false
      by (symmetry; apply Z.leb_gt; lia).
    simpl orb. cbv iota. rewrite (py_index_minus_one _ x Hlast). reflexivity.
  - intros l root Hne Hidx.
    unfold Locator.find_in_layout.
    destruct (Locator.satisfying l root) as [|y r] eqn:Hs; [contradiction|].
    replace (Z.of_nat (length (y :: r)) =? 0) with false
      by (symmetry; apply Z.eqb_neq; simpl; lia).
    replace (Z.of_nat (length (y :: r)) <=? index l) with false
      by (symmetry; apply Z.leb_gt; lia).
    simpl orb. cbv iota. rewrite py_index_below by exact Hidx. reflexivity.
Qed.

(** On a preprocessed screen of two nodes with empty attributes,
    [from_node] of the first node has index [-1], and [find_in_layout]
    resolves it to the second node. *)
Example from_node_blank :
  let root := preprocess blank_nodes in
  (iter_node_at [] root).*1 = [[0%nat]; [1%nat]]
  ∧ (n ← head (iter_node_at [] root); Some (Locator.from_node n.2))
    = Some (Ok (mkLocator {[CLASS := ""]} (-1)))
  ∧ (do found <- Locator.find_in_layout (mkLocator {[CLASS := ""]} (-1)) root;
     Ok (fst <$> found))
    = Ok (Some [1%nat]).
Proof. vm_compute. repeat split; reflexivity. Qed.

Lemma find_in_layout_negative_index_witness :
  let root := preprocess blank_nodes in
  (∃ x, last (Locator.satisfying (mkLocator {[CLASS := ""]} (-1)) root) = Some x
        ∧ Locator.find_in_layout (mkLocator {[CLASS := ""]} (-1)) root = Ok (Some x))
  ∧ Locator.find_in_layout (mkLocator {[CLASS := ""]} (-3)) root = Raised IndexError.
Proof.
  intros root. split.
  - apply (proj1 (proj2 (proj2 find_in_layout_negative_index))).
    + intros H. apply (f_equal length) in H. vm_compute in H. discriminate H.
    + reflexivity.
  - apply (proj2 (proj2 (proj2 find_in_layout_negative_index))).
    + intros H. apply (f_equal length) in H. vm_compute in H. discriminate H.
    + vm_compute. reflexivity.
Defined.

Lemma of_name_name (c : Criterion) : Criterion.of_name (Criterion.name c) = Some c.
Proof. destruct c; reflexivity. Qed.

Lemma read_criteria_items (l : list (Criterion * string)) (c : gmap Criterion string) :
  Locator.read_criteria c (map (fun kv => (Criterion.name kv.1, JStr kv.2)) l)
  = Ok (foldl (fun acc kv => <[kv.1 := kv.2]> acc) c l).
Proof.
  revert c. induction l as [|[k v] r IH]; intros c; simpl; [reflexivity|].
  rewrite of_name_name. apply IH.
Qed.

Lemma foldl_insert_lookup (l : list (Criterion * string)) (c : gmap Criterion string)
    (k : Criterion) :
  NoDup l.*1 →
  foldl (fun acc kv => <[kv.1 := kv.2]> acc) c l !! k
  = match (list_to_map l : gmap Criterion string) !! k with
    | Some v => Some v
    | None => c !! k
    end.
Proof.
  revert c. induction l as [|[k0 v0] r IH]; intros c Hnd; simpl.
  - rewrite lookup_empty. reflexivity.
  - apply NoDup_cons in Hnd as [Hk0 Hnd]. rewrite IH by exact Hnd.
    destruct (decide (k = k0)) as [->|Hne].
    + rewrite lookup_insert_eq.
      rewrite (not_elem_of_list_to_map_1 _ _ Hk0), lookup_insert_eq. reflexivity.
    + rewrite (lookup_insert_ne (list_to_map r)) by done.
      destruct (list_to_map r !! k); [reflexivity|].
      rewrite lookup_insert_ne by done. reflexivity.
Qed.

Lemma foldl_insert_map_to_list (m : gmap Criterion string) :
  foldl (fun acc kv => <[kv.1 := kv.2]> acc) ∅ (map_to_list m) = m.
Proof.
  apply map_eq. intros k.
  rewrite foldl_insert_lookup by apply NoDup_fst_map_to_list.
  rewrite list_to_map_to_list, lookup_empty. destruct (m !! k); reflexivity.
Qed.

(** C6. [from_dict] undoes [to_dict] on every locator, and it drops
    the keys of [criteria] that name no criterion: the dictionary with
    [TEXT] and [NAME] gives the locator with [TEXT] alone and index 0. *)
Theorem locator_round_trip :
  (∀ l : Locator, Locator.from_dict (Locator.to_dict l) = Ok l)
  ∧ Locator.from_dict
      [("criteria", JDict [("TEXT", JStr "Documents"); ("NAME", JStr "bla")])]
    = Ok (mkLocator {[TEXT := "Documents"]} 0).
Proof.
  split; [|reflexivity].
  intros [c i]. unfold Locator.to_dict, Locator.from_dict. simpl.
  destruct (Z.eqb_spec i 0) as [->|Hi]; simpl;
    rewrite read_criteria_items, foldl_insert_map_to_list; reflexivity.
Qed.

(** The tests of [Locator] in the repository: a locator with index 3
    survives the round trip, and the locator read from the dictionary
    with the unknown key [NAME] serializes without it. *)
Example locator_tests :
  Locator.from_dict (Locator.to_dict (mkLocator {[TEXT := "Documents"]} 3))
  = Ok (mkLocator {[TEXT := "Documents"]} 3)
  ∧ (do l <- Locator.from_dict
               [("criteria", JDict [("TEXT", JStr "Documents"); ("NAME", JStr "bla")])];
     Ok (Locator.to_dict l))
    = Ok [("criteria", JDict [("TEXT", JStr "Documents")])].
Proof. split; vm_compute; reflexivity. Qed.

(** ** Record loading *)

Lemma bind_raises_Ok {A B : Type} (r : raises A) (k : A -> raises B) (b : B) :
  bind_raises r k = Ok b → ∃ a, r = Ok a ∧ k a = Ok b.
Proof. destruct r as [a|e]; simpl; [eauto | discriminate]. Qed.

Lemma load_ui_snapshot (root : Archive) (i : Z) (before after : Ui) :
  load_ui root i = Ok (before, after) →
  snapshot root (i * 2) before ∧ snapshot root (i * 2 + 1) after.
Proof.
  unfold load_ui, snapshot, reading. intros H.
  repeat match type of H with
         | bind_raises _ _ = Ok _ => apply bind_raises_Ok in H as (? & ? & H)
         end.
  injection H as <- <-. simpl.
  repeat match goal with
         | Hr : match ?o with Some _ => _ | None => _ end = Ok _ |- _ =>
             destruct o; [injection Hr as ->|discriminate Hr]
         end.
  repeat split; reflexivity.
Qed.

Lemma ui_position_cons (e : Event) (r : list Event) (k : nat) :
  ui_position (e :: r) (Datatypes.S k)
  = (if is_generated e then 0 else 1) + ui_position r k.
Proof.
  unfold ui_position.
  change (take (Datatypes.S k) (e :: r)) with (e :: take k r).
  rewrite filter_cons.
  destruct (is_generated e); simpl; lia.
Qed.

Lemma load_steps_spec (root : Archive) (events : list Event) :
  ∀ (i : Z) (steps : list Step),
  load_steps root i events = Ok steps →
  length steps = length events
  ∧ ∀ (k : nat) (e : Event), events !! k = Some e →
      ∃ s, steps !! k = Some s ∧ event s = e
           ∧ if is_generated e
             then ui_before s = Ui0 ∧ ui_after s = Ui0
             else snapshot root ((i + ui_position events k) * 2) (ui_before s)
                  ∧ snapshot root ((i + ui_position events k) * 2 + 1) (ui_after s).
Proof.
  induction events as [|e r IH]; intros i steps; simpl.
  - intros [= <-]. split; [reflexivity|]. intros k e Hk. discriminate.
  - destruct (is_generated e) eqn:Hgen; intros H.
    + apply bind_raises_Ok in H as (rest & Hrest & [= <-]).
      destruct (IH _ _ Hrest) as [Hlen Hall].
      split; [simpl; congruence|].
      intros [|k] e' Hk; simpl in Hk.
      * injection Hk as <-. exists (mkStep e Ui0 Ui0). rewrite Hgen. done.
      * destruct (Hall k e' Hk) as (s & Hs & He & Hui).
        exists s. split; [exact Hs|]. split; [exact He|].
        rewrite ui_position_cons, Hgen.
        replace (i + (0 + ui_position r k)) with (i + ui_position r k) by lia.
        exact Hui.
    + apply bind_raises_Ok in H as ([before after] & Hui & H).
      apply bind_raises_Ok in H as (rest & Hrest & [= <-]).
      destruct (IH _ _ Hrest) as [Hlen Hall].
      split; [simpl; congruence|].
      intros [|k] e' Hk; simpl in Hk.
      * injection Hk as <-. exists (mkStep e before after). rewrite Hgen.
        split; [reflexivity|]. split; [reflexivity|].
        unfold ui_position. simpl.
        replace (i + Z.of_nat 0) with i by lia.
        apply load_ui_snapshot, Hui.
      * destruct (Hall k e' Hk) as (s & Hs & He & Hsnap).
        exists s. split; [exact Hs|]. split; [exact He|].
        rewrite ui_position_cons, Hgen.
        replace (i + (1 + ui_position r k)) with (i + 1 + ui_position r k) by lia.
        exact Hsnap.
Qed.

Lemma is_generated_true (e : Event) :
  dict_get "generated" (parameter e) = Some (JBool true) → is_generated e = true.
Proof. unfold is_generated. intros ->. reflexivity. Qed.

(** C8. When [load_testcase] returns, its steps follow the events of the
    record one for one; the step of an event whose parameter has
    [generated] true has two empty UIs; and the step of any other event, at
    position [i] among the events that are not generated, has [ui_before]
    from [ui/(2i).xml], [ui/(2i).png] and [ui_after] from [ui/(2i+1).xml],
    [ui/(2i+1).png]. *)
Theorem load_testcase_ui_index (json_loads : string -> raises JValue) (root : Archive)
    (generate : bool) (steps : list Step) (pretest : option string) :
  load_testcase json_loads root generate = Ok (steps, pretest) →
  ∃ events,
    read_events json_loads root generate = Ok events
    ∧ length steps = length events
    ∧ ∀ (k : nat) (e : Event), events !! k = Some e →
        ∃ s, steps !! k = Some s ∧ event s = e
             ∧ (dict_get "generated" (parameter e) = Some (JBool true) →
                ui_before s = Ui0 ∧ ui_after s = Ui0)
             ∧ if is_generated e
               then ui_before s = Ui0 ∧ ui_after s = Ui0
               else snapshot root (2 * ui_position events k) (ui_before s)
                    ∧ snapshot root (2 * ui_position events k + 1) (ui_after s).
Proof.
  unfold load_testcase. intros H.
  apply bind_raises_Ok in H as (events & Hev & H).
  apply bind_raises_Ok in H as (steps' & Hsteps & [= <- <-]).
  exists events. split; [exact Hev|].
  destruct (load_steps_spec _ _ _ _ Hsteps) as [Hlen Hall].
  split; [exact Hlen|].
  intros k e Hk. destruct (Hall k e Hk) as (s & Hs & He & Hui).
  exists s. split; [exact Hs|]. split; [exact He|]. split.
  - intros Hg. apply is_generated_true in Hg. rewrite Hg in Hui. exact Hui.
  - destruct (is_generated e); [exact Hui|].
    replace (2 * ui_position events k) with ((0 + ui_position events k) * 2) by lia.
    exact Hui.
Qed.

Example load_testcase_demo :
  (do r <- load_testcase demo_json demo_archive true;
   Ok (map (fun s => (action (event s), ui_x (ui_before s), ui_x (ui_after s))) r.1, r.2))
  = Ok ([(CLICK, "<hierarchy n='0'/>", "<hierarchy n='1'/>");
         (EXIST, "", "");
         (CLICK, "<hierarchy n='2'/>", "<hierarchy n='3'/>")], None).
Proof. vm_compute. reflexivity. Qed.

Lemma load_testcase_ui_index_witness :
  ∃ steps pretest,
    load_testcase demo_json demo_archive true = Ok (steps, pretest)
    ∧ ∃ events,
        read_events demo_json demo_archive true = Ok events
        ∧ length steps = length events
        ∧ ∀ (k : nat) (e : Event), events !! k = Some e →
            ∃ s, steps !! k = Some s ∧ event s = e
                 ∧ (dict_get "generated" (parameter e) = Some (JBool true) →
                    ui_before s = Ui0 ∧ ui_after s = Ui0)
                 ∧ if is_generated e
                   then ui_before s = Ui0 ∧ ui_after s = Ui0
                   else snapshot demo_archive (2 * ui_position events k) (ui_before s)
                        ∧ snapshot demo_archive (2 * ui_position events k + 1) (ui_after s).
Proof.
  eexists _, _. split.
  - vm_compute. reflexivity.
  - eapply load_testcase_ui_index. vm_compute. reflexivity.
Defined.

(** ** Matching: the final phase *)

Lemma elem_of_foldl_union (l : list (gset Ref)) (acc : gset Ref) (x : Ref) :
  x ∈ foldl (fun a b => a ∪ b) acc l ↔ x ∈ acc ∨ ∃ S, S ∈ l ∧ x ∈ S.
Proof.
  revert acc. induction l as [|S l IH]; intros acc; simpl.
  - split; [auto|]. intros [H|(S & HS & _)]; [exact H|]. by apply elem_of_nil in HS.
  - rewrite IH, elem_of_union. split.
    + intros [[H|H]|(S' & HS' & Hx)].
      * by left.
      * right. exists S. split; [apply list_elem_of_here | exact H].
      * right. exists S'. split; [by apply list_elem_of_further | exact Hx].
    + intros [H|(S' & HS' & Hx)].
      * left. by left.
      * apply elem_of_cons in HS' as [->|HS'].
        -- left. by right.
        -- right. exists S'. done.
Qed.

Lemma elem_of_map_values {K V : Type} `{Countable K} (m : gmap K V) (v : V) :
  v ∈ (map_to_list m).*2 ↔ ∃ k, m !! k = Some v.
Proof.
  rewrite list_elem_of_fmap. split.
  - intros ([k v'] & -> & Hkv). exists k. by apply elem_of_map_to_list.
  - intros (k & Hk). exists (k, v). split; [reflexivity|]. by apply elem_of_map_to_list.
Qed.

(** What the final phase computes from the state the phases leave. *)
Lemma finalize_spec (old new : Layout.t) (st : MatchState) :
  let r := finalize old new st in
  matched r = res_matched st ∧ possible r = res_possible st
  ∧ (∀ x, x ∈ old_not_matched r ↔
          x ∈ refs Old (Layout.children old)
          ∧ matched r !! x = None ∧ possible r !! x = None)
  ∧ (∀ x, x ∈ new_not_matched r ↔
          x ∈ refs New (Layout.children new)
          ∧ (∀ o, matched r !! o ≠ Some x)
          ∧ (∀ o S, possible r !! o = Some S → x ∉ S))
  ∧ score r
    = (let total := (size (matched r) + size (possible r) + size (old_not_matched r))%nat in
       if (total =? 0)%nat then 0%Q
       else (inject_Z (Z.of_nat (size (matched r) + size (possible r)))
             / inject_Z (Z.of_nat total))%Q)
  ∧ (is_match_result r = true ↔ (threshold <= score r)%Q).
Proof.
  intros r. subst r. unfold finalize, set_match_score, set_not_match, result_of. simpl.
  split; [reflexivity|]. split; [reflexivity|]. split; [|split; [|split]].
  - intros x. rewrite elem_of_list_to_set, list_elem_of_filter.
    rewrite andb_True, !negb_True, !bool_decide_spec, <- !eq_None_not_Some.
    tauto.
  - intros x. rewrite elem_of_list_to_set, list_elem_of_filter.
    rewrite andb_True, !negb_True, !bool_decide_spec.
    rewrite elem_of_map_values, elem_of_foldl_union. split.
    + intros [[H1 H2] Hin]. split; [exact Hin|]. split.
      * intros o Ho. apply H1. by exists o.
      * intros o S Ho HxS. apply H2. right.
        exists S. split; [|exact HxS]. apply elem_of_map_values. by exists o.
    + intros (Hin & H1 & H2). split; [|exact Hin]. split.
      * intros (o & Ho). by apply (H1 o).
      * intros [Hv|(S & HS & HxS)].
        -- by apply not_elem_of_empty in Hv.
        -- apply elem_of_map_values in HS as (o & Ho). by apply (H2 o S).
  - destruct (_ =? 0)%nat; reflexivity.
  - apply Qle_bool_iff.
Qed.

(** ** Matching: the phases as sequences of changes *)

Lemma foldl_rtc {S A : Type} (R : relation S) (f : S -> A -> S) (l : list A) :
  (∀ s x, x ∈ l → rtc R s (f s x)) → ∀ s, rtc R s (foldl f s l).
Proof.
  induction l as [|x l IH]; intros Hf s; simpl; [apply rtc_refl|].
  eapply rtc_trans.
  - apply Hf, list_elem_of_here.
  - apply IH. intros s' y Hy. apply Hf. by apply list_elem_of_further.
Qed.

Lemma foldl_rtc_fst {S T A : Type} (R : relation S) (f : S * T -> A -> S * T)
    (l : list A) :
  (∀ acc x, x ∈ l → rtc R acc.1 (f acc x).1) →
  ∀ acc, rtc R acc.1 (foldl f acc l).1.
Proof.
  induction l as [|x l IH]; intros Hf acc; simpl; [apply rtc_refl|].
  eapply rtc_trans.
  - apply Hf, list_elem_of_here.
  - apply IH. intros s' y Hy. apply Hf. by apply list_elem_of_further.
Qed.

Lemma while_update_rtc {S : Type} (R : relation S) (body : S -> S * bool) :
  (∀ s, rtc R s (body s).1) →
  ∀ fuel s s', while_update fuel body s = Some s' → rtc R s s'.
Proof.
  intros Hbody. induction fuel as [|fuel IH]; intros s s'; simpl; [discriminate|].
  specialize (Hbody s). destruct (body s) as [s1 update]. simpl in Hbody.
  destruct update.
  - intros H. eapply rtc_trans; [exact Hbody | apply IH, H].
  - intros [= <-]. exact Hbody.
Qed.

Lemma filter_singleton {A : Type} (P : A -> Prop) `{∀ x, Decision (P x)}
    (l : list A) (c : A) :
  filter P l = [c] → P c ∧ c ∈ l.
Proof.
  intros Hf. apply (list_elem_of_filter P l c). rewrite Hf. apply list_elem_of_here.
Qed.

Lemma elem_of_refs (s : Side) (l : list path) (r : Ref) : r ∈ refs s l → r.1 = s.
Proof.
  unfold refs. intros H. apply list_elem_of_fmap in H as (p & -> & _). reflexivity.
Qed.

Lemma unmatched_spec (st : MatchState) (r : Ref) :
  unmatched st r = true ↔ r ∉ info_matched st.
Proof.
  unfold unmatched. rewrite negb_true_iff, bool_decide_eq_false. reflexivity.
Qed.

Section Phases.

Variables old new : Layout.t.

(** The uniqueness rule commits an unmatched node of [olds] with an
    unmatched node of [news]. *)
Lemma match_unique_steps (predictor : Ref -> Ref -> bool) (olds news : list Ref)
    (st : MatchState) :
  (∀ o, o ∈ olds → o.1 = Old) → (∀ n, n ∈ news → n.1 = New) →
  rtc sure_step st (match_unique predictor olds news st).
Proof.
  intros Holds Hnews. unfold match_unique. apply foldl_rtc.
  intros s o Ho.
  destruct (unmatched s o) eqn:Hun; [|apply rtc_refl].
  destruct (filter _ news) as [|c [|c' r]] eqn:Hf; try apply rtc_refl.
  apply filter_singleton in Hf as [Hc Hin].
  apply andb_prop_elim in Hc as [Hc _]. apply Is_true_true in Hc.
  apply rtc_once. constructor.
  - by apply Holds.
  - by apply Hnews.
  - by apply unmatched_spec.
  - by apply unmatched_spec.
Qed.

Lemma match_sibling_steps (o n : Ref) (st : MatchState) :
  rtc sure_step st (match_sibling old new o n st).
Proof.
  unfold match_sibling.
  destruct (dict_lookup o.2 _) as [old_parent|]; [|apply rtc_refl].
  destruct (dict_lookup n.2 _) as [new_parent|]; [|apply rtc_refl].
  eapply rtc_l;
    [apply (sure_parent _ (Old, old_parent) (New, new_parent)); reflexivity|].
  apply foldl_rtc. intros s os Hos.
  destruct (unmatched s os) eqn:Hun; [|apply rtc_refl].
  destruct (filter _ _) as [|c [|c' r]] eqn:Hf; try apply rtc_refl.
  apply filter_singleton in Hf as [Hc Hin].
  apply andb_prop_elim in Hc as [Hc _]. apply Is_true_true in Hc.
  apply rtc_once. constructor.
  - by apply elem_of_refs in Hos.
  - by apply elem_of_refs in Hin.
  - by apply unmatched_spec.
  - by apply unmatched_spec.
Qed.

Lemma match_sure_pass_steps (predictor : Element -> Element -> bool)
    (olds news : list path) (st : MatchState) :
  rtc sure_step st (match_sure_pass old new predictor (refs Old olds) (refs New news) st).1.
Proof.
  unfold match_sure_pass.
  refine (foldl_rtc_fst sure_step _ _ _ (st, false)).
  intros [s u] o Ho. simpl.
  destruct (unmatched s o) eqn:Hun; [|apply rtc_refl].
  destruct (filter _ _) as [|c [|c' r]] eqn:Hf; try apply rtc_refl.
  apply filter_singleton in Hf as [Hc Hin].
  apply andb_prop_elim in Hc as [Hc _]. apply Is_true_true in Hc.
  simpl. eapply rtc_l; [|apply match_sibling_steps].
  constructor.
  - by apply elem_of_refs in Ho.
  - by apply elem_of_refs in Hin.
  - by apply unmatched_spec.
  - by apply unmatched_spec.
Qed.

Lemma match_sure_steps (fuel : nat) (predictor : Element -> Element -> bool)
    (st st' : MatchState) :
  match_sure old new fuel predictor st = Some st' → rtc sure_step st st'.
Proof.
  unfold match_sure. apply while_update_rtc. intros s. apply match_sure_pass_steps.
Qed.

Lemma sift_pass_steps (points : list (KeyPoint * KeyPoint)) (st : MatchState) :
  rtc sure_step st (sift_pass old new points st).1.
Proof.
  unfold sift_pass.
  refine (foldl_rtc_fst sure_step _ _ _ (st, false)).
  intros [s u] o Ho. simpl.
  destruct (sift_eligible old new s o) eqn:Hel; [|apply rtc_refl].
  destruct (_ <? 1)%nat; [apply rtc_refl|].
  destruct (filter _ _) as [|c [|c' r]] eqn:Hf; try apply rtc_refl.
  apply filter_singleton in Hf as [Hc Hin].
  apply andb_prop_elim in Hc as [Hc _]. apply Is_true_true in Hc.
  unfold sift_eligible in Hel, Hc.
  apply andb_true_iff in Hel as [Hel _]. apply andb_true_iff in Hel as [Hel _].
  apply andb_true_iff in Hc as [Hc _]. apply andb_true_iff in Hc as [Hc _].
  simpl. apply rtc_once. constructor.
  - by apply elem_of_refs in Ho.
  - by apply elem_of_refs in Hin.
  - by apply unmatched_spec.
  - by apply unmatched_spec.
Qed.

Lemma sift_match_steps (points : list (KeyPoint * KeyPoint)) (fuel : nat)
    (st st' : MatchState) :
  sift_match old new points fuel st = Some st' → rtc sure_step st st'.
Proof.
  unfold sift_match. apply while_update_rtc. intros s. apply sift_pass_steps.
Qed.

Lemma match_parents_steps (predictor : Element -> Element -> bool) (st : MatchState) :
  rtc sure_step st (match_parents old new predictor st).
Proof.
  unfold match_parents.
  refine (foldl_rtc_fst sure_step _ _ _ (st, ∅)).
  intros [s u] o Ho. simpl.
  destruct (negb _); [|apply rtc_refl].
  destruct (filter _ _) as [|c [|c' r]] eqn:Hf; try apply rtc_refl.
  apply filter_singleton in Hf as [_ Hin].
  simpl. apply rtc_once. constructor.
  - by apply elem_of_refs in Ho.
  - by apply elem_of_refs in Hin.
Qed.

Lemma optimize_match_steps (predictor : Element -> Element -> bool) (st : MatchState) :
  parents_ok st → rtc sure_step st (optimize_match old new predictor st).
Proof.
  intros Hok. unfold optimize_match. apply foldl_rtc.
  intros s [op np] Hin. destruct (Hok op np Hin) as [Hop Hnp].
  apply match_unique_steps.
  - intros o Ho. apply elem_of_refs in Ho. congruence.
  - intros n Hn. apply elem_of_refs in Hn. congruence.
Qed.

Lemma unique_match_steps (st : MatchState) :
  rtc sure_step st (unique_match old new st).
Proof.
  unfold unique_match. apply match_unique_steps; intros r Hr; by apply elem_of_refs in Hr.
Qed.

Lemma get_unique_possible_elem (attr : string) (o c : Ref) (candidates : list Ref) :
  get_unique_possible old new attr o candidates = Some c → c ∈ candidates.
Proof.
  unfold get_unique_possible. destruct (negb _); [|discriminate].
  destruct (filter _ _) as [|c0 [|c' r]] eqn:Hf; try discriminate.
  intros [= <-]. by apply filter_singleton in Hf as [_ Hin].
Qed.

Lemma unique_possible_elem (o c : Ref) (candidates : list Ref) :
  unique_possible old new o candidates = Some c → c ∈ candidates.
Proof.
  unfold unique_possible.
  destruct (get_unique_possible old new "text" o candidates) eqn:H1.
  { intros [= <-]. eapply get_unique_possible_elem, H1. }
  destruct (get_unique_possible old new "content-desc" o candidates) eqn:H2.
  { intros [= <-]. eapply get_unique_possible_elem, H2. }
  destruct (get_unique_possible old new "resource-id" o candidates) eqn:H3;
    [|discriminate].
  destruct (negb _); [|discriminate].
  intros [= <-]. eapply get_unique_possible_elem, H3.
Qed.

Lemma match_possible_steps (predictor : Element -> Element -> bool) (st : MatchState) :
  rtc possible_step st (match_possible old new predictor st).
Proof.
  unfold match_possible. apply foldl_rtc. intros s o Ho.
  destruct (unmatched s o) eqn:Hun; [|apply rtc_refl].
  destruct (0 <? length _)%nat; [|apply rtc_refl].
  assert (Hcand : ∀ n, n ∈ filter (fun new_child : Ref =>
                                     unmatched s new_child
                                     && predictor (elem old new o) (elem old new new_child))
                                  (refs New (Layout.children new)) →
                       n.1 = New ∧ n ∉ info_matched s).
  { intros n Hn. apply list_elem_of_filter in Hn as [Hp Hin].
    apply andb_prop_elim in Hp as [Hp _]. apply Is_true_true in Hp.
    split; [by apply elem_of_refs in Hin | by apply unmatched_spec]. }
  destruct (unique_possible _ _ _ _) as [c|] eqn:Hu; apply rtc_once.
  - apply unique_possible_elem, Hcand in Hu as [Hside Hfree].
    constructor; [by apply elem_of_refs in Ho | exact Hside
                 | by apply unmatched_spec | exact Hfree].
  - constructor; [by apply elem_of_refs in Ho | by apply unmatched_spec|].
    intros n Hn. apply Hcand. by apply elem_of_list_to_set in Hn.
Qed.

End Phases.

(** ** Matching: invariants *)

Lemma elem_of_dict_set {K V : Type} `{EqDecision K} (k : K) (v : V)
    (d : list (K * V)) (kv : K * V) :
  kv ∈ dict_set k v d → kv = (k, v) ∨ kv ∈ d.
Proof.
  induction d as [|[k' v'] d IH]; simpl.
  - intros H. apply list_elem_of_singleton in H. by left.
  - destruct (decide (k = k')) as [->|Hne]; intros H;
      apply elem_of_cons in H as [->|H].
    + by left.
    + right. by apply list_elem_of_further.
    + right. apply list_elem_of_here.
    + destruct (IH H) as [->|Hin]; [by left|]. right. by apply list_elem_of_further.
Qed.

Lemma commit_ok (o c : Ref) (st : MatchState) :
  o.1 = Old → c.1 = New → state_ok st → state_ok (commit o c st).
Proof.
  intros Ho Hc Hok o' n'. unfold commit. simpl.
  destruct (decide (o = o')) as [<-|Hne].
  - rewrite lookup_insert_eq. intros [= <-]. set_solver.
  - rewrite lookup_insert_ne by done. intros H.
    destruct (Hok _ _ H) as (? & ? & ? & ?). set_solver.
Qed.

Lemma sure_step_inv (st st' : MatchState) :
  sure_step st st' → state_ok st → parents_ok st →
  state_ok st' ∧ parents_ok st'
  ∧ res_possible st' = res_possible st
  ∧ info_matched st ⊆ info_matched st'.
Proof.
  intros [s o c Ho Hc _ _|s op np Hop Hnp] Hok Hpar.
  - split; [by apply commit_ok|]. split; [exact Hpar|].
    split; [reflexivity | simpl; set_solver].
  - split; [exact Hok|]. split; [|done].
    intros op' np' Hin. simpl in Hin.
    apply elem_of_dict_set in Hin as [[= -> ->]|Hin]; [done | by apply Hpar].
Qed.

Lemma sure_steps_inv (st st' : MatchState) :
  rtc sure_step st st' → state_ok st → parents_ok st →
  state_ok st' ∧ parents_ok st'
  ∧ res_possible st' = res_possible st
  ∧ info_matched st ⊆ info_matched st'.
Proof.
  induction 1 as [s|s1 s2 s3 Hstep _ IH]; intros Hok Hpar; [done|].
  destruct (sure_step_inv _ _ Hstep Hok Hpar) as (Hok2 & Hpar2 & Hpos2 & Hsub2).
  destruct (IH Hok2 Hpar2) as (Hok3 & Hpar3 & Hpos3 & Hsub3).
  split; [done|]. split; [done|]. split; [by rewrite Hpos3 | by etrans].
Qed.

Lemma possible_step_inv (B : gset Ref) (st st' : MatchState) :
  possible_step st st' → state_ok st → B ⊆ info_matched st → possible_ok B st →
  state_ok st' ∧ B ⊆ info_matched st' ∧ possible_ok B st'
  ∧ res_matched st ⊆ res_matched st'.
Proof.
  intros [s o c Ho Hc Hofree _|s o S Ho Hofree HS] Hok HB Hpos.
  - split; [by apply commit_ok|]. split; [simpl; set_solver|]. split; [exact Hpos|].
    simpl. apply insert_subseteq.
    destruct (res_matched s !! o) as [n|] eqn:Hlook; [exfalso|done].
    destruct (Hok _ _ Hlook) as (_ & _ & Hin & _). contradiction.
  - split; [exact Hok|]. split; [exact HB|]. split; [|done].
    intros o' S'. simpl. destruct (decide (o = o')) as [<-|Hne].
    + rewrite lookup_insert_eq. intros [= <-]. split; [exact Ho|].
      intros n Hn. destruct (HS n Hn) as [Hside Hfree]. split; [exact Hside|].
      intros HnB. apply Hfree, HB, HnB.
    + rewrite lookup_insert_ne by done. apply Hpos.
Qed.

Lemma possible_steps_inv (B : gset Ref) (st st' : MatchState) :
  rtc possible_step st st' → state_ok st → B ⊆ info_matched st → possible_ok B st →
  state_ok st' ∧ possible_ok B st' ∧ res_matched st ⊆ res_matched st'.
Proof.
  induction 1 as [s|s1 s2 s3 Hstep _ IH]; intros Hok HB Hpos; [done|].
  destruct (possible_step_inv B _ _ Hstep Hok HB Hpos) as (Hok2 & HB2 & Hpos2 & Hsub2).
  destruct (IH Hok2 HB2 Hpos2) as (Hok3 & Hpos3 & Hsub3).
  split; [done|]. split; [done|]. by etrans.
Qed.

Lemma state0_ok : state_ok state0 ∧ parents_ok state0 ∧ res_possible state0 = ∅.
Proof.
  split; [|split; [|reflexivity]].
  - intros o n H. simpl in H. by rewrite lookup_empty in H.
  - intros op np H. simpl in H. by apply elem_of_nil in H.
Qed.

Lemma sure_phases_steps (old new : Layout.t) (points : list (KeyPoint * KeyPoint))
    (st : MatchState) :
  sure_phases old new points = Some st → rtc sure_step state0 st.
Proof.
  unfold sure_phases. intros H.
  apply bind_Some in H as (st1 & H1 & H). apply bind_Some in H as (st2 & H2 & H).
  apply bind_Some in H as (st3 & H3 & [= <-]).
  apply match_sure_steps in H1, H2. apply sift_match_steps in H3.
  assert (H123 : rtc sure_step state0 st3) by (etrans; [exact H1|]; by etrans).
  destruct state0_ok as (Hok0 & Hpar0 & _).
  assert (Hpar : parents_ok (match_parents old new (is_match false) st3)).
  { eapply (sure_steps_inv state0); [|done|done].
    etrans; [exact H123|]. apply match_parents_steps. }
  etrans; [exact H123|]. etrans; [apply match_parents_steps|].
  etrans; [by apply optimize_match_steps|]. apply unique_match_steps.
Qed.

Lemma score_unit (m t : nat) :
  (m <= t)%nat → (t ≠ 0)%nat →
  (0 <= inject_Z (Z.of_nat m) / inject_Z (Z.of_nat t)
   ∧ inject_Z (Z.of_nat m) / inject_Z (Z.of_nat t) <= 1)%Q.
Proof.
  intros Hm Ht.
  assert (Hpos : (0 < inject_Z (Z.of_nat t))%Q) by (unfold Qlt; simpl; lia).
  split.
  - apply Qle_shift_div_l; [exact Hpos|]. unfold Qle. simpl. lia.
  - apply Qle_shift_div_r; [exact Hpos|]. unfold Qle. simpl. lia.
Qed.

Lemma finalize_score (old new : Layout.t) (st : MatchState) :
  (0 <= score (finalize old new st) ∧ score (finalize old new st) <= 1)%Q.
Proof.
  unfold finalize, set_match_score, set_not_match, result_of. simpl.
  match goal with
  | |- context [negb (?t =? 0)%nat] => destruct (Nat.eqb_spec t 0) as [|Hne]
  end; simpl.
  - split; unfold Qle; simpl; lia.
  - apply score_unit; [lia | exact Hne].
Qed.

(** C2, amended. For every result of [match_layout]: the score lies in
    [[0, 1]]; no value of [matched] is a key of [possible]; and no value
    that the phases before the possible match committed lies in a
    candidate set of [possible]. A value that the possible match itself
    commits may lie in a candidate set stored earlier in that phase. *)
Theorem match_layout_apart (old new : Layout.t) (points : list (KeyPoint * KeyPoint))
    (r : Result) :
  match_layout old new points = Some r →
  (0 <= score r ∧ score r <= 1)%Q
  ∧ (∀ o n, matched r !! o = Some n → possible r !! n = None)
  ∧ ∃ st, sure_phases old new points = Some st
          ∧ res_matched st ⊆ matched r
          ∧ ∀ o n o' S, res_matched st !! o = Some n →
                        possible r !! o' = Some S → n ∉ S.
Proof.
  unfold match_layout. intros H. apply bind_Some in H as (st & Hst & [= <-]).
  split; [apply finalize_score|].
  pose proof (sure_phases_steps _ _ _ _ Hst) as Hsteps.
  destruct state0_ok as (Hok0 & Hpar0 & Hpos0).
  destruct (sure_steps_inv _ _ Hsteps Hok0 Hpar0) as (Hok & _ & Hpos & _).
  assert (Hposs : possible_ok (info_matched st) st).
  { intros o S. rewrite Hpos, Hpos0, lookup_empty. discriminate. }
  destruct (possible_steps_inv (info_matched st) _ _
              (match_possible_steps old new (is_match false) st) Hok
              (reflexivity _) Hposs) as (Hok' & Hposs' & Hsub).
  destruct (finalize_spec old new (match_possible old new (is_match false) st))
    as (Hm & Hp & _).
  rewrite Hm, Hp. split.
  - intros o n Hon. destruct (Hok' _ _ Hon) as (_ & Hn & _).
    destruct (res_possible _ !! n) as [S|] eqn:HS; [|reflexivity].
    destruct (Hposs' _ _ HS) as [Hside _]. congruence.
  - exists st. split; [exact Hst|]. split; [exact Hsub|].
    intros o n o' S Hon HS HnS.
    destruct (Hok _ _ Hon) as (_ & _ & _ & Hin).
    destruct (Hposs' _ _ HS) as [_ Hfree]. by apply (Hfree n HnS).
Qed.

Lemma demo_match_facts (r : Result) :
  demo_match = Some r →
  matched r !! (Old, [1%nat]) = Some (New, [0%nat])
  ∧ possible r !! (Old, [0%nat]) = Some {[ (New, [0%nat]); (New, [1%nat]) ]}.
Proof.
  intros H.
  assert (E : (r ← demo_match;
               Some (matched r !! (Old, [1%nat]), possible r !! (Old, [0%nat])))
              = Some (Some (New, [0%nat]), Some {[ (New, [0%nat]); (New, [1%nat]) ]}))
    by (vm_compute; reflexivity).
  rewrite H in E. simpl in E. injection E as E1 E2. split; assumption.
Qed.

Lemma demo_match_returns : is_Some demo_match.
Proof.
  assert (E : match demo_match with Some _ => true | None => false end = true)
    by (vm_compute; reflexivity).
  destruct demo_match; [eauto | discriminate E].
Qed.

(** C2 as stated fails. On [old_screen] and [new_screen] the possible
    match first stores, for the old node with id [p:id/a], the two new
    nodes with that id as its candidate set, and then commits the old node
    with text [hello] to the first of them, so a value of [matched] lies in
    a candidate set of [possible]. *)
Lemma match_layout_overlap :
  ∃ r, demo_match = Some r
       ∧ matched r !! (Old, [1%nat]) = Some (New, [0%nat])
       ∧ (∃ S, possible r !! (Old, [0%nat]) = Some S ∧ (New, [0%nat]) ∈ S)
       ∧ ¬ matched_apart r.
Proof.
  destruct demo_match_returns as [r Hr]. exists r. split; [exact Hr|].
  destruct (demo_match_facts r Hr) as [Hm Hp].
  split; [exact Hm|]. split.
  - eexists. split; [exact Hp | set_solver].
  - intros Hclaim. destruct (Hclaim _ _ Hm) as [Hout _].
    apply (Hout _ _ Hp). set_solver.
Qed.

(** The amended C2 on the match of [old_screen] and [new_screen]. *)
Lemma match_layout_apart_witness :
  ∃ o n r,
    Layout.build "old" old_screen [] = Some o ∧ Layout.build "new" new_screen [] = Some n
    ∧ match_layout o n (key_points (fun _ _ => []) o n) = Some r
    ∧ (0 <= score r ∧ score r <= 1)%Q
    ∧ (∀ o' n', matched r !! o' = Some n' → possible r !! n' = None)
    ∧ ∃ st, sure_phases o n (key_points (fun _ _ => []) o n) = Some st
            ∧ res_matched st ⊆ matched r
            ∧ ∀ o1 n1 o2 S, res_matched st !! o1 = Some n1 →
                            possible r !! o2 = Some S → n1 ∉ S.
Proof.
  destruct demo_match_returns as [r Hr]. unfold demo_match in Hr.
  apply bind_Some in Hr as (o & Ho & Hr). apply bind_Some in Hr as (n & Hn & Hr).
  exists o, n, r. split; [exact Ho|]. split; [exact Hn|]. split; [exact Hr|].
  exact (match_layout_apart o n _ r Hr).
Defined.

(** C3. For every result of [match_layout]: [old_not_matched] is
    [old.children] without the keys of [matched] and of [possible];
    [new_not_matched] is [new.children] without the values of [matched]
    and the members of the candidate sets of [possible]; [score] is
    [(|matched| + |possible|) / (|matched| + |possible| + |old_not_matched|)],
    and 0 when that denominator is 0; and [is_match] holds exactly when
    [score >= 0.8]. *)
Theorem match_layout_finalized (old new : Layout.t) (points : list (KeyPoint * KeyPoint))
    (r : Result) :
  match_layout old new points = Some r →
  (∀ x, x ∈ old_not_matched r ↔
        x ∈ refs Old (Layout.children old)
        ∧ matched r !! x = None ∧ possible r !! x = None)
  ∧ (∀ x, x ∈ new_not_matched r ↔
          x ∈ refs New (Layout.children new)
          ∧ (∀ o, matched r !! o ≠ Some x)
          ∧ (∀ o S, possible r !! o = Some S → x ∉ S))
  ∧ score r
    = (let total := (size (matched r) + size (possible r) + size (old_not_matched r))%nat in
       if (total =? 0)%nat then 0%Q
       else (inject_Z (Z.of_nat (size (matched r) + size (possible r)))
             / inject_Z (Z.of_nat total))%Q)
  ∧ (is_match_result r = true ↔ (threshold <= score r)%Q).
Proof.
  unfold match_layout. intros H. apply bind_Some in H as (st & _ & [= <-]).
  apply finalize_spec.
Qed.

(** C3 on the match of [old_screen] and [new_screen], whose score is 1. *)
Lemma match_layout_finalized_witness :
  ∃ o n r,
    Layout.build "old" old_screen [] = Some o ∧ Layout.build "new" new_screen [] = Some n
    ∧ match_layout o n (key_points (fun _ _ => []) o n) = Some r
    ∧ (∀ x, x ∈ old_not_matched r ↔
            x ∈ refs Old (Layout.children o)
            ∧ matched r !! x = None ∧ possible r !! x = None)
    ∧ (∀ x, x ∈ new_not_matched r ↔
            x ∈ refs New (Layout.children n)
            ∧ (∀ o', matched r !! o' ≠ Some x)
            ∧ (∀ o' S, possible r !! o' = Some S → x ∉ S))
    ∧ score r
      = (let total := (size (matched r) + size (possible r) + size (old_not_matched r))%nat in
         if (total =? 0)%nat then 0%Q
         else (inject_Z (Z.of_nat (size (matched r) + size (possible r)))
               / inject_Z (Z.of_nat total))%Q)
    ∧ (is_match_result r = true ↔ (threshold <= score r)%Q).
Proof.
  destruct demo_match_returns as [r Hr]. unfold demo_match in Hr.
  apply bind_Some in Hr as (o & Ho & Hr). apply bind_Some in Hr as (n & Hn & Hr).
  exists o, n, r. split; [exact Ho|]. split; [exact Hn|]. split; [exact Hr|].
  exact (match_layout_finalized o n _ r Hr).
Defined.

Example demo_match_result :
  (r ← demo_match;
   Some (map_to_list (matched r), elements (old_not_matched r),
         elements (new_not_matched r), score r, is_match_result r))
  = Some ([((Old, [1%nat]), (New, [0%nat]))], [], [], (2 # 2)%Q, true).
Proof. vm_compute. reflexivity. Qed.

(** ** Matching: the loops end *)

Lemma filter_length_le {A : Type} (P Q : A -> Prop)
    `{∀ x, Decision (P x)} `{∀ x, Decision (Q x)} (l : list A) :
  (∀ x, Q x → P x) → (length (filter Q l) <= length (filter P l))%nat.
Proof.
  intros HQP. induction l as [|a l IH]; simpl; [lia|].
  rewrite !filter_cons.
  destruct (decide (Q a)) as [Hq|Hq]; destruct (decide (P a)) as [Hp|Hp]; simpl; try lia.
  exfalso. apply Hp, HQP, Hq.
Qed.

Lemma filter_length_lt {A : Type} (P Q : A -> Prop)
    `{∀ x, Decision (P x)} `{∀ x, Decision (Q x)} (l : list A) (x : A) :
  (∀ x, Q x → P x) → x ∈ l → P x → ¬ Q x →
  (length (filter Q l) < length (filter P l))%nat.
Proof.
  intros HQP Hin Hp Hq. induction l as [|a l IH]; [by apply elem_of_nil in Hin|].
  rewrite !filter_cons.
  apply elem_of_cons in Hin as [<-|Hin].
  - destruct (decide (Q x)) as [Hqx|_]; [contradiction|].
    destruct (decide (P x)) as [_|Hpx]; [|contradiction]. simpl.
    pose proof (filter_length_le P Q l HQP). lia.
  - specialize (IH Hin).
    destruct (decide (Q a)) as [Hqa|Hqa]; destruct (decide (P a)) as [Hpa|Hpa];
      simpl; try lia.
    exfalso. apply Hpa, HQP, Hqa.
Qed.

Lemma pending_lt (l : list Ref) (st st' : MatchState) (x : Ref) :
  info_matched st ⊆ info_matched st' →
  x ∈ l → x ∉ info_matched st → x ∈ info_matched st' →
  (pending l st' < pending l st)%nat.
Proof.
  intros Hsub Hin Hout Hin'. unfold pending.
  apply (filter_length_lt _ _ l x); [set_solver | exact Hin | exact Hout | set_solver].
Qed.

Lemma pending_le_length (l : list Ref) (st : MatchState) :
  (pending l st <= length l)%nat.
Proof. unfold pending. apply length_filter. Qed.

Lemma sure_steps_mono (st st' : MatchState) :
  rtc sure_step st st' → info_matched st ⊆ info_matched st'.
Proof.
  induction 1 as [s|s1 s2 s3 Hstep _ IH]; [done|].
  etrans; [|exact IH]. destruct Hstep; simpl; set_solver.
Qed.

(** A round either reports no update or marks a pending node. *)
Lemma foldl_progress (f : MatchState * bool -> Ref -> MatchState * bool) (l : list Ref) :
  (∀ acc x, x ∈ l →
     info_matched (acc.1) ⊆ info_matched ((f acc x).1)
     ∧ ((f acc x).2 = acc.2
        ∨ ((x ∉ info_matched (acc.1)) ∧ x ∈ info_matched (f acc x).1))) →
  ∀ acc,
    info_matched (acc.1) ⊆ info_matched ((foldl f acc l).1)
    ∧ ((foldl f acc l).2 = acc.2
       ∨ ∃ x, x ∈ l ∧ (x ∉ info_matched (acc.1)) ∧ x ∈ info_matched (foldl f acc l).1).
Proof.
  induction l as [|a l IH]; intros Hf acc; simpl; [split; [done | by left]|].
  destruct (Hf acc a (list_elem_of_here _ _)) as [Hsub Hstep].
  destruct (IH (fun acc' x Hx => Hf acc' x (list_elem_of_further _ _ _ Hx)) (f acc a))
    as [Hsub' Hrest].
  split; [by etrans|].
  destruct Hrest as [Heq|(x & Hx & Hout & Hin)].
  - destruct Hstep as [Heq0|[Hout Hin]].
    + left. congruence.
    + right. exists a. split; [apply list_elem_of_here|]. split; [exact Hout|].
      by apply Hsub'.
  - right. exists x. split; [by apply list_elem_of_further|]. split; [|exact Hin].
    intros Hx0. apply Hout. by apply Hsub.
Qed.

Lemma pass_decreases (f : MatchState * bool -> Ref -> MatchState * bool) (l : list Ref)
    (st : MatchState) :
  (∀ acc x, x ∈ l →
     info_matched (acc.1) ⊆ info_matched ((f acc x).1)
     ∧ ((f acc x).2 = acc.2
        ∨ ((x ∉ info_matched (acc.1)) ∧ x ∈ info_matched (f acc x).1))) →
  (foldl f (st, false) l).2 = true →
  (pending l (foldl f (st, false) l).1 < pending l st)%nat.
Proof.
  intros Hf Hupd.
  destruct (foldl_progress f l Hf (st, false)) as [Hsub [Heq|(x & Hx & Hout & Hin)]].
  - simpl in Heq. congruence.
  - eapply pending_lt; eassumption.
Qed.

Lemma while_update_total {S : Type} (mu : S -> nat) (body : S -> S * bool) :
  (∀ s, (body s).2 = true → (mu (body s).1 < mu s)%nat) →
  ∀ fuel s, (mu s < fuel)%nat → is_Some (while_update fuel body s).
Proof.
  intros Hbody. induction fuel as [|fuel IH]; intros s Hs; [lia|]. simpl.
  specialize (Hbody s). destruct (body s) as [s' [|]]; simpl in *.
  - apply IH. specialize (Hbody eq_refl). lia.
  - eauto.
Qed.

Section Termination.

Variables old new : Layout.t.

Lemma match_sure_total (predictor : Element -> Element -> bool) (st : MatchState) :
  is_Some (match_sure old new (Datatypes.S (length (Layout.children old))) predictor st).
Proof.
  unfold match_sure.
  set (olds := refs Old (without (Layout.children old) (Layout.non_unique old))).
  apply (while_update_total (pending olds)).
  - intros s. unfold match_sure_pass. apply pass_decreases.
    intros [s0 u] x Hx. simpl.
    destruct (unmatched s0 x) eqn:Hun; [|split; [done | by left]].
    destruct (filter _ _) as [|c [|c' r]] eqn:Hf; try (split; [done | by left]).
    simpl.
    pose proof (sure_steps_mono _ _
                  (match_sibling_steps old new x c (commit x c s0))) as Hsub.
    simpl in Hsub. split; [set_solver|]. right.
    split; [by apply unmatched_spec | set_solver].
  - pose proof (pending_le_length olds st) as Hle.
    assert (length olds <= length (Layout.children old))%nat; [|lia].
    unfold olds, refs, without. rewrite length_map. apply length_filter.
Qed.

Lemma sift_match_total (points : list (KeyPoint * KeyPoint)) (st : MatchState) :
  is_Some (sift_match old new points (Datatypes.S (length (Layout.children old))) st).
Proof.
  unfold sift_match.
  apply (while_update_total (pending (refs Old (Layout.children old)))).
  - intros s. unfold sift_pass. apply pass_decreases.
    intros [s0 u] x Hx. simpl.
    destruct (sift_eligible old new s0 x) eqn:Hel; [|split; [done | by left]].
    destruct (_ <? 1)%nat; [split; [done | by left]|].
    destruct (filter _ _) as [|c [|c' r]] eqn:Hf; try (split; [done | by left]).
    simpl. split; [set_solver|]. right.
    unfold sift_eligible in Hel.
    apply andb_true_iff in Hel as [Hel _]. apply andb_true_iff in Hel as [Hel _].
    split; [by apply unmatched_spec | set_solver].
  - pose proof (pending_le_length (refs Old (Layout.children old)) st) as Hle.
    assert (length (refs Old (Layout.children old)) = length (Layout.children old))
      by apply length_map.
    lia.
Qed.

(** [match_layout] returns on every pair of layouts: the fuel of its loops
    suffices. *)
Lemma match_layout_returns (points : list (KeyPoint * KeyPoint)) :
  is_Some (match_layout old new points).
Proof.
  unfold match_layout, sure_phases.
  destruct (match_sure_total (is_match true) state0) as [st1 ->]. simpl.
  destruct (match_sure_total (is_like true) st1) as [st2 ->]. simpl.
  destruct (sift_match_total points st2) as [st3 ->]. simpl. eauto.
Qed.

End Termination.

(** ** The single-step match of the repair driver *)

Section SingleStep.

Variable World : Type.
Variable dump : World -> (string * list Byte.byte) * World.
Variable perform : Event -> World -> bool * World.
Variable save : bool -> Repair.t -> World -> World.
Variable app_stop : World -> World.
Variable fromstring : string -> Element.
Variable sift : list Byte.byte -> list Byte.byte -> list (KeyPoint * KeyPoint).

#[local] Abbreviation match_step := (Repair.__match World dump perform save app_stop fromstring sift).
#[local] Abbreviation capture := (Repair.__capture World dump fromstring).

(** C7. In [__match], when the step is no assertion, has a locator, the
    locator resolves in the base layout to a widget that is a key of
    [result.matched], and the rewritten locator can be built: if performing
    the rewritten event fails, the session quits with exit code [-1]; if it
    succeeds and the trees before and after are canonically equal, the
    pointer advances by the offset and nothing is appended to [result];
    otherwise the rewritten step is appended and the pointer advances by
    the offset. *)
Theorem match_step_matched (step : Step) (offset : Z) (self : Repair.t) (w w1 : World)
    (l loc : Locator) (before base : Layout.t) (r : Result)
    (old_child : path * Element) (target : Ref) :
  Event.is_assertion (event step) = false →
  locator (event step) = Some l →
  capture w = (Some before, w1) →
  Layout.init fromstring (ui_x (ui_before step)) (ui_p (ui_before step)) = Some base →
  match_layout base before (key_points sift base before) = Some r →
  Locator.find_in_layout l (Layout.root base) = Ok (Some old_child) →
  matched r !! (Old, old_child.1) = Some target →
  Locator.from_node (elem base before target) = Ok loc →
  let new_event := Repair.with_locator (event step) loc in
  (∀ w2, perform new_event w1 = (false, w2) →
         match_step step offset self w
         = Repair.Quit (-1) self (app_stop (save false self w2)))
  ∧ (∀ w2 w3 after,
       perform new_event w1 = (true, w2) →
       capture w2 = (Some after, w3) →
       (tree_equal (Layout.root before) (Layout.root after) = true →
        match_step step offset self w
        = Repair.Returned true
            (Repair.mk (Repair.testcase self) (Repair.result self)
                       (Repair.current self + offset)) w3)
       ∧ (tree_equal (Layout.root before) (Layout.root after) = false →
          match_step step offset self w
          = Repair.Returned true
              (Repair.mk (Repair.testcase self)
                         (Repair.result self
                          ++ [mkStep new_event (Repair.ui_of before) (Repair.ui_of after)])
                         (Repair.current self + offset)) w3)).
Proof.
  intros Hassert Hloc Hcap Hbase Hmatch Hfind Htarget Hnode new_event.
  unfold Repair.__match.
  rewrite Hassert, Hloc, Hcap, Hbase, Hmatch, Hfind, Htarget, Hnode.
  fold new_event. split.
  - intros w2 ->. reflexivity.
  - intros w2 w3 after -> ->. split; intros ->; reflexivity.
Qed.

End SingleStep.

Lemma Ok_found {A : Type} (r : raises (option A)) (x : A) :
  match r with Ok found => found | Raised _ => None end = Some x → r = Ok (Some x).
Proof. destruct r as [[y|]|e]; congruence. Qed.

Lemma Ok_some {A : Type} (r : raises A) (x : A) :
  match r with Ok l => Some l | Raised _ => None end = Some x → r = Ok x.
Proof. destruct r as [y|e]; congruence. Qed.

(** C7 on the device for the two screens: the step that clicks the text
    [hello] recorded on [old_screen] is matched on [new_screen], its
    rewritten event succeeds and changes the screen, so the step is
    appended and the pointer moves from 0 to 1. *)
Lemma match_step_matched_witness :
  ∃ before after new_event,
    Repair.__match nat demo_dump demo_perform (fun _ _ w => w) (fun w => w)
      demo_parse (fun _ _ => []) demo_step 1 demo_session 0%nat
    = Repair.Returned true
        (Repair.mk [demo_step]
                   [mkStep new_event (Repair.ui_of before) (Repair.ui_of after)] 1)
        1%nat.
Proof.
  assert (Hrun : is_Some demo_stages).
  { assert (E : match demo_stages with Some _ => true | None => false end = true)
      by (vm_compute; reflexivity).
    destruct demo_stages; [eauto | discriminate E]. }
  destruct Hrun as [[[before after] loc] Hrun]. unfold demo_stages in Hrun.
  apply bind_Some in Hrun as (before' & Hbefore & Hrun).
  apply bind_Some in Hrun as (base & Hbase & Hrun).
  apply bind_Some in Hrun as (r & Hr & Hrun).
  apply bind_Some in Hrun as (old_child & Hfind & Hrun).
  apply bind_Some in Hrun as (target & Htarget & Hrun).
  apply bind_Some in Hrun as (loc' & Hloc & Hrun).
  apply bind_Some in Hrun as (after' & Hafter & Hrun).
  destruct (tree_equal (Layout.root before') (Layout.root after')) eqn:Htree;
    [discriminate|].
  injection Hrun as -> -> ->.
  apply Ok_found in Hfind. apply Ok_some in Hloc.
  exists before, after, (Repair.with_locator (event demo_step) loc).
  refine (proj2 (proj2 (match_step_matched nat demo_dump demo_perform (fun _ _ w => w)
                          (fun w => w) demo_parse (fun _ _ => []) demo_step 1 demo_session
                          0%nat 0%nat _ loc before base r old_child target
                          eq_refl eq_refl _ Hbase Hr Hfind Htarget Hloc)
                   1%nat 1%nat after eq_refl _) Htree).
  - unfold Repair.__capture. simpl. by rewrite Hbefore.
  - unfold Repair.__capture. simpl. by rewrite Hafter.
Defined.

(** ** Layouts: the loop of [get_non_overlap] ends *)

Lemma dict_set_depths (k v v' : path) (d : list (path * path)) :
  dict_lookup k d = Some v →
  (chosen_depths (dict_set k v' d) + length v = chosen_depths d + length v')%nat.
Proof.
  unfold chosen_depths.
  induction d as [|[k0 v0] d IH]; simpl; [discriminate|].
  destruct (decide (k = k0)) as [->|Hne]; simpl.
  - intros [= ->]. lia.
  - intros H. specialize (IH H). lia.
Qed.

Lemma dict_set_depths_le (k v : path) (d : list (path * path)) :
  (chosen_depths (dict_set k v d) <= chosen_depths d + length v)%nat.
Proof.
  unfold chosen_depths.
  induction d as [|[k0 v0] d IH]; simpl; [lia|].
  destruct (decide (k = k0)) as [->|Hne]; simpl; lia.
Qed.

Lemma child_parent_shorter (root : Element) (p q : path) :
  Layout.child_parent root !! p = Some q → (length q < length p)%nat.
Proof.
  unfold Layout.child_parent. intros H.
  apply elem_of_list_to_map_2 in H.
  apply list_elem_of_In, in_flat_map in H as ([p0 e0] & _ & H).
  apply list_elem_of_In in H. simpl in H.
  apply elem_of_lookup_imap in H as (i & c & [= -> ->] & _).
  rewrite length_app. simpl. lia.
Qed.

Section NonOverlapEnds.

Variable root : Element.
Variable cp : gmap path path.
Hypothesis cp_shorter : ∀ p q, cp !! p = Some q → (length q < length p)%nat.

Lemma promote_depths (acc : list (path * path) * bool) (child : path) :
  Layout.promote root cp acc child = acc
  ∨ ((Layout.promote root cp acc child).2 = true
     ∧ (chosen_depths (Layout.promote root cp acc child).1 < chosen_depths acc.1)%nat).
Proof.
  destruct acc as [result update]. unfold Layout.promote.
  destruct (dict_lookup child result) as [current_parent|] eqn:Hcur; [|by left].
  destruct (cp !! current_parent) as [next_parent|] eqn:Hnext; [|by left].
  destruct (_ && _); [|by left].
  destruct (forallb _ _); [|by left].
  right. simpl. split; [reflexivity|].
  pose proof (dict_set_depths child current_parent next_parent result Hcur).
  pose proof (cp_shorter _ _ Hnext). lia.
Qed.

Lemma promote_all_depths (keys : list path) (acc : list (path * path) * bool) :
  (chosen_depths (foldl (Layout.promote root cp) acc keys).1 <= chosen_depths acc.1)%nat
  ∧ ((foldl (Layout.promote root cp) acc keys).2 = true →
     acc.2 = true
     ∨ (chosen_depths (foldl (Layout.promote root cp) acc keys).1 < chosen_depths acc.1)%nat).
Proof.
  revert acc. induction keys as [|k keys IH]; intros acc; simpl; [split; [lia | by left]|].
  destruct (IH (Layout.promote root cp acc k)) as [Hle Hupd].
  destruct (promote_depths acc k) as [Heq|[Htrue Hlt]].
  - rewrite Heq in *. split; assumption.
  - split; [lia|]. intros Hfinal. right.
    destruct (Hupd Hfinal) as [_|Hlt']; lia.
Qed.

Lemma get_non_overlap_total (nodes : list Layout.Node) :
  is_Some (Layout.get_non_overlap root cp (Datatypes.S (Layout.depths nodes)) nodes).
Proof.
  unfold Layout.get_non_overlap.
  apply (while_update_total chosen_depths).
  - intros result Hupd.
    destruct (promote_all_depths result.*1 (result, false)) as [_ H].
    destruct (H Hupd) as [Hfalse|Hlt]; [discriminate | exact Hlt].
  - assert (Hinit : ∀ (l : list Layout.Node) (acc : list (path * path)),
               (chosen_depths (foldl (fun acc (child : Layout.Node) =>
                                        dict_set child.1 child.1 acc) acc l)
                <= chosen_depths acc + Layout.depths l)%nat).
    { induction l as [|n l IH]; intros acc; simpl; [unfold Layout.depths; simpl; lia|].
      specialize (IH (dict_set n.1 n.1 acc)).
      pose proof (dict_set_depths_le n.1 n.1 acc).
      unfold Layout.depths in *. simpl. lia. }
    specialize (Hinit nodes []). unfold chosen_depths at 2 in Hinit. simpl in Hinit. lia.
Qed.

End NonOverlapEnds.

(** [Layout(xml, png)] returns on every tree: the fuel of
    [get_non_overlap] suffices. *)
Lemma build_total (xml : string) (parsed : Element) (png : list Byte.byte) :
  is_Some (Layout.build xml parsed png).
Proof.
  unfold Layout.build.
  set (root := preprocess parsed).
  set (groups := Layout.get_list_items (Layout.get_children root)).
  assert (Hfold : ∀ (gs : list (list Layout.Node)) acc,
             is_Some (foldl
               (fun (acc : option (list (path * path) * list path))
                    (group : list Layout.Node) =>
                  '(non_overlap, non_unique) ← acc;
                  no ← Layout.get_non_overlap root (Layout.child_parent root)
                         (Datatypes.S (Layout.depths group)) group;
                  Some (dict_update non_overlap no,
                        (non_unique ++ Layout.get_non_unique group)%list))
               (Some acc) gs)).
  { induction gs as [|g gs IH]; intros acc; simpl; [eauto|].
    destruct acc as [no nu]. simpl.
    destruct (get_non_overlap_total root (Layout.child_parent root)
                (child_parent_shorter root) g) as [r ->].
    simpl. apply IH. }
  destruct (Hfold groups ([], [])) as [items ->]. simpl. eauto.
Qed.

(** ** The single-step match never runs out of fuel *)

Section SingleStepEnds.

Variable World : Type.
Variable dump : World -> (string * list Byte.byte) * World.
Variable perform : Event -> World -> bool * World.
Variable save : bool -> Repair.t -> World -> World.
Variable app_stop : World -> World.
Variable fromstring : string -> Element.
Variable sift : list Byte.byte -> list Byte.byte -> list (KeyPoint * KeyPoint).

Lemma capture_returns (w : World) :
  ∃ l w', Repair.__capture World dump fromstring w = (Some l, w').
Proof.
  unfold Repair.__capture. destruct (dump w) as [[xml png] w'].
  destruct (build_total xml (fromstring xml) png) as [l Hl].
  exists l, w'. unfold Layout.init. by rewrite Hl.
Qed.

Lemma try_step_ends (step : Step) (offset : Z) (self : Repair.t) (w : World) :
  Repair.__try World dump perform fromstring step offset self w ≠ Repair.Diverged.
Proof.
  unfold Repair.__try.
  destruct (capture_returns w) as (l & w1 & ->).
  destruct (perform (event step) w1) as [[|] w2]; [|discriminate].
  destruct (capture_returns w2) as (l' & w3 & ->). discriminate.
Qed.

Lemma match_step_ends (step : Step) (offset : Z) (self : Repair.t) (w : World) :
  Repair.__match World dump perform save app_stop fromstring sift step offset self w
  ≠ Repair.Diverged.
Proof.
  unfold Repair.__match.
  destruct (Event.is_assertion (event step)); [discriminate|].
  destruct (locator (event step)) as [l|]; [|apply try_step_ends].
  destruct (capture_returns w) as (before & w1 & ->).
  unfold Layout.init.
  destruct (build_total (ui_x (ui_before step)) (fromstring (ui_x (ui_before step)))
              (ui_p (ui_before step))) as [base ->].
  destruct (match_layout_returns base before (key_points sift base before)) as [r ->].
  destruct (Locator.find_in_layout l (Layout.root base)) as [[old_child|]|e];
    try discriminate.
  destruct (matched r !! (Old, old_child.1)) as [target|]; [|discriminate].
  destruct (Locator.from_node _) as [loc|e]; [|discriminate].
  destruct (perform _ w1) as [[|] w2]; [|discriminate].
  destruct (capture_returns w2) as (after & w3 & ->).
  destruct (tree_equal _ _); discriminate.
Qed.

End SingleStepEnds.

(** ** Canonical equality of trees *)

Lemma tree_equal_eq (a b : Element) : tree_equal a b = true ↔ a = b.
Proof.
  revert b. induction a as [ta aa ca IH] using Element_forall_ind.
  intros [tb ab cb]. simpl.
  rewrite !andb_true_iff, String.eqb_eq, bool_decide_eq_true.
  assert (Hch : (fix all_equal (xs ys : list Element) : bool :=
                   match xs, ys with
                   | [], [] => true
                   | x :: xs', y :: ys' => tree_equal x y && all_equal xs' ys'
                   | _, _ => false
                   end) ca cb = true ↔ ca = cb).
  { clear ta tb aa ab. revert cb.
    induction IH as [|x xs Hx _ IHxs]; intros [|y ys]; simpl; try done.
    rewrite andb_true_iff, Hx, IHxs. split; [intros [-> ->]; done | intros [= -> ->]; done]. }
  rewrite Hch. split; [intros [[-> ->] ->]; done | intros [= -> -> ->]; done].
Qed.

(** ** Further examples from the tests of the repository *)

Example criterion_tests :
  Criterion.call ID documents_node "com.veniosg.dir:id/primary_info" = true
  ∧ Criterion.call DESC documents_node "Documents" = true
  ∧ Criterion.call TEXT documents_node "Documents" = true
  ∧ Criterion.call CLASS documents_node "android.widget.TextView" = true.
Proof. vm_compute. repeat split; reflexivity. Qed.

Example predictors_tests :
  attr_equal test_node1 test_node2 "resource-id" None = true
  ∧ attr_equal test_node1 test_node2 "text" None = false
  ∧ attr_like test_node1 test_node2 "text" None = true
  ∧ attr_like test_node1 test_node3 "resource-id" None = false.
Proof. vm_compute. repeat split; reflexivity. Qed.

Example remove_node_test :
  length (children (remove_node (fun n => bool_decide (get n "package" = Some "a"))
                                packages_root)) = 1%nat.
Proof. vm_compute. reflexivity. Qed.

Example is_assertion_tests :
  Action.is_assertion EXIST = true ∧ Action.is_assertion CLICK = false.
Proof. split; reflexivity. Qed.

Example tree_equal_test :
  tree_equal (node [] [node [("a", "a"); ("b", "b")] []])
             (node [] [node [("b", "b"); ("a", "a")] []]) = true.
Proof. vm_compute. reflexivity. Qed.

(** Two parses of a screen with one widget match with one pair and
    score 1. *)
Example smoke_match_result :
  (r ← smoke_match;
   Some (map_to_list (matched r), map_to_list (possible r),
         elements (old_not_matched r), elements (new_not_matched r),
         Qeq_bool (score r) 1, is_match_result r))
  = Some ([((Old, [0%nat]), (New, [0%nat]))], [], [], [], true, true).
Proof. vm_compute. reflexivity. Qed.

(** * Further properties of the code *)

(** ** The matching predicates do not depend on the order of their nodes *)

Lemma attr_equal_sym (a b : Element) (n : string) :
  attr_equal a b n None = attr_equal b a n None.
Proof.
  unfold attr_equal. rewrite orb_comm.
  destruct (_ || _); [reflexivity|]. apply String.eqb_sym.
Qed.

Lemma attr_equal_swap (a b : Element) (n1 n2 : string) :
  attr_equal a b n1 (Some n2) = attr_equal b a n2 (Some n1).
Proof.
  unfold attr_equal. rewrite orb_comm.
  destruct (_ || _); [reflexivity|]. apply String.eqb_sym.
Qed.

Lemma lcs_nil_r (s : list ascii) : Levenshtein.lcs s [] = 0%nat.
Proof. destruct s; reflexivity. Qed.

Lemma lcs_cons (a b : ascii) (s t : list ascii) :
  Levenshtein.lcs (a :: s) (b :: t)
  = if Ascii.eqb a b then Datatypes.S (Levenshtein.lcs s t)
    else Nat.max (Levenshtein.lcs s (b :: t)) (Levenshtein.lcs (a :: s) t).
Proof. reflexivity. Qed.

Lemma lcs_sym (s t : list ascii) : Levenshtein.lcs s t = Levenshtein.lcs t s.
Proof.
  revert t. induction s as [|a s IHs]; intros t.
  - rewrite lcs_nil_r. reflexivity.
  - induction t as [|b t IHt].
    + reflexivity.
    + rewrite !lcs_cons, (Ascii.eqb_sym b a).
      destruct (Ascii.eqb a b).
      * rewrite IHs. reflexivity.
      * rewrite IHt, (IHs (b :: t)). apply Nat.max_comm.
Qed.

Lemma ratio_sym (a b : string) : Levenshtein.ratio a b = Levenshtein.ratio b a.
Proof.
  unfold Levenshtein.ratio, Levenshtein.distance.
  rewrite (Nat.add_comm (String.length b)), (lcs_sym (list_ascii_of_string b)).
  rewrite (Nat.add_comm (length (list_ascii_of_string b))). reflexivity.
Qed.

Lemma attr_like_sym (a b : Element) (n : string) :
  attr_like a b n None = attr_like b a n None.
Proof.
  unfold attr_like. rewrite orb_comm.
  destruct (_ || _); [reflexivity|]. rewrite ratio_sym. reflexivity.
Qed.

Lemma attr_like_swap (a b : Element) (n1 n2 : string) :
  attr_like a b n1 (Some n2) = attr_like b a n2 (Some n1).
Proof.
  unfold attr_like. rewrite orb_comm.
  destruct (_ || _); [reflexivity|]. rewrite ratio_sym. reflexivity.
Qed.

Lemma is_match_symmetric (strict : bool) (a b : Element) :
  is_match strict a b = is_match strict b a.
Proof.
  unfold is_match.
  rewrite (attr_equal_sym a b "resource-id"), (attr_equal_sym a b "content-desc"),
    (attr_equal_sym a b "text"). reflexivity.
Qed.

Lemma in_texts_class_eq (a b : Element) (l : list string) :
  String.eqb (get_or a "class" "") (get_or b "class" "") = true →
  "" ∉ l →
  in_texts (get a "class") l = in_texts (get b "class") l.
Proof.
  intros H Hl. apply String.eqb_eq in H. unfold get_or in H. unfold in_texts.
  destruct (get a "class") as [ca|], (get b "class") as [cb|]; simpl in *.
  - by subst.
  - subst. by rewrite bool_decide_eq_false_2.
  - subst. by rewrite bool_decide_eq_false_2.
  - reflexivity.
Qed.

Lemma is_like_symmetric (strict : bool) (a b : Element) :
  is_like strict a b = is_like strict b a.
Proof.
  unfold is_like.
  rewrite (attr_like_sym b a "resource-id"), (attr_like_sym b a "text"),
    (attr_like_sym b a "content-desc").
  rewrite (attr_like_swap b a "text" "content-desc"),
    (attr_like_swap b a "content-desc" "text").
  rewrite (attr_equal_swap b a "text" "content-desc"),
    (attr_equal_swap b a "content-desc" "text").
  rewrite (String.eqb_sym (get_or b "class" "")).
  assert (Hedit : String.eqb (get_or a "class" "") (get_or b "class" "")
                  && in_texts (get b "class") ["android.widget.EditText"]
                  = String.eqb (get_or a "class" "") (get_or b "class" "")
                    && in_texts (get a "class") ["android.widget.EditText"]).
  { destruct (String.eqb (get_or a "class" "") (get_or b "class" "")) eqn:Hc; [|reflexivity].
    simpl. symmetry. apply in_texts_class_eq; [exact Hc|].
    intros H; apply list_elem_of_singleton in H; discriminate. }
  rewrite <- (andb_assoc _ (String.eqb _ _) (in_texts (get b "class") _)), Hedit, andb_assoc.
  generalize (PyStr.is_empty (get_or a "text" "")) (PyStr.is_empty (get_or b "text" ""))
    (PyStr.is_empty (get_or a "content-desc" "")) (PyStr.is_empty (get_or b "content-desc" ""))
    (attr_like a b "resource-id" None) (in_texts (get a "class") ["android.widget.EditText"])
    (String.eqb (get_or a "class" "") (get_or b "class" ""))
    (attr_like a b "text" None) (attr_like a b "content-desc" None)
    (attr_like a b "text" (Some "content-desc")) (attr_like a b "content-desc" (Some "text"))
    (attr_equal a b "text" (Some "content-desc")) (attr_equal a b "content-desc" (Some "text"))
    (in_texts (get a "class") ["android.widget.RadioButton"])
    (in_texts (get b "class") ["android.widget.RadioButton"]).
  intros x1 x2 x3 x4 x5 x6 x7 x8 x9 x10 x11 x12 x13 x14 x15.
  destruct x1, x2, x3, x4; simpl; try reflexivity;
    destruct x10, x11; rewrite ?orb_true_r, ?orb_false_r; simpl; try reflexivity;
    destruct x12, x13; simpl; try reflexivity; destruct x14, x15; reflexivity.
Qed.

(** X1. [is_match] and [is_like] are symmetric: in either mode, swapping
    the two nodes does not change the answer. *)
Theorem match_predicates_symmetric (strict : bool) (a b : Element) :
  is_match strict a b = is_match strict b a
  ∧ is_like strict a b = is_like strict b a.
Proof. split; [apply is_match_symmetric | apply is_like_symmetric]. Qed.
(** ** Differences of matched nodes *)

Lemma dict_lookup_dict_set {K V : Type} `{EqDecision K} (k k' : K) (v : V)
    (d : list (K * V)) :
  dict_lookup k (dict_set k' v d)
  = if decide (k = k') then Some v else dict_lookup k d.
Proof.
  induction d as [|[k0 v0] d IH]; simpl.
  - destruct (decide (k = k')); reflexivity.
  - destruct (decide (k' = k0)) as [->|Hne]; simpl.
    + destruct (decide (k = k0)); reflexivity.
    + destruct (decide (k = k0)) as [->|Hne'].
      * destruct (decide (k0 = k')); [congruence | reflexivity].
      * exact IH.
Qed.

Lemma is_diff_fold (a b : Element) (l : list string) (r0 : bool)
    (d0 : option (list (string * (string * string)))) :
  foldl
    (fun (acc : bool * option (list (string * (string * string)))) attr =>
       let '(result, diff_dict) := acc in
       let attr_a := get_or a attr "" in
       let attr_b := get_or b attr "" in
       let diff_dict := option_map (dict_set attr (attr_a, attr_b)) diff_dict in
       (if negb (String.eqb attr_a attr_b) then true else result, diff_dict))
    (r0, d0) l
  = (r0 || existsb (fun k => negb (String.eqb (get_or a k "") (get_or b k ""))) l,
     option_map (fun d => foldl (fun d k => dict_set k (get_or a k "", get_or b k "") d) d l)
                d0).
Proof.
  revert r0 d0. induction l as [|k l IH]; intros r0 d0; simpl.
  - rewrite orb_false_r. by destruct d0.
  - rewrite IH. f_equal.
    + destruct (String.eqb _ _), r0; reflexivity.
    + by destruct d0.
Qed.

Lemma foldl_dict_set_lookup {V : Type} (f : string -> V) (l : list string)
    (d : list (string * V)) (k : string) :
  dict_lookup k (foldl (fun d k => dict_set k (f k) d) d l)
  = if bool_decide (k ∈ l) then Some (f k) else dict_lookup k d.
Proof.
  revert d. induction l as [|k0 l IH]; intros d; simpl.
  - reflexivity.
  - rewrite IH, dict_lookup_dict_set.
    destruct (decide (k = k0)) as [->|Hne].
    + rewrite (bool_decide_eq_true_2 (k0 ∈ k0 :: l)) by apply list_elem_of_here.
      by destruct (bool_decide (k0 ∈ l)).
    + destruct (bool_decide (k ∈ l)) eqn:Hin.
      * apply bool_decide_eq_true in Hin.
        rewrite bool_decide_eq_true_2; [done | by apply list_elem_of_further].
      * apply bool_decide_eq_false in Hin.
        rewrite bool_decide_eq_false_2; [done|].
        intros H. apply elem_of_cons in H as [?|?]; done.
Qed.

(** X2. [is_diff] answers [False] exactly when the two nodes agree,
    absent attributes read as empty, on the four identifying attributes and
    on their four indices; the answer does not depend on [diff_dict]; and a
    dictionary that is passed holds, afterwards, the pair of values of every
    one of the eight attributes and keeps its other entries. *)
Theorem is_diff_spec (a b : Element) (diff_dict : option (list (string * (string * string)))) :
  ((is_diff a b diff_dict).1 = false
   ↔ ∀ k, k ∈ attr_list → get_or a k "" = get_or b k "")
  ∧ (is_diff a b diff_dict).1 = (is_diff a b None).1
  ∧ (is_diff a b None).2 = None
  ∧ ∀ d, ∃ d', (is_diff a b (Some d)).2 = Some d'
               ∧ ∀ k, dict_lookup k d'
                      = if bool_decide (k ∈ attr_list)
                        then Some (get_or a k "", get_or b k "")
                        else dict_lookup k d.
Proof.
  unfold is_diff. rewrite !is_diff_fold. cbn [fst snd option_map].
  split; [|split; [reflexivity|split; [reflexivity|]]].
  - rewrite orb_false_l. split.
    + intros H k Hk. apply not_true_iff_false in H.
      destruct (String.eqb_spec (get_or a k "") (get_or b k "")) as [|Hne]; [done|].
      exfalso. apply H. apply existsb_exists. exists k.
      split; [by apply list_elem_of_In|]. by apply negb_true_iff, String.eqb_neq.
    + intros H. apply not_true_iff_false. intros He.
      apply existsb_exists in He as (k & Hk & Hne).
      apply negb_true_iff, String.eqb_neq in Hne. apply Hne, H. by apply list_elem_of_In.
  - intros d. eexists. split; [reflexivity|]. intros k.
    exact (foldl_dict_set_lookup (fun k => (get_or a k "", get_or b k "")) attr_list d k).
Qed.

(** ** Recorded calls and replayed locators *)

Lemma from_parameter_u2_name (c : Criterion) :
  Criterion.from_parameter (Criterion.u2_name c) = Some c.
Proof. by destruct c. Qed.

Lemma from_parameter_Some (name : string) (c : Criterion) :
  Criterion.from_parameter name = Some c → Criterion.u2_name c = name.
Proof.
  unfold Criterion.from_parameter.
  repeat match goal with
         | |- context [String.eqb name ?s] => destruct (String.eqb_spec name s) as [->|_]
         end; intros [= <-]; reflexivity.
Qed.

Lemma kwargs_criteria (l : list (Criterion * string)) (c : gmap Criterion string)
    (rest : jdict) :
  (∀ kv, kv ∈ rest → Criterion.from_parameter kv.1 = None) →
  foldl (fun (criteria : gmap Criterion string) (kv : string * JValue) =>
           match Criterion.from_parameter kv.1, kv.2 with
           | Some c, JStr v => <[c := v]> criteria
           | _, _ => criteria
           end)
        c (map (fun kv : string * string => (kv.1, JStr kv.2))
               (map (fun kv : Criterion * string => (Criterion.u2_name kv.1, kv.2)) l)
           ++ rest)%list
  = foldl (fun acc kv => <[kv.1 := kv.2]> acc) c l.
Proof.
  intros Hrest. revert c. induction l as [|[k v] l IH]; intros c; simpl.
  - induction rest as [|[k v] rest IHr]; simpl; [reflexivity|].
    pose proof (Hrest (k, v) (list_elem_of_here _ _)) as Hk. simpl in Hk.
    rewrite Hk. apply IHr. intros kv Hkv. apply Hrest. by apply list_elem_of_further.
  - rewrite from_parameter_u2_name. apply IH.
Qed.

Lemma kwargs_instance (l : list (Criterion * string)) (rest : jdict) :
  dict_get "instance"
    (map (fun kv : string * string => (kv.1, JStr kv.2))
         (map (fun kv : Criterion * string => (Criterion.u2_name kv.1, kv.2)) l)
     ++ rest)%list
  = dict_get "instance" rest.
Proof.
  induction l as [|[k v] l IH]; simpl; [reflexivity|].
  destruct k; simpl; exact IH.
Qed.

(** X3. The keyword arguments of a locator give the locator back when
    they are recorded: [from_parameter] inverts [u2_name] and knows no
    other name, and [MyDevice.__call__] applied to [to_kwargs()] together
    with [instance] set to the index builds the locator itself; without
    [instance] it builds the locator with index 0. *)
Theorem kwargs_round_trip :
  (∀ name c, Criterion.from_parameter name = Some c ↔ Criterion.u2_name c = name)
  ∧ ∀ l : Locator,
      let kwargs := map (fun kv : string * string => (kv.1, JStr kv.2))
                        (Locator.to_kwargs l) in
      MyDevice.__call__ (kwargs ++ [("instance", JInt (index l))])%list = l
      ∧ MyDevice.__call__ kwargs = mkLocator (criteria l) 0.
Proof.
  split.
  - intros name c. split; [apply from_parameter_Some|].
    intros <-. apply from_parameter_u2_name.
  - intros [c i]. unfold MyDevice.__call__, Locator.to_kwargs. simpl. split.
    + rewrite kwargs_criteria, kwargs_instance, foldl_insert_map_to_list; [reflexivity|].
      intros kv Hkv. apply list_elem_of_singleton in Hkv as ->. reflexivity.
    + rewrite <- (app_nil_r (map _ (map _ (map_to_list c)))).
      rewrite kwargs_criteria, kwargs_instance, foldl_insert_map_to_list; [reflexivity|].
      intros kv Hkv. by apply elem_of_nil in Hkv.
Qed.

(** ** Events as dictionaries *)

Lemma locator_from_to_dict (l : Locator) : Locator.from_dict (Locator.to_dict l) = Ok l.
Proof.
  destruct l as [c i]. unfold Locator.to_dict, Locator.from_dict. simpl.
  destruct (Z.eqb_spec i 0) as [->|Hi]; simpl;
    rewrite read_criteria_items, foldl_insert_map_to_list; reflexivity.
Qed.

Lemma action_of_name_name (a : Action) : Action.of_name (Action.name a) = Some a.
Proof. by destruct a. Qed.

(** X4. [Event.from_dict] undoes [Event.to_dict] on every event, with or
    without a locator and with or without parameters; and the dictionary of
    an event has the key [locator] exactly when the event has a locator and
    the key [parameter] exactly when its parameters are not empty. *)
Theorem event_round_trip (e : Event) :
  Event.from_dict (Event.to_dict e) = Ok e
  ∧ (is_Some (dict_get "locator" (Event.to_dict e)) ↔ is_Some (locator e))
  ∧ (is_Some (dict_get "parameter" (Event.to_dict e)) ↔ parameter e ≠ []).
Proof.
  destruct e as [a [l|] p]; unfold Event.to_dict, Event.from_dict; simpl;
    destruct p as [|kv p]; simpl; rewrite ?action_of_name_name, ?locator_from_to_dict; simpl;
    (split; [reflexivity|]); split; split; intros H;
    try done; try (by eexists); try (by destruct H).
Qed.

(** ** Parameters added to an event *)

Lemma dict_get_lookup {V : Type} (k : string) (d : list (string * V)) :
  dict_get k d = dict_lookup k d.
Proof.
  induction d as [|[k' v] d IH]; simpl; [reflexivity|].
  destruct (String.eqb_spec k k') as [->|Hne].
  - by rewrite decide_True.
  - by rewrite decide_False.
Qed.

Lemma dict_set_keys {K V : Type} `{EqDecision K} (k : K) (v : V) (d : list (K * V)) :
  (dict_set k v d).*1 = if bool_decide (k ∈ d.*1) then d.*1 else (d.*1 ++ [k])%list.
Proof.
  induction d as [|[k' v'] d IH]; [reflexivity|].
  cbn [dict_set]. destruct (decide (k = k')) as [->|Hne]; rewrite !fmap_cons; cbn [fst].
  - by rewrite bool_decide_eq_true_2 by apply list_elem_of_here.
  - rewrite IH. destruct (bool_decide (k ∈ d.*1)) eqn:Hin.
    + apply bool_decide_eq_true in Hin.
      by rewrite bool_decide_eq_true_2 by by apply list_elem_of_further.
    + apply bool_decide_eq_false in Hin.
      rewrite bool_decide_eq_false_2; [done|].
      intros H'. apply elem_of_cons in H' as [?|?]; done.
Qed.

Lemma dict_set_NoDup {K V : Type} `{EqDecision K} (k : K) (v : V) (d : list (K * V)) :
  NoDup d.*1 → NoDup (dict_set k v d).*1.
Proof.
  intros Hnd. rewrite dict_set_keys. destruct (bool_decide (k ∈ d.*1)) eqn:Hin; [done|].
  apply bool_decide_eq_false in Hin. apply NoDup_app. split; [done|].
  split; [|apply NoDup_singleton].
  intros x Hx Hx'. apply list_elem_of_singleton in Hx' as ->. done.
Qed.

Lemma dict_update_NoDup {K V : Type} `{EqDecision K} (d d' : list (K * V)) :
  NoDup d.*1 → NoDup (dict_update d d').*1.
Proof.
  unfold dict_update. revert d. induction d' as [|[k v] d' IH]; intros d Hnd; simpl; [done|].
  apply IH. by apply dict_set_NoDup.
Qed.

Lemma dict_lookup_None {K V : Type} `{EqDecision K} (k : K) (d : list (K * V)) :
  k ∉ d.*1 → dict_lookup k d = None.
Proof.
  induction d as [|[k' v] d IH]; simpl; [done|].
  intros Hk. rewrite decide_False.
  - apply IH. intros H'. apply Hk. by apply list_elem_of_further.
  - intros ->. apply Hk. apply list_elem_of_here.
Qed.

Lemma dict_lookup_update {K V : Type} `{EqDecision K} (k : K) (d d' : list (K * V)) :
  NoDup d'.*1 →
  dict_lookup k (dict_update d d')
  = match dict_lookup k d' with
    | Some v => Some v
    | None => dict_lookup k d
    end.
Proof.
  unfold dict_update. revert d. induction d' as [|[k' v'] d' IH]; intros d Hnd; simpl.
  - reflexivity.
  - apply NoDup_cons in Hnd as [Hk' Hnd]. rewrite IH by exact Hnd.
    rewrite dict_lookup_dict_set.
    destruct (decide (k = k')) as [->|Hne].
    + by rewrite (dict_lookup_None k' d' Hk').
    + reflexivity.
Qed.

Lemma dict_update_nil {K V : Type} `{EqDecision K} (d' : list (K * V)) :
  NoDup d'.*1 → dict_update [] d' = d'.
Proof.
  unfold dict_update.
  assert (H' : ∀ d, NoDup (d ++ d')%list.*1 →
                    foldl (fun acc kv => dict_set kv.1 kv.2 acc) d d' = (d ++ d')%list).
  { induction d' as [|[k v] d' IH]; intros d Hnd; simpl.
    - by rewrite app_nil_r.
    - replace (d ++ (k, v) :: d')%list with ((d ++ [(k, v)]) ++ d')%list in *
        by (rewrite <- app_assoc; reflexivity).
      assert (Hset : dict_set k v d = (d ++ [(k, v)])%list).
      { rewrite !fmap_app in Hnd. apply NoDup_app in Hnd as [Hnd _].
        apply NoDup_app in Hnd as (_ & Hk & _). simpl in Hk.
        clear -Hk. induction d as [|[k0 v0] d IHd]; simpl; [reflexivity|].
        rewrite decide_False.
        - rewrite IHd; [reflexivity|]. intros x Hx. apply Hk. by apply list_elem_of_further.
        - intros ->. apply (Hk k0); [apply list_elem_of_here|apply list_elem_of_here]. }
      rewrite Hset. apply IH. exact Hnd. }
  intros Hnd. apply (H' []). exact Hnd.
Qed.

(** X5. [with_parameter] keeps the action and the locator; a key reads
    the new parameter when it has one and the parameter of the event
    otherwise; no new parameters leave the event as it is; and an event that
    is a generated assertion is still one when it is marked as failed, as
    [check_generated_assertion] does. *)
Theorem with_parameter_spec (e : Event) (param : jdict) :
  NoDup (parameter e).*1 → NoDup param.*1 →
  action (with_parameter e param) = action e
  ∧ locator (with_parameter e param) = locator e
  ∧ (∀ k, dict_get k (parameter (with_parameter e param))
          = match dict_get k param with
            | Some v => Some v
            | None => dict_get k (parameter e)
            end)
  ∧ with_parameter e [] = e
  ∧ (Event.is_generated_assertion e = true →
     Event.is_generated_assertion (with_parameter e [("failed", JBool true)]) = true).
Proof.
  intros He Hp. unfold with_parameter.
  rewrite (dict_update_nil (parameter e) He).
  split; [reflexivity|]. split; [reflexivity|]. split; [|split].
  - intros k. simpl. rewrite !dict_get_lookup. by apply dict_lookup_update.
  - by destruct e.
  - unfold Event.is_generated_assertion, Event.is_assertion. simpl.
    intros H. apply andb_true_iff in H as [-> H]. simpl.
    apply bool_decide_eq_true in H. apply bool_decide_eq_true.
    rewrite dict_get_lookup in *. rewrite dict_lookup_dict_set. simpl. exact H.
Qed.

Lemma with_parameter_spec_witness :
  let e := mkEvent EXIST (Some (mkLocator {[TEXT := "ok"]} 0)) [("generated", JBool true)] in
  dict_get "failed" (parameter (with_parameter e [("failed", JBool true)])) = Some (JBool true)
  ∧ dict_get "generated" (parameter (with_parameter e [("failed", JBool true)]))
    = Some (JBool true).
Proof.
  intros e.
  assert (He : NoDup (parameter e).*1) by (apply NoDup_singleton).
  assert (Hp : NoDup ([("failed", JBool true)] : jdict).*1) by (apply NoDup_singleton).
  destruct (with_parameter_spec e [("failed", JBool true)] He Hp) as (_ & _ & Hk & _).
  split; rewrite Hk; reflexivity.
Defined.

(** ** Generated assertions *)

Lemma first_with_spec (attr : string) (cs : list Candidate) :
  match first_with attr cs with
  | Ok (Some c) => c ∈ cs ∧ ∃ v, dict_get attr c = Some v ∧ v ≠ ""
  | Ok None => ∀ c, c ∈ cs → dict_get attr c = Some ""
  | Raised e => e = KeyError ∧ ∃ c, c ∈ cs ∧ dict_get attr c = None
  end.
Proof.
  induction cs as [|x cs IH]; simpl.
  - intros c Hc. by apply elem_of_nil in Hc.
  - destruct (dict_get attr x) as [v|] eqn:Hx.
    + destruct (PyStr.is_empty v) eqn:Hv; simpl.
      * apply is_empty_true in Hv as ->.
        destruct (first_with attr cs) as [[c|]|e].
        -- destruct IH as [Hc Hv]. split; [by apply list_elem_of_further | exact Hv].
        -- intros c Hc. apply elem_of_cons in Hc as [->|Hc]; [exact Hx | by apply IH].
        -- destruct IH as [-> (c & Hc & Hn)]. split; [reflexivity|].
           exists c. split; [by apply list_elem_of_further | exact Hn].
      * apply is_empty_false in Hv. split; [apply list_elem_of_here|]. by exists v.
    + split; [reflexivity|]. exists x. split; [apply list_elem_of_here | exact Hx].
Qed.

(** X6. What [to_assertion(select_candidate(candidates))] gives. It
    raises only [KeyError], and only when a candidate lacks one of the keys
    [t], [d], [r]. It gives no event only when every candidate has the
    three keys empty. Otherwise it gives an [EXIST] event, marked
    [generated], whose locator has index 0 and one criterion: the text of a
    candidate that has one; if no candidate has a text, the description of
    a candidate that has one; if no candidate has either, the resource id
    of a candidate. *)
Theorem to_assertion_select_candidate (cs : list Candidate) :
  match (do c <- select_candidate cs; to_assertion c) with
  | Raised e =>
      e = KeyError ∧ ∃ c attr, c ∈ cs ∧ attr ∈ ["t"; "d"; "r"] ∧ dict_get attr c = None
  | Ok None =>
      ∀ c attr, c ∈ cs → attr ∈ ["t"; "d"; "r"] → dict_get attr c = Some ""
  | Ok (Some e) =>
      action e = EXIST
      ∧ parameter e = [("generated", JBool true)]
      ∧ Event.is_generated_assertion e = true
      ∧ is_generated e = true
      ∧ ∃ c v,
          c ∈ cs ∧ v ≠ ""
          ∧ ((dict_get "t" c = Some v ∧ locator e = Some (mkLocator {[TEXT := v]} 0))
             ∨ ((∀ c', c' ∈ cs → dict_get "t" c' = Some "")
                ∧ dict_get "d" c = Some v
                ∧ locator e = Some (mkLocator {[DESC := v]} 0))
             ∨ ((∀ c', c' ∈ cs → dict_get "t" c' = Some "" ∧ dict_get "d" c' = Some "")
                ∧ dict_get "r" c = Some v
                ∧ locator e = Some (mkLocator {[ID := v]} 0)))
  end.
Proof.
  unfold select_candidate.
  pose proof (first_with_spec "t" cs) as Ht.
  pose proof (first_with_spec "d" cs) as Hd.
  pose proof (first_with_spec "r" cs) as Hr.
  destruct (first_with "t" cs) as [[c|]|e]; simpl.
  - destruct Ht as (Hc & v & Hv & Hne). rewrite Hv.
    rewrite (proj2 (is_empty_false v) Hne). simpl.
    do 4 (split; [reflexivity|]). exists c, v. do 2 (split; [done|]). by left.
  - destruct (first_with "d" cs) as [[c|]|e]; simpl.
    + destruct Hd as (Hc & v & Hv & Hne). rewrite (Ht c Hc). simpl. rewrite Hv.
      rewrite (proj2 (is_empty_false v) Hne). simpl.
      do 4 (split; [reflexivity|]). exists c, v. do 2 (split; [done|]).
      right. left. done.
    + destruct (first_with "r" cs) as [[c|]|e]; simpl.
      * destruct Hr as (Hc & v & Hv & Hne). rewrite (Ht c Hc), (Hd c Hc). simpl. rewrite Hv.
        rewrite (proj2 (is_empty_false v) Hne). simpl.
        do 4 (split; [reflexivity|]). exists c, v. do 2 (split; [done|]).
        right. right. split; [|done]. intros c' Hc'. split; [by apply Ht | by apply Hd].
      * intros c attr Hc Hattr.
        repeat (apply elem_of_cons in Hattr as [->|Hattr]); [by apply Ht|by apply Hd|by apply Hr|].
        by apply elem_of_nil in Hattr.
      * destruct Hr as [-> (c & Hc & Hn)]. split; [reflexivity|].
        exists c, "r". split; [done|]. split; [|done]. set_solver.
    + destruct Hd as [-> (c & Hc & Hn)]. split; [reflexivity|].
      exists c, "d". split; [done|]. split; [|done]. set_solver.
  - destruct Ht as [-> (c & Hc & Hn)]. split; [reflexivity|].
    exists c, "t". split; [done|]. split; [|done]. set_solver.
Qed.

Lemma to_assertion_event (c : option Candidate) (e : Event) :
  to_assertion c = Ok (Some e) →
  action e = EXIST ∧ parameter e = [("generated", JBool true)].
Proof.
  destruct c as [c|]; simpl; [|discriminate].
  repeat match goal with
         | |- context [dict_get ?a c] => destruct (dict_get a c) as [?v|]; [|discriminate]
         | |- context [PyStr.is_empty ?v] => destruct (PyStr.is_empty v); simpl
         end; try discriminate; intros [= <-]; done.
Qed.

Section GeneratedEvents.

Variable retry_ask : Z -> Ui -> list Candidate.

(** X7. The events that [generate_assertion] writes are the events of
    the steps, in order, each followed by at most one new event; a new
    event follows only the step at a target index, [(n - 1) // 2] or
    [n - 1] for [n] steps, and it is an [EXIST] event marked [generated].
    So when no recorded event is a generated assertion, dropping the
    generated assertions, as the repair does on loading, gives back the
    recorded events. *)
Theorem generate_assertion_spec (steps : list Step) (events : list Event) :
  generate_assertion retry_ask steps = Ok events →
  (∃ added : list (list Event),
      length added = length steps
      ∧ events = concat (zip_with (fun s a => event s :: a) steps added)
      ∧ ∀ (k : nat) a, added !! k = Some a →
          a = []
          ∨ ((Z.of_nat k = (Z.of_nat (length steps) - 1) / 2
              ∨ Z.of_nat k = Z.of_nat (length steps) - 1)
             ∧ ∃ e, a = [e] ∧ action e = EXIST
                    ∧ parameter e = [("generated", JBool true)]
                    ∧ Event.is_generated_assertion e = true))
  ∧ ((∀ s, s ∈ steps → Event.is_generated_assertion (event s) = false) →
     filter (fun e => negb (Event.is_generated_assertion e)) events = map event steps).
Proof.
  unfold generate_assertion.
  assert (HT : ∀ i, i ∈ get_target_indices steps →
                    i = (Z.of_nat (length steps) - 1) / 2 ∨ i = Z.of_nat (length steps) - 1).
  { unfold get_target_indices. intros i Hi.
    destruct (2 <=? Z.of_nat (length steps)); set_solver. }
  revert HT. generalize (get_target_indices steps) as T.
  generalize (Z.of_nat (length steps)) as n. intros n T HT.
  match goal with |- (?f 0 steps = _) → _ => set (go := f) end.
  assert (Hgo : ∀ l i evs, go i l = Ok evs →
            ∃ added : list (list Event),
              length added = length l
              ∧ evs = concat (zip_with (fun s a => event s :: a) l added)
              ∧ ∀ (k : nat) a, added !! k = Some a →
                  a = []
                  ∨ ((i + Z.of_nat k = (n - 1) / 2 ∨ i + Z.of_nat k = n - 1)
                     ∧ ∃ e, a = [e] ∧ action e = EXIST
                            ∧ parameter e = [("generated", JBool true)]
                            ∧ Event.is_generated_assertion e = true)).
  { induction l as [|step l IH]; intros i evs; simpl.
    - intros [= <-]. exists []. split; [done|]. split; [done|].
      intros k a Hk. by rewrite lookup_nil in Hk.
    - intros H. apply bind_raises_Ok in H as (added & Hadded & H).
      apply bind_raises_Ok in H as (rest & Hrest & [= <-]).
      destruct (IH _ _ Hrest) as (adds & Hlen & -> & Hall).
      exists (added :: adds). split; [simpl; by rewrite Hlen|]. split; [reflexivity|].
      intros [|k] a Hk; simpl in Hk.
      + injection Hk as ->. rewrite Z.add_0_r.
        destruct (bool_decide (i ∈ T)) eqn:HiT.
        * apply bool_decide_eq_true in HiT.
          apply bind_raises_Ok in Hadded as (c & _ & Hadded).
          apply bind_raises_Ok in Hadded as ([e|] & He & [= <-]); [|by left].
          right. split; [by apply HT|]. exists e.
          destruct (to_assertion_event _ _ He) as [Ha Hp].
          split; [done|]. split; [done|]. split; [done|].
          unfold Event.is_generated_assertion, Event.is_assertion. by rewrite Ha, Hp.
        * injection Hadded as <-. by left.
      + destruct (Hall k a Hk) as [->|[Hi He]]; [by left|]. right.
        split; [|exact He]. lia. }
  intros H. destruct (Hgo _ _ _ H) as (added & Hlen & -> & Hall).
  split.
  - exists added. split; [done|]. split; [done|].
    intros k a Hk. destruct (Hall k a Hk) as [->|[Hi He]]; [by left|]. right.
    split; [lia | exact He].
  - intros Hsteps. clear H Hgo go.
    assert (Hadd : ∀ (k : nat) a, added !! k = Some a →
                     a = [] ∨ ∃ e, a = [e] ∧ Event.is_generated_assertion e = true).
    { intros k a Hk. destruct (Hall k a Hk) as [->|[_ (e & -> & _ & _ & He)]];
        [by left | right; by exists e]. }
    clear Hall HT. revert added Hlen Hadd.
    induction steps as [|s steps IH]; intros [|a added] Hlen Hadd; simpl in *; try done.
    rewrite filter_cons_True, filter_app
      by (rewrite (Hsteps s) by apply list_elem_of_here; done).
    f_equal. rewrite IH.
    + destruct (Hadd 0%nat a eq_refl) as [->|(e & -> & He)]; [reflexivity|].
      rewrite filter_cons_False by (rewrite He; simpl; tauto). reflexivity.
    + intros s' Hs'. apply Hsteps. by apply list_elem_of_further.
    + lia.
    + intros k a' Hk. apply (Hadd (Datatypes.S k)). exact Hk.
Qed.

End GeneratedEvents.

(** X7 on a record of two clicks: the assertion generated after the
    second click is dropped again. *)
Lemma generate_assertion_spec_witness :
  ∃ events,
    generate_assertion demo_answers demo_recorded = Ok events
    ∧ length events = 3%nat
    ∧ filter (fun e => negb (Event.is_generated_assertion e)) events
      = map event demo_recorded.
Proof.
  eexists. split; [vm_compute; reflexivity|]. split; [reflexivity|].
  refine (proj2 (generate_assertion_spec demo_answers demo_recorded _ _) _).
  - vm_compute. reflexivity.
  - intros s Hs.
    repeat (apply elem_of_cons in Hs as [->|Hs]); [reflexivity|reflexivity|].
    by apply elem_of_nil in Hs.
Defined.

(** ** The nodes of a tree and their paths *)

Lemma iter_node_at_go_elem (q : path) (cs : list Element) (i : nat) (p : path) (e : Element) :
  Forall (fun c => ∀ q p e, (p, e) ∈ iter_node_at q c →
                     ∃ p', p = (q ++ p')%list ∧ node_at c p' = Some e ∧ tag e = "node") cs →
  (p, e) ∈ (fix go (i : nat) (cs : list Element) : list (path * Element) :=
              match cs with
              | [] => []
              | c :: r => (iter_node_at (q ++ [i]) c ++ go (Datatypes.S i) r)%list
              end) i cs →
  ∃ j c p', cs !! j = Some c ∧ p = (q ++ (i + j)%nat :: p')%list
            ∧ node_at c p' = Some e ∧ tag e = "node".
Proof.
  intros Hall. revert i. induction Hall as [|c cs Hc _ IH]; intros i Hin.
  - by apply elem_of_nil in Hin.
  - apply elem_of_app in Hin as [Hin|Hin].
    + destruct (Hc _ _ _ Hin) as (p' & -> & Hp' & Ht).
      exists 0%nat, c, p'. rewrite Nat.add_0_r, <- app_assoc. done.
    + destruct (IH _ Hin) as (j & c' & p' & Hj & -> & Hp' & Ht).
      exists (Datatypes.S j), c', p'. split; [done|].
      replace (i + Datatypes.S j)%nat with (Datatypes.S i + j)%nat by lia. done.
Qed.

Lemma iter_node_at_elem (root : Element) (q p : path) (e : Element) :
  (p, e) ∈ iter_node_at q root →
  ∃ p', p = (q ++ p')%list ∧ node_at root p' = Some e ∧ tag e = "node".
Proof.
  revert q p e. induction root as [t a cs IH] using Element_forall_ind.
  intros q p e Hin. simpl in Hin. apply elem_of_app in Hin as [Hin|Hin].
  - destruct (bool_decide (t = "node")) eqn:Ht; [|by apply elem_of_nil in Hin].
    apply bool_decide_eq_true in Ht. apply list_elem_of_singleton in Hin as [= -> ->].
    exists []. by rewrite app_nil_r.
  - destruct (iter_node_at_go_elem q cs 0 p e IH Hin) as (j & c & p' & Hj & -> & Hp' & Ht).
    exists (j :: p'). split; [done|]. simpl. rewrite Hj. simpl. done.
Qed.

Lemma iter_node_at_node (root : Element) (p : path) (e : Element) :
  (p, e) ∈ iter_node_at [] root → node_at root p = Some e ∧ tag e = "node".
Proof.
  intros Hin. destruct (iter_node_at_elem _ _ _ _ Hin) as (p' & -> & H). exact H.
Qed.

(** ** Children and parents of a layout *)

Lemma is_child_leaf (e : Element) : is_child e = true → children e = [].
Proof.
  unfold is_child. destruct (children e); [done|]. simpl. discriminate.
Qed.

Lemma is_child_not_parent (e : Element) : is_child e = true → is_parent e = false.
Proof.
  unfold is_child, is_parent.
  destruct (children e) as [|c cs]; cbn [length Nat.eqb negb Nat.ltb Nat.leb orb]; [|discriminate].
  repeat match goal with
         | |- (if ?b then false else _) = true → _ => destruct b; [discriminate|]
         end.
  destruct (is_list e); simpl; [discriminate|].
  intros _. apply andb_false_r.
Qed.

Lemma get_valid_node_subseteq (root : Element) (n : Layout.Node) :
  n ∈ Layout.get_valid_node root → n ∈ iter_node_at [] root.
Proof.
  unfold Layout.get_valid_node.
  generalize (iter_node_at [] root) as l. intros l.
  assert (H : ∀ acc, n ∈ foldl
    (fun (result : list Layout.Node) (n : Layout.Node) =>
       let result :=
         if is_child n.2 && Layout.clickable n.2 "true"
         then filter (fun x : Layout.Node => negb (is_child x.2 && is_cover n.2 x.2)) result
         else result in
       if is_child n.2 && Layout.clickable n.2 "false"
          && (0 <? length (filter (fun m : Layout.Node =>
                                     is_child m.2 && Layout.clickable m.2 "true"
                                     && is_cover m.2 n.2) result))%nat
       then result
       else (result ++ [n])%list) acc l → n ∈ acc ∨ n ∈ l).
  { induction l as [|x l IH]; intros acc Hin; simpl in Hin; [by left|].
    apply IH in Hin as [Hin|Hin]; [|right; by apply list_elem_of_further].
    assert (Hsub : n ∈ (if is_child x.2 && Layout.clickable x.2 "true"
                        then filter (fun y : Layout.Node =>
                                       negb (is_child y.2 && is_cover x.2 y.2)) acc
                        else acc) → n ∈ acc).
    { destruct (is_child x.2 && Layout.clickable x.2 "true"); [|tauto].
      intros H'. by apply list_elem_of_filter in H' as [_ H']. }
    destruct (_ && _ && _) in Hin.
    - left. by apply Hsub.
    - apply elem_of_app in Hin as [Hin|Hin]; [left; by apply Hsub|].
      apply list_elem_of_singleton in Hin as ->. right. apply list_elem_of_here. }
  intros Hin. apply H in Hin as [Hin|Hin]; [by apply elem_of_nil in Hin | done].
Qed.

Lemma compress_parents_subseteq (parents : list Layout.Node) (n : Layout.Node) :
  n ∈ Layout.compress_parents parents → n ∈ parents.
Proof. unfold Layout.compress_parents. intros H. by apply list_elem_of_filter in H as [_ H]. Qed.

Lemma build_fields (xml : string) (parsed : Element) (png : list Byte.byte) (l : Layout.t) :
  Layout.build xml parsed png = Some l →
  Layout.xml l = xml ∧ Layout.png l = png
  ∧ Layout.root l = preprocess parsed
  ∧ Layout.children l = (Layout.get_children (preprocess parsed)).*1
  ∧ Layout.parents l
    = (Layout.compress_parents (Layout.get_parents (preprocess parsed))).*1
  ∧ Layout.cp l = Layout.child_parent (preprocess parsed)
  ∧ Layout.unique_children l
    = Layout.get_unique_children (Layout.get_children (preprocess parsed)).
Proof.
  unfold Layout.build. intros H. apply bind_Some in H as (items & _ & [= <-]). done.
Qed.

(** X8. In a layout built from a tree, every member of [children] is a
    [node] element of the preprocessed tree that satisfies [is_child] and
    has no element below it, every member of [parents] is a [node] element
    that satisfies [is_parent], and no element is both a child and a
    parent. *)
Theorem layout_children_parents (xml : string) (parsed : Element) (png : list Byte.byte)
    (l : Layout.t) :
  Layout.build xml parsed png = Some l →
  (∀ p, p ∈ Layout.children l →
        ∃ e, node_at (Layout.root l) p = Some e ∧ tag e = "node"
             ∧ is_child e = true ∧ children e = [])
  ∧ (∀ p, p ∈ Layout.parents l →
          ∃ e, node_at (Layout.root l) p = Some e ∧ tag e = "node" ∧ is_parent e = true)
  ∧ (∀ p, p ∈ Layout.children l → p ∉ Layout.parents l).
Proof.
  intros H. destruct (build_fields _ _ _ _ H) as (_ & _ & Hr & Hc & Hp & _).
  rewrite Hr, Hc, Hp. clear H Hr Hc Hp l. set (root := preprocess parsed).
  assert (Hch : ∀ p, p ∈ (Layout.get_children root).*1 →
                     ∃ e, node_at root p = Some e ∧ tag e = "node"
                          ∧ is_child e = true ∧ children e = []).
  { intros p Hp. apply list_elem_of_fmap in Hp as ([p' e] & -> & Hin).
    unfold Layout.get_children in Hin. apply list_elem_of_filter in Hin as [Hc Hin].
    apply get_valid_node_subseteq, iter_node_at_node in Hin as [Hn Ht].
    simpl in Hc. apply Is_true_true in Hc.
    exists e. split; [done|]. split; [done|]. split; [done|]. by apply is_child_leaf. }
  assert (Hpa : ∀ p, p ∈ (Layout.compress_parents (Layout.get_parents root)).*1 →
                     ∃ e, node_at root p = Some e ∧ tag e = "node" ∧ is_parent e = true).
  { intros p Hp. apply list_elem_of_fmap in Hp as ([p' e] & -> & Hin).
    apply compress_parents_subseteq in Hin.
    unfold Layout.get_parents in Hin. apply list_elem_of_filter in Hin as [Hc Hin].
    apply iter_node_at_node in Hin as [Hn Ht].
    simpl in Hc. apply Is_true_true in Hc. by exists e. }
  split; [exact Hch|]. split; [exact Hpa|].
  intros p Hc Hp. destruct (Hch p Hc) as (e & He & _ & Hchild & _).
  destruct (Hpa p Hp) as (e' & He' & _ & Hparent).
  rewrite He in He'. injection He' as <-.
  rewrite (is_child_not_parent e Hchild) in Hparent. discriminate.
Qed.

(** X8 on the layout of [old_screen]. *)
Lemma layout_children_parents_witness :
  ∃ l, Layout.build "old" old_screen [] = Some l
       ∧ (∀ p, p ∈ Layout.children l →
               ∃ e, node_at (Layout.root l) p = Some e ∧ tag e = "node"
                    ∧ is_child e = true ∧ children e = [])
       ∧ (∀ p, p ∈ Layout.parents l →
               ∃ e, node_at (Layout.root l) p = Some e ∧ tag e = "node"
                    ∧ is_parent e = true)
       ∧ (∀ p, p ∈ Layout.children l → p ∉ Layout.parents l).
Proof.
  destruct (build_total "old" old_screen []) as [l Hl]. exists l.
  split; [exact Hl|]. exact (layout_children_parents _ _ _ l Hl).
Defined.

(** ** Children with a class of their own *)


Lemma class_count_app (c : string) (l1 l2 : list Layout.Node) :
  class_count c (l1 ++ l2) = (class_count c l1 + class_count c l2)%nat.
Proof. unfold class_count. by rewrite filter_app, length_app. Qed.

Lemma class_count_zero (c : string) (l : list Layout.Node) :
  class_count c l = 0%nat ↔ ∀ x, x ∈ l → class_of x ≠ c.
Proof.
  unfold class_count. split.
  - intros H x Hx Hc.
    assert (Hin : x ∈ filter (fun x => class_of x = c) l) by by apply list_elem_of_filter.
    destruct (filter _ l); [by apply elem_of_nil in Hin | discriminate].
  - intros H. destruct (filter _ l) as [|x r] eqn:Hf; [reflexivity|].
    assert (Hin : x ∈ filter (fun x => class_of x = c) l) by (rewrite Hf; apply list_elem_of_here).
    apply list_elem_of_filter in Hin as [Hc Hin]. by destruct (H x Hin).
Qed.

Lemma class_count_single (c : string) (x : Layout.Node) :
  class_count c [x] = if decide (class_of x = c) then 1%nat else 0%nat.
Proof.
  unfold class_count. rewrite filter_cons, filter_nil.
  by destruct (decide (class_of x = c)).
Qed.

Lemma get_unique_children_fold (l pre : list Layout.Node) (result : list Layout.Node)
    (s : list string) :
  (∀ c, c ∈ s ↔ ∃ x, x ∈ pre ∧ class_of x = c) →
  (∀ x, x ∈ result ↔ x ∈ pre ∧ class_count (class_of x) pre = 1%nat) →
  ∀ x, x ∈ (foldl
              (fun (acc : list Layout.Node * list string) (child : Layout.Node) =>
                 let '(result, s) := acc in
                 let class_name := get_or child.2 "class" "" in
                 if negb (bool_decide (class_name ∈ s))
                 then ((result ++ [child])%list, class_name :: s)
                 else (filter (fun x : Layout.Node =>
                                 negb (String.eqb (get_or x.2 "class" "") class_name)) result,
                       s))
              (result, s) l).1
       ↔ x ∈ (pre ++ l)%list ∧ class_count (class_of x) (pre ++ l) = 1%nat.
Proof.
  revert pre result s. induction l as [|child l IH]; intros pre result s Hs Hr; simpl.
  - rewrite app_nil_r. exact Hr.
  - replace (pre ++ child :: l)%list with ((pre ++ [child]) ++ l)%list
      by (rewrite <- app_assoc; reflexivity).
    fold (class_of child).
    destruct (bool_decide (class_of child ∈ s)) eqn:Hin; simpl.
    + apply bool_decide_eq_true in Hin.
      apply IH.
      * intros c. rewrite Hs. split.
        -- intros (x & Hx & Hc). exists x. split; [|done]. apply elem_of_app. by left.
        -- intros (x & Hx & Hc). apply elem_of_app in Hx as [Hx|Hx]; [by exists x|].
           apply list_elem_of_singleton in Hx as ->. subst c. by apply Hs.
      * intros x. rewrite list_elem_of_filter, Hr, class_count_app, class_count_single.
        apply Hs in Hin as (y & Hy & Hyc).
        assert (Hpos : (0 < class_count (class_of child) pre)%nat).
        { destruct (class_count (class_of child) pre) eqn:Hz; [|lia].
          exfalso. by apply (proj1 (class_count_zero _ _) Hz y Hy). }
        fold (class_of x).
        destruct (String.eqb_spec (class_of x) (class_of child)) as [Heq|Hne]; simpl.
        -- rewrite Heq. rewrite decide_True by done. split; [tauto|]. intros [_ H1]. lia.
        -- rewrite decide_False by done. rewrite Nat.add_0_r. split.
           ++ intros (_ & Hx & Hc). split; [apply elem_of_app; by left | done].
           ++ intros [Hx Hc]. split; [tauto|]. split; [|done].
              apply elem_of_app in Hx as [Hx|Hx]; [done|].
              apply list_elem_of_singleton in Hx as ->. done.
    + apply bool_decide_eq_false in Hin.
      assert (Hzero : class_count (class_of child) pre = 0%nat).
      { apply class_count_zero. intros y Hy Hc. apply Hin, Hs. by exists y. }
      apply IH.
      * intros c. rewrite elem_of_cons, Hs. split.
        -- intros [->|(x & Hx & Hc)].
           ++ exists child. split; [|done]. apply elem_of_app. right. apply list_elem_of_here.
           ++ exists x. split; [|done]. apply elem_of_app. by left.
        -- intros (x & Hx & Hc). apply elem_of_app in Hx as [Hx|Hx]; [right; by exists x|].
           apply list_elem_of_singleton in Hx as ->. by left.
      * intros x. rewrite !elem_of_app, Hr, class_count_app, class_count_single,
          list_elem_of_singleton.
        split.
        -- intros [[Hx Hc]| ->].
           ++ split; [by left|]. rewrite decide_False; [lia|].
              intros Heq. rewrite Heq, Hc in Hzero. discriminate.
           ++ split; [by right|]. rewrite Hzero, decide_True by done. reflexivity.
        -- intros [[Hx| ->] Hc]; [|by right]. left. split; [done|].
           destruct (decide (class_of child = class_of x)) as [Heq|Hne]; [|lia].
           exfalso. rewrite <- Heq in Hc. 
           apply (proj1 (class_count_zero _ _) Hzero x Hx). done.
Qed.

(** X9. [get_unique_children] keeps exactly the nodes whose [class],
    read as empty when absent, no other node of the collection has. *)
Theorem get_unique_children_spec (nodes : list Layout.Node) (p : path) :
  p ∈ Layout.get_unique_children nodes
  ↔ ∃ e, (p, e) ∈ nodes
         ∧ length (filter (fun x : Layout.Node =>
                             get_or x.2 "class" "" = get_or e "class" "") nodes) = 1%nat.
Proof.
  unfold Layout.get_unique_children. rewrite list_elem_of_fmap.
  pose proof (get_unique_children_fold nodes [] [] []) as H. simpl in H.
  split.
  - intros ([p' e] & -> & Hin). apply H in Hin as [Hin Hc]; [by exists e| |].
    + intros c. split; [intros Hc; by apply elem_of_nil in Hc|].
      intros (x & Hx & _). by apply elem_of_nil in Hx.
    + intros x. split; [intros Hx; by apply elem_of_nil in Hx|].
      intros [Hx _]. by apply elem_of_nil in Hx.
  - intros (e & Hin & Hc). exists (p, e). split; [done|]. apply H; [| |done].
    + intros c. split; [intros Hc'; by apply elem_of_nil in Hc'|].
      intros (x & Hx & _). by apply elem_of_nil in Hx.
    + intros x. split; [intros Hx; by apply elem_of_nil in Hx|].
      intros [Hx _]. by apply elem_of_nil in Hx.
Qed.

(** ** Paths identify the nodes of a tree *)

Lemma iter_node_at_go_paths (q : path) (cs : list Element) (i : nat) (p : path) (e : Element) :
  (p, e) ∈ (fix go (i : nat) (cs : list Element) : list (path * Element) :=
              match cs with
              | [] => []
              | c :: r => (iter_node_at (q ++ [i]) c ++ go (Datatypes.S i) r)%list
              end) i cs →
  ∃ j p', p = (q ++ (i + j)%nat :: p')%list.
Proof.
  revert i. induction cs as [|c cs IH]; intros i Hin.
  - by apply elem_of_nil in Hin.
  - apply elem_of_app in Hin as [Hin|Hin].
    + destruct (iter_node_at_elem _ _ _ _ Hin) as (p' & -> & _).
      exists 0%nat, p'. by rewrite Nat.add_0_r, <- app_assoc.
    + destruct (IH _ Hin) as (j & p' & ->).
      exists (Datatypes.S j), p'.
      by replace (i + Datatypes.S j)%nat with (Datatypes.S i + j)%nat by lia.
Qed.

Lemma iter_node_at_NoDup (root : Element) (q : path) : NoDup (iter_node_at q root).*1.
Proof.
  revert q. induction root as [t a cs IH] using Element_forall_ind. intros q.
  simpl. rewrite fmap_app. apply NoDup_app. split; [|split].
  - destruct (bool_decide (t = "node")); [apply NoDup_singleton | apply NoDup_nil_2].
  - intros p Hp Hp'.
    destruct (bool_decide (t = "node")); [|by apply elem_of_nil in Hp].
    rewrite list_fmap_singleton in Hp. apply list_elem_of_singleton in Hp. simpl in Hp. subst p.
    apply list_elem_of_fmap in Hp' as ([p e] & -> & Hin).
    apply iter_node_at_go_paths in Hin as (j & p' & Hp). simpl in Hp.
    apply (f_equal length) in Hp. rewrite length_app in Hp. simpl in Hp. lia.
  - generalize 0%nat as i. induction IH as [|c cs Hc _ IHcs]; intros i.
    + apply NoDup_nil_2.
    + rewrite fmap_app. apply NoDup_app. split; [apply Hc|]. split; [|apply IHcs].
      intros p Hp Hp'.
      apply list_elem_of_fmap in Hp as ([p1 e1] & -> & Hin1).
      apply list_elem_of_fmap in Hp' as ([p2 e2] & Heq & Hin2). simpl in Heq. subst p2.
      destruct (iter_node_at_elem _ _ _ _ Hin1) as (p' & Hp1 & _).
      apply iter_node_at_go_paths in Hin2 as (j & p'' & Hp2).
      rewrite Hp1, <- app_assoc in Hp2. apply app_inv_head in Hp2.
      simpl in Hp2. injection Hp2 as Hi _. lia.
Qed.

(** ** Valid nodes: what covers what *)

Lemma pairwise_filter {A : Type} (R : A -> A -> Prop) (P : A -> Prop)
    `{∀ x, Decision (P x)} (l : list A) :
  pairwise R l → pairwise R (filter P l).
Proof.
  induction l as [|x l IH]; simpl; [done|].
  intros [Hx Hl]. rewrite filter_cons. destruct (decide (P x)); [|by apply IH].
  simpl. split; [|by apply IH].
  apply Forall_forall. intros y Hy. apply list_elem_of_filter in Hy as [_ Hy].
  by apply (proj1 (Forall_forall _ _) Hx).
Qed.

Lemma pairwise_snoc {A : Type} (R : A -> A -> Prop) (l : list A) (x : A) :
  pairwise R l → Forall (fun y => R y x) l → pairwise R (l ++ [x]).
Proof.
  induction l as [|y l IH]; simpl; [done|].
  intros [Hy Hl] Hall. apply Forall_cons in Hall as [Hyx Hall].
  split; [|by apply IH]. apply Forall_app. split; [done|]. by apply Forall_singleton.
Qed.

Lemma pairwise_lookup {A : Type} (R : A -> A -> Prop) (l : list A) (i j : nat) (x y : A) :
  pairwise R l → (i < j)%nat → l !! i = Some x → l !! j = Some y → R x y.
Proof.
  revert i j. induction l as [|z l IH]; intros i j Hl Hij Hi Hj; [by rewrite lookup_nil in Hi|].
  destruct Hl as [Hz Hl]. destruct j as [|j]; [lia|]. simpl in Hj.
  destruct i as [|i]; simpl in Hi.
  - injection Hi as ->. apply (proj1 (Forall_forall _ _) Hz). by eapply list_elem_of_lookup_2.
  - apply (IH i j); [done|lia|done|done].
Qed.

Lemma pairwise_impl {A : Type} (R R' : A -> A -> Prop) (P : A -> Prop) (l : list A) :
  (∀ x y, P x → P y → R x y → R' x y) → Forall P l → pairwise R l → pairwise R' l.
Proof.
  intros HR. induction l as [|x l IH]; simpl; [done|].
  intros HP [Hx Hl]. apply Forall_cons in HP as [HPx HP].
  split; [|by apply IH].
  apply Forall_forall. intros y Hy.
  apply HR; [done| |].
  - by apply (proj1 (Forall_forall _ _) HP).
  - by apply (proj1 (Forall_forall _ _) Hx).
Qed.

Section ValidNodes.

Variable root : Element.

Lemma valid_step_inv (pre rest : list Layout.Node) (result : list Layout.Node) (n : Layout.Node) :
  iter_node_at [] root = (pre ++ n :: rest)%list →
  sublist result pre → pairwise uncovered_children result →
  (∀ x, x ∈ pre → is_child x.2 = true → never_covered root x → x ∈ result) →
  sublist (valid_step result n) (pre ++ [n])%list
  ∧ pairwise uncovered_children (valid_step result n)
  ∧ (∀ x, x ∈ (pre ++ [n])%list → is_child x.2 = true → never_covered root x → x ∈ valid_step result n).
Proof.
  intros Hroot Hsub Hpw Hfree.
  pose proof (iter_node_at_NoDup root []) as Hnd. rewrite Hroot in Hnd.
  rewrite fmap_app, fmap_cons in Hnd. apply NoDup_app in Hnd as (_ & Hdis & _).
  assert (Hnew : ∀ x, x ∈ pre → x.1 ≠ n.1).
  { intros x Hx Heq. apply (Hdis x.1); [by apply list_elem_of_fmap_2|].
    rewrite Heq. apply list_elem_of_here. }
  assert (Hin_root : ∀ x, x ∈ (pre ++ [n])%list → x ∈ iter_node_at [] root).
  { intros x Hx. rewrite Hroot. apply elem_of_app in Hx as [Hx|Hx]; apply elem_of_app;
      [by left | right]. apply list_elem_of_singleton in Hx as ->. apply list_elem_of_here. }
  unfold valid_step.
  set (result1 := if is_child n.2 && Layout.clickable n.2 "true"
                  then filter (fun x : Layout.Node => negb (is_child x.2 && is_cover n.2 x.2))
                              result
                  else result).
  assert (Hsub1 : sublist result1 result).
  { unfold result1. destruct (_ && _); [apply sublist_filter | reflexivity]. }
  assert (Hpw1 : pairwise uncovered_children result1).
  { unfold result1. destruct (_ && _); [by apply pairwise_filter | done]. }
  assert (Hcov1 : is_child n.2 = true → Layout.clickable n.2 "true" = true →
                  ∀ x, x ∈ result1 → is_child x.2 = true → is_cover n.2 x.2 = false).
  { intros Hc Hk x Hx Hcx. unfold result1 in Hx. rewrite Hc, Hk in Hx. simpl in Hx.
    apply list_elem_of_filter in Hx as [Hx _]. rewrite Hcx in Hx. simpl in Hx.
    by destruct (is_cover n.2 x.2). }
  assert (Hfree1 : ∀ x, x ∈ pre → is_child x.2 = true → never_covered root x → x ∈ result1).
  { intros x Hx Hcx Hfx. unfold result1.
    destruct (is_child n.2 && Layout.clickable n.2 "true") eqn:Hn; [|by apply Hfree].
    apply list_elem_of_filter. split; [|by apply Hfree].
    apply andb_true_iff in Hn as [Hcn _].
    rewrite Hcx, (Hfx n); [done| | |done].
    - apply Hin_root, elem_of_app. right. apply list_elem_of_here.
    - intros Heq. by apply (Hnew x Hx). }
  destruct (is_child n.2 && Layout.clickable n.2 "false" && _) eqn:Hskip.
  - apply andb_true_iff in Hskip as [Hn Hlen]. apply andb_true_iff in Hn as [Hcn Hkn].
    split; [|split; [done|]].
    + etrans; [exact Hsub1|]. etrans; [exact Hsub|]. by apply sublist_inserts_r.
    + intros x Hx Hcx Hfx. apply elem_of_app in Hx as [Hx|Hx]; [by apply Hfree1|].
      apply list_elem_of_singleton in Hx as ->. exfalso.
      apply Nat.ltb_lt in Hlen.
      destruct (filter _ result1) as [|m ms] eqn:Hf; [simpl in Hlen; lia|].
      assert (Hm : m ∈ filter (fun m : Layout.Node =>
                                 is_child m.2 && Layout.clickable m.2 "true"
                                 && is_cover m.2 n.2) result1)
        by (rewrite Hf; apply list_elem_of_here).
      apply list_elem_of_filter in Hm as [Hm Hmin].
      apply Is_true_true in Hm. apply andb_true_iff in Hm as [Hm Hcov].
      apply andb_true_iff in Hm as [Hcm _].
      assert (Hmpre : m ∈ pre).
      { eapply elem_of_sublist; [|exact Hsub]. eapply elem_of_sublist; [|exact Hsub1]. done. }
      rewrite (Hfx m) in Hcov; [discriminate| |by apply Hnew|done].
      apply Hin_root, elem_of_app. by left.
  - split; [|split].
    + apply sublist_app; [|reflexivity]. by etrans.
    + apply pairwise_snoc; [done|].
      apply Forall_forall. intros x Hx Hcx Hcn. split.
      * intros Hk. by apply Hcov1.
      * intros Hkn Hkx.
        rewrite Hcn, Hkn in Hskip. simpl in Hskip. apply Nat.ltb_ge in Hskip.
        destruct (is_cover x.2 n.2) eqn:Hcov; [|done]. exfalso.
        assert (Hm : x ∈ filter (fun m : Layout.Node =>
                                   is_child m.2 && Layout.clickable m.2 "true"
                                   && is_cover m.2 n.2) result1).
        { apply list_elem_of_filter. split; [|done]. by rewrite Hcx, Hkx, Hcov. }
        destruct (filter _ result1); [by apply elem_of_nil in Hm | simpl in Hskip; lia].
    + intros x Hx Hcx Hfx. apply elem_of_app.
      apply elem_of_app in Hx as [Hx|Hx]; [left; by apply Hfree1 | by right].
Qed.

Lemma valid_fold_inv (l pre : list Layout.Node) (result : list Layout.Node) :
  iter_node_at [] root = (pre ++ l)%list →
  sublist result pre → pairwise uncovered_children result →
  (∀ x, x ∈ pre → is_child x.2 = true → never_covered root x → x ∈ result) →
  sublist (foldl valid_step result l) (pre ++ l)%list
  ∧ pairwise uncovered_children (foldl valid_step result l)
  ∧ (∀ x, x ∈ (pre ++ l)%list → is_child x.2 = true → never_covered root x → x ∈ foldl valid_step result l).
Proof.
  revert pre result. induction l as [|n l IH]; intros pre result Hroot Hsub Hpw Hfree; simpl.
  - by rewrite app_nil_r.
  - destruct (valid_step_inv pre l result n Hroot Hsub Hpw Hfree) as (H1 & H2 & H3).
    replace (pre ++ n :: l)%list with ((pre ++ [n]) ++ l)%list
      by (rewrite <- app_assoc; reflexivity).
    apply IH; [by rewrite <- app_assoc|done|done|done].
Qed.

(** X10. The children of a tree, as [get_children] chooses them, come
    from the [node] elements of the tree in document order. Of two of them,
    the later one does not cover the earlier one if it is clickable, and
    the earlier one does not cover the later one if the earlier one is
    clickable and the later one is marked as not clickable. And a node that
    satisfies [is_child] and that no other child-like node covers is always
    chosen. *)
Theorem get_children_uncovered :
  sublist (Layout.get_children root) (iter_node_at [] root)
  ∧ (∀ (i j : nat) x n, (i < j)%nat →
       Layout.get_children root !! i = Some x → Layout.get_children root !! j = Some n →
       is_child x.2 = true ∧ is_child n.2 = true ∧ uncovered x n)
  ∧ (∀ n, n ∈ iter_node_at [] root → is_child n.2 = true →
          (∀ m, m ∈ iter_node_at [] root → m.1 ≠ n.1 → is_child m.2 = true →
                is_cover m.2 n.2 = false) →
          n ∈ Layout.get_children root).
Proof.
  destruct (valid_fold_inv (iter_node_at [] root) [] []) as (Hsub & Hpw & Hfree);
    [done|done|done| |].
  { intros x Hx. by apply elem_of_nil in Hx. }
  simpl in Hsub, Hfree.
  change (foldl valid_step [] (iter_node_at [] root)) with (Layout.get_valid_node root) in *.
  unfold Layout.get_children. split; [|split].
  - etrans; [apply sublist_filter | exact Hsub].
  - intros i j x n Hij Hi Hj.
    assert (Hx : is_child x.2 = true).
    { apply list_elem_of_lookup_2, list_elem_of_filter in Hi as [Hx _]. by apply Is_true_true. }
    assert (Hn : is_child n.2 = true).
    { apply list_elem_of_lookup_2, list_elem_of_filter in Hj as [Hn _]. by apply Is_true_true. }
    split; [done|]. split; [done|].
    apply (pairwise_lookup uncovered_children _ i j x n (pairwise_filter _ _ _ Hpw) Hij Hi Hj); done.
  - intros n Hn Hc Hf. apply list_elem_of_filter. split; [by apply Is_true_true|].
    by apply Hfree.
Qed.

End ValidNodes.

(** ** Matching is one to one *)

Lemma commit_one_to_one (o c : Ref) (st : MatchState) :
  state_ok st → o ∉ info_matched st → c ∉ info_matched st →
  one_to_one (res_matched st) → one_to_one (res_matched (commit o c st)).
Proof.
  intros Hok Ho Hc Hinj o1 o2 n. unfold commit. simpl.
  destruct (decide (o = o1)) as [<-|H1], (decide (o = o2)) as [<-|H2];
    rewrite ?lookup_insert_eq, ?lookup_insert_ne by done.
  - done.
  - intros [= <-] H. destruct (Hok _ _ H) as (_ & _ & _ & Hin). done.
  - intros H [= <-]. destruct (Hok _ _ H) as (_ & _ & _ & Hin). done.
  - apply Hinj.
Qed.

Lemma sure_steps_one_to_one (st st' : MatchState) :
  rtc sure_step st st' → state_ok st → parents_ok st → one_to_one (res_matched st) →
  one_to_one (res_matched st').
Proof.
  induction 1 as [s|s1 s2 s3 Hstep _ IH]; intros Hok Hpar Hinj; [done|].
  destruct (sure_step_inv _ _ Hstep Hok Hpar) as (Hok2 & Hpar2 & _).
  apply IH; [done|done|].
  destruct Hstep as [s o c _ _ Ho Hc|s op np _ _]; [by apply commit_one_to_one | done].
Qed.

Lemma possible_steps_one_to_one (B : gset Ref) (st st' : MatchState) :
  rtc possible_step st st' → state_ok st → B ⊆ info_matched st → possible_ok B st →
  one_to_one (res_matched st) → one_to_one (res_matched st').
Proof.
  induction 1 as [s|s1 s2 s3 Hstep _ IH]; intros Hok HB Hpos Hinj; [done|].
  destruct (possible_step_inv B _ _ Hstep Hok HB Hpos) as (Hok2 & HB2 & Hpos2 & _).
  apply IH; [done|done|done|].
  destruct Hstep as [s o c _ _ Ho Hc|s o S _ _ _]; [by apply commit_one_to_one | done].
Qed.

Section PossibleKeys.

Variables old new : Layout.t.

(** The invariant of the loop of [match_possible]: the old nodes that
    have a candidate set have been met and are not matched. *)
Lemma match_possible_keys (predictor : Element -> Element -> bool) (l pre : list Ref)
    (st : MatchState) :
  NoDup (pre ++ l) →
  (∀ o, o ∈ l → o.1 = Old) →
  state_ok st →
  (∀ o, is_Some (res_possible st !! o) → o ∈ pre ∧ res_matched st !! o = None) →
  let st' :=
    foldl
      (fun st old_child =>
         if unmatched st old_child
         then
           let candidates :=
             filter (fun new_child =>
                       unmatched st new_child
                       && predictor (elem old new old_child) (elem old new new_child))
                    (refs New (Layout.children new)) in
           if (0 <? length candidates)%nat
           then
             match unique_possible old new old_child candidates with
             | Some candidate => commit old_child candidate st
             | None => add_possible old_child (list_to_set candidates) st
             end
           else st
         else st)
      st l in
  ∀ o, is_Some (res_possible st' !! o) → res_matched st' !! o = None.
Proof.
  revert pre st. induction l as [|x l IH]; intros pre st Hnd Hold Hok Hinv; simpl.
  - intros o Ho. by apply Hinv.
  - replace (pre ++ x :: l)%list with ((pre ++ [x]) ++ l)%list in Hnd
      by (rewrite <- app_assoc; reflexivity).
    assert (Hx : x ∉ pre).
    { apply NoDup_app in Hnd as [Hnd _]. apply NoDup_app in Hnd as (_ & Hdis & _).
      intros Hin. apply (Hdis x Hin). apply list_elem_of_here. }
    assert (Hxold : x.1 = Old) by (apply Hold, list_elem_of_here).
    assert (Hold' : ∀ o, o ∈ l → o.1 = Old)
      by (intros o Ho; by apply Hold, list_elem_of_further).
    assert (Hkeep : ∀ o, is_Some (res_possible st !! o) →
                         o ∈ (pre ++ [x])%list ∧ res_matched st !! o = None).
    { intros o Ho. destruct (Hinv o Ho) as [Hin Hn]. split; [|done].
      apply elem_of_app. by left. }
    destruct (unmatched st x) eqn:Hun; [|by apply (IH (pre ++ [x])%list)].
    destruct (0 <? length _)%nat eqn:Hlen; [|by apply (IH (pre ++ [x])%list)].
    match goal with
    | |- context [unique_possible old new x ?c] =>
        set (candidates := c) in *; destruct (unique_possible old new x candidates) as [c'|] eqn:Hu
    end.
    + apply (IH (pre ++ [x])%list); [done|done| |].
      * intros o n. unfold commit. simpl.
        destruct (decide (x = o)) as [<-|Hne].
        -- rewrite lookup_insert_eq. intros [= <-].
           apply unique_possible_elem in Hu.
           apply list_elem_of_filter in Hu as [_ Hc'].
           apply elem_of_refs in Hc'. 
           set_solver.
        -- rewrite lookup_insert_ne by done. intros H.
           destruct (Hok _ _ H) as (? & ? & ? & ?). set_solver.
      * intros o Ho. simpl in Ho. destruct (Hinv o Ho) as [Hin Hn].
        split; [apply elem_of_app; by left|].
        simpl. rewrite lookup_insert_ne; [done|]. intros <-. done.
    + apply (IH (pre ++ [x])%list); [done|done|done|].
      intros o Ho. simpl in Ho. simpl.
      destruct (decide (x = o)) as [<-|Hne].
      * split; [apply elem_of_app; right; apply list_elem_of_here|].
        destruct (res_matched st !! x) as [n|] eqn:Hm; [|done].
        destruct (Hok _ _ Hm) as (_ & _ & Hin & _).
        unfold unmatched in Hun. apply negb_true_iff, bool_decide_eq_false in Hun. done.
      * rewrite lookup_insert_ne in Ho by done. by apply Hkeep.
Qed.

End PossibleKeys.

(** X11. In every result of [match_layout], [matched] pairs old nodes
    with new nodes one to one: no new node is the match of two old nodes.
    Every candidate set of [possible] belongs to an old node and holds new
    nodes. And, the old children being distinct, no old node is both a key
    of [matched] and a key of [possible]. *)
Theorem match_layout_one_to_one (old new : Layout.t) (points : list (KeyPoint * KeyPoint))
    (r : Result) :
  NoDup (Layout.children old) →
  match_layout old new points = Some r →
  (∀ o n, matched r !! o = Some n → o.1 = Old ∧ n.1 = New)
  ∧ (∀ o o' n, matched r !! o = Some n → matched r !! o' = Some n → o = o')
  ∧ (∀ o S, possible r !! o = Some S → o.1 = Old ∧ ∀ n, n ∈ S → n.1 = New)
  ∧ (∀ o, is_Some (possible r !! o) → matched r !! o = None).
Proof.
  intros Hnd. unfold match_layout. intros H. apply bind_Some in H as (st & Hst & [= <-]).
  pose proof (sure_phases_steps _ _ _ _ Hst) as Hsteps.
  destruct state0_ok as (Hok0 & Hpar0 & Hpos0).
  destruct (sure_steps_inv _ _ Hsteps Hok0 Hpar0) as (Hok & Hpar & Hpos & _).
  assert (Hinj0 : one_to_one (res_matched state0)).
  { intros o o' n Ho. simpl in Ho. by rewrite lookup_empty in Ho. }
  pose proof (sure_steps_one_to_one _ _ Hsteps Hok0 Hpar0 Hinj0) as Hinj.
  assert (Hposs : possible_ok (info_matched st) st).
  { intros o S. rewrite Hpos, Hpos0, lookup_empty. discriminate. }
  pose proof (match_possible_steps old new (is_match false) st) as Hpsteps.
  destruct (possible_steps_inv (info_matched st) _ _ Hpsteps Hok (reflexivity _) Hposs)
    as (Hok' & Hposs' & _).
  pose proof (possible_steps_one_to_one (info_matched st) _ _ Hpsteps Hok (reflexivity _)
                Hposs Hinj) as Hinj'.
  destruct (finalize_spec old new (match_possible old new (is_match false) st))
    as (Hm & Hp & _).
  rewrite Hm, Hp. split; [|split; [exact Hinj'|split]].
  - intros o n Hon. destruct (Hok' _ _ Hon) as (? & ? & _). done.
  - intros o S HS. destruct (Hposs' _ _ HS) as [Ho HSn]. split; [done|].
    intros n Hn. by destruct (HSn n Hn).
  - unfold match_possible.
    apply (match_possible_keys old new (is_match false) (refs Old (Layout.children old)) [] st).
    + simpl. unfold refs. apply NoDup_fmap; [|done]. intros x y [= ->]. done.
    + intros o Ho. by apply elem_of_refs in Ho.
    + exact Hok.
    + intros o [S HS]. rewrite Hpos, Hpos0, lookup_empty in HS. discriminate.
Qed.

Lemma get_children_sublist (root : Element) :
  sublist (Layout.get_children root) (iter_node_at [] root).
Proof.
  destruct (valid_fold_inv root (iter_node_at [] root) [] []) as (Hsub & _);
    [done|done|done| |].
  { intros x Hx. by apply elem_of_nil in Hx. }
  unfold Layout.get_children. etrans; [apply sublist_filter | exact Hsub].
Qed.

Lemma build_children_NoDup (xml : string) (parsed : Element) (png : list Byte.byte)
    (l : Layout.t) :
  Layout.build xml parsed png = Some l → NoDup (Layout.children l).
Proof.
  intros H. destruct (build_fields _ _ _ _ H) as (_ & _ & _ & -> & _).
  eapply sublist_NoDup; [apply (iter_node_at_NoDup (preprocess parsed) [])|].
  apply fmap_sublist, get_children_sublist.
Qed.

(** X11 on the match of [old_screen] and [new_screen]. *)
Lemma match_layout_one_to_one_witness :
  ∃ o n r,
    Layout.build "old" old_screen [] = Some o ∧ Layout.build "new" new_screen [] = Some n
    ∧ match_layout o n (key_points (fun _ _ => []) o n) = Some r
    ∧ (∀ x y, matched r !! x = Some y → x.1 = Old ∧ y.1 = New)
    ∧ (∀ x x' y, matched r !! x = Some y → matched r !! x' = Some y → x = x')
    ∧ (∀ x S, possible r !! x = Some S → x.1 = Old ∧ ∀ y, y ∈ S → y.1 = New)
    ∧ (∀ x, is_Some (possible r !! x) → matched r !! x = None).
Proof.
  destruct demo_match_returns as [r Hr]. unfold demo_match in Hr.
  apply bind_Some in Hr as (o & Ho & Hr). apply bind_Some in Hr as (n & Hn & Hr).
  exists o, n, r. split; [exact Ho|]. split; [exact Hn|]. split; [exact Hr|].
  exact (match_layout_one_to_one o n _ r (build_children_NoDup _ _ _ o Ho) Hr).
Defined.

(** ** The loops that run to a fixed point stop *)

Lemma while_update_more {S : Type} (body : S -> S * bool) (fuel fuel' : nat) (s s' : S) :
  while_update fuel body s = Some s' → (fuel <= fuel')%nat →
  while_update fuel' body s = Some s'.
Proof.
  revert fuel' s. induction fuel as [|fuel IH]; intros fuel' s; simpl; [discriminate|].
  intros H Hle. destruct fuel' as [|fuel']; [lia|]. simpl.
  destruct (body s) as [s1 [|]]; [|done]. apply IH; [done|lia].
Qed.

(** X12. The loops of [match_sure] and of [sift_match] stop: from any
    state and for any predictor they make at most as many rounds with an
    update as the old layout has children, so that any larger number of
    rounds gives the same state; and [match_layout] returns a result on
    every pair of layouts. *)
Theorem match_layout_terminates (old new : Layout.t) (points : list (KeyPoint * KeyPoint)) :
  (∀ predictor st, ∃ st',
      ∀ fuel, (length (Layout.children old) < fuel)%nat →
              match_sure old new fuel predictor st = Some st')
  ∧ (∀ st, ∃ st',
        ∀ fuel, (length (Layout.children old) < fuel)%nat →
                sift_match old new points fuel st = Some st')
  ∧ is_Some (match_layout old new points).
Proof.
  split; [|split].
  - intros predictor st.
    destruct (match_sure_total old new predictor st) as [st' Hst']. exists st'.
    intros fuel Hfuel. unfold match_sure in *.
    apply (while_update_more _ (Datatypes.S (length (Layout.children old)))); [done|lia].
  - intros st.
    destruct (sift_match_total old new points st) as [st' Hst']. exists st'.
    intros fuel Hfuel. unfold sift_match in *.
    apply (while_update_more _ (Datatypes.S (length (Layout.children old)))); [done|lia].
  - unfold match_layout, sure_phases.
    destruct (match_sure_total old new (is_match true) state0) as [st1 ->]. simpl.
    destruct (match_sure_total old new (is_like true) st1) as [st2 ->]. simpl.
    destruct (sift_match_total old new points st2) as [st3 ->]. simpl. eauto.
Qed.

(** X13. The loop of [get_non_overlap] stops: with the parents of a tree
    as [cp], it makes at most as many rounds with an update as the sum of
    the depths of the given nodes, so that any larger number of rounds gives
    the same dictionary; and building a [Layout] returns on every tree. *)
Theorem layout_build_terminates (xml : string) (parsed : Element) (png : list Byte.byte) :
  (∀ root nodes, ∃ result,
      ∀ fuel, (Layout.depths nodes < fuel)%nat →
              Layout.get_non_overlap root (Layout.child_parent root) fuel nodes = Some result)
  ∧ is_Some (Layout.build xml parsed png).
Proof.
  split.
  - intros root nodes.
    destruct (get_non_overlap_total root (Layout.child_parent root)
                (child_parent_shorter root) nodes) as [result Hr].
    exists result. intros fuel Hfuel. unfold Layout.get_non_overlap in *.
    apply (while_update_more _ (Datatypes.S (Layout.depths nodes))); [done|lia].
  - apply build_total.
Qed.

(** ** List items *)

Lemma dict_lookup_elem {K V : Type} `{EqDecision K} (k : K) (v : V) (d : list (K * V)) :
  NoDup d.*1 → ((k, v) ∈ d ↔ dict_lookup k d = Some v).
Proof.
  induction d as [|[k' v'] d IH]; intros Hnd.
  - simpl. split; [intros H; by apply elem_of_nil in H | discriminate].
  - rewrite fmap_cons in Hnd. apply NoDup_cons in Hnd as [Hk' Hnd]. simpl.
    destruct (decide (k = k')) as [->|Hne].
    + split.
      * intros H. apply elem_of_cons in H as [[= ->]|H]; [done|].
        exfalso. apply Hk'. by apply (list_elem_of_fmap_2 fst _ (k', v)).
      * intros [= ->]. apply list_elem_of_here.
    + rewrite <- (IH Hnd). split.
      * intros H. apply elem_of_cons in H as [[= -> ->]|H]; done.
      * intros H. by apply list_elem_of_further.
Qed.

Lemma get_list_items_fold (l pre : list Layout.Node) (counter : list (string * list Layout.Node)) :
  NoDup counter.*1 →
  (∀ k, dict_lookup k counter
        = match filter (fun x => rid_of x = k) pre with
          | [] => None
          | g => Some g
          end) →
  let counter' :=
    foldl (fun (counter : list (string * list Layout.Node)) (child : Layout.Node) =>
             let k := get_or child.2 "resource-id" "" in
             dict_set k (default [] (dict_lookup k counter) ++ [child])%list counter)
          counter l in
  NoDup counter'.*1
  ∧ ∀ k, dict_lookup k counter'
         = match filter (fun x => rid_of x = k) (pre ++ l)%list with
           | [] => None
           | g => Some g
           end.
Proof.
  revert pre counter. induction l as [|child l IH]; intros pre counter Hnd Hinv; simpl.
  - rewrite app_nil_r. done.
  - replace (pre ++ child :: l)%list with ((pre ++ [child]) ++ l)%list
      by (rewrite <- app_assoc; reflexivity).
    apply IH; [by apply dict_set_NoDup|].
    intros k. rewrite dict_lookup_dict_set, filter_app, filter_cons, filter_nil.
    fold (rid_of child). rewrite (Hinv (rid_of child)).
    destruct (decide (k = rid_of child)) as [->|Hne].
    + rewrite decide_True by done.
      destruct (filter _ pre) as [|y ys]; reflexivity.
    + rewrite decide_False by done. rewrite app_nil_r. apply Hinv.
Qed.

(** X14. The groups of [get_list_items] are exactly the collections of
    all the given nodes that share one resource id, for each resource id
    that is not empty and that at least two of the nodes have; inside a
    group the nodes keep their order. *)
Theorem get_list_items_spec (nodes : list Layout.Node) (g : list Layout.Node) :
  g ∈ Layout.get_list_items nodes
  ↔ ∃ k, k ≠ ""
         ∧ g = filter (fun x : Layout.Node => get_or x.2 "resource-id" "" = k) nodes
         ∧ (1 < length g)%nat.
Proof.
  unfold Layout.get_list_items.
  destruct (get_list_items_fold nodes [] []) as [Hnd Hlook]; [apply NoDup_nil_2|done|].
  simpl in Hnd, Hlook.
  rewrite list_elem_of_fmap. split.
  - intros ([k g'] & -> & Hin). apply list_elem_of_filter in Hin as [Hc Hin].
    simpl in Hc. apply Is_true_true, andb_true_iff in Hc as [Hk Hlen].
    apply negb_true_iff, is_empty_false in Hk. apply Nat.ltb_lt in Hlen.
    exists k. split; [done|]. split; [|done].
    apply (dict_lookup_elem _ _ _ Hnd) in Hin. rewrite Hlook in Hin.
    fold rid_of. destruct (filter _ nodes); [discriminate | by injection Hin as <-].
  - intros (k & Hk & -> & Hlen). exists (k, filter (fun x => rid_of x = k) nodes).
    split; [done|]. apply list_elem_of_filter. split.
    + simpl. apply Is_true_true, andb_true_iff. split.
      * by apply negb_true_iff, is_empty_false.
      * by apply Nat.ltb_lt.
    + apply (dict_lookup_elem _ _ _ Hnd). rewrite Hlook.
      fold rid_of in Hlen. destruct (filter _ nodes); [simpl in Hlen; lia | done].
Qed.

(** ** The ancestors chosen by [get_non_overlap] *)

Lemma child_parent_last (root : Element) (q p : path) :
  Layout.child_parent root !! q = Some p → ∃ i : nat, q = (p ++ [i])%list.
Proof.
  unfold Layout.child_parent. intros H.
  apply elem_of_list_to_map_2 in H.
  apply list_elem_of_In, in_flat_map in H as ([p0 e0] & _ & H).
  apply list_elem_of_In in H. simpl in H.
  apply elem_of_lookup_imap in H as (i & c & [= -> ->] & _). by exists i.
Qed.

Lemma while_update_exit {S : Type} (I : S -> Prop) (body : S -> S * bool) (fuel : nat)
    (s s' : S) :
  (∀ s, I s → I (body s).1) → I s →
  while_update fuel body s = Some s' →
  ∃ s0, I s0 ∧ body s0 = (s', false).
Proof.
  intros Hbody. revert s. induction fuel as [|fuel IH]; intros s Hs; simpl; [discriminate|].
  pose proof (Hbody s Hs) as Hs1.
  destruct (body s) as [s1 [|]] eqn:Hb; simpl in Hs1.
  - by apply IH.
  - intros [= <-]. by exists s.
Qed.

Lemma forallb_false {A : Type} (f : A -> bool) (l : list A) :
  forallb f l = false → ∃ x, x ∈ l ∧ f x = false.
Proof.
  induction l as [|x l IH]; simpl; [discriminate|].
  destruct (f x) eqn:Hx; simpl.
  - intros H. destruct (IH H) as (y & Hy & Hfy). exists y. split; [by apply list_elem_of_further|done].
  - intros _. exists x. split; [apply list_elem_of_here | done].
Qed.

Section NonOverlapSpec.

Variable root : Element.

#[local] Abbreviation cp := (Layout.child_parent root).
#[local] Abbreviation promote := (Layout.promote root cp).

Lemma promote_cases (result : list (path * path)) (update : bool) (child : path) :
  promote (result, update) child = (result, update)
  ∨ ∃ cur next, dict_lookup child result = Some cur ∧ cp !! cur = Some next
                ∧ promote (result, update) child = (dict_set child next result, true).
Proof.
  unfold Layout.promote.
  destruct (dict_lookup child result) as [cur|] eqn:Hcur; [|by left].
  destruct (cp !! cur) as [next|] eqn:Hnext; [|by left].
  destruct (_ && _); [|by left].
  destruct (forallb _ _); [|by left].
  right. by exists cur, next.
Qed.

Lemma promote_stuck (result : list (path * path)) (child cur next : path) :
  promote (result, false) child = (result, false) →
  dict_lookup child result = Some cur → cp !! cur = Some next →
  children (Layout.at_path root next) ≠ [] →
  tag (Layout.at_path root next) ≠ "hierarchy" →
  ∃ k' v', (k', v') ∈ result ∧ k' ≠ child
           ∧ is_overlap (Layout.at_path root next) (Layout.at_path root v') = true.
Proof.
  unfold Layout.promote. intros H Hcur Hnext Hch Htag. rewrite Hcur, Hnext in H.
  destruct (children (Layout.at_path root next)) as [|c cs] eqn:Hc; [done|].
  simpl in H. destruct (String.eqb_spec (tag (Layout.at_path root next)) "hierarchy"); [done|].
  simpl in H.
  destruct (forallb _ _) eqn:Hall; [discriminate|].
  apply forallb_false in Hall as (v' & Hin & Hov).
  apply list_elem_of_fmap in Hin as ([k' v''] & -> & Hin).
  apply list_elem_of_filter in Hin as [Hne Hin]. simpl in Hne.
  apply Is_true_true, negb_true_iff, bool_decide_eq_false in Hne.
  exists k', v''. split; [done|]. split; [done|]. simpl in Hov.
  by apply negb_false_iff in Hov.
Qed.

Lemma foldl_promote_true (l : list path) (result : list (path * path)) :
  (foldl promote (result, true) l).2 = true.
Proof.
  revert result. induction l as [|c l IH]; intros result; cbn [foldl]; [reflexivity|].
  destruct (promote_cases result true c) as [->|(cur & next & _ & _ & ->)]; apply IH.
Qed.

Lemma foldl_promote_false (l : list path) (result result' : list (path * path)) :
  foldl promote (result, false) l = (result', false) →
  result' = result ∧ ∀ c, c ∈ l → promote (result, false) c = (result, false).
Proof.
  induction l as [|c l IH]; cbn [foldl].
  - intros [= <-]. split; [done|]. intros c Hc. by apply elem_of_nil in Hc.
  - destruct (promote_cases result false c) as [Heq|(cur & next & _ & _ & Heq)]; rewrite Heq.
    + intros H. destruct (IH H) as [-> Hall]. split; [done|].
      intros c' Hc'. apply elem_of_cons in Hc' as [->|Hc']; [done | by apply Hall].
    + intros H. pose proof (foldl_promote_true l (dict_set c next result)) as Ht.
      rewrite H in Ht. discriminate.
Qed.

Lemma promote_ok (keys : list path) (acc : list (path * path) * bool) (child : path) :
  chosen_ok keys acc.1 → chosen_ok keys (promote acc child).1.
Proof.
  destruct acc as [result update]. intros [Hkeys Hpre].
  destruct (promote_cases result update child) as [->|(cur & next & Hcur & Hnext & ->)];
    [done|]. simpl in *. split.
  - rewrite dict_set_keys, <- Hkeys. rewrite bool_decide_eq_true_2; [done|].
    clear -Hcur. induction result as [|[k v] r IH]; simpl in *; [discriminate|].
    destruct (decide (child = k)) as [->|Hne]; [apply list_elem_of_here|].
    apply list_elem_of_further. by apply IH.
  - intros k v Hin. apply elem_of_dict_set in Hin as [[= -> ->]|Hin]; [|by apply Hpre].
    apply child_parent_last in Hnext as [i ->].
    assert (Hcv : (child, next ++ [i])%list ∈ result).
    { clear -Hcur. induction result as [|[k v] r IH]; simpl in *; [discriminate|].
      destruct (decide (child = k)) as [->|Hne].
      - injection Hcur as ->. apply list_elem_of_here.
      - apply list_elem_of_further. by apply IH. }
    etrans; [|exact (Hpre _ _ Hcv)]. by apply prefix_app_r.
Qed.

Lemma foldl_promote_ok (keys l : list path) (acc : list (path * path) * bool) :
  chosen_ok keys acc.1 → chosen_ok keys (foldl promote acc l).1.
Proof.
  revert acc. induction l as [|c l IH]; intros acc H; cbn [foldl]; [done|].
  by apply IH, promote_ok.
Qed.

End NonOverlapSpec.

Lemma non_overlap_init (nodes : list Layout.Node) (acc : list (path * path)) :
  NoDup acc.*1 →
  let r0 := foldl (fun acc (child : Layout.Node) => dict_set child.1 child.1 acc) acc nodes in
  NoDup r0.*1
  ∧ (∀ k, k ∈ r0.*1 ↔ k ∈ acc.*1 ∨ k ∈ nodes.*1)
  ∧ (∀ k v, (k, v) ∈ r0 → (k, v) ∈ acc ∨ v = k).
Proof.
  revert acc. induction nodes as [|n nodes IH]; intros acc Hnd; simpl.
  - split; [done|]. split; [|by left]. intros k. split; [by left|].
    intros [H|H]; [done | by apply elem_of_nil in H].
  - destruct (IH (dict_set n.1 n.1 acc) (dict_set_NoDup _ _ _ Hnd)) as (H1 & H2 & H3).
    split; [exact H1|]. split.
    + intros k. rewrite H2, dict_set_keys, elem_of_cons.
      destruct (bool_decide (n.1 ∈ acc.*1)) eqn:Hin.
      * apply bool_decide_eq_true in Hin. split; [tauto|].
        intros [H|[ -> |H]]; tauto.
      * rewrite elem_of_app, list_elem_of_singleton. tauto.
    + intros k v Hin. destruct (H3 k v Hin) as [H|H]; [|by right].
      apply elem_of_dict_set in H as [[= -> ->]|H]; [by right | by left].
Qed.

(** X15. When [get_non_overlap] returns, with the parents of a tree as
    [cp]: its keys are the given nodes, each once; the value of a key is the
    key itself or one of its ancestors; and no key can be promoted further:
    if the parent of the value of a key has children and is not the
    [hierarchy] element, it overlaps, in the sense of [is_overlap], the
    value of another key. *)
Theorem get_non_overlap_spec (root : Element) (fuel : nat) (nodes : list Layout.Node)
    (result : list (path * path)) :
  Layout.get_non_overlap root (Layout.child_parent root) fuel nodes = Some result →
  NoDup result.*1
  ∧ (∀ k, k ∈ result.*1 ↔ k ∈ nodes.*1)
  ∧ (∀ k v, (k, v) ∈ result → v `prefix_of` k)
  ∧ (∀ k v next,
       (k, v) ∈ result → Layout.child_parent root !! v = Some next →
       children (Layout.at_path root next) ≠ [] →
       tag (Layout.at_path root next) ≠ "hierarchy" →
       ∃ k' v', (k', v') ∈ result ∧ k' ≠ k
                ∧ is_overlap (Layout.at_path root next) (Layout.at_path root v') = true).
Proof.
  unfold Layout.get_non_overlap.
  destruct (non_overlap_init nodes [] (NoDup_nil_2 (A:=path))) as (Hnd & Hkeys & Hself).
  set (r0 := foldl (fun acc (child : Layout.Node) => dict_set child.1 child.1 acc) [] nodes) in *.
  intros H.
  apply (while_update_exit (chosen_ok r0.*1)) in H as (s0 & [Hk0 Hp0] & Hbody).
  - apply foldl_promote_false in Hbody as [-> Hstuck].
    rewrite Hk0. split; [exact Hnd|]. split.
    + intros k. rewrite Hkeys. split; [intros [H|H]; [by apply elem_of_nil in H | done] | by right].
    + split; [exact Hp0|].
      intros k v next Hin Hnext Hch Htag.
      assert (Hlook : dict_lookup k s0 = Some v).
      { apply dict_lookup_elem; [by rewrite Hk0 | done]. }
      apply (promote_stuck root s0 k v next); [|done|done|done|done].
      apply Hstuck. by apply (list_elem_of_fmap_2 fst _ (k, v)).
  - intros s Hs. by apply foldl_promote_ok.
  - split; [done|]. intros k v Hin.
    destruct (Hself k v Hin) as [Hnil| ->]; [by apply elem_of_nil in Hnil|done].
Qed.

(** X15 on a list of two rows: each text is promoted to its row, and no
    further, since the list overlaps the other row. *)
Lemma get_non_overlap_spec_witness :
  Layout.get_non_overlap list_screen (Layout.child_parent list_screen) 5 list_texts
  = Some [([0; 0; 0]%nat, [0; 0]%nat); ([0; 1; 0]%nat, [0; 1]%nat)]
  ∧ ∃ k' v', (k', v') ∈ [([0; 0; 0]%nat, [0; 0]%nat); ([0; 1; 0]%nat, [0; 1]%nat)]
             ∧ k' ≠ [0; 0; 0]%nat
             ∧ is_overlap (Layout.at_path list_screen [0%nat]) (Layout.at_path list_screen v')
               = true.
Proof.
  assert (H : Layout.get_non_overlap list_screen (Layout.child_parent list_screen) 5 list_texts
              = Some [([0; 0; 0]%nat, [0; 0]%nat); ([0; 1; 0]%nat, [0; 1]%nat)])
    by (vm_compute; reflexivity).
  split; [exact H|].
  refine (proj2 (proj2 (proj2 (get_non_overlap_spec list_screen 5 list_texts _ H)))
            [0; 0; 0]%nat [0; 0]%nat [0%nat] _ _ _ _).
  - apply list_elem_of_here.
  - vm_compute. reflexivity.
  - vm_compute. discriminate.
  - vm_compute. discriminate.
Defined.

(** ** An index is a rank *)

Lemma index_step_eq (k : string) (c : gmap string nat) (child : Element) :
  index_step (k, c) child
  = let v := get_or child k "" in
    let n := default 0%nat (c !! v) in
    ((k, if PyStr.is_empty v then c else <[v := Datatypes.S n]> c),
     set_attr (k ++ "-index")
              (if PyStr.is_empty v then PyStr.str (-1) else PyStr.str (Z.of_nat n)) child).
Proof. unfold index_step. simpl. by destruct (PyStr.is_empty _). Qed.

Lemma get_or_set_attr_ne (k k' v d : string) (e : Element) :
  k ≠ k' → get_or (set_attr k' v e) k d = get_or e k d.
Proof. intros Hne. unfold get_or, get, set_attr. simpl. by rewrite lookup_insert_ne. Qed.

Lemma index_child_eq (c1 c2 c3 c4 : gmap string nat) (e : Element) :
  index_skipped e = false →
  let upd k (c : gmap string nat) :=
    if PyStr.is_empty (get_or e k "") then c
    else <[get_or e k "" := Datatypes.S (default 0%nat (c !! get_or e k ""))]> c in
  let idx k (c : gmap string nat) :=
    if PyStr.is_empty (get_or e k "") then PyStr.str (-1)
    else PyStr.str (Z.of_nat (default 0%nat (c !! get_or e k ""))) in
  index_child [("class", c1); ("resource-id", c2); ("content-desc", c3); ("text", c4)] e
  = ([("class", upd "class" c1); ("resource-id", upd "resource-id" c2);
      ("content-desc", upd "content-desc" c3); ("text", upd "text" c4)],
     set_attr "text-index" (idx "text" c4)
       (set_attr "content-desc-index" (idx "content-desc" c3)
          (set_attr "resource-id-index" (idx "resource-id" c2)
             (set_attr "class-index" (idx "class" c1) e)))).
Proof.
  intros Hskip upd idx. unfold index_child. unfold index_skipped in Hskip. rewrite Hskip.
  rewrite index_step_eq. cbn zeta iota beta.
  rewrite index_step_eq. cbn zeta iota beta.
  rewrite index_step_eq. cbn zeta iota beta.
  rewrite index_step_eq. cbn zeta iota beta.
  cbv [String.append].
  rewrite !get_or_set_attr_ne by done.
  reflexivity.
Qed.

Lemma occurrences_app (k v : string) (l1 l2 : list (gmap string string)) :
  occurrences k v (l1 ++ l2) = (occurrences k v l1 + occurrences k v l2)%nat.
Proof. unfold occurrences. by rewrite filter_app, length_app. Qed.

Lemma occurrences_single (k v : string) (a : gmap string string) :
  occurrences k v [a]
  = if decide (skipped a = false ∧ default "" (a !! k) = v) then 1%nat else 0%nat.
Proof.
  unfold occurrences. rewrite filter_cons, filter_nil.
  by destruct (decide (skipped a = false ∧ default "" (a !! k) = v)).
Qed.

Ltac elem_of_list := repeat first [apply list_elem_of_here | apply list_elem_of_further].

Lemma index_child_rank (pre : list (gmap string string))
    (cs : list (string * gmap string nat)) (e : Element) :
  counters_of pre cs →
  counters_of (pre ++ [attrib (index_child cs e).2]) (index_child cs e).1
  ∧ ranked pre (attrib (index_child cs e).2)
  ∧ tag (index_child cs e).2 = tag e
  ∧ children (index_child cs e).2 = children e.
Proof.
  intros (c1 & c2 & c3 & c4 & -> & Hc).
  destruct (index_skipped e) eqn:Hskip.
  - assert (Heq : index_child [("class", c1); ("resource-id", c2); ("content-desc", c3);
                               ("text", c4)] e
                  = ([("class", c1); ("resource-id", c2); ("content-desc", c3); ("text", c4)], e)).
    { unfold index_child. unfold index_skipped in Hskip. by rewrite Hskip. }
    rewrite Heq. simpl. split; [|split; [|done]].
    + exists c1, c2, c3, c4. split; [done|]. intros k c Hk v Hv.
      rewrite occurrences_app, occurrences_single, decide_False, Nat.add_0_r; [by apply Hc|].
      intros [Hs _]. unfold index_skipped, get_or, get in Hskip. unfold skipped in Hs. congruence.
    + intros Hs. unfold index_skipped, get_or, get in Hskip. unfold skipped in Hs. congruence.
  - assert (H1 : ∀ v, v ≠ "" → default 0%nat (c1 !! v) = occurrences "class" v pre)
      by (apply Hc; elem_of_list).
    assert (H2 : ∀ v, v ≠ "" → default 0%nat (c2 !! v) = occurrences "resource-id" v pre)
      by (apply Hc; elem_of_list).
    assert (H3 : ∀ v, v ≠ "" → default 0%nat (c3 !! v) = occurrences "content-desc" v pre)
      by (apply Hc; elem_of_list).
    assert (H4 : ∀ v, v ≠ "" → default 0%nat (c4 !! v) = occurrences "text" v pre)
      by (apply Hc; elem_of_list).
    clear Hc.
    rewrite (index_child_eq c1 c2 c3 c4 e Hskip). cbn [fst snd].
    match goal with
    | |- context [set_attr "text-index" ?v ?x] =>
        remember (set_attr "text-index" v x) as e' eqn:He'
    end.
    assert (Hval : ∀ k, k ∈ index_attrs → default "" (attrib e' !! k) = get_or e k "").
    { intros k Hk. rewrite He'. unfold set_attr, get_or, get. simpl. unfold index_attrs in Hk.
      repeat (apply elem_of_cons in Hk as [->|Hk]); [..|by apply elem_of_nil in Hk];
        lookup_inserts; reflexivity. }
    assert (Hs' : skipped (attrib e') = false).
    { unfold skipped. rewrite (Hval "resource-id") by (unfold index_attrs; elem_of_list).
      exact Hskip. }
    assert (Hstep : ∀ k (c : gmap string nat) v,
              k ∈ index_attrs → v ≠ "" →
              (∀ v, v ≠ "" → default 0%nat (c !! v) = occurrences k v pre) →
              default 0%nat
                ((if PyStr.is_empty (get_or e k "") then c
                  else <[get_or e k "" := Datatypes.S (default 0%nat (c !! get_or e k ""))]> c)
                 !! v)
              = occurrences k v (pre ++ [attrib e'])).
    { intros k c v Hk Hv Hcount.
      rewrite occurrences_app, occurrences_single, (Hval k Hk).
      destruct (PyStr.is_empty (get_or e k "")) eqn:Hempty.
      - apply is_empty_true in Hempty. rewrite Hempty.
        rewrite decide_False by (intros [_ Heq]; congruence).
        rewrite Nat.add_0_r. by apply Hcount.
      - apply is_empty_false in Hempty.
        destruct (decide (get_or e k "" = v)) as [<-|Hne].
        + rewrite lookup_insert_eq, decide_True by done. simpl.
          rewrite (Hcount _ Hempty). lia.
        + rewrite lookup_insert_ne by done.
          rewrite decide_False by (intros [_ Heq]; congruence).
          rewrite Nat.add_0_r. by apply Hcount. }
    split; [|split; [|by rewrite He']].
    + eexists _, _, _, _. split; [reflexivity|]. intros k c Hk v Hv.
      repeat (apply elem_of_cons in Hk as [[= -> ->]|Hk]); [..|by apply elem_of_nil in Hk];
        (apply Hstep; [unfold index_attrs; elem_of_list | done | done]).
    + intros _ k Hk. rewrite (Hval k Hk).
      rewrite He'. unfold set_attr. simpl. unfold index_attrs in Hk.
      repeat (apply elem_of_cons in Hk as [->|Hk]); [..|by apply elem_of_nil in Hk];
        cbv [String.append]; lookup_inserts; f_equal;
        match goal with
        | |- context [PyStr.is_empty (get_or e ?k "")] =>
            destruct (PyStr.is_empty (get_or e k "")) eqn:Hempty; [reflexivity|];
            apply is_empty_false in Hempty;
            first [rewrite (H1 _ Hempty) | rewrite (H2 _ Hempty)
                  | rewrite (H3 _ Hempty) | rewrite (H4 _ Hempty)]; reflexivity
        end.
Qed.

Lemma all_ranked_nil (pre : list (gmap string string)) : all_ranked pre [].
Proof. intros j a H. by rewrite lookup_nil in H. Qed.

Lemma all_ranked_app (pre l1 l2 : list (gmap string string)) :
  all_ranked pre l1 → all_ranked (pre ++ l1) l2 → all_ranked pre (l1 ++ l2).
Proof.
  intros H1 H2 j a Hj.
  destruct (decide (j < length l1)%nat) as [Hlt|Hge].
  - rewrite lookup_app_l in Hj by done.
    rewrite take_app_le by lia. by apply H1.
  - rewrite lookup_app_r in Hj by lia.
    rewrite take_app_ge by lia. rewrite app_assoc. by apply H2.
Qed.

Lemma node_attribs_unfold (t : string) (a : gmap string string) (ch : list Element) :
  node_attribs (mkElement t a ch)
  = ((if bool_decide (t = "node") then [a] else []) ++ flat_map node_attribs ch)%list.
Proof.
  unfold node_attribs. simpl. rewrite map_app. f_equal.
  - by destruct (bool_decide (t = "node")).
  - induction ch as [|c ch IH]; simpl; [done|]. by rewrite map_app, IH.
Qed.

Lemma denote_index_from_rank (e : Element) :
  ∀ pre cs, counters_of pre cs →
    counters_of (pre ++ node_attribs (denote_index_from cs e).2) (denote_index_from cs e).1
    ∧ all_ranked pre (node_attribs (denote_index_from cs e).2).
Proof.
  induction e as [t a ch IH] using Element_forall_ind. intros pre cs Hcs.
  simpl. set (e := mkElement t a ch).
  assert (Hself : ∃ cs1 e1,
            (if bool_decide (t = "node") then index_child cs e else (cs, e)) = (cs1, e1)
            ∧ tag e1 = t
            ∧ counters_of (pre ++ (if bool_decide (t = "node") then [attrib e1] else [])) cs1
            ∧ all_ranked pre (if bool_decide (t = "node") then [attrib e1] else [])).
  { case_bool_decide as Ht.
    - destruct (index_child_rank pre cs e Hcs) as (H1 & H2 & H3 & _).
      destruct (index_child cs e) as [cs1 e1]. exists cs1, e1. simpl in *.
      split; [done|]. split; [done|]. split; [done|].
      intros [|j] a' Hj; simpl in Hj; [|by rewrite lookup_nil in Hj].
      injection Hj as <-. simpl. by rewrite app_nil_r.
    - exists cs, e. split; [done|]. split; [done|]. rewrite app_nil_r.
      split; [done | apply all_ranked_nil]. }
  destruct Hself as (cs1 & e1 & -> & Htag & Hcs1 & Hr1).
  assert (Hch : ∀ pre cs, counters_of pre cs →
            counters_of (pre ++ flat_map node_attribs (map_accum denote_index_from cs ch).2)
                        (map_accum denote_index_from cs ch).1
            ∧ all_ranked pre (flat_map node_attribs (map_accum denote_index_from cs ch).2)).
  { clear -IH. induction IH as [|c ch Hc _ IHch]; intros pre cs Hcs; simpl.
    - rewrite app_nil_r. split; [done | apply all_ranked_nil].
    - destruct (Hc pre cs Hcs) as [H1 H2].
      destruct (denote_index_from cs c) as [cs1 c']. simpl in *.
      destruct (IHch _ _ H1) as [H3 H4].
      destruct (map_accum denote_index_from cs1 ch) as [cs2 ch']. simpl in *.
      split; [by rewrite app_assoc | by apply all_ranked_app]. }
  destruct (Hch _ _ Hcs1) as [H3 H4].
  destruct (map_accum denote_index_from cs1 ch) as [cs2 ch']. simpl in *.
  rewrite node_attribs_unfold, Htag.
  split; [by rewrite app_assoc | by apply all_ranked_app].
Qed.

Lemma counters0_of : counters_of [] counters0.
Proof.
  exists ∅, ∅, ∅, ∅. split; [reflexivity|]. intros k c Hk v _.
  assert (c = ∅) as ->.
  { repeat (apply elem_of_cons in Hk as [[= _ ->]|Hk]); try done. by apply elem_of_nil in Hk. }
  by rewrite lookup_empty.
Qed.

Lemma denote_index_ranked (root : Element) : all_ranked [] (node_attribs (denote_index root)).
Proof. unfold denote_index. apply (denote_index_from_rank root [] counters0 counters0_of). Qed.

Lemma bounds_attrib_lookup (a : gmap string string) (k : string) :
  k ≠ "x" → k ≠ "y" → k ≠ "w" → k ≠ "h" → bounds_attrib a !! k = a !! k.
Proof.
  intros Hx Hy Hw Hh. unfold bounds_attrib, bounds_update. simpl.
  by rewrite !lookup_insert_ne by done.
Qed.

Lemma bounds_attrib_index (a : gmap string string) (k : string) :
  k ∈ index_attrs →
  bounds_attrib a !! k = a !! k
  ∧ bounds_attrib a !! (k ++ "-index") = a !! (k ++ "-index").
Proof.
  intros Hk. unfold index_attrs in Hk.
  repeat (apply elem_of_cons in Hk as [->|Hk]); [..|by apply elem_of_nil in Hk];
    split; by apply bounds_attrib_lookup.
Qed.

Lemma skipped_bounds_attrib (a : gmap string string) : skipped (bounds_attrib a) = skipped a.
Proof. unfold skipped. by rewrite bounds_attrib_lookup. Qed.

Lemma occurrences_bounds_attrib (k v : string) (l : list (gmap string string)) :
  k ∈ index_attrs → occurrences k v (map bounds_attrib l) = occurrences k v l.
Proof.
  intros Hk. unfold occurrences. induction l as [|a l IH]; [done|].
  rewrite map_cons, !filter_cons, skipped_bounds_attrib,
    (proj1 (bounds_attrib_index a k Hk)).
  destruct (decide (skipped a = false ∧ default "" (a !! k) = v)); simpl; by rewrite IH.
Qed.

Lemma ranked_bounds_attrib (pre : list (gmap string string)) (a : gmap string string) :
  ranked pre a → ranked (map bounds_attrib pre) (bounds_attrib a).
Proof.
  intros H Hs k Hk. rewrite skipped_bounds_attrib in Hs.
  destruct (bounds_attrib_index a k Hk) as [-> ->].
  rewrite occurrences_bounds_attrib by done. by apply H.
Qed.

Lemma all_ranked_bounds_attrib (l : list (gmap string string)) :
  all_ranked [] l → all_ranked [] (map bounds_attrib l).
Proof.
  intros H j a Hj. rewrite list_lookup_fmap in Hj.
  destruct (l !! j) as [a0|] eqn:Ha; [|discriminate]. injection Hj as <-.
  simpl. change (take j (map bounds_attrib l)) with (take j (bounds_attrib <$> l)).
  rewrite <- fmap_take. apply ranked_bounds_attrib. by apply (H j).
Qed.

Lemma node_attribs_denote_bounds (e : Element) :
  node_attribs (denote_bounds e) = map bounds_attrib (node_attribs e).
Proof.
  induction e as [t a ch IH] using Element_forall_ind.
  simpl. rewrite !node_attribs_unfold.
  assert (Htag : tag (if bool_decide (t = "node") then bounds_update (mkElement t a ch)
                      else mkElement t a ch) = t) by (by destruct (bool_decide _)).
  rewrite Htag, map_app. f_equal.
  - by destruct (bool_decide (t = "node")).
  - clear Htag. induction IH as [|c ch Hc _ IHch]; [done|].
    cbn [map flat_map]. by rewrite map_app, Hc, IHch.
Qed.

Lemma preprocess_ranked (root : Element) : all_ranked [] (node_attribs (preprocess root)).
Proof.
  unfold preprocess. rewrite node_attribs_denote_bounds.
  apply all_ranked_bounds_attrib, denote_index_ranked.
Qed.

(** X16. After [preprocess], the index that a [node] element carries for
    one of [class], [resource-id], [content-desc], [text] is [-1] when the
    value of that attribute is empty, and otherwise the number of [node]
    elements before it in document order that have the same value; the
    elements whose [resource-id] starts with [com.google.android] carry no
    index of their own and are not counted. *)
Theorem preprocess_index_rank (root : Element) (j : nat) (n : Element) (k : string) :
  iter_node (preprocess root) !! j = Some n →
  index_skipped n = false →
  k ∈ index_attrs →
  get n (k ++ "-index")
  = Some (if PyStr.is_empty (get_or n k "") then "-1"
          else PyStr.str (Z.of_nat (occurrences k (get_or n k "")
                                      (map attrib (take j (iter_node (preprocess root))))))).
Proof.
  intros Hj Hskip Hk.
  pose proof (preprocess_ranked root j (attrib n)) as H. unfold node_attribs in H.
  change (map attrib (iter_node (preprocess root)))
    with (attrib <$> iter_node (preprocess root)) in H.
  rewrite list_lookup_fmap, Hj, <- fmap_take in H.
  exact (H eq_refl Hskip k Hk).
Qed.

(** X16 on [list_screen]: the second text is the second node with its
    resource id and the second of its class. *)
Lemma preprocess_index_rank_witness :
  let n := Layout.at_path (preprocess list_screen) [0; 1; 0]%nat in
  iter_node (preprocess list_screen) !! 4%nat = Some n
  ∧ get n "resource-id-index" = Some "1"
  ∧ get n "class-index" = Some "1".
Proof.
  intros n.
  assert (H : iter_node (preprocess list_screen) !! 4%nat = Some n)
    by (vm_compute; reflexivity).
  assert (Hs : index_skipped n = false) by (vm_compute; reflexivity).
  split; [exact H|]. split.
  - etrans; [apply (preprocess_index_rank list_screen 4 n "resource-id" H Hs)|].
    + unfold index_attrs. elem_of_list.
    + vm_compute. reflexivity.
  - etrans; [apply (preprocess_index_rank list_screen 4 n "class" H Hs)|].
    + unfold index_attrs. elem_of_list.
    + vm_compute. reflexivity.
Defined.

(** ** A locator made from a node finds that node *)

Lemma iter_node_at_snd (e : Element) (q : path) : (iter_node_at q e).*2 = iter_node e.
Proof.
  revert q. induction e as [t a ch IH] using Element_forall_ind. intros q. simpl.
  rewrite fmap_app. f_equal.
  - by destruct (bool_decide (t = "node")).
  - generalize 0%nat as i. induction IH as [|c ch Hc _ IHch]; intros i; [done|].
    cbn [flat_map]. rewrite fmap_app, Hc, IHch. done.
Qed.

Lemma filter_lookup_rank {A : Type} (P : A -> Prop) `{∀ x, Decision (P x)}
    (l : list A) (j : nat) (x : A) :
  l !! j = Some x → P x →
  filter P l !! length (filter P (take j l)) = Some x.
Proof.
  revert j. induction l as [|y l IH]; intros j Hj Hx; [by rewrite lookup_nil in Hj|].
  destruct j as [|j]; simpl in Hj.
  - injection Hj as ->. simpl. rewrite filter_cons_True by done. done.
  - rewrite firstn_cons, !filter_cons. destruct (decide (P y)); simpl; by apply IH.
Qed.

Lemma from_node_rank (n : Element) (pre : list (gmap string string)) :
  ranked pre (attrib n) → index_skipped n = false →
  (get_or n "text" "" ≠ "" ∨ get_or n "content-desc" "" ≠ ""
   ∨ get_or n "resource-id" "" ≠ "" ∨ get_or n "class" "" ≠ "") →
  ∃ c, get_or n (Criterion.attr c) "" ≠ ""
       ∧ Locator.from_node n
         = Ok (mkLocator {[c := get_or n (Criterion.attr c) ""]}
                         (Z.of_nat (occurrences (Criterion.attr c)
                                      (get_or n (Criterion.attr c) "") pre))).
Proof.
  intros Hr Hskip Hsome.
  assert (Hidx : ∀ k, k ∈ index_attrs → get_or n k "" ≠ "" →
            Locator.int_or_zero n (k ++ "-index")
            = Ok (Z.of_nat (occurrences k (get_or n k "") pre))).
  { intros k Hk Hne. unfold Locator.int_or_zero, get_or at 1, get.
    rewrite (Hr Hskip k Hk). simpl.
    change (default "" (attrib n !! k)) with (get_or n k "").
    rewrite (proj2 (is_empty_false _) Hne), int_str. done. }
  unfold Locator.from_node. cbn -[Locator.int_or_zero get_or].
  destruct (PyStr.is_empty (get_or n "text" "")) eqn:Ht; cbn -[Locator.int_or_zero get_or].
  - destruct (PyStr.is_empty (get_or n "content-desc" "")) eqn:Hd; cbn -[Locator.int_or_zero get_or].
    + destruct (PyStr.is_empty (get_or n "resource-id" "")) eqn:Hi; cbn -[Locator.int_or_zero get_or].
      * apply is_empty_true in Ht, Hd, Hi.
        assert (Hc : get_or n "class" "" ≠ "") by (destruct Hsome as [?|[?|[?|?]]]; done).
        exists CLASS. split; [done|].
      pose proof (Hidx "class" ltac:(unfold index_attrs; elem_of_list) ltac:(done)) as Hk.
      cbv [String.append] in Hk. by rewrite Hk.
      * apply is_empty_false in Hi. exists ID. split; [done|].
        pose proof (Hidx "resource-id" ltac:(unfold index_attrs; elem_of_list) ltac:(done)) as Hk.
      by rewrite Hk.
    + apply is_empty_false in Hd. exists DESC. split; [done|].
      pose proof (Hidx "content-desc" ltac:(unfold index_attrs; elem_of_list) ltac:(done)) as Hk.
      by rewrite Hk.
  - apply is_empty_false in Ht. exists TEXT. split; [done|].
    pose proof (Hidx "text" ltac:(unfold index_attrs; elem_of_list) ltac:(done)) as Hk.
    by rewrite Hk.
Qed.

Lemma call_attr (c : Criterion) (m : Element) (v : string) :
  Criterion.call c m v = bool_decide (get m (Criterion.attr c) = Some v).
Proof. by destruct c. Qed.

(** X17. In a preprocessed tree in which no [resource-id] starts with
    [com.google.android], the locator that [from_node] makes from a [node]
    element with a non-empty text, description, resource id or class finds
    that very element again with [find_in_layout]. *)
Theorem from_node_found_again (root : Element) (p : path) (n : Element) :
  (p, n) ∈ iter_node_at [] (preprocess root) →
  (∀ m, m ∈ iter_node (preprocess root) → index_skipped m = false) →
  (get_or n "text" "" ≠ "" ∨ get_or n "content-desc" "" ≠ ""
   ∨ get_or n "resource-id" "" ≠ "" ∨ get_or n "class" "" ≠ "") →
  ∃ l, Locator.from_node n = Ok l
       ∧ Locator.find_in_layout l (preprocess root) = Ok (Some (p, n)).
Proof.
  intros Hin Hnone Hsome. set (root' := preprocess root) in *.
  apply list_elem_of_lookup_1 in Hin as [j Hj].
  assert (Hjn : iter_node root' !! j = Some n).
  { rewrite <- (iter_node_at_snd root' []), list_lookup_fmap, Hj. done. }
  assert (Hskip : index_skipped n = false).
  { apply Hnone. by eapply list_elem_of_lookup_2. }
  pose proof (preprocess_ranked root j (attrib n)) as Hr. unfold node_attribs in Hr.
  change (map attrib (iter_node (preprocess root))) with (attrib <$> iter_node root') in Hr.
  rewrite list_lookup_fmap, Hjn in Hr. specialize (Hr eq_refl). simpl in Hr.
  destruct (from_node_rank n _ Hr Hskip Hsome) as (c & Hv & Hfrom).
  eexists. split; [exact Hfrom|].
  set (v := get_or n (Criterion.attr c) "") in *.
  set (P := fun pn : path * Element => get pn.2 (Criterion.attr c) = Some v).
  assert (Hsat : Locator.satisfying
                   (mkLocator {[c := v]}
                      (Z.of_nat (occurrences (Criterion.attr c) v
                                   (take j (attrib <$> iter_node root')))))
                   root'
                 = filter P (iter_node_at [] root')).
  { unfold Locator.satisfying. simpl. rewrite map_to_list_singleton.
    apply list_filter_iff. intros pn. simpl. rewrite call_attr, andb_true_r.
    unfold P. by rewrite bool_decide_spec. }
  assert (Hocc : occurrences (Criterion.attr c) v (take j (attrib <$> iter_node root'))
                 = length (filter P (take j (iter_node_at [] root')))).
  { rewrite <- (iter_node_at_snd root' []).
    assert (Hall : ∀ pn, pn ∈ iter_node_at [] root' → index_skipped pn.2 = false).
    { intros pn Hpn. apply Hnone. rewrite <- (iter_node_at_snd root' []).
      by apply (list_elem_of_fmap_2 snd). }
    clear -Hall Hv. revert j. unfold occurrences.
    induction (iter_node_at [] root') as [|pn l IH]; intros j; [by destruct j|].
    destruct j as [|j]; [done|].
    rewrite !fmap_cons, !firstn_cons, !filter_cons.
    specialize (IH ltac:(intros pn' Hpn'; by apply Hall, list_elem_of_further) j).
    assert (Hiff : (skipped (attrib pn.2) = false
                    ∧ default "" (attrib pn.2 !! Criterion.attr c) = v) ↔ P pn).
    { unfold P, get. split.
      - intros [_ Heq]. destruct (attrib pn.2 !! Criterion.attr c) as [w|]; simpl in Heq;
          [by subst | by subst v].
      - intros Heq. split; [apply (Hall pn), list_elem_of_here|]. by rewrite Heq. }
    destruct (decide (P pn)) as [HP|HP].
    - rewrite decide_True by by apply Hiff. simpl. by rewrite IH.
    - rewrite decide_False by (intros H'; by apply HP, Hiff). done. }
  assert (HPn : P (p, n)).
  { unfold P, v, get_or, get in *. simpl.
    destruct (attrib n !! Criterion.attr c) as [w|]; simpl in *; [done|]. done. }
  pose proof (filter_lookup_rank P _ j (p, n) Hj HPn) as Hlook.
  unfold Locator.find_in_layout. rewrite Hsat. simpl.
  rewrite Hocc.
  set (matched := filter P (iter_node_at [] root')) in *.
  set (idx := length (filter P (take j (iter_node_at [] root')))) in *.
  assert (Hlt : (idx < length matched)%nat) by (by eapply lookup_lt_Some).
  rewrite (proj2 (Z.eqb_neq _ _)) by lia.
  rewrite (proj2 (Z.leb_gt _ _)) by lia. simpl.
  unfold py_index.
  rewrite (proj2 (Z.ltb_ge _ _)) by lia.
  rewrite (proj2 (Z.leb_le _ _)) by lia.
  rewrite (proj2 (Z.ltb_lt _ _)) by lia. simpl.
  rewrite Nat2Z.id, Hlook. done.
Qed.

(** X17 on [list_screen]: the locator of the second text finds it. *)
Lemma from_node_found_again_witness :
  let n := Layout.at_path (preprocess list_screen) [0; 1; 0]%nat in
  ∃ l, Locator.from_node n = Ok l
       ∧ Locator.find_in_layout l (preprocess list_screen) = Ok (Some ([0; 1; 0]%nat, n)).
Proof.
  intros n.
  assert (H : iter_node_at [] (preprocess list_screen) !! 4%nat = Some ([0; 1; 0]%nat, n))
    by (vm_compute; reflexivity).
  apply (from_node_found_again list_screen _ _ (list_elem_of_lookup_2 _ _ _ H)).
  - intros m Hm. apply list_elem_of_In in Hm. apply negb_true_iff. revert m Hm.
    apply forallb_forall. vm_compute. reflexivity.
  - left. vm_compute. discriminate.
Defined.

(** ** A screen without children *)

Section NoChildren.

Variables old new : Layout.t.
Variable points : list (KeyPoint * KeyPoint).
Hypothesis no_children : Layout.children old = [].
Hypothesis no_unique_children : Layout.unique_children old = [].

Lemma match_sure_none (fuel : nat) (predictor : Element -> Element -> bool) (st : MatchState) :
  match_sure old new (Datatypes.S fuel) predictor st = Some st.
Proof. unfold match_sure. rewrite no_children. reflexivity. Qed.

Lemma sift_match_none (fuel : nat) (st : MatchState) :
  sift_match old new points (Datatypes.S fuel) st = Some st.
Proof. unfold sift_match, sift_pass. rewrite no_children. reflexivity. Qed.

Lemma match_parents_results (predictor : Element -> Element -> bool) (st : MatchState) :
  let st' := match_parents old new predictor st in
  info_matched st' = info_matched st ∧ res_matched st' = res_matched st
  ∧ res_possible st' = res_possible st.
Proof.
  unfold match_parents.
  generalize (refs Old (Layout.parents old)) as l.
  generalize (∅ : gset Ref) as mp. intros mp l. revert st mp.
  induction l as [|x l IH]; intros st mp; simpl; [done|].
  destruct (negb (bool_decide (x ∈ mp))); [|apply IH].
  destruct (filter _ _) as [|c [|c' r]]; try apply IH.
  destruct (IH (set_parent x c st) ({[x; c]} ∪ mp)) as (H1 & H2 & H3).
  simpl in *. by rewrite H1, H2, H3.
Qed.

Lemma children_under_none (parent : Ref) : parent.1 = Old → children_under old new parent = [].
Proof.
  intros Hp. unfold children_under. rewrite Hp. simpl. rewrite no_children.
  induction (iter_node_at _ _).*1 as [|p l IH]; [done|].
  rewrite filter_cons_False; [exact IH|]. simpl. tauto.
Qed.

Lemma optimize_match_none (predictor : Element -> Element -> bool) (st : MatchState) :
  parents_ok st → optimize_match old new predictor st = st.
Proof.
  unfold optimize_match. intros Hpar.
  assert (H : ∀ l s, (∀ op np, (op, np) ∈ l → op.1 = Old) →
            foldl (fun st (pair : Ref * Ref) =>
                     let '(old_parent, new_parent) := pair in
                     match_unique (fun o n => predictor (elem old new o) (elem old new n))
                                  (children_under old new old_parent)
                                  (children_under old new new_parent) st) s l = s).
  { induction l as [|[op np] l IH]; intros s Hl; simpl; [done|].
    rewrite (children_under_none op) by (apply (Hl op np), list_elem_of_here).
    simpl. apply IH. intros op' np' Hin. apply (Hl op' np'). by apply list_elem_of_further. }
  apply H. intros op np Hin. by destruct (Hpar op np Hin).
Qed.

(** X18. When the old layout has no children, [match_layout] matches
    nothing: [matched], [possible] and [old_not_matched] are empty, every
    new child is in [new_not_matched], the score is 0 and the layouts do
    not count as a match, whatever the new layout is, also when it has no
    children either. *)
Theorem match_without_children (r : Result) :
  match_layout old new points = Some r →
  matched r = ∅ ∧ possible r = ∅ ∧ old_not_matched r = ∅
  ∧ new_not_matched r = list_to_set (refs New (Layout.children new))
  ∧ score r = 0%Q ∧ is_match_result r = false.
Proof.
  unfold match_layout, sure_phases. rewrite no_children. cbn [length].
  rewrite match_sure_none. cbn [mbind option_bind].
  rewrite match_sure_none. cbn [mbind option_bind].
  rewrite sift_match_none. cbn [mbind option_bind].
  set (st4 := match_parents old new (is_match false) state0).
  destruct (match_parents_results (is_match false) state0) as (H1 & H2 & H3).
  fold st4 in H1, H2, H3. simpl in H1, H2, H3.
  assert (Hpar : parents_ok st4).
  { destruct state0_ok as (Hok0 & Hpar0 & _).
    by destruct (sure_steps_inv _ _ (match_parents_steps old new (is_match false) state0)
                   Hok0 Hpar0) as (_ & Hpar & _). }
  rewrite (optimize_match_none (is_like false) st4 Hpar).
  unfold unique_match, match_possible. rewrite no_unique_children, no_children. simpl.
  intros [= <-]. unfold finalize, set_match_score, set_not_match, result_of. simpl.
  rewrite H2, H3, no_children, map_to_list_empty. simpl.
  split; [done|]. split; [done|]. split; [done|]. split; [|done].
  f_equal. induction (refs New (Layout.children new)) as [|x l IH]; [done|].
  rewrite filter_cons_True; [by rewrite IH|]. simpl.
  rewrite map_to_list_empty. simpl. rewrite bool_decide_eq_false_2; [done|]. set_solver.
Qed.

End NoChildren.

(** X18 on an empty screen matched against itself. *)
Lemma match_without_children_witness :
  ∃ o n r,
    Layout.build "empty" empty_screen [] = Some o
    ∧ Layout.build "empty" empty_screen [] = Some n
    ∧ match_layout o n [] = Some r
    ∧ score r = 0%Q ∧ is_match_result r = false.
Proof.
  destruct (build_total "empty" empty_screen []) as [o Ho].
  destruct (match_layout_returns o o []) as [r Hr].
  exists o, o, r. split; [exact Ho|]. split; [exact Ho|]. split; [exact Hr|].
  destruct (build_fields _ _ _ _ Ho) as (_ & _ & _ & Hc & _ & _ & Hu).
  refine (proj2 (proj2 (proj2 (proj2 (match_without_children o o [] Hc Hu r Hr))))).
Defined.

(** ** A match relates children only *)

Lemma member_step_within (O N : Ref -> Prop) (st st' : MatchState) :
  member_step O N st st' → within O N st → within O N st'.
Proof.
  intros [s o c Ho Hc|s op np _ _|s o S Ho HS] [Hm Hp]; [|done|].
  - split; [|done]. intros o' n'. simpl.
    destruct (decide (o = o')) as [<-|Hne].
    + rewrite lookup_insert_eq. by intros [= <-].
    + rewrite lookup_insert_ne by done. apply Hm.
  - split; [done|]. intros o' S'. simpl.
    destruct (decide (o = o')) as [<-|Hne].
    + rewrite lookup_insert_eq. by intros [= <-].
    + rewrite lookup_insert_ne by done. apply Hp.
Qed.

Lemma member_steps_within (O N : Ref -> Prop) (st st' : MatchState) :
  rtc (member_step O N) st st' → within O N st → within O N st'.
Proof.
  induction 1 as [s|s1 s2 s3 Hstep _ IH]; [done|].
  intros H. by apply IH, (member_step_within O N s1).
Qed.

Section Members.

Variables old new : Layout.t.
Hypothesis old_lists : lists_of_children old.
Hypothesis new_lists : lists_of_children new.

#[local] Abbreviation in_old := (fun o : Ref => o ∈ refs Old (Layout.children old)).
#[local] Abbreviation in_new := (fun n : Ref => n ∈ refs New (Layout.children new)).
#[local] Abbreviation mstep := (member_step in_old in_new).

Lemma refs_elem (s : Side) (l l' : list path) (r : Ref) :
  (∀ k, k ∈ l → k ∈ l') → r ∈ refs s l → r ∈ refs s l'.
Proof.
  intros Hsub Hr. unfold refs in *. apply list_elem_of_fmap in Hr as (k & -> & Hk).
  apply list_elem_of_fmap_2. by apply Hsub.
Qed.

Lemma match_unique_members (predictor : Ref -> Ref -> bool) (olds news : list Ref)
    (st : MatchState) :
  (∀ o, o ∈ olds → in_old o) → (∀ n, n ∈ news → in_new n) →
  rtc mstep st (match_unique predictor olds news st).
Proof.
  intros Holds Hnews. unfold match_unique. apply foldl_rtc.
  intros s o Ho.
  destruct (unmatched s o) eqn:Hun; [|apply rtc_refl].
  destruct (filter _ news) as [|c [|c' r]] eqn:Hf; try apply rtc_refl.
  apply filter_singleton in Hf as [_ Hin].
  apply rtc_once. constructor; [by apply Holds | by apply Hnews].
Qed.

Lemma siblings_members (s : Side) (parent : path) (r x : Ref) (l : Layout.t) :
  old = l ∨ new = l → layout_of old new s = l → lists_of_children l →
  x ∈ siblings old new s parent r → x ∈ refs s (Layout.children l).
Proof.
  intros _ Hl [Hno _] Hx. unfold siblings in Hx. rewrite Hl in Hx.
  eapply refs_elem; [|exact Hx]. intros k Hk.
  apply Hno. apply list_elem_of_fmap in Hk as ([k' v] & -> & Hin).
  apply list_elem_of_filter in Hin as [_ Hin]. by apply (list_elem_of_fmap_2 fst _ (k', v)).
Qed.

Lemma match_sibling_members (o n : Ref) (st : MatchState) :
  rtc mstep st (match_sibling old new o n st).
Proof.
  unfold match_sibling.
  destruct (dict_lookup o.2 _) as [old_parent|]; [|apply rtc_refl].
  destruct (dict_lookup n.2 _) as [new_parent|]; [|apply rtc_refl].
  eapply rtc_l;
    [apply (member_parent _ _ _ (Old, old_parent) (New, new_parent)); reflexivity|].
  apply foldl_rtc. intros s os Hos.
  destruct (unmatched s os) eqn:Hun; [|apply rtc_refl].
  destruct (filter _ _) as [|c [|c' r]] eqn:Hf; try apply rtc_refl.
  apply filter_singleton in Hf as [_ Hin].
  apply rtc_once. constructor.
  - by apply (siblings_members Old old_parent o os old (or_introl eq_refl)).
  - by apply (siblings_members New new_parent n c new (or_intror eq_refl)).
Qed.

Lemma without_elem (l excluded : list path) (k : path) : k ∈ without l excluded → k ∈ l.
Proof. unfold without. intros H. by apply list_elem_of_filter in H as [_ H]. Qed.

Lemma match_sure_members (fuel : nat) (predictor : Element -> Element -> bool)
    (st st' : MatchState) :
  match_sure old new fuel predictor st = Some st' → rtc mstep st st'.
Proof.
  unfold match_sure. apply while_update_rtc. intros s. unfold match_sure_pass.
  refine (foldl_rtc_fst mstep _ _ _ (s, false)).
  intros [s0 u] o Ho. simpl.
  destruct (unmatched s0 o) eqn:Hun; [|apply rtc_refl].
  destruct (filter _ _) as [|c [|c' r]] eqn:Hf; try apply rtc_refl.
  apply filter_singleton in Hf as [_ Hin].
  simpl. eapply rtc_l; [|apply match_sibling_members].
  constructor; (eapply refs_elem; [apply without_elem|]); eassumption.
Qed.

Lemma sift_match_members (points : list (KeyPoint * KeyPoint)) (fuel : nat)
    (st st' : MatchState) :
  sift_match old new points fuel st = Some st' → rtc mstep st st'.
Proof.
  unfold sift_match. apply while_update_rtc. intros s. unfold sift_pass.
  refine (foldl_rtc_fst mstep _ _ _ (s, false)).
  intros [s0 u] o Ho. simpl.
  destruct (sift_eligible old new s0 o) eqn:Hel; [|apply rtc_refl].
  destruct (_ <? 1)%nat; [apply rtc_refl|].
  destruct (filter _ _) as [|c [|c' r]] eqn:Hf; try apply rtc_refl.
  apply filter_singleton in Hf as [_ Hin].
  simpl. apply rtc_once. by constructor.
Qed.

Lemma match_parents_members (predictor : Element -> Element -> bool) (st : MatchState) :
  rtc mstep st (match_parents old new predictor st).
Proof.
  unfold match_parents.
  refine (foldl_rtc_fst mstep _ _ _ (st, ∅)).
  intros [s u] o Ho. simpl.
  destruct (negb _); [|apply rtc_refl].
  destruct (filter _ _) as [|c [|c' r]] eqn:Hf; try apply rtc_refl.
  apply filter_singleton in Hf as [_ Hin].
  simpl. apply rtc_once. constructor.
  - by apply elem_of_refs in Ho.
  - by apply elem_of_refs in Hin.
Qed.

Lemma children_under_members (parent x : Ref) :
  x ∈ children_under old new parent →
  x ∈ refs parent.1 (Layout.children (layout_of old new parent.1)).
Proof.
  unfold children_under. apply refs_elem. intros k Hk.
  apply list_elem_of_filter in Hk as [Hk _]. by apply bool_decide_spec in Hk.
Qed.

Lemma optimize_match_members (predictor : Element -> Element -> bool) (st : MatchState) :
  parents_ok st → rtc mstep st (optimize_match old new predictor st).
Proof.
  intros Hok. unfold optimize_match. apply foldl_rtc.
  intros s [op np] Hin. destruct (Hok op np Hin) as [Hop Hnp].
  apply match_unique_members.
  - intros o Ho. apply children_under_members in Ho. by rewrite Hop in Ho.
  - intros n Hn. apply children_under_members in Hn. by rewrite Hnp in Hn.
Qed.

Lemma unique_match_members (st : MatchState) :
  rtc mstep st (unique_match old new st).
Proof.
  unfold unique_match. apply match_unique_members; intros r Hr.
  - eapply refs_elem; [apply (proj2 old_lists) | exact Hr].
  - eapply refs_elem; [apply (proj2 new_lists) | exact Hr].
Qed.

Lemma match_possible_members (predictor : Element -> Element -> bool) (st : MatchState) :
  rtc mstep st (match_possible old new predictor st).
Proof.
  unfold match_possible. apply foldl_rtc. intros s o Ho.
  destruct (unmatched s o) eqn:Hun; [|apply rtc_refl].
  destruct (0 <? length _)%nat; [|apply rtc_refl].
  destruct (unique_possible _ _ _ _) as [c|] eqn:Hu; apply rtc_once.
  - apply unique_possible_elem in Hu. apply list_elem_of_filter in Hu as [_ Hu].
    by constructor.
  - constructor; [done|]. intros n Hn. apply elem_of_list_to_set in Hn.
    by apply list_elem_of_filter in Hn as [_ Hn].
Qed.

End Members.

Lemma get_unique_children_members (nodes : list Layout.Node) (p : path) :
  p ∈ Layout.get_unique_children nodes → p ∈ nodes.*1.
Proof.
  unfold Layout.get_unique_children. intros H.
  apply list_elem_of_fmap in H as (x & -> & Hx).
  apply (get_unique_children_fold nodes [] [] []) in Hx as [Hx _].
  - by apply list_elem_of_fmap_2.
  - intros c. split; [intros Hc; by apply elem_of_nil in Hc|].
    intros (y & Hy & _). by apply elem_of_nil in Hy.
  - intros y. split; [intros Hy; by apply elem_of_nil in Hy|].
    intros [Hy _]. by apply elem_of_nil in Hy.
Qed.

Lemma get_list_items_members (nodes g : list Layout.Node) (x : Layout.Node) :
  g ∈ Layout.get_list_items nodes → x ∈ g → x ∈ nodes.
Proof.
  unfold Layout.get_list_items.
  destruct (get_list_items_fold nodes [] []) as [Hnd Hlook]; [apply NoDup_nil_2|done|].
  simpl in Hnd, Hlook. intros Hg Hx.
  apply list_elem_of_fmap in Hg as ([k g'] & -> & Hin).
  apply list_elem_of_filter in Hin as [_ Hin].
  apply (dict_lookup_elem _ _ _ Hnd) in Hin. rewrite Hlook in Hin. simpl in Hx.
  destruct (filter _ nodes) as [|y ys] eqn:Hf; [discriminate|].
  injection Hin as <-. rewrite <- Hf in Hx. by apply list_elem_of_filter in Hx as [_ Hx].
Qed.

Lemma get_non_overlap_keys (root : Element) (fuel : nat) (nodes : list Layout.Node)
    (result : list (path * path)) (k : path) :
  Layout.get_non_overlap root (Layout.child_parent root) fuel nodes = Some result →
  k ∈ result.*1 → k ∈ nodes.*1.
Proof.
  unfold Layout.get_non_overlap.
  destruct (non_overlap_init nodes [] (NoDup_nil_2 (A:=path))) as (_ & Hkeys & Hself).
  set (r0 := foldl (fun acc (child : Layout.Node) => dict_set child.1 child.1 acc) [] nodes) in *.
  intros H Hk.
  apply (while_update_exit (chosen_ok r0.*1)) in H as (s0 & [Hk0 _] & Hbody).
  - apply foldl_promote_false in Hbody as [-> _].
    rewrite Hk0 in Hk. apply Hkeys in Hk as [Hk|Hk]; [by apply elem_of_nil in Hk | done].
  - intros s Hs. by apply foldl_promote_ok.
  - split; [done|]. intros k' v Hin.
    destruct (Hself k' v Hin) as [Hnil| ->]; [by apply elem_of_nil in Hnil|done].
Qed.

Lemma dict_update_keys {K V : Type} `{EqDecision K} (d d' : list (K * V)) (k : K) :
  k ∈ (dict_update d d').*1 → k ∈ d.*1 ∨ k ∈ d'.*1.
Proof.
  unfold dict_update. revert d. induction d' as [|[k' v'] d' IH]; intros d; simpl; [by left|].
  intros H. apply IH in H as [H|H]; [|right; by apply list_elem_of_further].
  rewrite dict_set_keys in H. destruct (bool_decide _); [by left|].
  apply elem_of_app in H as [H|H]; [by left|].
  apply list_elem_of_singleton in H as ->. right. apply list_elem_of_here.
Qed.

Lemma build_lists_of_children (xml : string) (parsed : Element) (png : list Byte.byte)
    (l : Layout.t) :
  Layout.build xml parsed png = Some l → lists_of_children l.
Proof.
  unfold Layout.build. intros H. apply bind_Some in H as (items & Hitems & [= <-]).
  split; simpl; [|apply get_unique_children_members].
  set (nodes := Layout.get_children (preprocess parsed)) in *.
  assert (Hgroups : ∀ g, g ∈ Layout.get_list_items nodes → ∀ x, x ∈ g → x ∈ nodes)
    by (intros g Hg x; by apply get_list_items_members).
  revert Hitems Hgroups. generalize (Layout.get_list_items nodes).
  intros groups.
  assert (Hinit : ∀ acc : list (path * path) * list path,
             Some ([], []) = Some acc → ∀ k, k ∈ acc.1.*1 → k ∈ nodes.*1).
  { intros acc [= <-] k Hk. by apply elem_of_nil in Hk. }
  revert Hinit. generalize (Some (@nil (path * path), @nil path)).
  revert items. induction groups as [|g groups IH]; intros items acc Hacc Hitems Hgroups; simpl in *.
  - by apply Hacc.
  - eapply IH; [|exact Hitems|].
    + intros acc' Hacc' k Hk. apply bind_Some in Hacc' as ([no nu] & -> & Hacc').
      apply bind_Some in Hacc' as (res & Hres & [= <-]). simpl in Hk.
      apply dict_update_keys in Hk as [Hk|Hk]; [by apply (Hacc _ eq_refl)|].
      apply (get_non_overlap_keys _ _ _ _ _ Hres) in Hk.
      apply list_elem_of_fmap in Hk as (x & -> & Hx). apply list_elem_of_fmap_2.
      apply (Hgroups g); [apply list_elem_of_here | done].
    + intros g' Hg'. apply Hgroups. by apply list_elem_of_further.
Qed.

(** X19. In a match of two built layouts, every pair of [matched] joins
    a child of the old layout with a child of the new one, every candidate
    set of [possible] belongs to a child of the old layout and holds
    children of the new one, and the nodes reported as not matched are
    children of their layouts. *)
Theorem match_layout_members (xml xml' : string) (parsed parsed' : Element)
    (png png' : list Byte.byte) (old new : Layout.t)
    (points : list (KeyPoint * KeyPoint)) (r : Result) :
  Layout.build xml parsed png = Some old →
  Layout.build xml' parsed' png' = Some new →
  match_layout old new points = Some r →
  (∀ o n, matched r !! o = Some n →
          o ∈ refs Old (Layout.children old) ∧ n ∈ refs New (Layout.children new))
  ∧ (∀ o S, possible r !! o = Some S →
            o ∈ refs Old (Layout.children old)
            ∧ ∀ n, n ∈ S → n ∈ refs New (Layout.children new))
  ∧ (∀ o, o ∈ old_not_matched r → o ∈ refs Old (Layout.children old))
  ∧ (∀ n, n ∈ new_not_matched r → n ∈ refs New (Layout.children new)).
Proof.
  intros Hold Hnew. apply build_lists_of_children in Hold, Hnew.
  unfold match_layout. intros H. apply bind_Some in H as (st & Hst & [= <-]).
  destruct (finalize_spec old new (match_possible old new (is_match false) st))
    as (Hm & Hp & Ho & Hn).
  assert (Hin : within (fun o => o ∈ refs Old (Layout.children old))
                       (fun n => n ∈ refs New (Layout.children new))
                       (match_possible old new (is_match false) st)).
  { eapply member_steps_within; [apply match_possible_members|].
    unfold sure_phases in Hst.
    apply bind_Some in Hst as (st1 & H1 & Hst). apply bind_Some in Hst as (st2 & H2 & Hst).
    apply bind_Some in Hst as (st3 & H3 & [= <-]).
    destruct state0_ok as (Hok0 & Hpar0 & _).
    assert (Hpar : parents_ok (match_parents old new (is_match false) st3)).
    { eapply (sure_steps_inv state0); [|done|done].
      etrans; [exact (match_sure_steps _ _ _ _ _ _ H1)|].
      etrans; [exact (match_sure_steps _ _ _ _ _ _ H2)|].
      etrans; [exact (sift_match_steps _ _ _ _ _ _ H3)|]. apply match_parents_steps. }
    eapply member_steps_within; [by apply unique_match_members|].
    eapply member_steps_within; [by apply optimize_match_members|].
    eapply member_steps_within; [apply match_parents_members|].
    eapply member_steps_within; [exact (sift_match_members _ _ _ _ _ _ H3)|].
    eapply member_steps_within; [exact (match_sure_members _ _ Hold Hnew _ _ _ _ H2)|].
    eapply member_steps_within; [exact (match_sure_members _ _ Hold Hnew _ _ _ _ H1)|].
    split; intros o x Hx; simpl in Hx; by rewrite lookup_empty in Hx. }
  destruct Hin as [Hinm Hinp]. rewrite Hm, Hp.
  split; [exact Hinm|]. split; [exact Hinp|]. split.
  - intros o Hx. by apply Ho in Hx as [Hx _].
  - intros n Hx. by apply Hn in Hx as [Hx _].
Qed.

(** X19 on the match of [old_screen] and [new_screen]. *)
Lemma match_layout_members_witness :
  ∃ o n r,
    Layout.build "old" old_screen [] = Some o ∧ Layout.build "new" new_screen [] = Some n
    ∧ match_layout o n (key_points (fun _ _ => []) o n) = Some r
    ∧ (∀ x y, matched r !! x = Some y →
              x ∈ refs Old (Layout.children o) ∧ y ∈ refs New (Layout.children n))
    ∧ (∀ x S, possible r !! x = Some S →
              x ∈ refs Old (Layout.children o)
              ∧ ∀ y, y ∈ S → y ∈ refs New (Layout.children n))
    ∧ (∀ x, x ∈ old_not_matched r → x ∈ refs Old (Layout.children o))
    ∧ (∀ y, y ∈ new_not_matched r → y ∈ refs New (Layout.children n)).
Proof.
  destruct demo_match_returns as [r Hr]. unfold demo_match in Hr.
  apply bind_Some in Hr as (o & Ho & Hr). apply bind_Some in Hr as (n & Hn & Hr).
  exists o, n, r. split; [exact Ho|]. split; [exact Hn|]. split; [exact Hr|].
  exact (match_layout_members _ _ _ _ _ _ o n _ r Ho Hn Hr).
Defined.

(** ** Reading back a rectangle *)

Lemma digits_uint (d : Decimal.uint) (rest : string) :
  match rest with String c _ => PyStr.is_digit c = false | EmptyString => True end →
  Bounds.digits (NilEmpty.string_of_uint d ++ rest) = (NilEmpty.string_of_uint d, rest).
Proof.
  intros Hrest. induction d as [|d IH|d IH|d IH|d IH|d IH|d IH|d IH|d IH|d IH|d IH];
    cbn [NilEmpty.string_of_uint];
    try (change (String ?c ?s +:+ rest) with (String c (s +:+ rest));
         cbn [Bounds.digits]; change (PyStr.is_digit _) with true; cbn iota; by rewrite IH).
  change ("" +:+ rest) with rest.
  destruct rest as [|c r]; [reflexivity|]. change (PyStr.is_digit c = false) in Hrest.
  cbn [Bounds.digits]. by rewrite Hrest.
Qed.

Lemma value_from_acc (d : Decimal.uint) (acc : positive) (z : Z) :
  z = Z.pos acc →
  Bounds.value_from z (NilEmpty.string_of_uint d) = Z.pos (Pos.of_uint_acc d acc).
Proof.
  revert acc z. induction d as [|d IH|d IH|d IH|d IH|d IH|d IH|d IH|d IH|d IH|d IH];
    intros acc z ->; cbn [NilEmpty.string_of_uint Bounds.value_from Pos.of_uint_acc];
    [reflexivity|..]; apply IH;
    match goal with
    | |- context [Z.of_nat (nat_of_ascii ?c)] =>
        let k := eval vm_compute in (Z.of_nat (nat_of_ascii c)) in
        change (Z.of_nat (nat_of_ascii c)) with k
    end; lia.
Qed.

Lemma value_from_uint (d : Decimal.uint) :
  Bounds.value_from 0 (NilEmpty.string_of_uint d) = Z.of_N (Pos.of_uint d).
Proof.
  induction d as [|d IH|d IH|d IH|d IH|d IH|d IH|d IH|d IH|d IH|d IH];
    cbn [NilEmpty.string_of_uint Bounds.value_from Pos.of_uint]; [reflexivity|exact IH|..];
    cbn [Z.of_N]; apply value_from_acc; reflexivity.
Qed.

Lemma str_nonneg (z : Z) :
  0 ≤ z →
  ∃ d, PyStr.str z = NilEmpty.string_of_uint d ∧ Z.of_N (Pos.of_uint d) = z
       ∧ PyStr.is_empty (NilEmpty.string_of_uint d) = false.
Proof.
  intros Hz. destruct z as [|p|p]; [| |lia].
  - exists (Decimal.D0 Decimal.Nil). done.
  - exists (Pos.to_uint p).
    pose proof (DecimalPos.Unsigned.to_uint_nonnil p) as Hnil.
    split; [|split].
    + unfold PyStr.str. cbn [Z.to_int NilZero.string_of_int NilZero.string_of_uint].
      destruct (Pos.to_uint p); done.
    + by rewrite DecimalPos.Unsigned.of_to.
    + destruct (Pos.to_uint p); done.
Qed.

Lemma number_str (z : Z) (rest : string) :
  0 ≤ z →
  match rest with String c _ => PyStr.is_digit c = false | EmptyString => True end →
  Bounds.number (PyStr.str z ++ rest) = Some (z, rest).
Proof.
  intros Hz Hrest. destruct (str_nonneg z Hz) as (d & -> & Hv & Hne).
  unfold Bounds.number. rewrite digits_uint by done. rewrite Hne, value_from_uint, Hv. done.
Qed.

Lemma number_negative (z : Z) (rest : string) :
  z < 0 → Bounds.number (PyStr.str z ++ rest) = None.
Proof. intros Hz. destruct z as [|p|p]; [lia|lia|]. reflexivity. Qed.

Lemma lstrip_str (z : Z) (rest : string) :
  PyStr.lstrip (PyStr.str z ++ rest) = (PyStr.str z ++ rest)%string.
Proof.
  destruct z as [|p|p]; [reflexivity| |reflexivity].
  unfold PyStr.str. cbn [Z.to_int NilZero.string_of_int].
  pose proof (DecimalPos.Unsigned.to_uint_nonnil p) as Hnil.
  destruct (Pos.to_uint p); done.
Qed.

(** X20. [coordinates] reads back the four numbers of a [bounds] value
    written as [[x0,y0][x1,y1]] in decimal when none of them is negative;
    when one of them is negative the value does not parse and the rectangle
    is [(0, 0, 0, 0)]. *)
Theorem coordinates_of_bounds (a b c d : Z) :
  coordinates_str ("[" ++ PyStr.str a ++ "," ++ PyStr.str b ++ "]["
                   ++ PyStr.str c ++ "," ++ PyStr.str d ++ "]")
  = if (0 <=? a) && (0 <=? b) && (0 <=? c) && (0 <=? d)
    then mkCoordinate a b c d
    else mkCoordinate 0 0 0 0.
Proof.
  unfold coordinates_str, Bounds.parse.
  change (Bounds.spaces_then "[" ("[" ++ ?s)) with (Some s).
  cbn [mbind option_bind].
  destruct (Z.leb_spec 0 a) as [Ha|Ha]; [|by rewrite number_negative].
  rewrite number_str by done. cbn [mbind option_bind].
  change (Bounds.spaces_then "," ("," ++ ?s)) with (Some s). cbn [mbind option_bind].
  rewrite lstrip_str.
  destruct (Z.leb_spec 0 b) as [Hb|Hb]; [|by rewrite number_negative].
  rewrite number_str by done. cbn [mbind option_bind].
  change (Bounds.expect "]" ("][" ++ ?s)) with (Some ("[" ++ s)%string). cbn [mbind option_bind].
  change (Bounds.expect "[" ("[" ++ ?s)) with (Some s). cbn [mbind option_bind].
  destruct (Z.leb_spec 0 c) as [Hc|Hc]; [|by rewrite number_negative].
  rewrite number_str by done. cbn [mbind option_bind].
  change (Bounds.spaces_then "," ("," ++ ?s)) with (Some s). cbn [mbind option_bind].
  rewrite lstrip_str.
  destruct (Z.leb_spec 0 d) as [Hd|Hd]; [|by rewrite number_negative].
  rewrite number_str by done. reflexivity.
Qed.

(** ** What a locator finds *)

(** X21. With an index that is not negative, [find_in_layout] raises
    nothing: among the [node] elements that carry, for every criterion of
    the locator, the attribute of the criterion with the identifier as its
    value, taken in document order, it returns the one at position [index],
    and [None] when there are not that many. *)
Theorem find_in_layout_spec (l : Locator) (root : Element) :
  0 ≤ index l →
  (∀ x, x ∈ Locator.satisfying l root
        ↔ x ∈ iter_node_at [] root
          ∧ ∀ c v, criteria l !! c = Some v → get x.2 (Criterion.attr c) = Some v)
  ∧ sublist (Locator.satisfying l root) (iter_node_at [] root)
  ∧ Locator.find_in_layout l root = Ok (Locator.satisfying l root !! Z.to_nat (index l)).
Proof.
  intros Hidx. split; [|split].
  - intros x. unfold Locator.satisfying. rewrite list_elem_of_filter.
    split.
    + intros [H1 H2]. split; [exact H2|]. intros c v Hcv.
      apply Is_true_true in H1. rewrite forallb_forall in H1.
      specialize (H1 (c, v)). simpl in H1. rewrite call_attr in H1.
      eapply bool_decide_eq_true_1, H1. apply list_elem_of_In. by apply elem_of_map_to_list.
    + intros [H1 H2]. split; [|exact H1].
      apply Is_true_true, forallb_forall. intros [c v] Hin. simpl. rewrite call_attr.
      apply bool_decide_eq_true_2, H2. apply elem_of_map_to_list. by apply list_elem_of_In.
  - apply sublist_filter.
  - unfold Locator.find_in_layout.
    set (matched := Locator.satisfying l root).
    destruct (Z.eqb_spec (Z.of_nat (length matched)) 0) as [Hz|Hz]; simpl.
    + rewrite lookup_ge_None_2 by lia. done.
    + destruct (Z.leb_spec (Z.of_nat (length matched)) (index l)) as [Hle|Hlt].
      * rewrite lookup_ge_None_2 by lia. done.
      * unfold py_index.
        destruct (Z.ltb_spec (index l) 0) as [?|_]; [lia|].
        destruct (Z.leb_spec 0 (index l)) as [_|?]; [|lia].
        destruct (Z.ltb_spec (index l) (Z.of_nat (length matched))) as [_|?]; [|lia].
        simpl. destruct (matched !! Z.to_nat (index l)) as [x|] eqn:Hx; [done|].
        apply lookup_ge_None in Hx. lia.
Qed.

(** X21 on the list screen: the second text is found at index 1, and
    nothing at index 2. *)
Lemma find_in_layout_spec_witness :
  let l := mkLocator {[ID := "p:id/item"]} 1 in
  0 ≤ index l
  ∧ Locator.find_in_layout l list_screen = Ok (Locator.satisfying l list_screen !! 1%nat)
  ∧ Locator.find_in_layout (mkLocator {[ID := "p:id/item"]} 2) list_screen = Ok None.
Proof.
  split; [done|]. split.
  - exact (proj2 (proj2 (find_in_layout_spec (mkLocator {[ID := "p:id/item"]} 1)
                           list_screen ltac:(done)))).
  - vm_compute. reflexivity.
Defined.

(** ** The attempts of the repair loop keep the session in step *)

Section AttemptsSpec.

Variable World : Type.
Variable dump : World -> (string * list Byte.byte) * World.
Variable perform : Event -> World -> bool * World.
Variable save : bool -> Repair.t -> World -> World.
Variable app_stop : World -> World.
Variable fromstring : string -> Element.
Variable sift : list Byte.byte -> list Byte.byte -> list (KeyPoint * KeyPoint).
Variable init_app : World -> World.
Variable optimize_explore : bool.

#[local] Abbreviation try_step := (Repair.__try World dump perform fromstring).
#[local] Abbreviation match_step :=
  (Repair.__match World dump perform save app_stop fromstring sift).
#[local] Abbreviation exec_assertion :=
  (__exec_assertion World dump perform save app_stop fromstring).
#[local] Abbreviation match_current :=
  (__match_current World dump perform save app_stop fromstring sift).
#[local] Abbreviation match_next :=
  (__match_next World dump perform save app_stop fromstring sift).
#[local] Abbreviation explore :=
  (__explore World dump perform save app_stop fromstring sift init_app optimize_explore).

(** The same without the bound on the pointer. *)
#[local] Abbreviation moves offset self o :=
  (match o with
   | Repair.Returned b self' _ => attempted [offset] 1 b self self'
   | Repair.Quit code self' _ => code = -1 ∧ self' = self
   | _ => True
   end).

Ltac branches :=
  repeat match goal with
         | |- context [match ?x with _ => _ end] =>
             lazymatch x with
             | context [match _ with _ => _ end] => fail
             | _ => destruct x eqn:?
             end
         end.

Ltac appended :=
  simpl; repeat split; try done;
  first [ by (eexists; split; [apply list_elem_of_here | reflexivity])
        | by (eexists [_]; split; [reflexivity | simpl; lia])
        | by (exists []; split; [by rewrite app_nil_r | simpl; lia]) ].

Lemma try_moves (step : Step) (offset : Z) (self : Repair.t) (w : World) :
  moves offset self (try_step step offset self w).
Proof. unfold Repair.__try. branches; try done; appended. Qed.

Lemma match_moves (step : Step) (offset : Z) (self : Repair.t) (w : World) :
  moves offset self (match_step step offset self w).
Proof.
  unfold Repair.__match.
  destruct (Event.is_assertion (event step)); [done|].
  destruct (locator (event step)); [|apply try_moves].
  unfold Repair.__quit. branches; try done; appended.
Qed.

Lemma exec_assertion_moves (next_step : bool) (self : Repair.t) (w : World) :
  moves (if next_step then 2 else 1) self (exec_assertion next_step self w).
Proof. unfold __exec_assertion, Repair.__quit. branches; try done; appended. Qed.

Lemma py_index_Ok {A : Type} (l : list A) (i : Z) (x : A) :
  py_index l i = Ok x → 0 ≤ i → i < Z.of_nat (length l).
Proof.
  unfold py_index. intros H Hi.
  destruct (Z.ltb_spec i 0) as [?|_]; [lia|].
  destruct (Z.leb_spec 0 i) as [_|?]; [|lia].
  destruct (Z.ltb_spec i (Z.of_nat (length l))) as [Hlt|_]; [exact Hlt|]. discriminate.
Qed.

Lemma moves_ends (offset : Z) (self : Repair.t) (o : Repair.outcome World) :
  moves offset self o →
  Repair.current self ≤ Z.of_nat (length (Repair.testcase self)) →
  Repair.current self + offset ≤ Z.of_nat (length (Repair.testcase self)) →
  ends [offset] 1 self o.
Proof.
  destruct o as [[|] self' w'|code self' w'| |]; simpl; try done.
  - intros (Ht & (k & Hk & Hc) & Hr) _ Hle. apply list_elem_of_singleton in Hk as ->.
    split; [|rewrite Ht, Hc; exact Hle].
    split; [done|]. split; [|done]. exists offset. split; [apply list_elem_of_here|done].
  - intros -> Hle _. done.
  - intros [-> ->]. done.
Qed.

Lemma or_else_moves (offset : Z) (self : Repair.t) (a : Repair.outcome World)
    (b : Repair.t -> World -> Repair.outcome World) :
  moves offset self a → (∀ w, moves offset self (b self w)) →
  moves offset self (or_else World a b).
Proof.
  destruct a as [[|] self' w'|code self' w'| |]; simpl; try done.
  intros -> Hb. apply Hb.
Qed.

Lemma match_current_ends (self : Repair.t) (w : World) :
  0 ≤ Repair.current self ≤ Z.of_nat (length (Repair.testcase self)) →
  ends [1] 1 self (match_current self w).
Proof.
  intros [H0 Hle]. unfold __match_current.
  destruct (py_index _ _) as [step|e] eqn:Hstep; [|done].
  apply py_index_Ok in Hstep; [|done].
  apply moves_ends; [|done|lia].
  apply or_else_moves; [apply (exec_assertion_moves false)|].
  intros w'. apply match_moves.
Qed.

Lemma match_next_ends (self : Repair.t) (w : World) :
  0 ≤ Repair.current self ≤ Z.of_nat (length (Repair.testcase self)) →
  ends [2] 1 self (match_next self w).
Proof.
  intros [H0 Hle]. unfold __match_next.
  destruct (Z.leb_spec (Z.of_nat (length (Repair.testcase self))) (Repair.current self + 1))
    as [Hend|Hmore]; [done|].
  destruct (py_index _ _) as [step|e] eqn:Hstep; [|done].
  apply moves_ends; [|done|lia].
  apply or_else_moves; [apply (exec_assertion_moves true)|].
  intros w'. apply match_moves.
Qed.

Lemma explore_ends (ev : Event) (self : Repair.t) (w : World) :
  0 ≤ Repair.current self ≤ Z.of_nat (length (Repair.testcase self)) →
  ends [1; 2] 2 self (explore ev self w).
Proof.
  intros Hcur. unfold __explore.
  destruct (Repair.__capture _ _ _ w) as [[before|] w1]; [|done].
  destruct (perform ev w1) as [[|] w2]; [|split; [done|apply Hcur]].
  destruct (Repair.__capture _ _ _ w2) as [[after|] w3]; [|done].
  set (self1 := Repair.mk (Repair.testcase self) (Repair.result self ++ [_])%list
                          (Repair.current self)).
  destruct (optimize_explore && _).
  { split; [|apply Hcur]. by destruct self. }
  pose proof (match_current_ends self1 w3 Hcur) as H1.
  destruct (match_current self1 w3) as [[|] self2 w4|code self2 w4| |]; simpl in *; try done.
  - destruct H1 as [(Ht & (k & Hk & Hc) & (steps & Hr & Hlen)) Hle].
    apply list_elem_of_singleton in Hk as ->.
    split; [|exact Hle]. split; [done|]. split.
    + exists 1. split; [apply list_elem_of_here | done].
    + eexists (_ :: steps). split; [by rewrite Hr, <- app_assoc | simpl; lia].
  - destruct H1 as [-> _].
    pose proof (match_next_ends self1 w4 Hcur) as H2.
    destruct (match_next self1 w4) as [[|] self2 w5|code self2 w5| |]; simpl in *; try done.
    + destruct H2 as [(Ht & (k & Hk & Hc) & (steps & Hr & Hlen)) Hle].
      apply list_elem_of_singleton in Hk as ->.
      split; [|exact Hle]. split; [done|]. split.
      * exists 2. split; [apply list_elem_of_further, list_elem_of_here | done].
      * eexists (_ :: steps). split; [by rewrite Hr, <- app_assoc | simpl; lia].
    + destruct H2 as [-> _]. split; [|apply Hcur]. by destruct self.
Qed.

(** X22. While the pointer of a repair session is within its test case,
    [__match_current], [__match_next] and [__explore] keep it there. When
    one of them returns [True] the test case is as before, the pointer has
    moved on by 1, by 2, or by 1 or 2, and at most one step, for
    [__explore] at most two steps, have been appended to [result]; when it
    returns [False] the test case, the pointer and [result] are as before
    the call. When it quits, the exit code is [-1]. And [__match_next]
    returns [False] without a call to the device when no step follows the
    current one. *)
Theorem attempts_keep_step (ev : Event) (self : Repair.t) (w : World) :
  0 ≤ Repair.current self ≤ Z.of_nat (length (Repair.testcase self)) →
  ends [1] 1 self (match_current self w)
  ∧ ends [2] 1 self (match_next self w)
  ∧ ends [1; 2] 2 self (explore ev self w)
  ∧ (Z.of_nat (length (Repair.testcase self)) ≤ Repair.current self + 1 →
     match_next self w = Repair.Returned false self w).
Proof.
  intros Hcur. split; [by apply match_current_ends|].
  split; [by apply match_next_ends|]. split; [by apply explore_ends|].
  intros Hend. unfold __match_next.
  by destruct (Z.leb_spec (Z.of_nat (length (Repair.testcase self))) (Repair.current self + 1));
    [|lia].
Qed.

End AttemptsSpec.

(** X22 on the session of the demo device: the only step is matched, the
    pointer moves from 0 to 1 and one step is appended. *)
Lemma attempts_keep_step_witness :
  0 ≤ Repair.current demo_session ≤ Z.of_nat (length (Repair.testcase demo_session))
  ∧ ends [1] 1 demo_session
      (__match_current nat demo_dump demo_perform (fun _ _ w => w) (fun w => w)
         demo_parse (fun _ _ => []) demo_session 0%nat)
  ∧ __match_next nat demo_dump demo_perform (fun _ _ w => w) (fun w => w)
      demo_parse (fun _ _ => []) demo_session 0%nat
    = Repair.Returned false demo_session 0%nat.
Proof.
  assert (Hcur : 0 ≤ Repair.current demo_session
                 ≤ Z.of_nat (length (Repair.testcase demo_session))) by (simpl; lia).
  pose proof (attempts_keep_step nat demo_dump demo_perform (fun _ _ w => w) (fun w => w)
                demo_parse (fun _ _ => []) (fun w => w) true
                (event demo_step) demo_session 0%nat Hcur) as (H1 & _ & _ & H4).
  split; [exact Hcur|]. split; [exact H1|]. apply H4. simpl. lia.
Defined.

(** ** A saved record is loaded back *)

Lemma split_lines_cons (c : ascii) (l : string) :
  split_lines (String c l) = [String c l] →
  Ascii.eqb c IdPattern.newline = false ∧ split_lines l = [l].
Proof.
  cbn [split_lines]. destruct (Ascii.eqb c IdPattern.newline);
    [intros [= H1 H2]; discriminate H1|].
  intros H. split; [reflexivity|]. revert H.
  destruct (split_lines l) as [|h t] eqn:Hs; [|by intros [= -> ->]].
  intros [= <-]. discriminate Hs.
Qed.

Lemma split_lines_line (l r : string) :
  split_lines l = [l] → split_lines (l ++ nl ++ r) = l :: split_lines r.
Proof.
  induction l as [|c l IH]; intros Hl.
  - reflexivity.
  - apply split_lines_cons in Hl as [Hc Hl].
    change (String c l +:+ nl +:+ r) with (String c (l +:+ nl +:+ r)).
    cbn [split_lines]. rewrite Hc, (IH Hl). reflexivity.
Qed.

Lemma split_lines_join (ls : list string) :
  ls ≠ [] → (∀ l, l ∈ ls → split_lines l = [l]) → split_lines (join nl ls) = ls.
Proof.
  induction ls as [|x [|y r] IH]; intros Hne Hls; [done| |].
  - apply Hls, list_elem_of_here.
  - change (join nl (x :: y :: r)) with (x +:+ nl +:+ join nl (y :: r)).
    rewrite split_lines_line by apply Hls, list_elem_of_here.
    rewrite IH; [done|done|]. intros l Hl. by apply Hls, list_elem_of_further.
Qed.

Lemma digits_str (k : Z) (rest : string) :
  0 ≤ k →
  match rest with String c _ => PyStr.is_digit c = false | EmptyString => True end →
  Bounds.digits (PyStr.str k ++ rest) = (PyStr.str k, rest).
Proof.
  intros Hk Hrest. destruct (str_nonneg k Hk) as (d & -> & _). by apply digits_uint.
Qed.

Lemma str_inj (a b : Z) : PyStr.str a = PyStr.str b → a = b.
Proof.
  intros H. assert (H' : PyStr.int (PyStr.str a) = PyStr.int (PyStr.str b)) by by rewrite H.
  rewrite !int_str in H'. by injection H'.
Qed.

Lemma ui_name_inj (k k' : Z) (e e' : string) :
  0 ≤ k → 0 ≤ k' →
  e ∈ [".png"; ".xml"] → e' ∈ [".png"; ".xml"] →
  ui_name k e = ui_name k' e' → k = k' ∧ e = e'.
Proof.
  intros Hk Hk' He He' H. unfold ui_name in H.
  change ("ui/" +:+ ?x) with (String "u" (String "i" (String "/" x))) in H.
  injection H as H.
  assert (Hd : Bounds.digits (PyStr.str k ++ e) = Bounds.digits (PyStr.str k' ++ e'))
    by by rewrite H.
  assert (Hext : ∀ x, x ∈ [".png"; ".xml"] →
            match x with String c _ => PyStr.is_digit c = false | EmptyString => True end).
  { intros x Hx. apply elem_of_cons in Hx as [->|Hx]; [done|].
    by apply list_elem_of_singleton in Hx as ->. }
  rewrite !digits_str in Hd by first [assumption | by apply Hext].
  injection Hd as Hs ->. by apply str_inj in Hs.
Qed.

Lemma ui_name_head (k : Z) (e : string) : ∃ r, ui_name k e = String "u" r.
Proof. by eexists. Qed.

Lemma event_from_to_dict (e : Event) : Event.from_dict (Event.to_dict e) = Ok e.
Proof.
  destruct e as [a [l|] p]; unfold Event.to_dict, Event.from_dict; simpl;
    destruct p as [|kv p]; simpl; by rewrite ?action_of_name_name, ?locator_from_to_dict.
Qed.

Section SaveLoad.

Variable utf8_encode : string -> list Byte.byte.
Variable utf8_decode : list Byte.byte -> option string.
Variable json_dumps : JValue -> string.
Variable json_loads : string -> raises JValue.
Variable draw_element : list Byte.byte -> string -> option Locator -> list Byte.byte.
Variable log : string.

Hypothesis decode_encode : ∀ s, utf8_decode (utf8_encode s) = Some s.

#[local] Abbreviation save := (save_step utf8_encode draw_element false).
#[local] Abbreviation dumped := (to_json json_dumps).
#[local] Abbreviation archive := (opened utf8_decode).

Lemma save_steps_stored (steps : list Step) (zf : ZipFile) (i : Z) :
  0 ≤ i →
  let zf' := (foldl save (zf, i) steps).1 in
  (∀ j s, steps !! j = Some s → stored utf8_encode zf' (i + Z.of_nat j) s)
  ∧ (∀ name,
       (∀ k e, i * 2 ≤ k → e ∈ [".png"; ".xml"] → name ≠ ui_name k e) →
       zf' !! name = zf !! name).
Proof.
  revert zf i. induction steps as [|s steps IH]; intros zf i Hi; cbn [foldl fst].
  - split; [|done]. intros j s Hj. by rewrite lookup_nil in Hj.
  - unfold save_step at 2. cbn [negb].
    unfold writestr, writestr_bytes.
    match goal with
    | |- context [foldl _ (?m, _) steps] => set (zf1 := m)
    end.
    destruct (IH zf1 (i + 1) ltac:(lia)) as [Hstored Hframe].
    assert (Hpng : ".png" ∈ [".png"; ".xml"]) by apply list_elem_of_here.
    assert (Hxml : ".xml" ∈ [".png"; ".xml"])
      by apply list_elem_of_further, list_elem_of_here.
    assert (Hlater : ∀ k e, i * 2 ≤ k ≤ i * 2 + 1 → e ∈ [".png"; ".xml"] →
              ∀ k' e', (i + 1) * 2 ≤ k' → e' ∈ [".png"; ".xml"] →
                       ui_name k e ≠ ui_name k' e').
    { intros k e Hk He k' e' Hk' He' Heq.
      apply ui_name_inj in Heq as [-> _]; [lia|lia|lia|done|done]. }
    split.
    + intros [|j] s' Hj.
      * injection Hj as <-. replace (i + Z.of_nat 0) with i by lia.
        unfold stored. rewrite !Hframe by (apply Hlater; [lia|done]).
        subst zf1.
        repeat split;
          repeat (rewrite lookup_insert_ne
                    by (intros Heq; apply ui_name_inj in Heq as [Hk He];
                        [first [lia | discriminate He]|lia|lia|done|done]));
          by rewrite lookup_insert_eq.
      * replace (i + Z.of_nat (Datatypes.S j)) with (i + 1 + Z.of_nat j) by lia.
        by apply Hstored.
    + intros name Hname. rewrite Hframe.
      * subst zf1. rewrite !lookup_insert_ne; [done|..];
          intros Heq; symmetry in Heq; revert Heq; apply Hname; try lia; done.
      * intros k e Hk He. apply Hname; [lia|done].
Qed.

Lemma load_steps_stored (steps : list Step) (zf : ZipFile) (i : Z) :
  (∀ j s, steps !! j = Some s → stored utf8_encode zf (i + Z.of_nat j) s) →
  (∀ s, s ∈ steps → is_generated (event s) = false) →
  load_steps (archive zf) i (map event steps) = Ok steps.
Proof.
  revert i. induction steps as [|s steps IH]; intros i Hstored Hgen; [reflexivity|].
  cbn [map load_steps]. rewrite (Hgen s) by apply list_elem_of_here.
  destruct (Hstored 0%nat s eq_refl) as (H1 & H2 & H3 & H4).
  replace (i + Z.of_nat 0) with i in * by lia.
  unfold load_ui, archive, opened. cbn [read_text read_bytes].
  fold (ui_name (i * 2) ".xml") (ui_name (i * 2) ".png")
       (ui_name (i * 2 + 1) ".xml") (ui_name (i * 2 + 1) ".png").
  rewrite H1, H2, H3, H4. cbn [mbind option_bind]. rewrite !decode_encode.
  cbn [reading bind_raises fst snd].
  fold (opened utf8_decode zf). rewrite IH.
  - destruct s as [e [bx bp] [ax ap]]. reflexivity.
  - intros j s' Hj. replace (i + 1 + Z.of_nat j) with (i + Z.of_nat (Datatypes.S j)) by lia.
    by apply Hstored.
  - intros s' Hs'. by apply Hgen, list_elem_of_further.
Qed.

Lemma not_ui_name (name r : string) (c : ascii) :
  name = String c r → c ≠ "u"%char → ∀ k e, name ≠ ui_name k e.
Proof.
  intros -> Hc k e Heq. destruct (ui_name_head k e) as [r' Hr']. rewrite Hr' in Heq.
  by injection Heq.
Qed.

Lemma events_parsed (steps : list Step) :
  (∀ s, s ∈ steps →
        json_loads (dumped (event s)) = Ok (JDict (Event.to_dict (event s)))) →
  (∀ s, s ∈ steps → one_line (dumped (event s))) →
  map_raises (event_from_json json_loads)
    (filter (fun x => negb (String.length (PyStr.strip x) =? 0)%nat)
            (map (fun x : Step => dumped (event x)) steps))
  = Ok (map event steps).
Proof.
  intros Hjson Hline. induction steps as [|s steps IH]; [reflexivity|].
  cbn [map]. rewrite filter_cons_True.
  - cbn [map_raises]. unfold event_from_json at 1.
    rewrite Hjson by apply list_elem_of_here. cbn [bind_raises].
    rewrite event_from_to_dict. cbn [bind_raises].
    rewrite IH; [done| |]; intros s' Hs'; [apply Hjson | apply Hline];
      by apply list_elem_of_further.
  - destruct (Hline s (list_elem_of_here _ _)) as [_ Hlen].
    apply Is_true_true, negb_true_iff, Nat.eqb_neq, Hlen.
Qed.

Lemma events_read (steps : list Step) :
  (∀ s, s ∈ steps →
        json_loads (dumped (event s)) = Ok (JDict (Event.to_dict (event s)))) →
  (∀ s, s ∈ steps → one_line (dumped (event s))) →
  map_raises (event_from_json json_loads)
    (filter (fun x => negb (String.length (PyStr.strip x) =? 0)%nat)
            (split_lines (join nl (map (fun x : Step => dumped (event x)) steps))))
  = Ok (map event steps).
Proof.
  intros Hjson Hline.
  assert (Hne : steps = [] ∨ steps ≠ []) by (destruct steps; [by left | by right]).
  destruct Hne as [->|Hne]; [reflexivity|].
  rewrite split_lines_join.
  - by apply events_parsed.
  - by destruct steps.
  - intros l Hl. apply list_elem_of_fmap in Hl as (s & -> & Hs). by apply Hline.
Qed.


End SaveLoad.


(** ** Compressed parents *)

Lemma compress_parents_elem (parents : list Layout.Node) (x : Layout.Node) :
  x ∈ Layout.compress_parents parents
  ↔ x ∈ parents
    ∧ ¬ ∃ a b, a ∈ parents ∧ b ∈ parents ∧ b.1 = x.1
               ∧ length (children b.2) = 1%nat ∧ a.1 = (b.1 ++ [0%nat])%list.
Proof.
  unfold Layout.compress_parents. rewrite list_elem_of_filter.
  split; intros [H1 H2].
  - split; [exact H2|]. intros (a & b & Ha & Hb & Hbx & Hlen & Hab).
    apply Is_true_true, negb_true_iff, bool_decide_eq_false in H1. apply H1.
    rewrite <- Hbx. apply list_elem_of_fmap_2, list_elem_of_In, in_flat_map.
    exists a. split; [by apply list_elem_of_In|]. apply list_elem_of_In, list_elem_of_filter.
    split; [|exact Hb]. apply Is_true_true.
    rewrite !andb_true_iff, negb_true_iff, bool_decide_eq_false,
      Nat.eqb_eq, bool_decide_eq_true.
    split; [split; [|done]|done]. intros Heq.
    pose proof (f_equal length Heq) as Hl1. pose proof (f_equal length Hab) as Hl2.
    rewrite length_app in Hl2. simpl in Hl1, Hl2. unfold path in *. lia.
  - split; [|exact H1]. apply Is_true_true, negb_true_iff, bool_decide_eq_false.
    intros Hin. apply H2. apply list_elem_of_fmap in Hin as (b & Hbx & Hb).
    apply list_elem_of_In, in_flat_map in Hb as (a & Ha & Hb).
    apply list_elem_of_In, list_elem_of_filter in Hb as [Hc Hb].
    apply Is_true_true in Hc.
    rewrite !andb_true_iff, Nat.eqb_eq, bool_decide_eq_true in Hc.
    destruct Hc as [[_ Hlen] Hab].
    exists a, b. repeat split; try done. by apply list_elem_of_In.
Qed.

(** X24. [compress_parents] keeps a parent unless it has exactly one
    child and that child is a parent too: a parent that is kept and has
    exactly one child has no parent as its child, a parent is kept when no
    parent at its path is such a wrapper, and below every parent, along
    first children, there is a parent that is kept. *)
Theorem compress_parents_spec (parents : list Layout.Node) :
  (∀ x, x ∈ Layout.compress_parents parents →
        x ∈ parents
        ∧ (length (children x.2) = 1%nat → (x.1 ++ [0%nat])%list ∉ parents.*1))
  ∧ (∀ x, x ∈ parents →
          (∀ b, b ∈ parents → b.1 = x.1 → length (children b.2) = 1%nat →
                (b.1 ++ [0%nat])%list ∉ parents.*1) →
          x ∈ Layout.compress_parents parents)
  ∧ (∀ x, x ∈ parents →
          ∃ y k, y ∈ Layout.compress_parents parents
                 ∧ y.1 = (x.1 ++ replicate k 0%nat)%list).
Proof.
  split; [|split].
  - intros x Hx. apply compress_parents_elem in Hx as [Hin Hnot]. split; [done|].
    intros Hlen Ha. apply list_elem_of_fmap in Ha as (a & Ha1 & Ha).
    apply Hnot. by exists a, x.
  - intros x Hx Hb. apply compress_parents_elem. split; [done|].
    intros (a & b & Ha & Hb' & Hbx & Hlen & Hab).
    apply (Hb b Hb' Hbx Hlen). unfold path in *. rewrite <- Hab. by apply list_elem_of_fmap_2.
  - set (bound := list_max (map (fun p : Layout.Node => length p.1) parents)).
    assert (Hbound : ∀ x, x ∈ parents → (length x.1 <= bound)%nat).
    { intros x Hx. subst bound.
      pose proof (proj1 (list_max_le (map (fun p : Layout.Node => length p.1) parents) _)
                    (le_n _)) as Hall.
      rewrite List.Forall_forall in Hall. apply Hall.
      apply (in_map (fun p : Layout.Node => length p.1) parents x). by apply list_elem_of_In. }
    assert (H' : ∀ n x, x ∈ parents → (bound - length x.1 <= n)%nat →
                 ∃ y k, y ∈ Layout.compress_parents parents
                        ∧ y.1 = (x.1 ++ replicate k 0%nat)%list).
    { induction n as [|n IH]; intros x Hx Hn.
      - exists x, 0%nat. split; [|by rewrite app_nil_r].
        apply compress_parents_elem. split; [done|].
        intros (a & b & Ha & _ & Hbx & _ & Hab).
        pose proof (Hbound a Ha) as Hla. unfold path in *.
        rewrite Hab, Hbx, length_app in Hla. simpl in Hla. lia.
      - destruct (decide ((x.1 ++ [0%nat])%list ∈ parents.*1)) as [Hin|Hout].
        + apply list_elem_of_fmap in Hin as (a & Ha1 & Ha).
          destruct (IH a Ha) as (y & k & Hy & Hy1).
          { unfold path in *. rewrite <- Ha1, length_app. simpl. lia. }
          exists y, (Datatypes.S k). split; [done|]. unfold path in *.
          rewrite Hy1, <- Ha1, <- app_assoc. reflexivity.
        + exists x, 0%nat. split; [|by rewrite app_nil_r].
          apply compress_parents_elem. split; [done|].
          intros (a & b & Ha & _ & Hbx & _ & Hab). apply Hout. unfold path in *.
          rewrite <- Hbx, <- Hab. by apply list_elem_of_fmap_2. }
    intros x Hx. by apply (H' (bound - length x.1)%nat).
Qed.

(** ** One candidate for each region *)

Lemma tuple_ltb_irrefl (a : list Z) : tuple_ltb a a = false.
Proof.
  induction a as [|x a IH]; [reflexivity|]. simpl.
  rewrite Z.ltb_irrefl, Z.eqb_refl, IH. reflexivity.
Qed.

Lemma tuple_ltb_trans (a b c : list Z) :
  tuple_ltb a b = true → tuple_ltb b c = true → tuple_ltb a c = true.
Proof.
  revert b c. induction a as [|x a IH]; intros [|y b] [|z c]; simpl; try done.
  rewrite !orb_true_iff, !andb_true_iff, !Z.ltb_lt, !Z.eqb_eq.
  intros [Hxy|[Hxy Hab]] [Hyz|[Hyz Hbc]]; [left; lia|left; lia|left; lia|].
  right. split; [lia|]. by apply (IH b c).
Qed.

(** No item of the list has a smaller key than its first item. *)
Lemma insert_by_elem {A : Type} (key : A -> list Z) (x y : A) (l : list A) :
  y ∈ insert_by key x l ↔ y = x ∨ y ∈ l.
Proof.
  induction l as [|z l IH]; simpl.
  - rewrite list_elem_of_singleton. split; [by left|]. intros [H|H]; [done|].
    by apply elem_of_nil in H.
  - destruct (tuple_ltb (key x) (key z)).
    + by rewrite elem_of_cons.
    + rewrite !elem_of_cons, IH. tauto.
Qed.

Lemma insert_by_head {A : Type} (key : A -> list Z) (x : A) (l : list A) :
  (∀ m r, l = m :: r → ∀ y, y ∈ l → tuple_ltb (key y) (key m) = false) →
  ∀ m r, insert_by key x l = m :: r →
         ∀ y, y ∈ insert_by key x l → tuple_ltb (key y) (key m) = false.
Proof.
  intros Hl m r. destruct l as [|z l]; simpl.
  - intros [= <- <-] y Hy. apply list_elem_of_singleton in Hy as ->.
    apply tuple_ltb_irrefl.
  - destruct (tuple_ltb (key x) (key z)) eqn:Hxz.
    + intros [= <- <-] y Hy. apply elem_of_cons in Hy as [->|Hy]; [apply tuple_ltb_irrefl|].
      destruct (tuple_ltb (key y) (key x)) eqn:Hyx; [|reflexivity].
      rewrite <- (Hl z l eq_refl y Hy). symmetry. by apply (tuple_ltb_trans _ (key x)).
    + intros [= <- <-] y Hy. apply elem_of_cons in Hy as [->|Hy]; [apply tuple_ltb_irrefl|].
      apply insert_by_elem in Hy as [->|Hy]; [exact Hxz|].
      apply (Hl z l eq_refl). by apply list_elem_of_further.
Qed.

Lemma sorted_head {A : Type} (key : A -> list Z) (l : list A) (m : A) (r : list A) :
  sorted key l = m :: r →
  m ∈ l ∧ ∀ y, y ∈ l → tuple_ltb (key y) (key m) = false.
Proof.
  unfold sorted.
  assert (H : ∀ acc,
             (∀ m r, acc = m :: r → ∀ y, y ∈ acc → tuple_ltb (key y) (key m) = false) →
             let s := foldl (fun acc x => insert_by key x acc) acc l in
             (∀ y, y ∈ s ↔ y ∈ acc ∨ y ∈ l)
             ∧ ∀ m r, s = m :: r → ∀ y, y ∈ s → tuple_ltb (key y) (key m) = false).
  { induction l as [|x l IH]; intros acc Hacc; simpl.
    - split; [|exact Hacc]. intros y. split; [by left|]. intros [H|H]; [done|].
      by apply elem_of_nil in H.
    - destruct (IH (insert_by key x acc) (insert_by_head key x acc Hacc)) as [H1 H2].
      split; [|exact H2]. intros y. rewrite H1, insert_by_elem, elem_of_cons. tauto. }
  destruct (H []) as [H1 H2]; [intros ? ? [=]|].
  intros Hs. split.
  - assert (Hm : m ∈ foldl (fun acc x => insert_by key x acc) [] l)
      by (rewrite Hs; apply list_elem_of_here).
    apply H1 in Hm as [Hm|Hm]; [by apply elem_of_nil in Hm | done].
  - intros y Hy. apply (H2 m r Hs). apply H1. by right.
Qed.

Lemma sorted_nil {A : Type} (key : A -> list Z) (l : list A) : sorted key l = [] → l = [].
Proof.
  unfold sorted. destruct l as [|x l]; [done|]. simpl.
  assert (H : ∀ acc, acc ≠ [] → foldl (fun acc x => insert_by key x acc) acc l ≠ []).
  { induction l as [|y l IH]; intros acc Hacc; simpl; [done|].
    apply IH. destruct acc as [|z acc]; simpl; [done|]. by destruct (tuple_ltb _ _). }
  intros Hs. exfalso. by apply (H [x]).
Qed.

Lemma chosen_spec (siblings : list Layout.Node) :
  siblings ≠ [] →
  ∃ m, chosen siblings = [m] ∧ m ∈ siblings
       ∧ ∀ y, y ∈ siblings → tuple_ltb (filter_key y.2) (filter_key m.2) = false.
Proof.
  intros Hne. unfold chosen.
  destruct (Nat.eqb_spec (length siblings) 1) as [Hone|Hmore].
  - destruct siblings as [|m [|m' r]]; try done. exists m. split; [done|].
    split; [apply list_elem_of_here|]. intros y Hy. apply list_elem_of_singleton in Hy as ->.
    apply tuple_ltb_irrefl.
  - destruct (sorted _ siblings) as [|m r] eqn:Hs.
    + by apply sorted_nil in Hs.
    + exists m. split; [done|].
      exact (sorted_head (fun n : Layout.Node => filter_key n.2) siblings m r Hs).
Qed.

Section Regions.

Variable non_overlap : list (path * path).

#[local] Abbreviation region := (region_of non_overlap).

Lemma group_fold (l pre result : list Layout.Node) (temp : list (path * list Layout.Node)) :
  result = filter (fun c => region c = None) pre →
  NoDup temp.*1 →
  (∀ r, dict_lookup r temp
        = match filter (fun c => region c = Some r) pre with
          | [] => None
          | g => Some g
          end) →
  let acc := foldl (group_step non_overlap) (result, temp) l in
  acc.1 = filter (fun c => region c = None) (pre ++ l)%list
  ∧ NoDup acc.2.*1
  ∧ ∀ r, dict_lookup r acc.2
         = match filter (fun c => region c = Some r) (pre ++ l)%list with
           | [] => None
           | g => Some g
           end.
Proof.
  revert pre result temp. induction l as [|c l IH]; intros pre result temp Hres Hnd Htemp.
  - simpl. by rewrite app_nil_r.
  - cbn [foldl]. replace (pre ++ c :: l)%list with ((pre ++ [c]) ++ l)%list
      by (rewrite <- app_assoc; reflexivity).
    cbv zeta.
    destruct (region c) as [r|] eqn:Hc.
    + replace (group_step non_overlap (result, temp) c)
        with (result, dict_set r (default [] (dict_lookup r temp) ++ [c])%list temp)
        by (unfold group_step, region_of in *; by rewrite Hc).
      apply IH.
      * rewrite filter_app, filter_cons_False, filter_nil, app_nil_r by (by rewrite Hc).
        exact Hres.
      * by apply dict_set_NoDup.
      * intros r'. rewrite dict_lookup_dict_set, filter_app, filter_cons, filter_nil.
        rewrite (Htemp r), (Htemp r'). rewrite Hc.
        destruct (decide (r' = r)) as [->|Hne].
        -- rewrite decide_True by done.
           destruct (filter (fun c => region c = Some r) pre) as [|y ys]; reflexivity.
        -- rewrite decide_False by congruence. by rewrite app_nil_r.
    + replace (group_step non_overlap (result, temp) c)
        with ((result ++ [c])%list, temp)
        by (unfold group_step, region_of in *; by rewrite Hc).
      apply IH.
      * rewrite filter_app, filter_cons_True, filter_nil by done. by rewrite Hres.
      * exact Hnd.
      * intros r'. rewrite filter_app, filter_cons_False, filter_nil, app_nil_r
          by (by rewrite Hc). apply Htemp.
Qed.

Lemma foldl_chosen (groups : list (list Layout.Node)) (result : list Layout.Node) :
  foldl (fun result siblings => (result ++ chosen siblings)%list) result groups
  = (result ++ flat_map chosen groups)%list.
Proof.
  revert result. induction groups as [|g groups IH]; intros result; simpl.
  - by rewrite app_nil_r.
  - by rewrite IH, app_assoc.
Qed.

Lemma filter_none {A : Type} (P : A -> Prop) `{∀ x, Decision (P x)} (l : list A) :
  (∀ x, x ∈ l → ¬ P x) → filter P l = [].
Proof.
  induction l as [|x l IH]; intros Hl; [reflexivity|].
  rewrite filter_cons_False by apply Hl, list_elem_of_here.
  apply IH. intros y Hy. by apply Hl, list_elem_of_further.
Qed.

Lemma chosen_elem (siblings : list Layout.Node) (m : Layout.Node) :
  m ∈ chosen siblings → m ∈ siblings.
Proof.
  destruct siblings as [|x siblings]; [intros H; by apply elem_of_nil in H|].
  destruct (chosen_spec (x :: siblings)) as (m' & -> & Hm' & _); [done|].
  intros H. by apply list_elem_of_singleton in H as ->.
Qed.

Lemma chosen_length (siblings : list Layout.Node) : (length (chosen siblings) <= 1)%nat.
Proof. unfold chosen. destruct (length siblings =? 1)%nat; rewrite length_take; lia. Qed.

Lemma chosen_regions (r : path) (temp : list (path * list Layout.Node)) :
  NoDup temp.*1 →
  (∀ k g m, (k, g) ∈ temp → m ∈ g → region m = Some k) →
  (length (filter (fun m => region m = Some r) (flat_map chosen temp.*2)) <= 1)%nat
  ∧ (r ∉ temp.*1 → filter (fun m => region m = Some r) (flat_map chosen temp.*2) = []).
Proof.
  induction temp as [|[k g] temp IH]; intros Hnd Hreg; [split; [simpl; lia | done]|].
  rewrite fmap_cons in Hnd. apply NoDup_cons in Hnd as [Hk Hnd]. cbn [fst] in Hk.
  destruct IH as [IH1 IH2]; [done| |].
  { intros k' g' m Hin. apply (Hreg k' g' m). by apply list_elem_of_further. }
  rewrite fmap_cons. cbn [flat_map snd]. rewrite filter_app, length_app.
  assert (Hother : r ≠ k → filter (fun m => region m = Some r) (chosen g) = []).
  { intros Hne. apply filter_none. intros m Hm Hr. apply chosen_elem in Hm.
    rewrite (Hreg k g m (list_elem_of_here _ _) Hm) in Hr. congruence. }
  split.
  - destruct (decide (r = k)) as [->|Hne].
    + rewrite (IH2 Hk). pose proof (length_filter (fun m => region m = Some k) (chosen g)).
      pose proof (chosen_length g). simpl. lia.
    + rewrite (Hother Hne). simpl. lia.
  - intros Hr. rewrite fmap_cons in Hr. apply not_elem_of_cons in Hr as [Hne Hr].
    by rewrite (Hother Hne), (IH2 Hr).
Qed.

(** X25. The filter of [optimize_filter_generator] returns candidates
    only, none of them a check box, an edit text or a switch. It keeps
    every such candidate that [non_overlap] does not list, and for every
    region of [non_overlap] that has such candidates it keeps exactly one of
    them, one whose key no candidate of the region undercuts. *)
Theorem optimize_filter_spec (candidates : list Layout.Node) :
  let result := optimize_filter_generator non_overlap candidates in
  let clickable (n : Layout.Node) := get_or n.2 "class" "" ∉ not_clickable_classes in
  (∀ m, m ∈ result → m ∈ candidates ∧ clickable m)
  ∧ (∀ c, c ∈ candidates → clickable c → region c = None → c ∈ result)
  ∧ (∀ c r, c ∈ candidates → clickable c → region c = Some r →
            ∃ m, m ∈ result ∧ region m = Some r
                 ∧ tuple_ltb (filter_key c.2) (filter_key m.2) = false)
  ∧ (∀ r, (length (filter (fun m => region m = Some r) result) <= 1)%nat).
Proof.
  intros result clickable. subst result. unfold optimize_filter_generator.
  set (cands := filter _ candidates).
  assert (Hcands : ∀ c, c ∈ cands ↔ c ∈ candidates ∧ clickable c).
  { intros c. subst cands. rewrite list_elem_of_filter. subst clickable. cbv beta. split.
    - intros [H1 H2]. split; [done|].
      by apply Is_true_true, negb_true_iff, bool_decide_eq_false in H1.
    - intros [H1 H2]. split; [|done].
      by apply Is_true_true, negb_true_iff, bool_decide_eq_false. }
  destruct (group_fold cands [] [] []) as (Hres & Hnd & Htemp);
    [done|apply NoDup_nil_2|done|].
  cbn [app] in Hres, Htemp.
  destruct (foldl (group_step non_overlap) ([], []) cands) as [result0 temp].
  cbn [fst snd] in Hres, Hnd, Htemp. rewrite foldl_chosen.
  assert (Hgroup : ∀ k g, (k, g) ∈ temp →
            g = filter (fun c => region c = Some k) cands ∧ g ≠ []).
  { intros k g Hin. apply (dict_lookup_elem _ _ _ Hnd) in Hin. rewrite Htemp in Hin.
    revert Hin. destruct (filter (fun c => region c = Some k) cands) as [|y ys];
      intros Hin; [discriminate Hin|].
    by injection Hin as <-. }
  assert (Hreg : ∀ k g m, (k, g) ∈ temp → m ∈ g → region m = Some k).
  { intros k g m Hin Hm. destruct (Hgroup k g Hin) as [-> _].
    by apply list_elem_of_filter in Hm as [Hm _]. }
  split; [|split; [|split]].
  - intros m Hm. apply Hcands. apply elem_of_app in Hm as [Hm|Hm].
    + rewrite Hres in Hm. by apply list_elem_of_filter in Hm as [_ Hm].
    + apply list_elem_of_In, in_flat_map in Hm as (g & Hg & Hm).
      apply list_elem_of_In, list_elem_of_fmap in Hg as ([k g'] & -> & Hin).
      apply list_elem_of_In, chosen_elem in Hm. destruct (Hgroup k g' Hin) as [Hg _].
      cbn [snd] in Hm. rewrite Hg in Hm. by apply list_elem_of_filter in Hm as [_ Hm].
  - intros c Hc Hclick Hnone. apply elem_of_app. left. rewrite Hres.
    apply list_elem_of_filter. split; [done|]. by apply Hcands.
  - intros c r Hc Hclick Hr.
    assert (Hin : c ∈ filter (fun c => region c = Some r) cands).
    { apply list_elem_of_filter. split; [done|]. by apply Hcands. }
    specialize (Htemp r).
    destruct (filter (fun c => region c = Some r) cands) as [|y ys] eqn:Hf;
      [by apply elem_of_nil in Hin|].
    apply (dict_lookup_elem _ _ _ Hnd) in Htemp.
    destruct (chosen_spec (y :: ys)) as (m & Hm & Hmin & Hleast); [done|].
    exists m. split; [|split].
    + apply elem_of_app. right. apply list_elem_of_In, in_flat_map. exists (y :: ys).
      split; [|rewrite Hm; apply in_eq].
      apply list_elem_of_In. by apply (list_elem_of_fmap_2 snd _ (r, y :: ys)).
    + by apply (Hreg r (y :: ys)).
    + by apply Hleast.
  - intros r. rewrite filter_app, length_app.
    destruct (chosen_regions r temp Hnd Hreg) as [Hle _].
    replace (filter (fun m => region m = Some r) result0) with (@nil Layout.Node); [simpl; lia|].
    symmetry. apply filter_none. intros m Hm Hr. rewrite Hres in Hm.
    apply list_elem_of_filter in Hm as [Hm _]. congruence.
Qed.

End Regions.

(** ** What preprocessing leaves alone *)

Lemma index_child_frame (cs : list (string * gmap string nat)) (e : Element) (k : string) :
  cs.*1 = index_attrs → k ∉ denoted_attrs →
  attrib (index_child cs e).2 !! k = attrib e !! k.
Proof.
  intros Hcs Hk. unfold index_child.
  destruct (PyStr.startswith _ _); [reflexivity|].
  destruct cs as [|[k1 c1] [|[k2 c2] [|[k3 c3] [|[k4 c4] [|]]]]]; try discriminate.
  injection Hcs as -> -> -> ->.
  rewrite !index_step_eq. cbn [fst snd]. rewrite !index_step_eq. cbn [fst snd].
  rewrite !index_step_eq. cbn [fst snd]. rewrite !index_step_eq. cbn [fst snd set_attr attrib].
  rewrite !lookup_insert_ne; [reflexivity|..]; intros <-; apply Hk; unfold denoted_attrs;
    repeat first [apply list_elem_of_here | apply list_elem_of_further].
Qed.

Lemma bounds_update_frame (e : Element) (k : string) :
  k ∉ denoted_attrs → attrib (bounds_update e) !! k = attrib e !! k.
Proof.
  intros Hk. unfold bounds_update. cbn [attrib].
  rewrite !lookup_insert_ne; [reflexivity|..]; intros <-; apply Hk; unfold denoted_attrs;
    repeat first [apply list_elem_of_here | apply list_elem_of_further].
Qed.

Lemma denote_frame (e : Element) :
  ∀ cs, cs.*1 = index_attrs →
        same_but denoted_attrs e (denote_bounds (denote_index_from cs e).2).
Proof.
  induction e as [t a ch IH] using Element_forall_ind. intros cs Hcs.
  cbn [denote_index_from tag children].
  set (e := mkElement t a ch).
  assert (Hself : ∃ cs1 e1,
            (if bool_decide (t = "node") then index_child cs e else (cs, e)) = (cs1, e1)
            ∧ cs1.*1 = index_attrs ∧ tag e1 = t
            ∧ (∀ k, k ∉ denoted_attrs → attrib e1 !! k = a !! k)
            ∧ (t ≠ "node" → attrib e1 = a)).
  { case_bool_decide as Ht.
    - destruct (index_child_spec cs e Hcs) as (H1 & _ & H3 & _).
      pose proof (index_child_frame cs e) as Hframe.
      destruct (index_child cs e) as [cs1 e1]. exists cs1, e1. simpl in *.
      split; [done|]. split; [done|]. split; [done|]. split; [|done].
      intros k Hk. by apply Hframe.
    - exists cs, e. done. }
  destruct Hself as (cs1 & e1 & -> & Hcs1 & Ht1 & Hattr & Hother).
  destruct (map_accum denote_index_from cs1 ch) as [cs2 ch'] eqn:Hch.
  cbn [snd denote_bounds tag attrib children].
  constructor; cbn [tag attrib children].
  - rewrite Ht1. by destruct (bool_decide (t = "node")).
  - intros k Hk. rewrite Ht1. case_bool_decide as Ht.
    + rewrite bounds_update_frame by done. cbn [attrib]. by apply Hattr.
    + cbn [attrib]. by apply Hattr.
  - intros Ht. rewrite Ht1. rewrite bool_decide_eq_false_2 by done. cbn [attrib].
    by apply Hother.
  - subst e. cbn [children]. clear Hattr Hother Ht1 e1. revert cs1 cs2 ch' Hcs1 Hch.
    induction IH as [|c r Hc _ IHr]; intros cs1 cs2 ch' Hcs1 Hch.
    + simpl in Hch. injection Hch as <- <-. constructor.
    + simpl in Hch.
      destruct (denote_index_from_spec c cs1 Hcs1) as [Hcs' _].
      pose proof (Hc cs1 Hcs1) as Hsame.
      destruct (denote_index_from cs1 c) as [cs' c'].
      destruct (map_accum denote_index_from cs' r) as [cs'' r'] eqn:Hr.
      injection Hch as <- <-. cbn [map]. constructor; [exact Hsame|].
      by apply (IHr cs' cs'').
Qed.

(** X26. [preprocess] changes nothing but what it is to change. The
    tree that it gives has the shape and the tags of the given tree without
    the children of a [hierarchy] root whose package is
    [com.android.systemui]; every element keeps all its attributes other
    than the four index attributes and [x], [y], [w], [h], and an element
    whose tag is not [node] keeps all its attributes. When the root is not a
    [hierarchy], nothing is removed; when it is, no child of the
    preprocessed root is of that package. *)
Theorem preprocess_frame (root : Element) :
  same_but denoted_attrs (remove_node is_systemui root) (preprocess root)
  ∧ (tag root ≠ "hierarchy" → remove_node is_systemui root = root)
  ∧ (tag root = "hierarchy" →
     children (remove_node is_systemui root)
     = filter (fun c => negb (is_systemui c)) (children root)
     ∧ ∀ c, c ∈ children (preprocess root) → is_systemui c = false).
Proof.
  pose proof (denote_frame (remove_node is_systemui root) counters0 eq_refl) as Hsame.
  split; [exact Hsame|]. split.
  - intros Ht. unfold remove_node. by rewrite bool_decide_eq_false_2.
  - intros Ht.
    assert (Hch : children (remove_node is_systemui root)
                  = filter (fun c => negb (is_systemui c)) (children root)).
    { unfold remove_node. by rewrite bool_decide_eq_true_2. }
    split; [exact Hch|]. intros c Hc.
    inversion Hsame as [e e' _ _ _ Hall He He']. subst e e'.
    fold (preprocess root) in Hall. rewrite Hch in Hall.
    apply list_elem_of_lookup in Hc as [i Hi].
    destruct (Forall2_lookup_r _ _ _ _ _ Hall Hi) as (c0 & Hc0 & Hcc).
    apply list_elem_of_lookup_2, list_elem_of_filter in Hc0 as [Hkeep _].
    apply Is_true_true, negb_true_iff in Hkeep.
    inversion Hcc as [e e' _ Hattr _ _ He He']. subst e e'.
    unfold is_systemui, get in *. rewrite Hattr; [exact Hkeep|].
    unfold denoted_attrs. intros Hin.
    repeat (apply elem_of_cons in Hin as [Hin|Hin]; [discriminate Hin|]).
    by apply elem_of_nil in Hin.
Qed.

(** ** A record with generated assertions is loaded back *)

Lemma generate_assertion_filter (retry_ask : Z -> Ui -> list Candidate) (steps : list Step)
    (events : list Event) :
  generate_assertion retry_ask steps = Ok events →
  (∀ s, s ∈ steps → is_generated (event s) = false) →
  filter (fun e => negb (is_generated e)) events = map event steps.
Proof.
  unfold generate_assertion. generalize (get_target_indices steps) as T. intros T.
  match goal with |- (?f 0 steps = _) → _ => set (go := f) end.
  generalize 0 as i. revert events.
  induction steps as [|s steps IH]; intros events i H Hgen.
  - simpl in H. by injection H as <-.
  - cbn [go] in H. fold go in H.
    apply bind_raises_Ok in H as (added & Hadded & H).
    apply bind_raises_Ok in H as (rest & Hrest & [= <-]).
    assert (Hadd : filter (fun e => negb (is_generated e)) added = []).
    { destruct (bool_decide (i ∈ T)); [|by injection Hadded as <-].
      apply bind_raises_Ok in Hadded as (c & _ & Hadded).
      apply bind_raises_Ok in Hadded as ([e|] & He & [= <-]); [|done].
      apply to_assertion_event in He as [_ Hp].
      rewrite filter_cons_False; [done|].
      unfold is_generated. rewrite Hp. simpl. by intros []. }
    cbn [map]. rewrite filter_cons_True
      by (rewrite (Hgen s) by apply list_elem_of_here; done).
    rewrite filter_app, Hadd. cbn [app]. f_equal.
    apply (IH rest (i + 1) Hrest). intros s' Hs'. by apply Hgen, list_elem_of_further.
Qed.

Section SaveGenerate.

Variable utf8_encode : string -> list Byte.byte.
Variable utf8_decode : list Byte.byte -> option string.
Variable json_dumps : JValue -> string.
Variable json_loads : string -> raises JValue.
Variable draw_element : list Byte.byte -> string -> option Locator -> list Byte.byte.
Variable log : string.
Variable retry_ask : Z -> Ui -> list Candidate.

Hypothesis decode_encode : ∀ s, utf8_decode (utf8_encode s) = Some s.

#[local] Abbreviation dumped := (to_json json_dumps).
#[local] Abbreviation archive := (opened utf8_decode).

Lemma save_to_zip_members (pretest : option string) (steps : list Step) :
  let zf := save_to_zip utf8_encode json_dumps draw_element log pretest false steps in
  zf !! "pretest.py" ≫= utf8_decode = pretest
  ∧ zf !! "record_with_assertion.txt" = None
  ∧ ∀ j s, steps !! j = Some s → stored utf8_encode zf (0 + Z.of_nat j) s.
Proof.
  destruct (save_steps_stored utf8_encode draw_element steps ∅ 0 ltac:(lia))
    as [Hstored Hframe].
  cbv zeta in Hstored, Hframe. unfold save_to_zip.
  set (zf0 := (foldl (save_step utf8_encode draw_element false) (∅, 0) steps).1) in *.
  set (content := join nl _).
  set (zf := writestr utf8_encode "gsrb.debug.log" log _). cbv zeta.
  assert (Hother : ∀ name r c, name = String c r → c ≠ "u"%char →
            name ≠ "record.txt" → name ≠ "pretest.py" → name ≠ "gsrb.debug.log" →
            zf !! name = None).
  { intros name r c Hname Hc H1 H2 H3. subst zf. unfold writestr.
    rewrite lookup_insert_ne by done.
    destruct pretest as [p|]; [rewrite lookup_insert_ne by done|];
      rewrite lookup_insert_ne by done; rewrite Hframe;
      try (by rewrite lookup_empty); intros k e _ _; by eapply not_ui_name. }
  split; [|split].
  - destruct pretest as [p|].
    + subst zf. unfold writestr. rewrite lookup_insert_ne by done.
      rewrite lookup_insert_eq. apply decode_encode.
    + subst zf. unfold writestr. rewrite !lookup_insert_ne by done. rewrite Hframe.
      * by rewrite lookup_empty.
      * intros k e _ _. by eapply not_ui_name.
  - by eapply Hother.
  - intros j s Hj. destruct (Hstored j s Hj) as (H1 & H2 & H3 & H4).
    assert (Hui : ∀ k e, zf !! ui_name k e = zf0 !! ui_name k e).
    { intros k e. subst zf. unfold writestr.
      rewrite lookup_insert_ne by (by eapply not_ui_name).
      destruct pretest as [p|];
        [rewrite lookup_insert_ne by (by eapply not_ui_name)|];
        by rewrite lookup_insert_ne by (by eapply not_ui_name). }
    unfold stored. rewrite !Hui. done.
Qed.

Lemma load_steps_generated (zf : ZipFile) (events : list Event) :
  ∀ (i : Z) (steps : list Step),
  (∀ j s, steps !! j = Some s → stored utf8_encode zf (i + Z.of_nat j) s) →
  filter (fun e => negb (is_generated e)) events = map event steps →
  ∃ loaded,
    load_steps (archive zf) i events = Ok loaded
    ∧ map event loaded = events
    ∧ filter (fun s => negb (is_generated (event s))) loaded = steps
    ∧ ∀ s, s ∈ loaded → is_generated (event s) = true →
           ui_before s = Ui0 ∧ ui_after s = Ui0.
Proof.
  induction events as [|e events IH]; intros i steps Hstored Hfilter.
  - destruct steps as [|s0 steps0]; [|discriminate]. exists [].
    split; [done|]. split; [done|]. split; [done|]. intros s Hs. by apply elem_of_nil in Hs.
  - cbn [load_steps]. rewrite filter_cons in Hfilter.
    destruct (is_generated e) eqn:Hgen; cbn [negb] in Hfilter.
    + rewrite decide_False in Hfilter by (by intros []).
      destruct (IH i steps Hstored Hfilter) as (loaded & -> & Hev & Hf & Hui).
      exists (mkStep e Ui0 Ui0 :: loaded). cbn [bind_raises map event].
      split; [done|]. split; [by rewrite Hev|]. split.
      * rewrite filter_cons_False; [done|]. cbn [event]. rewrite Hgen. by intros [].
      * intros s Hs Hg. apply elem_of_cons in Hs as [->|Hs]; [done|]. by apply Hui.
    + rewrite decide_True in Hfilter by done.
      destruct steps as [|s steps]; [discriminate|]. injection Hfilter as He Hfilter.
      destruct (Hstored 0%nat s eq_refl) as (H1 & H2 & H3 & H4).
      replace (i + Z.of_nat 0) with i in * by lia.
      destruct (IH (i + 1) steps) as (loaded & Hload & Hev & Hf & Hui); [|done|].
      { intros j s' Hj.
        replace (i + 1 + Z.of_nat j) with (i + Z.of_nat (Datatypes.S j)) by lia.
        by apply Hstored. }
      exists (s :: loaded).
      unfold load_ui, archive, opened. cbn [read_text read_bytes].
      fold (ui_name (i * 2) ".xml") (ui_name (i * 2) ".png")
           (ui_name (i * 2 + 1) ".xml") (ui_name (i * 2 + 1) ".png").
      rewrite H1, H2, H3, H4. cbn [mbind option_bind]. rewrite !decode_encode.
      cbn [reading bind_raises fst snd].
      fold (opened utf8_decode zf). rewrite Hload. cbn [bind_raises].
      split; [|split; [|split]].
      * subst e. destruct s as [e' [bx bp] [ax ap]]. reflexivity.
      * cbn [map]. by rewrite Hev, He.
      * rewrite filter_cons_True; [by rewrite Hf|]. rewrite <- He, Hgen. done.
      * intros s' Hs' Hg. apply elem_of_cons in Hs' as [->|Hs']; [|by apply Hui].
        rewrite <- He, Hgen in Hg. discriminate.
Qed.

Lemma events_of_lines (events : list Event) :
  (∀ e, e ∈ events → json_loads (dumped e) = Ok (JDict (Event.to_dict e))) →
  (∀ e, e ∈ events → one_line (dumped e)) →
  map_raises (event_from_json json_loads)
    (filter (fun x => negb (String.length (PyStr.strip x) =? 0)%nat)
            (split_lines (join nl (map dumped events))))
  = Ok events.
Proof.
  intros Hjson Hline.
  pose proof (events_read json_dumps json_loads
                (map (fun e => mkStep e Ui0 Ui0) events)) as H.
  rewrite !map_map in H. cbn [event] in H. rewrite map_id in H. apply H.
  - intros s Hs. apply list_elem_of_fmap in Hs as (e & -> & He). by apply Hjson.
  - intros s Hs. apply list_elem_of_fmap in Hs as (e & -> & He). by apply Hline.
Qed.


End SaveGenerate.


(** ** Key points inside a preprocessed node *)

Lemma int_attr0_denoted (e : Element) (k : string) (z : Z) :
  int_attr e k = Some z → int_attr0 e k = z.
Proof.
  unfold int_attr, int_attr0, get_or. destruct (get e k) as [s|]; [|discriminate].
  simpl. by intros ->.
Qed.

(** X28. On every [node] element of a preprocessed tree, [is_in_bound]
    holds for a key point exactly when the point lies strictly inside the
    rectangle of the [bounds] of the element. *)
Theorem is_in_bound_preprocessed (root : Element) :
  Forall (fun e =>
            ∀ px py : Q,
              is_in_bound (px, py) e = true
              ↔ (inject_Z (x0 (coordinates e)) < px ∧ px < inject_Z (x1 (coordinates e))
                 ∧ inject_Z (y0 (coordinates e)) < py
                 ∧ py < inject_Z (y1 (coordinates e)))%Q)
         (iter_node (preprocess root)).
Proof.
  assert (Hsize : Forall size_denoted (iter_node (preprocess root))).
  { unfold preprocess.
    apply denote_bounds_Forall with (Q := fun _ => True).
    - intros e e' Heq H.
      unfold size_denoted, coordinates, int_attr, get_or, get in *. by rewrite <- Heq.
    - intros e _. apply size_denoted_bounds_update.
    - apply Forall_forall. done. }
  eapply Forall_impl; [exact Hsize|]. intros e (Hx & Hy & Hw & Hh & _) px py.
  unfold is_in_bound.
  rewrite (int_attr0_denoted e "x" _ Hx), (int_attr0_denoted e "y" _ Hy),
    (int_attr0_denoted e "w" _ Hw), (int_attr0_denoted e "h" _ Hh).
  replace (x0 (coordinates e) + (x1 (coordinates e) - x0 (coordinates e)))
    with (x1 (coordinates e)) by lia.
  replace (y0 (coordinates e) + (y1 (coordinates e) - y0 (coordinates e)))
    with (y1 (coordinates e)) by lia.
  rewrite !andb_true_iff, !negb_true_iff.
  assert (Hlt : ∀ a b : Q, Qle_bool a b = false ↔ (b < a)%Q).
  { intros a b. rewrite <- not_true_iff_false, Qle_bool_iff. split.
    - apply Qnot_le_lt.
    - apply Qlt_not_le. }
  rewrite !Hlt. tauto.
Qed.

(** ** The parent of an element *)

Lemma iter_node_at_go_complete (q : path) (cs : list Element) (j : nat) (x : path * Element) :
  (∃ i c, cs !! i = Some c ∧ x ∈ iter_node_at (q ++ [(j + i)%nat])%list c) →
  x ∈ (fix go (i : nat) (cs : list Element) : list (path * Element) :=
         match cs with
         | [] => []
         | c :: r => (iter_node_at (q ++ [i]) c ++ go (Datatypes.S i) r)%list
         end) j cs.
Proof.
  revert j. induction cs as [|c cs IH]; intros j (i & c' & Hi & Hx).
  - by rewrite lookup_nil in Hi.
  - apply elem_of_app. destruct i as [|i]; simpl in Hi.
    + injection Hi as <-. left. by rewrite Nat.add_0_r in Hx.
    + right. apply IH. exists i, c'. split; [done|].
      by replace (Datatypes.S j + i)%nat with (j + Datatypes.S i)%nat by lia.
Qed.

Lemma iter_node_at_complete (root : Element) (q p : path) (e : Element) :
  node_at root p = Some e → tag e = "node" → ((q ++ p)%list, e) ∈ iter_node_at q root.
Proof.
  revert root q. induction p as [|i p IH]; intros root q Hp Ht.
  - simpl in Hp. injection Hp as ->. rewrite app_nil_r.
    destruct e as [t a cs]. simpl in *. subst t. apply elem_of_app. left.
    rewrite bool_decide_eq_true_2 by done. apply list_elem_of_here.
  - simpl in Hp. destruct (children root !! i) as [c|] eqn:Hc; [|discriminate].
    simpl in Hp. destruct root as [t a cs]. simpl in *.
    apply elem_of_app. right. apply iter_node_at_go_complete.
    exists i, c. split; [done|]. simpl.
    replace (q ++ i :: p)%list with ((q ++ [i]) ++ p)%list
      by (rewrite <- app_assoc; reflexivity).
    by apply IH.
Qed.

(** X29. The dictionary [cp] of a layout maps an element to its parent,
    for exactly the elements whose parent is a [node] element: the path [p]
    has the entry [q] if and only if [q] is the path of a [node] element of
    the tree and [p] is the path of one of its children. So the elements
    directly below the [hierarchy] root have no entry. *)
Theorem child_parent_spec (root : Element) (p q : path) :
  Layout.child_parent root !! p = Some q
  ↔ ∃ i e, p = (q ++ [i])%list ∧ node_at root q = Some e ∧ tag e = "node"
           ∧ is_Some (children e !! i).
Proof.
  unfold Layout.child_parent. split.
  - intros H. apply elem_of_list_to_map_2 in H.
    apply list_elem_of_In, in_flat_map in H as ([q0 e0] & Hq0 & H).
    apply list_elem_of_In in H, Hq0. simpl in H.
    apply elem_of_lookup_imap in H as (i & c & [= -> ->] & Hc).
    apply iter_node_at_node in Hq0 as [Hnode Htag].
    exists i, e0. by rewrite Hc.
  - intros (i & e & -> & Hnode & Htag & [c Hc]).
    set (l := flat_map _ _).
    assert (Hin : ((q ++ [i])%list, q) ∈ l).
    { subst l. apply list_elem_of_In, in_flat_map. exists (q, e). split.
      - apply list_elem_of_In. by apply (iter_node_at_complete root [] q e).
      - apply list_elem_of_In. simpl. apply elem_of_lookup_imap. by exists i, c. }
    match goal with |- ?x = Some q => destruct x as [q'|] eqn:Hl end.
    + apply elem_of_list_to_map_2 in Hl. subst l.
      apply list_elem_of_In, in_flat_map in Hl as ([q0 e0] & _ & Hl).
      apply list_elem_of_In in Hl. simpl in Hl.
      apply elem_of_lookup_imap in Hl as (i' & c' & Heq & _).
      injection Heq as Heq ->. apply app_inj_tail in Heq as [-> _]. done.
    + apply not_elem_of_list_to_map_2 in Hl. exfalso. apply Hl.
      by apply (list_elem_of_fmap_2 fst _ (_, q)).
Qed.

(** ** Performing an event *)

Section PerformingSpec.

Variable World : Type.
Variable UiObject : Type.
Variable press : string -> World -> World.
Variable swipe : JValue -> JValue -> JValue -> JValue -> World -> World.
Variable find : list (string * string) -> Z -> UiObject.
Variable click : UiObject -> World -> option World.
Variable long_click : UiObject -> World -> option World.
Variable set_text : JValue -> UiObject -> World -> option World.
Variable exists_ : UiObject -> World -> bool.
Variable info : UiObject -> World -> option jdict.
Variable py_eq : JValue -> JValue -> bool.

#[local] Abbreviation action_perform :=
  (Action_perform World UiObject press swipe click long_click set_text exists_ info py_eq).
#[local] Abbreviation event_perform :=
  (Event_perform World UiObject press swipe find click long_click set_text exists_ info
                 py_eq).

Ltac branches :=
  repeat match goal with
         | |- context [match ?x with _ => _ end] =>
             lazymatch x with
             | context [match _ with _ => _ end] => fail
             | _ => destruct x eqn:?
             end
         end.

Lemma action_perform_raises (a : Action) (o : option UiObject) (parameter : jdict)
    (w : World) (x : exn) :
  action_perform a o parameter w = Raises x →
  x = ValueError ∨ x = AssertionError
  ∨ ((x = KeyError ∨ x = TypeError) ∧ a ∈ [SET_TEXT; EQUAL; NOT_EQUAL; SWIPE]).
Proof.
  assert (Hitem : ∀ d k e, item d k = Raised e → e = KeyError).
  { intros d k e. unfold item. destruct (dict_get k d); [discriminate|]. by intros [= <-]. }
  assert (Hin : ∀ b : Action, b ∈ [SET_TEXT; EQUAL; NOT_EQUAL; SWIPE] →
            x = KeyError ∨ x = TypeError →
            x = ValueError ∨ x = AssertionError
            ∨ ((x = KeyError ∨ x = TypeError) ∧ b ∈ [SET_TEXT; EQUAL; NOT_EQUAL; SWIPE]))
    by (intros; right; right; done).
  assert (Hinfo : ∀ equal ob, assert_info World UiObject info py_eq equal ob parameter w
                              = Raises x →
                  x = AssertionError ∨ x = KeyError ∨ x = TypeError).
  { intros equal ob. unfold assert_info.
    branches; intros [= Hx]; rewrite <- Hx;
      first [by left | by (right; left) | by (right; right) | right; left; by eapply Hitem]. }
  unfold Action_perform. destruct o as [ob|]; destruct a; try (intros [= <-]; by left).
  all: try (unfold called; branches; intros [= <-]).
  all: try (right; by left).
  all: try (intros H; apply Hinfo in H as [->|H]; [right; by left|];
            apply Hin; [|done]; set_solver).
  all: apply Hin; [set_solver|]; left; by eapply Hitem.
Qed.

(** X30. [Event.perform] returns [False] and makes no call on the device
    when the event has an action that needs an object and no locator, or
    has a locator and the action [BACK] or [SWIPE]. The only exceptions
    that escape it are [KeyError] and [TypeError], from a parameter or an
    attribute that is missing, and only for the actions [SET_TEXT],
    [EQUAL], [NOT_EQUAL] and [SWIPE]. On an event that the recorder made it
    raises nothing unless the action is [EQUAL] or [NOT_EQUAL], and the
    events recorded for [press("back")] and [swipe] make the device call
    that was recorded. *)
Theorem event_perform_spec (e : Event) (w : World) :
  (locator e = None → action e ∉ [BACK; SWIPE] → event_perform e w = (Ok false, w))
  ∧ (is_Some (locator e) → action e ∈ [BACK; SWIPE] → event_perform e w = (Ok false, w))
  ∧ (∀ x w', event_perform e w = (Raised x, w') →
             (x = KeyError ∨ x = TypeError) ∧ w' = w
             ∧ action e ∈ [SET_TEXT; EQUAL; NOT_EQUAL; SWIPE])
  ∧ (recorded e → action e ∉ [EQUAL; NOT_EQUAL] → ∃ b w', event_perform e w = (Ok b, w'))
  ∧ (e = mkEvent BACK None [] → event_perform e w = (Ok true, press "back" w))
  ∧ (∀ fx fy tx ty,
       e = mkEvent SWIPE None
                   [("fx", JInt fx); ("fy", JInt fy); ("tx", JInt tx); ("ty", JInt ty)] →
       event_perform e w = (Ok true, swipe (JInt fx) (JInt fy) (JInt tx) (JInt ty) w)).
Proof.
  split; [|split; [|split; [|split; [|split]]]].
  - intros Hl Ha. unfold Event_perform. rewrite Hl.
    destruct (action e); try reflexivity; exfalso; apply Ha; set_solver.
  - intros [l Hl] Ha. unfold Event_perform. rewrite Hl.
    destruct (action e); try reflexivity; exfalso; set_solver.
  - intros x w' H. unfold Event_perform in H.
    destruct (action_perform _ _ _ _) as [w1|x1|] eqn:Hp; [discriminate| |discriminate].
    apply action_perform_raises in Hp.
    destruct x1; try discriminate; injection H as <- <-;
      destruct Hp as [Hp|[Hp|[Hp Ha]]]; try discriminate; done.
  - intros Hrec Ha. unfold Event_perform.
    destruct Hrec.
    all: cbn [locator action parameter] in *.
    all: try (exfalso; apply Ha;
              repeat first [apply list_elem_of_here | apply list_elem_of_further]; fail).
    all: cbn [Action_perform item dict_get String.eqb Ascii.eqb Bool.eqb called].
    all: unfold called; branches; by eexists _, _.
  - intros ->. reflexivity.
  - intros fx fy tx ty ->. reflexivity.
Qed.

End PerformingSpec.
